(** * NvTriStrip: a shallow embedding of the stripifier and its properties

    The development follows the C++ sources file by file:
    - [VertexCache.h]          -> [Module VertexCache]
    - [NvTriStripObjects.h]    -> [Module NvFaceInfo], [Module NvEdgeInfo],
                                  [Module NvStripInfo]
    - [NvTriStripObjects.cpp]  -> the functions of [NvStripifier]
    - [NvTriStrip.cpp]         -> [GenerateStrips], [RemapIndices]

    Conventions.  C++ [int] values are [Z]; [std::vector] is [list] read with
    [vec_at] (an access outside the vector is undefined behaviour in C++ and
    is a [Fault OutOfBounds] here); objects created with [new] live in an
    arena and a pointer is an index into it ([None] is [nullptr]).  The
    [assert]s of the sources are compiled out in the default (Release) build
    and have no effect in the model; [delete] is not modelled.  [float] is
    IEEE-754 binary32, taken from [SpecFloat] with [prec = 24], [emax = 128]. *)

From Stdlib Require Import ZArith Lia Bool SpecFloat.
From stdpp Require Import base numbers option list.

Local Open Scope Z_scope.

(* ===================================================================== *)
(** * Part I: the program                                                 *)
(* ===================================================================== *)

(** ** Faults and vectors *)

Inductive fault : Type := OutOfBounds | NullPointer | Undefined | OutOfFuel.

Inductive res (A : Type) : Type :=
| Ok (a : A)
| Fault (f : fault).
Arguments Ok {A} a.
Arguments Fault {A} f.

#[global] Instance res_ret : MRet res := fun A a => Ok a.
#[global] Instance res_bind : MBind res :=
  fun A B k m => match m with Ok a => k a | Fault f => Fault f end.

Definition vec_at {A : Type} (v : list A) (i : Z) : res A :=
  if i <? 0 then Fault OutOfBounds
  else match v !! Z.to_nat i with
       | Some x => Ok x
       | None => Fault OutOfBounds
       end.

Definition vec_set {A : Type} (v : list A) (i : Z) (x : A) : res (list A) :=
  if (0 <=? i) && (i <? Z.of_nat (length v))
  then Ok (<[Z.to_nat i := x]> v)
  else Fault OutOfBounds.

Definition vec_size {A : Type} (v : list A) : Z := Z.of_nat (length v).

(** Two's-complement reading of a 32-bit pattern. *)
Definition wrap_int (z : Z) : Z := (z + 2 ^ 31) mod 2 ^ 32 - 2 ^ 31.

(** Little-endian bytes of an [int]. *)
Definition int_of_bytes (bs : list Z) : Z :=
  wrap_int (fold_right (fun b acc => b + 256 * acc) 0 bs).

(** ** VertexCache.h *)

Module VertexCache.

(** The private pair [(entries, numEntries)]: the array always has
    [numEntries] elements, so the cache is the list of its slots. *)
Abbreviation t := (list Z) (only parsing).

Definition numEntries (c : t) : Z := vec_size c.

Definition new (size : Z) : t := replicate (Z.to_nat size) (-1).

Fixpoint InCache (c : t) (entry : Z) : bool :=
  match c with
  | [] => false
  | e :: rest => if e =? entry then true else InCache rest entry
  end.

(** [for (i = n - 1; i >= 0; i--) entries[i + 1] = entries[i];] *)
Fixpoint push_right (n : nat) (c : t) : res t :=
  match n with
  | O => Ok c
  | S i =>
      e ← vec_at c (Z.of_nat i);
      c' ← vec_set c (Z.of_nat i + 1) e;
      push_right i c'
  end.

Definition AddEntry (c : t) (entry : Z) : res (Z * t) :=
  removed ← vec_at c (numEntries c - 1);
  c1 ← push_right (Z.to_nat (numEntries c - 1)) c;
  c2 ← vec_set c1 0 entry;
  Ok (removed, c2).

(** [memset(entries, -1, sizeof(int) * numEntries)]: every byte is 0xFF. *)
Definition Clear (c : t) : t :=
  map (fun _ => int_of_bytes (replicate 4 255)) c.

Definition At (c : t) (index : Z) : res Z := vec_at c index.
Definition Set_ (c : t) (index : Z) (value : Z) : res t := vec_set c index value.

End VertexCache.

(** ** NvTriStripObjects.h *)

(** A pointer is an index into the arena of its kind. *)
Abbreviation ptr := nat (only parsing).

Module NvFaceInfo.
Record t : Type := mk {
  m_v0 : Z; m_v1 : Z; m_v2 : Z;
  m_stripId : Z;
  m_testStripId : Z;
  m_experimentId : Z
}.
Definition new (v0 v1 v2 : Z) : t := mk v0 v1 v2 (-1) (-1) (-1).
End NvFaceInfo.

Module NvEdgeInfo.
Record t : Type := mk {
  m_face0 : option ptr; m_face1 : option ptr;
  m_v0 : Z; m_v1 : Z;
  m_nextV0 : option ptr; m_nextV1 : option ptr
}.
Definition new (v0 v1 : Z) : t := mk None None v0 v1 None None.
End NvEdgeInfo.

(** ** Cache bookkeeping of the splitter (NvTriStripObjects.cpp) *)

Definition cache_touch (vcache : VertexCache.t) (v : Z) : res VertexCache.t :=
  if negb (VertexCache.InCache vcache v)
  then '(_, c) ← VertexCache.AddEntry vcache v; Ok c
  else Ok vcache.

Definition UpdateCacheFace (vcache : VertexCache.t) (face : NvFaceInfo.t)
  : res VertexCache.t :=
  c0 ← cache_touch vcache (NvFaceInfo.m_v0 face);
  c1 ← cache_touch c0 (NvFaceInfo.m_v1 face);
  cache_touch c1 (NvFaceInfo.m_v2 face).

Fixpoint UpdateCacheStrip (vcache : VertexCache.t) (faces : list NvFaceInfo.t)
  : res VertexCache.t :=
  match faces with
  | [] => Ok vcache
  | f :: rest => c ← UpdateCacheFace vcache f; UpdateCacheStrip c rest
  end.

Definition CalcNumHitsFace (vcache : VertexCache.t) (face : NvFaceInfo.t) : Z :=
  let numHits := 0 in
  let numHits := if VertexCache.InCache vcache (NvFaceInfo.m_v0 face) then numHits + 1 else numHits in
  let numHits := if VertexCache.InCache vcache (NvFaceInfo.m_v1 face) then numHits + 1 else numHits in
  let numHits := if VertexCache.InCache vcache (NvFaceInfo.m_v2 face) then numHits + 1 else numHits in
  numHits.

(** The slots that hold a vertex (anything but the empty marker [-1]) are
    pairwise distinct. *)
Fixpoint slots_distinct (c : VertexCache.t) : bool :=
  match c with
  | [] => true
  | e :: rest =>
      (if e =? -1 then true else negb (VertexCache.InCache rest e))
      && slots_distinct rest
  end.

(** ** NvTriStrip.cpp: the output boundary and [RemapIndices] *)

(** Modelled from the spec: the declarations of [NvTriStrip.h] (absent from
    the sources): the primitive kinds, a group as its kind and its index
    sequence ([numIndices] is the length of the sequence), and the default
    cache size of 16. *)
Module PrimType.
Inductive t : Type := PT_LIST | PT_STRIP.
End PrimType.

Module PrimitiveGroup.
Record t : Type := mk { type : PrimType.t; indices : list Z }.
Definition numIndices (g : t) : Z := vec_size (indices g).
End PrimitiveGroup.

Definition CACHESIZE_GEFORCE1_2 : Z := 16.

(** [std::numeric_limits<size_t>::max()] *)
Definition SIZE_MAX : Z := 2 ^ 64 - 1.
Definition wrap_size (z : Z) : Z := z mod 2 ^ 64.

(** The inner loop over one group, threading [indexCache] and [indexCtr]. *)
Fixpoint RemapIndices_group (ins : list Z) (indexCache : list Z) (indexCtr : Z)
  : res (list Z * (list Z * Z)) :=
  match ins with
  | [] => Ok ([], (indexCache, indexCtr))
  | old :: rest =>
      cachedIndex ← vec_at indexCache old;
      if cachedIndex =? SIZE_MAX then
        indexCache' ← vec_set indexCache old indexCtr;
        '(out, st) ← RemapIndices_group rest indexCache' (wrap_size (indexCtr + 1));
        Ok (indexCtr :: out, st)
      else
        '(out, st) ← RemapIndices_group rest indexCache indexCtr;
        Ok (cachedIndex :: out, st)
  end.

Fixpoint RemapIndices_groups (gs : list PrimitiveGroup.t)
  (indexCache : list Z) (indexCtr : Z) : res (list PrimitiveGroup.t) :=
  match gs with
  | [] => Ok []
  | g :: rest =>
      '(out, (indexCache', indexCtr')) ←
        RemapIndices_group (PrimitiveGroup.indices g) indexCache indexCtr;
      rest' ← RemapIndices_groups rest indexCache' indexCtr';
      Ok (PrimitiveGroup.mk (PrimitiveGroup.type g) out :: rest')
  end.

Definition RemapIndices (in_primGroups : list PrimitiveGroup.t) (numVerts : Z)
  : res (list PrimitiveGroup.t) :=
  RemapIndices_groups in_primGroups (replicate (Z.to_nat numVerts) SIZE_MAX) 0.

(** Specification side of the remapping: the distinct values of a stream, in
    the order in which they are first met ([seen] holds those met before). *)
Fixpoint first_touch (seen : list Z) (l : list Z) : list Z :=
  match l with
  | [] => []
  | x :: r =>
      if bool_decide (x ∈ seen) then first_touch seen r
      else x :: first_touch (seen ++ [x]) r
  end.

Definition index_stream (gs : list PrimitiveGroup.t) : list Z :=
  concat (map PrimitiveGroup.indices gs).

Definition touch_order (gs : list PrimitiveGroup.t) : list Z :=
  first_touch [] (index_stream gs).

(** Applying a renumbering [new |-> order[new]] to every index of a group. *)
Definition unmap_group (order : list Z) (g : PrimitiveGroup.t) : PrimitiveGroup.t :=
  PrimitiveGroup.mk (PrimitiveGroup.type g)
    (map (fun n => default 0 (order !! Z.to_nat n)) (PrimitiveGroup.indices g)).

(** ** binary32 arithmetic for the [float] members *)

Definition f32 : Type := spec_float.
Definition f32_prec : Z := 24.
Definition f32_emax : Z := 128.
Definition f32_add : f32 -> f32 -> f32 := SFadd f32_prec f32_emax.
Definition f32_mul : f32 -> f32 -> f32 := SFmul f32_prec f32_emax.
Definition f32_div : f32 -> f32 -> f32 := SFdiv f32_prec f32_emax.
(** [a > b] *)
Definition f32_gt (a b : f32) : bool := SFltb b a.
(** integer to [float], round to nearest even *)
Definition f32_of_Z (z : Z) : f32 := binary_normalize f32_prec f32_emax z 0 false.
(** The literals [0.0f], [0.05f], [0.1f], [1.0f]. *)
Definition f32_zero : f32 := S754_zero false.
Definition f32_0_05 : f32 := S754_finite false 13421773 (-28).
Definition f32_0_1 : f32 := S754_finite false 13421773 (-27).
Definition f32_one : f32 := S754_finite false 8388608 (-23).

(** [(std::ptrdiff_t) x]: truncation toward zero; the conversion of a value
    that does not fit is undefined. *)
Definition ptrdiff_of_f32 (x : f32) : res Z :=
  match x with
  | S754_zero _ => Ok 0
  | S754_finite s m e =>
      let a := if 0 <=? e then Z.pos m * 2 ^ e else Z.pos m / 2 ^ (- e) in
      let z := if s then - a else a in
      if (- 2 ^ 63 <=? z) && (z <? 2 ^ 63) then Ok z else Fault Undefined
  | _ => Fault Undefined
  end.

(** ** The heap of one stripification call *)

Record Heap : Type := mkHeap {
  faces : list NvFaceInfo.t;
  edges : list NvEdgeInfo.t
}.

Definition face_at (h : Heap) (p : ptr) : res NvFaceInfo.t :=
  match faces h !! p with
  | Some f => Ok f
  | None => Fault NullPointer
  end.

Definition edge_at (h : Heap) (p : ptr) : res NvEdgeInfo.t :=
  match edges h !! p with
  | Some e => Ok e
  | None => Fault NullPointer
  end.

Definition new_face (h : Heap) (f : NvFaceInfo.t) : Heap * ptr :=
  (mkHeap (faces h ++ [f]) (edges h), length (faces h)).

Definition new_edge (h : Heap) (e : NvEdgeInfo.t) : Heap * ptr :=
  (mkHeap (faces h) (edges h ++ [e]), length (edges h)).

Definition set_face (h : Heap) (p : ptr) (f : NvFaceInfo.t) : Heap :=
  mkHeap (<[p := f]> (faces h)) (edges h).

Definition set_edge (h : Heap) (p : ptr) (e : NvEdgeInfo.t) : Heap :=
  mkHeap (faces h) (<[p := e]> (edges h)).

(** The vectors [faceInfos] (pointers to faces) and [edgeInfos] (for each
    vertex the head of its edge chain). *)
Abbreviation NvFaceInfoVec := (list nat) (only parsing).
Abbreviation NvEdgeInfoVec := (list (option nat)) (only parsing).

Record Topology : Type := mkTopology {
  heap : Heap;
  faceInfos : NvFaceInfoVec;
  edgeInfos : NvEdgeInfoVec
}.

(** ** NvTriStripObjects.cpp: topology *)

Fixpoint FindEdgeInfo_walk (fuel : nat) (h : Heap) (infoIter : option ptr)
  (v0 v1 : Z) : res (option ptr) :=
  match infoIter with
  | None => Ok None
  | Some p =>
      match fuel with
      | O => Fault OutOfFuel
      | S fuel' =>
          e ← edge_at h p;
          if NvEdgeInfo.m_v0 e =? v0 then
            if NvEdgeInfo.m_v1 e =? v1 then Ok (Some p)
            else FindEdgeInfo_walk fuel' h (NvEdgeInfo.m_nextV0 e) v0 v1
          else
            if NvEdgeInfo.m_v0 e =? v1 then Ok (Some p)
            else FindEdgeInfo_walk fuel' h (NvEdgeInfo.m_nextV1 e) v0 v1
      end
  end.

(** A chain never visits an edge twice, so the number of edges bounds it. *)
Definition FindEdgeInfo (h : Heap) (edgeInfos : NvEdgeInfoVec) (v0 v1 : Z)
  : res (option ptr) :=
  infoIter ← vec_at edgeInfos v0;
  FindEdgeInfo_walk (length (edges h)) h infoIter v0 v1.

Definition FindOtherFace (h : Heap) (edgeInfos : NvEdgeInfoVec) (v0 v1 : Z)
  (faceInfo : ptr) : res (option ptr) :=
  edgeInfo ← FindEdgeInfo h edgeInfos v0 v1;
  match edgeInfo with
  | None =>
      if v0 =? v1 then Ok None      (* we've hit a degenerate *)
      else Fault NullPointer        (* edgeInfo->m_face0 on nullptr *)
  | Some p =>
      e ← edge_at h p;
      Ok (if bool_decide (NvEdgeInfo.m_face0 e = Some faceInfo)
          then NvEdgeInfo.m_face1 e else NvEdgeInfo.m_face0 e)
  end.

Definition same_triple (f g : NvFaceInfo.t) : bool :=
  (NvFaceInfo.m_v0 f =? NvFaceInfo.m_v0 g) &&
  (NvFaceInfo.m_v1 f =? NvFaceInfo.m_v1 g) &&
  (NvFaceInfo.m_v2 f =? NvFaceInfo.m_v2 g).

Fixpoint AlreadyExists (h : Heap) (faceInfo : NvFaceInfo.t)
  (faceInfos : NvFaceInfoVec) : res bool :=
  match faceInfos with
  | [] => Ok false
  | p :: rest =>
      f ← face_at h p;
      if same_triple f faceInfo then Ok true
      else AlreadyExists h faceInfo rest
  end.

Definition IsDegenerate3 (v0 v1 v2 : Z) : bool :=
  if v0 =? v1 then true
  else if v0 =? v2 then true
  else if v1 =? v2 then true
  else false.

Definition IsDegenerate (face : NvFaceInfo.t) : bool :=
  IsDegenerate3 (NvFaceInfo.m_v0 face) (NvFaceInfo.m_v1 face) (NvFaceInfo.m_v2 face).

(** What [BuildStripifyInfo] does for one edge [(va, vb)] of the new face;
    the source repeats this block for the edges 01, 12 and 20. *)
Record EdgeVisit : Type := mkEdgeVisit {
  ev_heap : Heap;
  ev_edgeInfos : NvEdgeInfoVec;
  ev_edge : ptr;               (* edgeInfoXY *)
  ev_found : bool;             (* the lookup found the edge *)
  ev_updated : bool            (* bFaceUpdated[k] *)
}.

Definition visit_edge (h : Heap) (edgeInfos : NvEdgeInfoVec) (va vb : Z)
  (faceInfo : ptr) : res EdgeVisit :=
  edgeInfo ← FindEdgeInfo h edgeInfos (wrap_int va) (wrap_int vb);
  match edgeInfo with
  | None =>
      nextV0 ← vec_at edgeInfos va;
      nextV1 ← vec_at edgeInfos vb;
      let '(h', p) :=
        new_edge h (NvEdgeInfo.mk (Some faceInfo) None
                                  (wrap_int va) (wrap_int vb) nextV0 nextV1) in
      edgeInfos1 ← vec_set edgeInfos va (Some p);
      edgeInfos2 ← vec_set edgeInfos1 vb (Some p);
      Ok (mkEdgeVisit h' edgeInfos2 p false false)
  | Some p =>
      e ← edge_at h p;
      match NvEdgeInfo.m_face1 e with
      | Some _ =>
          (* "> 2 triangles on an edge... uncertain consequences" *)
          Ok (mkEdgeVisit h edgeInfos p true false)
      | None =>
          let e' := NvEdgeInfo.mk (NvEdgeInfo.m_face0 e) (Some faceInfo)
                      (NvEdgeInfo.m_v0 e) (NvEdgeInfo.m_v1 e)
                      (NvEdgeInfo.m_nextV0 e) (NvEdgeInfo.m_nextV1 e) in
          Ok (mkEdgeVisit (set_edge h p e') edgeInfos p true true)
      end
  end.

(** [edgeInfo->m_face1 = nullptr] *)
Definition reset_face1 (h : Heap) (p : ptr) : res Heap :=
  e ← edge_at h p;
  Ok (set_edge h p (NvEdgeInfo.mk (NvEdgeInfo.m_face0 e) None
                      (NvEdgeInfo.m_v0 e) (NvEdgeInfo.m_v1 e)
                      (NvEdgeInfo.m_nextV0 e) (NvEdgeInfo.m_nextV1 e))).

(** The body of the loop over the input triangles. *)
Definition BuildStripifyInfo_triangle (t : Topology) (v0 v1 v2 : Z)
  : res Topology :=
  if IsDegenerate3 v0 v1 v2 then Ok t
  else
    let face := NvFaceInfo.new (wrap_int v0) (wrap_int v1) (wrap_int v2) in
    let '(h0, faceInfo) := new_face (heap t) face in
    e01 ← visit_edge h0 (edgeInfos t) v0 v1 faceInfo;
    e12 ← visit_edge (ev_heap e01) (ev_edgeInfos e01) v1 v2 faceInfo;
    e20 ← visit_edge (ev_heap e12) (ev_edgeInfos e12) v2 v0 faceInfo;
    let bMightAlreadyExist := ev_found e01 && ev_found e12 && ev_found e20 in
    let h := ev_heap e20 in
    let appended := mkTopology h (faceInfos t ++ [faceInfo]) (ev_edgeInfos e20) in
    if bMightAlreadyExist then
      dup ← AlreadyExists h face (faceInfos t);
      if negb dup then Ok appended
      else
        (* delete faceInfo; cleanup pointers that point to this deleted face *)
        h1 ← (if ev_updated e01 then reset_face1 h (ev_edge e01) else Ok h);
        h2 ← (if ev_updated e12 then reset_face1 h1 (ev_edge e12) else Ok h1);
        h3 ← (if ev_updated e20 then reset_face1 h2 (ev_edge e20) else Ok h2);
        Ok (mkTopology h3 (faceInfos t) (ev_edgeInfos e20))
    else Ok appended.

Fixpoint BuildStripifyInfo_loop (numTriangles : nat) (index : Z)
  (indices : list Z) (t : Topology) : res Topology :=
  match numTriangles with
  | O => Ok t
  | S n =>
      v0 ← vec_at indices index;
      v1 ← vec_at indices (index + 1);
      v2 ← vec_at indices (index + 2);
      t' ← BuildStripifyInfo_triangle t v0 v1 v2;
      BuildStripifyInfo_loop n (index + 3) indices t'
  end.

Definition BuildStripifyInfo (indices : list Z) (maxIndex : Z) : res Topology :=
  let numIndices := vec_size indices in
  BuildStripifyInfo_loop (Z.to_nat (numIndices / 3)) 0 indices
    (mkTopology (mkHeap [] []) [] (replicate (Z.to_nat (maxIndex + 1)) None)).

(** ** NvTriStripObjects.cpp: reset points *)

(** The data members of [NvStripifier]. *)
Module NvStripifier.
Record t : Type := mk {
  indices : list Z;
  cacheSize : Z;
  minStripLength : Z;
  meshJump : f32;
  bFirstTimeResetPoint : bool
}.
(** The constructor. *)
Definition new : t := mk [] 0 0 f32_zero false.
Definition set_meshJump (s : t) (m : f32) : t :=
  mk (indices s) (cacheSize s) (minStripLength s) m (bFirstTimeResetPoint s).
Definition set_bFirstTimeResetPoint (s : t) (b : bool) : t :=
  mk (indices s) (cacheSize s) (minStripLength s) (meshJump s) b.
End NvStripifier.

(** The number of edges of face [f] with no face on the other side. *)
Definition open_edges (t : Topology) (p : ptr) : res Z :=
  f ← face_at (heap t) p;
  let ctr := 0 in
  o01 ← FindOtherFace (heap t) (edgeInfos t) (NvFaceInfo.m_v0 f) (NvFaceInfo.m_v1 f) p;
  let ctr := if o01 is None then ctr + 1 else ctr in
  o12 ← FindOtherFace (heap t) (edgeInfos t) (NvFaceInfo.m_v1 f) (NvFaceInfo.m_v2 f) p;
  let ctr := if o12 is None then ctr + 1 else ctr in
  o20 ← FindOtherFace (heap t) (edgeInfos t) (NvFaceInfo.m_v2 f) (NvFaceInfo.m_v0 f) p;
  let ctr := if o20 is None then ctr + 1 else ctr in
  Ok ctr.

Fixpoint FindStartPoint_loop (t : Topology) (fs : NvFaceInfoVec)
  (bestCtr bestIndex i : Z) : res (Z * Z) :=
  match fs with
  | [] => Ok (bestCtr, bestIndex)
  | p :: rest =>
      ctr ← open_edges t p;
      if bestCtr <? ctr
      then FindStartPoint_loop t rest ctr i (i + 1)
      else FindStartPoint_loop t rest bestCtr bestIndex (i + 1)
  end.

Definition FindStartPoint (t : Topology) : res Z :=
  '(bestCtr, bestIndex) ← FindStartPoint_loop t (faceInfos t) (-1) (-1) 0;
  if bestCtr =? 0 then Ok (-1) else Ok bestIndex.

(** [(std::ptrdiff_t)(float(numFaces - 1) * meshJump)], with the unsigned
    subtraction wrapping for an empty table. *)
Definition jump_index (numFaces : Z) (meshJump : f32) : res Z :=
  ptrdiff_of_f32 (f32_mul (f32_of_Z (wrap_size (numFaces - 1))) meshJump).

(** The [do ... while (i != startPoint)] probe: [Some p] is the first face
    with [m_stripId < 0], [None] is a full turn without one. *)
Fixpoint FindGoodResetPoint_probe (fuel : nat) (t : Topology)
  (numFaces startPoint i : Z) : res (option ptr) :=
  match fuel with
  | O => Fault OutOfFuel
  | S fuel' =>
      p ← vec_at (faceInfos t) i;
      f ← face_at (heap t) p;
      if NvFaceInfo.m_stripId f <? 0 then Ok (Some p)
      else
        let i1 := i + 1 in
        let i2 := if numFaces <=? wrap_size i1 then 0 else i1 in
        if i2 =? startPoint then Ok None
        else FindGoodResetPoint_probe fuel' t numFaces startPoint i2
  end.

(** The new value of [meshJump] after one search. *)
Definition next_meshJump (meshJump : f32) : f32 :=
  let m := f32_add meshJump f32_0_1 in
  if f32_gt m f32_one then f32_0_05 else m.

(** The index at which the search starts, and the updated first-time flag. *)
Definition reset_start (s : NvStripifier.t) (t : Topology) : res (Z * NvStripifier.t) :=
  let numFaces := vec_size (faceInfos t) in
  '(startPoint, s1) ←
    (if NvStripifier.bFirstTimeResetPoint s then
       sp ← FindStartPoint t;
       Ok (sp, NvStripifier.set_bFirstTimeResetPoint s false)
     else
       sp ← jump_index numFaces (NvStripifier.meshJump s);
       Ok (sp, s));
  startPoint ← (if startPoint =? -1
                then jump_index numFaces (NvStripifier.meshJump s1)
                else Ok startPoint);
  Ok (startPoint, s1).

Definition FindGoodResetPoint (s : NvStripifier.t) (t : Topology)
  : res (NvStripifier.t * option ptr) :=
  let numFaces := vec_size (faceInfos t) in
  '(startPoint, s1) ← reset_start s t;
  result ← FindGoodResetPoint_probe (S (length (faceInfos t))) t
             numFaces startPoint startPoint;
  Ok (NvStripifier.set_meshJump s1 (next_meshJump (NvStripifier.meshJump s1)),
      result).

(** ** NvTriStripObjects.cpp: vertex bookkeeping of faces *)

Definition GetUniqueVertexInB (faceA faceB : NvFaceInfo.t) : Z :=
  let differs (v : Z) :=
    negb (v =? NvFaceInfo.m_v0 faceA) &&
    negb (v =? NvFaceInfo.m_v1 faceA) &&
    negb (v =? NvFaceInfo.m_v2 faceA) in
  if differs (NvFaceInfo.m_v0 faceB) then NvFaceInfo.m_v0 faceB
  else if differs (NvFaceInfo.m_v1 faceB) then NvFaceInfo.m_v1 faceB
  else if differs (NvFaceInfo.m_v2 faceB) then NvFaceInfo.m_v2 faceB
  else -1.

(** Returns [(vertex0, vertex1)]. *)
Definition GetSharedVertices (faceA faceB : NvFaceInfo.t) : Z * Z :=
  let shared (v : Z) :=
    (v =? NvFaceInfo.m_v0 faceA) ||
    (v =? NvFaceInfo.m_v1 faceA) ||
    (v =? NvFaceInfo.m_v2 faceA) in
  let vertex0 := -1 in
  let vertex1 := -1 in
  let vertex0 :=
    if shared (NvFaceInfo.m_v0 faceB)
    then (if vertex0 =? -1 then NvFaceInfo.m_v0 faceB else vertex0)
    else vertex0 in
  if shared (NvFaceInfo.m_v1 faceB) && negb (vertex0 =? -1)
  then (vertex0, NvFaceInfo.m_v1 faceB)
  else
    let vertex0 :=
      if shared (NvFaceInfo.m_v1 faceB) then NvFaceInfo.m_v1 faceB else vertex0 in
    if shared (NvFaceInfo.m_v2 faceB) && negb (vertex0 =? -1)
    then (vertex0, NvFaceInfo.m_v2 faceB)
    else
      let vertex0 :=
        if shared (NvFaceInfo.m_v2 faceB) then NvFaceInfo.m_v2 faceB else vertex0 in
      (vertex0, vertex1).

(** The vertex of [face] that is "next" after the last two of [indices]. *)
Definition GetNextIndex (indices : list Z) (face : NvFaceInfo.t) : res Z :=
  let numIndices := vec_size indices in
  v0 ← vec_at indices (numIndices - 2);
  v1 ← vec_at indices (numIndices - 1);
  let fv0 := NvFaceInfo.m_v0 face in
  let fv1 := NvFaceInfo.m_v1 face in
  let fv2 := NvFaceInfo.m_v2 face in
  if negb (fv0 =? v0) && negb (fv0 =? v1) then Ok fv0
  else if negb (fv1 =? v0) && negb (fv1 =? v1) then Ok fv1
  else if negb (fv2 =? v0) && negb (fv2 =? v1) then Ok fv2
  (* shouldn't get here, but let's try and fail gracefully *)
  else if (fv0 =? fv1) || (fv0 =? fv2) then Ok fv0
  else if (fv1 =? fv0) || (fv1 =? fv2) then Ok fv1
  else if (fv2 =? fv0) || (fv2 =? fv1) then Ok fv2
  else Ok (-1).

(** ** NvStripInfo *)

Module NvStripStartInfo.
Record t : Type := mk {
  m_startFace : option ptr;
  m_startEdge : option ptr;
  m_toV1 : bool
}.
End NvStripStartInfo.

Module NvStripInfo.
Record t : Type := mk {
  m_startInfo : NvStripStartInfo.t;
  m_faces : NvFaceInfoVec;
  m_stripId : Z;
  m_experimentId : Z;
  visited : bool;
  m_numDegenerates : Z;
  m_Degenerates : NvFaceInfoVec
}.
Definition new (startInfo : NvStripStartInfo.t) (stripId experimentId : Z) : t :=
  mk startInfo [] stripId experimentId false 0 [].

Definition IsExperiment (s : t) : bool := 0 <=? m_experimentId s.

Definition IsInStrip (s : t) (h : Heap) (faceInfo : option ptr) : res bool :=
  match faceInfo with
  | None => Ok false
  | Some p =>
      f ← face_at h p;
      Ok (if 0 <=? m_experimentId s
          then NvFaceInfo.m_testStripId f =? m_stripId s
          else NvFaceInfo.m_stripId f =? m_stripId s)
  end.

Definition IsMarked (s : t) (f : NvFaceInfo.t) : bool :=
  (0 <=? NvFaceInfo.m_stripId f) ||
  (IsExperiment s && (NvFaceInfo.m_experimentId f =? m_experimentId s)).

Definition MarkTriangle (s : t) (h : Heap) (p : ptr) : res Heap :=
  f ← face_at h p;
  Ok (set_face h p
        (if IsExperiment s then
           NvFaceInfo.mk (NvFaceInfo.m_v0 f) (NvFaceInfo.m_v1 f) (NvFaceInfo.m_v2 f)
             (NvFaceInfo.m_stripId f) (m_stripId s) (m_experimentId s)
         else
           NvFaceInfo.mk (NvFaceInfo.m_v0 f) (NvFaceInfo.m_v1 f) (NvFaceInfo.m_v2 f)
             (m_stripId s) (NvFaceInfo.m_testStripId f) (-1))).

(** [true] when some vertex of [face] occurs in no face of [faceVec]. *)
Fixpoint Unique_loop (faceVec : list NvFaceInfo.t) (face : NvFaceInfo.t)
  (bv0 bv1 bv2 : bool) : bool :=
  match faceVec with
  | [] => true
  | f :: rest =>
      let has (v : Z) :=
        (NvFaceInfo.m_v0 f =? v) || (NvFaceInfo.m_v1 f =? v) || (NvFaceInfo.m_v2 f =? v) in
      let bv0 := if negb bv0 then has (NvFaceInfo.m_v0 face) else bv0 in
      let bv1 := if negb bv1 then has (NvFaceInfo.m_v1 face) else bv1 in
      let bv2 := if negb bv2 then has (NvFaceInfo.m_v2 face) else bv2 in
      if bv0 && bv1 && bv2 then false
      else Unique_loop rest face bv0 bv1 bv2
  end.

Fixpoint deref_faces (h : Heap) (ps : NvFaceInfoVec) : res (list NvFaceInfo.t) :=
  match ps with
  | [] => Ok []
  | p :: rest => f ← face_at h p; fs ← deref_faces h rest; Ok (f :: fs)
  end.

Definition Unique (h : Heap) (faceVec : NvFaceInfoVec) (face : NvFaceInfo.t)
  : res bool :=
  fs ← deref_faces h faceVec;
  Ok (Unique_loop fs face false false false).

(** [faceInfo == nullptr || IsMarked(faceInfo)] *)
Definition null_or_marked (s : t) (h : Heap) (faceInfo : option ptr) : res bool :=
  match faceInfo with
  | None => Ok true
  | Some p => f ← face_at h p; Ok (IsMarked s f)
  end.

(** What the two extension loops of [Build] update. *)
Record Extension : Type := mkExtension {
  x_heap : Heap;
  x_numDegenerates : Z;
  x_Degenerates : NvFaceInfoVec;
  x_faces : NvFaceInfoVec;          (* forwardFaces, or backwardFaces *)
  x_tempAllFaces : NvFaceInfoVec;
  x_scratchIndices : list Z
}.

(** The dead-end test of the extension loops: when the face after
    [nextFace] is missing or taken and the face across [(nv0, testnv1)] is
    free, a degenerate [(nv0, nv1, nv0)] is put into the strip and the
    walk continues from [nv0].  Returns the new [testnv0] as well. *)
Definition Build_swap (s : t) (edgeInfos : NvEdgeInfoVec) (x : Extension)
  (nv0 nv1 testnv1 : Z) (nf : ptr) (deadEnd : bool) : res (Extension * Z) :=
  if deadEnd then
    testNextFace ← FindOtherFace (x_heap x) edgeInfos nv0 testnv1 nf;
    blocked ← null_or_marked s (x_heap x) testNextFace;
    if negb blocked then
      (* add a "fake" degenerate face *)
      let '(h1, tempFace) := new_face (x_heap x) (NvFaceInfo.new nv0 nv1 nv0) in
      h2 ← MarkTriangle s h1 tempFace;
      Ok (mkExtension h2 (x_numDegenerates x + 1)
            (x_Degenerates x ++ [tempFace])
            (x_faces x ++ [tempFace])
            (x_tempAllFaces x)
            (x_scratchIndices x ++ [nv0]),
          nv0)
    else Ok (x, nv1)
  else Ok (x, nv1).

(** [while (nextFace != nullptr && !IsMarked(nextFace))]; the backward loop
    ([backward = true]) is the forward one plus the [Unique] test and the
    copy into [tempAllFaces]. *)
Fixpoint Build_extend (fuel : nat) (backward : bool) (s : t)
  (edgeInfos : NvEdgeInfoVec) (x : Extension) (nv0 nv1 : Z)
  (nextFace : option ptr) : res Extension :=
  match nextFace with
  | None => Ok x
  | Some nf =>
      f ← face_at (x_heap x) nf;
      if IsMarked s f then Ok x
      else
        match fuel with
        | O => Fault OutOfFuel
        | S fuel' =>
            uniq ← (if backward then Unique (x_heap x) (x_tempAllFaces x) f
                    else Ok true);
            if negb uniq then Ok x
            else
              let testnv0 := nv1 in
              testnv1 ← GetNextIndex (x_scratchIndices x) f;
              nextNextFace ← FindOtherFace (x_heap x) edgeInfos testnv0 testnv1 nf;
              deadEnd ← null_or_marked s (x_heap x) nextNextFace;
              '(x1, testnv0) ← Build_swap s edgeInfos x nv0 nv1 testnv1 nf deadEnd;
              h3 ← MarkTriangle s (x_heap x1) nf;
              let x2 :=
                mkExtension h3 (x_numDegenerates x1) (x_Degenerates x1)
                  (x_faces x1 ++ [nf])
                  (if backward then x_tempAllFaces x1 ++ [nf] else x_tempAllFaces x1)
                  (x_scratchIndices x1 ++ [testnv1]) in
              nextFace' ← FindOtherFace h3 edgeInfos testnv0 testnv1 nf;
              Build_extend fuel' backward s edgeInfos x2 testnv0 testnv1 nextFace'
        end
  end.

Definition Combine (s : t) (forward backward : NvFaceInfoVec)
  (numDegenerates : Z) (Degenerates : NvFaceInfoVec) : t :=
  mk (m_startInfo s) (m_faces s ++ reverse backward ++ forward)
     (m_stripId s) (m_experimentId s) (visited s) numDegenerates Degenerates.

Definition Build (s : t) (h : Heap) (edgeInfos : NvEdgeInfoVec) : res (Heap * t) :=
  let fuel := S (length (faces h)) in
  startFace ← from_option Ok (Fault NullPointer)
                (NvStripStartInfo.m_startFace (m_startInfo s));
  startEdge ← from_option (edge_at h) (Fault NullPointer)
                (NvStripStartInfo.m_startEdge (m_startInfo s));
  h1 ← MarkTriangle s h startFace;
  let toV1 := NvStripStartInfo.m_toV1 (m_startInfo s) in
  let v0 := if toV1 then NvEdgeInfo.m_v0 startEdge else NvEdgeInfo.m_v1 startEdge in
  let v1 := if toV1 then NvEdgeInfo.m_v1 startEdge else NvEdgeInfo.m_v0 startEdge in
  f ← face_at h1 startFace;
  v2 ← GetNextIndex [v0; v1] f;
  (* build the forward list *)
  nextFace ← FindOtherFace h1 edgeInfos v1 v2 startFace;
  fwd ← Build_extend fuel false s edgeInfos
          (mkExtension h1 (m_numDegenerates s) (m_Degenerates s)
             [startFace] [] [v0; v1; v2])
          v1 v2 nextFace;
  (* reset the indices for building the strip backwards and do so *)
  nextFace ← FindOtherFace (x_heap fwd) edgeInfos v1 v0 startFace;
  bwd ← Build_extend fuel true s edgeInfos
          (mkExtension (x_heap fwd) (x_numDegenerates fwd) (x_Degenerates fwd)
             [] (x_faces fwd) [v2; v1; v0])
          v1 v0 nextFace;
  Ok (x_heap bwd,
      Combine s (x_faces fwd) (x_faces bwd)
        (x_numDegenerates bwd) (x_Degenerates bwd)).

(** One edge of [SharesEdge]: is a face of the edge [(va, vb)] in the
    strip? *)
Definition SharesEdge_on (s : t) (h : Heap) (edgeInfos : NvEdgeInfoVec)
  (va vb : Z) : res bool :=
  currEdge ← FindEdgeInfo h edgeInfos va vb;
  e ← from_option (edge_at h) (Fault NullPointer) currEdge;
  in0 ← IsInStrip s h (NvEdgeInfo.m_face0 e);
  in1 ← IsInStrip s h (NvEdgeInfo.m_face1 e);
  Ok (in0 || in1).

Definition SharesEdge (s : t) (h : Heap) (faceInfo : NvFaceInfo.t)
  (edgeInfos : NvEdgeInfoVec) : res bool :=
  b01 ← SharesEdge_on s h edgeInfos (NvFaceInfo.m_v0 faceInfo) (NvFaceInfo.m_v1 faceInfo);
  if (b01 : bool) then Ok true
  else
    b12 ← SharesEdge_on s h edgeInfos (NvFaceInfo.m_v1 faceInfo) (NvFaceInfo.m_v2 faceInfo);
    if (b12 : bool) then Ok true
    else SharesEdge_on s h edgeInfos (NvFaceInfo.m_v2 faceInfo) (NvFaceInfo.m_v0 faceInfo).

End NvStripInfo.

Abbreviation NvStripInfoVec := (list NvStripInfo.t) (only parsing).

(** ** NvTriStripObjects.cpp: experiments *)

Fixpoint mark_faces (s : NvStripInfo.t) (h : Heap) (fs : NvFaceInfoVec) : res Heap :=
  match fs with
  | [] => Ok h
  | p :: rest => h' ← NvStripInfo.MarkTriangle s h p; mark_faces s h' rest
  end.

(** Returns the heap and the new [allStrips]. *)
Fixpoint CommitStrips (h : Heap) (allStrips strips : NvStripInfoVec)
  : res (Heap * NvStripInfoVec) :=
  match strips with
  | [] => Ok (h, allStrips)
  | strip :: rest =>
      (* Tell the strip that it is now real *)
      let strip' :=
        NvStripInfo.mk (NvStripInfo.m_startInfo strip) (NvStripInfo.m_faces strip)
          (NvStripInfo.m_stripId strip) (-1) (NvStripInfo.visited strip)
          (NvStripInfo.m_numDegenerates strip) (NvStripInfo.m_Degenerates strip) in
      h' ← mark_faces strip' h (NvStripInfo.m_faces strip');
      CommitStrips h' (allStrips ++ [strip']) rest
  end.

(** The walk of [FindTraversal] along the edge chain of [v]: the untouched
    face and the edge at which the walk stopped. *)
Fixpoint FindTraversal_walk (fuel : nat) (h : Heap) (strip : NvStripInfo.t)
  (v : Z) (edgeIter : option ptr) : res (option ptr * option ptr) :=
  match edgeIter with
  | None => Ok (None, None)
  | Some ep =>
      match fuel with
      | O => Fault OutOfFuel
      | S fuel' =>
          e ← edge_at h ep;
          let face0 := NvEdgeInfo.m_face0 e in
          let face1 := NvEdgeInfo.m_face1 e in
          in0 ← NvStripInfo.IsInStrip strip h face0;
          in1 ← NvStripInfo.IsInStrip strip h face1;
          marked0 ← NvStripInfo.null_or_marked strip h face0;
          marked1 ← NvStripInfo.null_or_marked strip h face1;
          if (bool_decide (face0 <> None) && negb in0)
             && bool_decide (face1 <> None) && negb marked1
          then Ok (face1, Some ep)
          else if (bool_decide (face1 <> None) && negb in1)
                  && bool_decide (face0 <> None) && negb marked0
          then Ok (face0, Some ep)
          else FindTraversal_walk fuel' h strip v
                 (if NvEdgeInfo.m_v0 e =? v then NvEdgeInfo.m_nextV0 e
                  else NvEdgeInfo.m_nextV1 e)
      end
  end.

(** Returns the result and the updated [startInfo]. *)
Definition FindTraversal (h : Heap) (edgeInfos : NvEdgeInfoVec)
  (strip : NvStripInfo.t) (startInfo : NvStripStartInfo.t)
  : res (bool * NvStripStartInfo.t) :=
  let si := NvStripInfo.m_startInfo strip in
  se ← from_option (edge_at h) (Fault NullPointer) (NvStripStartInfo.m_startEdge si);
  let v := if NvStripStartInfo.m_toV1 si then NvEdgeInfo.m_v1 se else NvEdgeInfo.m_v0 se in
  head ← vec_at edgeInfos v;
  '(untouchedFace, edgeIter) ← FindTraversal_walk (length (edges h)) h strip v head;
  toV1 ←
    match edgeIter, untouchedFace with
    | Some ep, Some fp =>
        e ← edge_at h ep;
        f ← face_at h fp;
        shares ← NvStripInfo.SharesEdge strip h f edgeInfos;
        Ok (if (shares : bool) then NvEdgeInfo.m_v0 e =? v else NvEdgeInfo.m_v1 e =? v)
    | Some _, None => Fault NullPointer
    | None, _ => Ok (NvStripStartInfo.m_toV1 startInfo)
    end;
  Ok (bool_decide (untouchedFace <> None),
      NvStripStartInfo.mk untouchedFace edgeIter toV1).

(** [sizeAccum] is a [ptrdiff_t] that takes the face counts and gives back
    the degenerate counts; the sums are written without wrap-around, which
    is what the code computes while the face counts of the strips add up to
    less than 2^63 and no strip has more degenerates than faces. *)
Fixpoint AvgStripSize_accum (strips : NvStripInfoVec) (sizeAccum : Z) : Z :=
  match strips with
  | [] => sizeAccum
  | strip :: rest =>
      AvgStripSize_accum rest
        (sizeAccum + vec_size (NvStripInfo.m_faces strip)
         - NvStripInfo.m_numDegenerates strip)
  end.

Definition AvgStripSize (strips : NvStripInfoVec) : f32 :=
  let sizeAccum := AvgStripSize_accum strips 0 in
  let numStrips := vec_size strips in
  f32_div (f32_of_Z sizeAccum) (f32_of_Z numStrips).

(** The state of [FindAllStrips] across rounds. *)
Record Search : Type := mkSearch {
  sr_stripifier : NvStripifier.t;
  sr_heap : Heap;
  sr_allStrips : NvStripInfoVec;
  sr_experimentId : Z;
  sr_stripId : Z
}.

(** PHASE 1 state: the [experiments] array, [experimentIndex], the reset
    points found so far and the [done] flag. *)
Record Setup : Type := mkSetup {
  su_stripifier : NvStripifier.t;
  su_experiments : list NvStripInfoVec;
  su_experimentIndex : Z;
  su_resetPoints : list ptr;
  su_experimentId : Z;
  su_stripId : Z;
  su_done : bool
}.

(** [experiments[experimentIndex++].emplace_back(new NvStripInfo(
      NvStripStartInfo(nextFace, edge, toV1), stripId++, experimentId++))] *)
Definition add_experiment (u : Setup) (nextFace : ptr) (edge : option ptr)
  (toV1 : bool) : res Setup :=
  let strip :=
    NvStripInfo.new (NvStripStartInfo.mk (Some nextFace) edge toV1)
      (su_stripId u) (su_experimentId u) in
  slot ← vec_at (su_experiments u) (su_experimentIndex u);
  exps ← vec_set (su_experiments u) (su_experimentIndex u) (slot ++ [strip]);
  Ok (mkSetup (su_stripifier u) exps (su_experimentIndex u + 1)
        (su_resetPoints u) (su_experimentId u + 1) (su_stripId u + 1) (su_done u)).

Fixpoint FindAllStrips_setup (numSamples : nat) (t : Topology) (u : Setup)
  : res Setup :=
  match numSamples with
  | O => Ok u
  | S n =>
      '(s', nextFace) ← FindGoodResetPoint (su_stripifier u) t;
      let u := mkSetup s' (su_experiments u) (su_experimentIndex u)
                 (su_resetPoints u) (su_experimentId u) (su_stripId u) (su_done u) in
      match nextFace with
      | None =>
          (* done = true; break; *)
          Ok (mkSetup (su_stripifier u) (su_experiments u) (su_experimentIndex u)
                (su_resetPoints u) (su_experimentId u) (su_stripId u) true)
      | Some nf =>
          if bool_decide (nf ∈ su_resetPoints u)
          then FindAllStrips_setup n t u          (* continue; *)
          else
            let u := mkSetup (su_stripifier u) (su_experiments u)
                       (su_experimentIndex u) (nf :: su_resetPoints u)
                       (su_experimentId u) (su_stripId u) (su_done u) in
            f ← face_at (heap t) nf;
            let v0 := NvFaceInfo.m_v0 f in
            let v1 := NvFaceInfo.m_v1 f in
            let v2 := NvFaceInfo.m_v2 f in
            edge01 ← FindEdgeInfo (heap t) (edgeInfos t) v0 v1;
            u ← add_experiment u nf edge01 true;
            edge10 ← FindEdgeInfo (heap t) (edgeInfos t) v0 v1;
            u ← add_experiment u nf edge10 false;
            edge12 ← FindEdgeInfo (heap t) (edgeInfos t) v1 v2;
            u ← add_experiment u nf edge12 true;
            edge21 ← FindEdgeInfo (heap t) (edgeInfos t) v1 v2;
            u ← add_experiment u nf edge21 false;
            edge20 ← FindEdgeInfo (heap t) (edgeInfos t) v2 v0;
            u ← add_experiment u nf edge20 true;
            edge02 ← FindEdgeInfo (heap t) (edgeInfos t) v2 v0;
            u ← add_experiment u nf edge02 false;
            FindAllStrips_setup n t u
      end
  end.

(** PHASE 2, the inner [while (FindTraversal(...))]: the strips that follow
    the first one of an experiment. *)
Fixpoint FindAllStrips_chain (fuel : nat) (h : Heap) (edgeInfos : NvEdgeInfoVec)
  (stripIter : NvStripInfo.t) (startInfo : NvStripStartInfo.t)
  (experimentId2 stripId : Z) (experiment : NvStripInfoVec)
  : res (Heap * NvStripInfoVec * Z) :=
  '(found, startInfo') ← FindTraversal h edgeInfos stripIter startInfo;
  if (found : bool) then
    match fuel with
    | O => Fault OutOfFuel
    | S fuel' =>
        let stripIter' := NvStripInfo.new startInfo' stripId experimentId2 in
        '(h', built) ← NvStripInfo.Build stripIter' h edgeInfos;
        FindAllStrips_chain fuel' h' edgeInfos built startInfo'
          experimentId2 (stripId + 1) (experiment ++ [built])
    end
  else Ok (h, experiment, stripId).

(** PHASE 2 for the experiments [i, i+1, ...] of [todo]. *)
Fixpoint FindAllStrips_build (h : Heap) (edgeInfos : NvEdgeInfoVec)
  (todo : list NvStripInfoVec) (stripId : Z)
  : res (Heap * list NvStripInfoVec * Z) :=
  match todo with
  | [] => Ok (h, [], stripId)
  | experiment :: rest =>
      first ← vec_at experiment 0;
      '(h1, built) ← NvStripInfo.Build first h edgeInfos;
      let experimentId2 := NvStripInfo.m_experimentId built in
      '(h2, experiment', stripId') ←
        FindAllStrips_chain (length (faces h1)) h1 edgeInfos built
          (NvStripStartInfo.mk None None false) experimentId2 stripId [built];
      '(h3, rest', stripId'') ← FindAllStrips_build h2 edgeInfos rest stripId';
      Ok (h3, experiment' :: rest', stripId'')
  end.

(** PHASE 3: the index of the experiment that has the most promise.
    [bestValue] is a [double] that only ever holds [0] or a [float] value,
    and a [float] converts to [double] exactly: [value > bestValue] is the
    comparison of the two [float] values. *)
Definition experiment_value (experiment : NvStripInfoVec) : f32 :=
  let avgStripSizeWeight := f32_one in
  let numStripsWeight := f32_zero in
  let avgStripSize := AvgStripSize experiment in
  let numStrips := f32_of_Z (vec_size experiment) in
  f32_add (f32_mul avgStripSize avgStripSizeWeight) (f32_mul numStrips numStripsWeight).

Fixpoint FindAllStrips_best (experiments : list NvStripInfoVec) (i : Z)
  (bestIndex : Z) (bestValue : f32) : Z :=
  match experiments with
  | [] => bestIndex
  | experiment :: rest =>
      let value := experiment_value experiment in
      if f32_gt value bestValue
      then FindAllStrips_best rest (i + 1) i value
      else FindAllStrips_best rest (i + 1) bestIndex bestValue
  end.

Definition numSamples_slots (numSamples : Z) : nat := Z.to_nat (numSamples * 6).

(** One iteration of [while (!done)]: the new state and [done]. *)
Definition FindAllStrips_round (t : Topology) (numSamples : Z) (r : Search)
  : res (Search * bool) :=
  let t := mkTopology (sr_heap r) (faceInfos t) (edgeInfos t) in
  (* PHASE 1 *)
  u ← FindAllStrips_setup (Z.to_nat numSamples) t
         (mkSetup (sr_stripifier r) (replicate (numSamples_slots numSamples) [])
            0 [] (sr_experimentId r) (sr_stripId r) false);
  (* PHASE 2 *)
  let numExperiments := su_experimentIndex u in
  '(h2, built, stripId) ←
    FindAllStrips_build (sr_heap r) (edgeInfos t)
      (take (Z.to_nat numExperiments) (su_experiments u)) (su_stripId u);
  let experiments := built ++ drop (Z.to_nat numExperiments) (su_experiments u) in
  (* PHASE 3 *)
  let bestIndex := FindAllStrips_best built 0 0 f32_zero in
  (* PHASE 4 *)
  best ← vec_at experiments bestIndex;
  '(h4, allStrips) ← CommitStrips h2 (sr_allStrips r) best;
  Ok (mkSearch (su_stripifier u) h4 allStrips (su_experimentId u) stripId,
      su_done u).

Fixpoint FindAllStrips_loop (fuel : nat) (t : Topology) (numSamples : Z)
  (r : Search) : res Search :=
  match fuel with
  | O => Fault OutOfFuel
  | S fuel' =>
      '(r', done) ← FindAllStrips_round t numSamples r;
      if (done : bool) then Ok r'
      else FindAllStrips_loop fuel' t numSamples r'
  end.

(** Every round but the last commits at least its seed face, so there are
    at most as many rounds as faces, plus the closing one. *)
Definition FindAllStrips (s : NvStripifier.t) (t : Topology) (numSamples : Z)
  : res Search :=
  FindAllStrips_loop (S (length (faceInfos t))) t numSamples
    (mkSearch s (heap t) [] 0 0).

(** ** NvTriStripObjects.cpp: splitting, small strips and cache order *)

Definition count_real (fs : list NvFaceInfo.t) : Z :=
  vec_size (List.filter (fun f => negb (IsDegenerate f)) fs).

Definition empty_strip : NvStripInfo.t :=
  NvStripInfo.new (NvStripStartInfo.mk None None false) 0 (-1).

Definition push_face (s : NvStripInfo.t) (p : ptr) : NvStripInfo.t :=
  NvStripInfo.mk (NvStripInfo.m_startInfo s) (NvStripInfo.m_faces s ++ [p])
    (NvStripInfo.m_stripId s) (NvStripInfo.m_experimentId s) (NvStripInfo.visited s)
    (NvStripInfo.m_numDegenerates s) (NvStripInfo.m_Degenerates s).

(** The state of the split of one strip [as]. *)
Record Piece : Type := mkPiece {
  pc_currentStrip : NvStripInfo.t;
  pc_faceCtr : Z;
  pc_degenerateCount : Z;
  pc_bFirstTime : bool
}.

(** [while (faceCtr < threshold + (j * threshold) + degenerateCount)] *)
Fixpoint split_piece (fuel : nat) (h : Heap) (faces : NvFaceInfoVec)
  (threshold j numTimes numLeftover : Z) (c : Piece) : res Piece :=
  if pc_faceCtr c <? threshold + (j * threshold) + pc_degenerateCount c then
    match fuel with
    | O => Fault OutOfFuel
    | S fuel' =>
        p ← vec_at faces (pc_faceCtr c);
        f ← face_at h p;
        if IsDegenerate f then
          let degenerateCount := pc_degenerateCount c + 1 in
          (* last time or first time through, no need for a degenerate *)
          if (negb (pc_faceCtr c + 1 =? threshold + (j * threshold) + degenerateCount)
              || ((j =? numTimes - 1) && (numLeftover <? 4) && (0 <? numLeftover)))
             && negb (pc_bFirstTime c)
          then split_piece fuel' h faces threshold j numTimes numLeftover
                 (mkPiece (push_face (pc_currentStrip c) p) (pc_faceCtr c + 1)
                    degenerateCount (pc_bFirstTime c))
          else split_piece fuel' h faces threshold j numTimes numLeftover
                 (mkPiece (pc_currentStrip c) (pc_faceCtr c + 1)
                    degenerateCount (pc_bFirstTime c))
        else split_piece fuel' h faces threshold j numTimes numLeftover
               (mkPiece (push_face (pc_currentStrip c) p) (pc_faceCtr c + 1)
                  (pc_degenerateCount c) false)
    end
  else Ok c.

(** "way too small": [while (ctr < numLeftover)], adding to the last strip. *)
Fixpoint split_absorb (fuel : nat) (h : Heap) (faces : NvFaceInfoVec)
  (numLeftover ctr : Z) (c : Piece) : res Piece :=
  if ctr <? numLeftover then
    match fuel with
    | O => Fault OutOfFuel
    | S fuel' =>
        p ← vec_at faces (pc_faceCtr c);
        f ← face_at h p;
        if negb (IsDegenerate f) then
          split_absorb fuel' h faces numLeftover (ctr + 1)
            (mkPiece (push_face (pc_currentStrip c) p) (pc_faceCtr c + 1)
               (pc_degenerateCount c) (pc_bFirstTime c))
        else
          split_absorb fuel' h faces numLeftover ctr
            (mkPiece (push_face (pc_currentStrip c) p) (pc_faceCtr c + 1)
               (pc_degenerateCount c + 1) (pc_bFirstTime c))
    end
  else Ok c.

(** [for (j = 0; j < numTimes; j++)]: returns the pieces, [degenerateCount]
    and [numLeftover]. *)
Fixpoint split_pieces (n : nat) (h : Heap) (faces : NvFaceInfoVec)
  (threshold j numTimes numLeftover degenerateCount : Z)
  (tempStrips : NvStripInfoVec) : res (NvStripInfoVec * Z * Z) :=
  match n with
  | O => Ok (tempStrips, degenerateCount, numLeftover)
  | S n' =>
      let fuel := S (length faces) in
      c ← split_piece fuel h faces threshold j numTimes numLeftover
            (mkPiece empty_strip (j * threshold + degenerateCount) degenerateCount true);
      '(c, numLeftover') ←
        (if (j =? numTimes - 1) && (numLeftover <? 4) && (0 <? numLeftover) then
           c' ← split_absorb fuel h faces numLeftover 0 c;
           Ok (c', 0)
         else Ok (c, numLeftover));
      split_pieces n' h faces threshold (j + 1) numTimes numLeftover'
        (pc_degenerateCount c) (tempStrips ++ [pc_currentStrip c])
  end.

(** The tail piece: [while (ctr < numLeftover)] from [leftOff]. *)
Fixpoint split_tail (fuel : nat) (h : Heap) (faces : NvFaceInfoVec)
  (numLeftover ctr leftOff : Z) (bFirstTime : bool) (currentStrip : NvStripInfo.t)
  : res NvStripInfo.t :=
  if ctr <? numLeftover then
    match fuel with
    | O => Fault OutOfFuel
    | S fuel' =>
        p ← vec_at faces leftOff;
        f ← face_at h p;
        if negb (IsDegenerate f) then
          split_tail fuel' h faces numLeftover (ctr + 1) (leftOff + 1) false
            (push_face currentStrip p)
        else if negb bFirstTime then
          split_tail fuel' h faces numLeftover ctr (leftOff + 1) bFirstTime
            (push_face currentStrip p)
        else
          split_tail fuel' h faces numLeftover ctr (leftOff + 1) bFirstTime
            currentStrip
    end
  else Ok currentStrip.

(** The pieces of one committed strip. *)
Definition split_strip (h : Heap) (threshold : Z) (faces : NvFaceInfoVec)
  : res NvStripInfoVec :=
  fs ← NvStripInfo.deref_faces h faces;
  let actualStripSize := count_real fs in
  if threshold <? actualStripSize then
    let numTimes := Z.quot actualStripSize threshold in
    let numLeftover := Z.rem actualStripSize threshold in
    '(pieces, degenerateCount, numLeftover) ←
      split_pieces (Z.to_nat numTimes) h faces threshold 0 numTimes numLeftover 0 [];
    let leftOff := numTimes * threshold + degenerateCount in
    if negb (numLeftover =? 0) then
      tail ← split_tail (S (length faces)) h faces numLeftover 0 leftOff true empty_strip;
      Ok (pieces ++ [tail])
    else Ok pieces
  else
    Ok [NvStripInfo.mk (NvStripStartInfo.mk None None false) faces 0 (-1) false 0 []].

Fixpoint split_all (h : Heap) (threshold : Z) (allStrips : NvStripInfoVec)
  : res NvStripInfoVec :=
  match allStrips with
  | [] => Ok []
  | s :: rest =>
      pieces ← split_strip h threshold (NvStripInfo.m_faces s);
      more ← split_all h threshold rest;
      Ok (pieces ++ more)
  end.

(** The first loop of [RemoveSmallStrips]: the big strips and the faces of
    the small ones. *)
Fixpoint RemoveSmallStrips_partition (minStripLength : Z) (allStrips : NvStripInfoVec)
  : NvStripInfoVec * NvFaceInfoVec :=
  match allStrips with
  | [] => ([], [])
  | s :: rest =>
      let '(big, tempFaceList) := RemoveSmallStrips_partition minStripLength rest in
      if vec_size (NvStripInfo.m_faces s) <? minStripLength
      then (big, NvStripInfo.m_faces s ++ tempFaceList)
      else (s :: big, tempFaceList)
  end.

(** The scan for the best unvisited face given the current cache. *)
Fixpoint best_face (h : Heap) (vcache : VertexCache.t)
  (tempFaceList : NvFaceInfoVec) (bVisitedList : list bool) (i : Z)
  (bestNumHits bestIndex : Z) : res (Z * Z) :=
  match tempFaceList, bVisitedList with
  | p :: rest, visited :: vrest =>
      if (visited : bool) then
        best_face h vcache rest vrest (i + 1) bestNumHits bestIndex
      else
        f ← face_at h p;
        let numHits := CalcNumHitsFace vcache f in
        if bestNumHits <? numHits
        then best_face h vcache rest vrest (i + 1) numHits i
        else best_face h vcache rest vrest (i + 1) bestNumHits bestIndex
  | _, _ => Ok (bestNumHits, bestIndex)
  end.

(** [while (1)]: the reordering of the leftover faces; returns [faceList]
    and the cache at the end. *)
Fixpoint RemoveSmallStrips_order (fuel : nat) (h : Heap)
  (tempFaceList : NvFaceInfoVec) (bVisitedList : list bool)
  (vcache : VertexCache.t) (bestIndex : Z) (faceList : NvFaceInfoVec)
  : res (NvFaceInfoVec * VertexCache.t) :=
  match fuel with
  | O => Fault OutOfFuel
  | S fuel' =>
      '(bestNumHits, bestIndex) ←
        best_face h vcache tempFaceList bVisitedList 0 (-1) bestIndex;
      if bestNumHits =? -1 then Ok (faceList, vcache)
      else
        bVisitedList' ← vec_set bVisitedList bestIndex true;
        p ← vec_at tempFaceList bestIndex;
        f ← face_at h p;
        vcache' ← UpdateCacheFace vcache f;
        RemoveSmallStrips_order fuel' h tempFaceList bVisitedList' vcache'
          bestIndex (faceList ++ [p])
  end.

(** Returns [allBigStrips], [faceList] and the cache of the reordering. *)
Definition RemoveSmallStrips (s : NvStripifier.t) (h : Heap)
  (allStrips : NvStripInfoVec)
  : res (NvStripInfoVec * NvFaceInfoVec * VertexCache.t) :=
  let '(allBigStrips, tempFaceList) :=
    RemoveSmallStrips_partition (NvStripifier.minStripLength s) allStrips in
  let vcache := VertexCache.new (NvStripifier.cacheSize s) in
  if negb (vec_size tempFaceList =? 0) then
    '(faceList, vcache') ←
      RemoveSmallStrips_order (S (length tempFaceList)) h tempFaceList
        (replicate (length tempFaceList) false) vcache 0 [];
    Ok (allBigStrips, faceList, vcache')
  else Ok (allBigStrips, [], vcache).

(** ** NvTriStripObjects.cpp: winding and the first triangle of a strip *)

Definition NextIsCW (numIndices : Z) : bool := Z.rem numIndices 2 =? 0.

Definition IsCW (faceInfo : NvFaceInfo.t) (v0 v1 : Z) : bool :=
  if NvFaceInfo.m_v0 faceInfo =? v0 then NvFaceInfo.m_v1 faceInfo =? v1
  else if NvFaceInfo.m_v1 faceInfo =? v0 then NvFaceInfo.m_v2 faceInfo =? v1
  else NvFaceInfo.m_v0 faceInfo =? v1.

Definition set_vertices (f : NvFaceInfo.t) (v0 v1 v2 : Z) : NvFaceInfo.t :=
  NvFaceInfo.mk v0 v1 v2 (NvFaceInfo.m_stripId f) (NvFaceInfo.m_testStripId f)
    (NvFaceInfo.m_experimentId f).

Definition swap_v0_v1 (f : NvFaceInfo.t) : NvFaceInfo.t :=
  set_vertices f (NvFaceInfo.m_v1 f) (NvFaceInfo.m_v0 f) (NvFaceInfo.m_v2 f).
Definition swap_v0_v2 (f : NvFaceInfo.t) : NvFaceInfo.t :=
  set_vertices f (NvFaceInfo.m_v2 f) (NvFaceInfo.m_v1 f) (NvFaceInfo.m_v0 f).
Definition swap_v1_v2 (f : NvFaceInfo.t) : NvFaceInfo.t :=
  set_vertices f (NvFaceInfo.m_v0 f) (NvFaceInfo.m_v2 f) (NvFaceInfo.m_v1 f).

(** [tFirstFace] after the reordering that puts the unique vertex first and
    the shared vertex last.  [CreateStrips] tests the second face for
    degeneracy ([degenerateCheck = true]); the copy of this block in
    [SplitUpStripsAndOptimize] does not. *)
Definition first_face (degenerateCheck : bool) (faces : list NvFaceInfo.t)
  (f0 : NvFaceInfo.t) : NvFaceInfo.t :=
  let tFirstFace :=
    NvFaceInfo.new (NvFaceInfo.m_v0 f0) (NvFaceInfo.m_v1 f0) (NvFaceInfo.m_v2 f0) in
  match faces with
  | _ :: f1 :: more =>
      let nUnique := GetUniqueVertexInB f1 tFirstFace in
      let tFirstFace :=
        if nUnique =? NvFaceInfo.m_v1 tFirstFace then swap_v0_v1 tFirstFace
        else if nUnique =? NvFaceInfo.m_v2 tFirstFace then swap_v0_v2 tFirstFace
        else tFirstFace in
      match more with
      | f2 :: _ =>
          if degenerateCheck && IsDegenerate f1 then
            let pivot := NvFaceInfo.m_v1 f1 in
            if NvFaceInfo.m_v1 tFirstFace =? pivot then swap_v1_v2 tFirstFace
            else tFirstFace
          else
            let '(nShared0, nShared1) := GetSharedVertices f2 tFirstFace in
            if (nShared0 =? NvFaceInfo.m_v1 tFirstFace) && (nShared1 =? -1)
            then swap_v1_v2 tFirstFace
            else tFirstFace
      | [] => tFirstFace
      end
  | _ => tFirstFace
  end.

(** ** NvTriStripObjects.cpp: the cache-aware order of the pieces *)

Definition f32_neg_one : f32 := SFopp f32_one.
Definition f32_ge (a b : f32) : bool := SFleb b a.
Definition f32_lt (a b : f32) : bool := SFltb a b.
Definition f32_eq (a b : f32) : bool := SFeqb a b.

Fixpoint CalcNumHitsStrip_count (vcache : VertexCache.t) (faces : list NvFaceInfo.t)
  (numHits numFaces : Z) : Z * Z :=
  match faces with
  | [] => (numHits, numFaces)
  | f :: rest =>
      CalcNumHitsStrip_count vcache rest (numHits + CalcNumHitsFace vcache f)
        (numFaces + 1)
  end.

Definition CalcNumHitsStrip (vcache : VertexCache.t) (faces : list NvFaceInfo.t) : f32 :=
  let '(numHits, numFaces) := CalcNumHitsStrip_count vcache faces 0 0 in
  if negb (numFaces =? 0) then f32_div (f32_of_Z numHits) (f32_of_Z numFaces)
  else f32_zero.

Definition NumNeighbors (h : Heap) (p : ptr) (edgeInfoVec : NvEdgeInfoVec) : res Z :=
  face ← face_at h p;
  let numNeighbors := 0 in
  o01 ← FindOtherFace h edgeInfoVec (NvFaceInfo.m_v0 face) (NvFaceInfo.m_v1 face) p;
  let numNeighbors := if o01 is Some _ then numNeighbors + 1 else numNeighbors in
  o12 ← FindOtherFace h edgeInfoVec (NvFaceInfo.m_v1 face) (NvFaceInfo.m_v2 face) p;
  let numNeighbors := if o12 is Some _ then numNeighbors + 1 else numNeighbors in
  o20 ← FindOtherFace h edgeInfoVec (NvFaceInfo.m_v2 face) (NvFaceInfo.m_v0 face) p;
  let numNeighbors := if o20 is Some _ then numNeighbors + 1 else numNeighbors in
  Ok numNeighbors.

Fixpoint sum_neighbors (h : Heap) (edgeInfos : NvEdgeInfoVec) (faces : NvFaceInfoVec)
  (acc : Z) : res Z :=
  match faces with
  | [] => Ok acc
  | p :: rest => n ← NumNeighbors h p edgeInfos; sum_neighbors h edgeInfos rest (acc + n)
  end.

(** The strip with least number of neighbors per face. *)
Fixpoint first_strip (h : Heap) (edgeInfos : NvEdgeInfoVec) (strips : NvStripInfoVec)
  (j firstIndex : Z) (minCost : f32) : res Z :=
  match strips with
  | [] => Ok firstIndex
  | ts :: rest =>
      numNeighbors ← sum_neighbors h edgeInfos (NvStripInfo.m_faces ts) 0;
      let currCost :=
        f32_div (f32_of_Z numNeighbors) (f32_of_Z (vec_size (NvStripInfo.m_faces ts))) in
      if f32_lt currCost minCost
      then first_strip h edgeInfos rest (j + 1) j currCost
      else first_strip h edgeInfos rest (j + 1) firstIndex minCost
  end.

Definition set_visited (s : NvStripInfo.t) : NvStripInfo.t :=
  NvStripInfo.mk (NvStripInfo.m_startInfo s) (NvStripInfo.m_faces s)
    (NvStripInfo.m_stripId s) (NvStripInfo.m_experimentId s) true
    (NvStripInfo.m_numDegenerates s) (NvStripInfo.m_Degenerates s).

(** The scan for the best strip to add next, given the current cache. *)
Fixpoint best_strip (h : Heap) (vcache : VertexCache.t) (bWantsCW : bool)
  (strips : NvStripInfoVec) (i : Z) (bestNumHits : f32) (bestIndex : Z)
  : res (f32 * Z) :=
  match strips with
  | [] => Ok (bestNumHits, bestIndex)
  | strip :: rest =>
      if NvStripInfo.visited strip then
        best_strip h vcache bWantsCW rest (i + 1) bestNumHits bestIndex
      else
        fs ← NvStripInfo.deref_faces h (NvStripInfo.m_faces strip);
        let numHits := CalcNumHitsStrip vcache fs in
        if f32_gt numHits bestNumHits then
          best_strip h vcache bWantsCW rest (i + 1) numHits i
        else if f32_ge numHits bestNumHits then
          (* check previous strip to see if this one requires it to switch polarity *)
          f0 ← vec_at fs 0;
          let tFirstFace := first_face false fs f0 in
          if eqb bWantsCW
               (IsCW f0 (NvFaceInfo.m_v0 tFirstFace) (NvFaceInfo.m_v1 tFirstFace))
          then best_strip h vcache bWantsCW rest (i + 1) bestNumHits i
          else best_strip h vcache bWantsCW rest (i + 1) bestNumHits bestIndex
        else best_strip h vcache bWantsCW rest (i + 1) bestNumHits bestIndex
  end.

(** [while (1)] of the optimizer; returns [outStrips] and the cache. *)
Fixpoint optimize_order (fuel : nat) (h : Heap) (tempStrips2 : NvStripInfoVec)
  (vcache : VertexCache.t) (bWantsCW : bool) (bestIndex : Z)
  (outStrips : NvStripInfoVec) : res (NvStripInfoVec * VertexCache.t) :=
  match fuel with
  | O => Fault OutOfFuel
  | S fuel' =>
      '(bestNumHits, bestIndex) ←
        best_strip h vcache bWantsCW tempStrips2 0 f32_neg_one bestIndex;
      if f32_eq bestNumHits f32_neg_one then Ok (outStrips, vcache)
      else
        strip ← vec_at tempStrips2 bestIndex;
        let strip := set_visited strip in
        tempStrips2' ← vec_set tempStrips2 bestIndex strip;
        fs ← NvStripInfo.deref_faces h (NvStripInfo.m_faces strip);
        vcache' ← UpdateCacheStrip vcache fs;
        let bWantsCW' :=
          if Z.rem (vec_size (NvStripInfo.m_faces strip)) 2 =? 0
          then bWantsCW else negb bWantsCW in
        optimize_order fuel' h tempStrips2' vcache' bWantsCW' bestIndex
          (outStrips ++ [strip])
  end.

(** What [SplitUpStripsAndOptimize] hands back, with the two simulated
    caches it used (the one of [RemoveSmallStrips] and its own). *)
Record Optimized : Type := mkOptimized {
  op_outStrips : NvStripInfoVec;
  op_outFaceList : NvFaceInfoVec;
  op_faceCache : VertexCache.t;
  op_stripCache : VertexCache.t
}.

Definition SplitUpStripsAndOptimize (s : NvStripifier.t) (h : Heap)
  (allStrips : NvStripInfoVec) (edgeInfos : NvEdgeInfoVec) : res Optimized :=
  let threshold := NvStripifier.cacheSize s in
  (* split up strips into threshold-sized pieces *)
  tempStrips ← split_all h threshold allStrips;
  (* add small strips to face list *)
  '(tempStrips2, outFaceList, faceCache) ← RemoveSmallStrips s h tempStrips;
  let vcache := VertexCache.new (NvStripifier.cacheSize s) in
  if negb (vec_size tempStrips2 =? 0) then
    firstIndex ← first_strip h edgeInfos tempStrips2 0 0 (f32_of_Z 10000);
    first ← vec_at tempStrips2 firstIndex;
    fs ← NvStripInfo.deref_faces h (NvStripInfo.m_faces first);
    vcache1 ← UpdateCacheStrip vcache fs;
    let first := set_visited first in
    tempStrips2' ← vec_set tempStrips2 firstIndex first;
    let bWantsCW := Z.rem (vec_size (NvStripInfo.m_faces first)) 2 =? 0 in
    '(outStrips, vcache2) ←
      optimize_order (S (length tempStrips2)) h tempStrips2' vcache1 bWantsCW 0 [first];
    Ok (mkOptimized outStrips outFaceList faceCache vcache2)
  else Ok (mkOptimized [] outFaceList faceCache vcache).

(** ** NvTriStripObjects.cpp: [CreateStrips] and [Stripify] *)

(** What [CreateStrips] carries from strip to strip. *)
Record Emitter : Type := mkEmitter {
  em_stripIndices : list Z;
  em_tLastFace : NvFaceInfo.t;
  em_accountForNegatives : Z;
  em_numSeparateStrips : Z
}.

(** [for (j = 1; j < nStripFaceCount; j++)] *)
Fixpoint CreateStrips_rest (faces : list NvFaceInfo.t) (stripIndices : list Z)
  (tLastFace : NvFaceInfo.t) : list Z * NvFaceInfo.t :=
  match faces with
  | [] => (stripIndices, tLastFace)
  | f :: rest =>
      let nUnique := GetUniqueVertexInB tLastFace f in
      if negb (nUnique =? -1) then
        CreateStrips_rest rest (stripIndices ++ [nUnique])
          (set_vertices tLastFace (NvFaceInfo.m_v1 tLastFace)
             (NvFaceInfo.m_v2 tLastFace) nUnique)
      else
        (* we've hit a degenerate *)
        CreateStrips_rest rest (stripIndices ++ [NvFaceInfo.m_v2 f])
          (set_vertices tLastFace (NvFaceInfo.m_v0 f) (NvFaceInfo.m_v1 f)
             (NvFaceInfo.m_v2 f))
  end.

(** The body of the loop over the strips, for strip number [i]. *)
Definition CreateStrips_strip (bStitchStrips : bool) (nStripCount i : Z)
  (faces : list NvFaceInfo.t) (e : Emitter) : res Emitter :=
  (* Handle the first face in the strip *)
  f0 ← vec_at faces 0;
  let tFirstFace := first_face true faces f0 in
  let v0 := NvFaceInfo.m_v0 tFirstFace in
  let v1 := NvFaceInfo.m_v1 tFirstFace in
  let v2 := NvFaceInfo.m_v2 tFirstFace in
  let stripIndices := em_stripIndices e in
  let stripIndices :=
    if (i =? 0) || negb bStitchStrips then
      if negb (IsCW f0 v0 v1) then stripIndices ++ [v0] else stripIndices
    else
      (* Double tap the first in the new strip *)
      let stripIndices := stripIndices ++ [v0] in
      (* Check CW/CCW ordering *)
      if negb (eqb (NextIsCW (vec_size stripIndices - em_accountForNegatives e))
                   (IsCW f0 v0 v1))
      then stripIndices ++ [v0]
      else stripIndices in
  let stripIndices := stripIndices ++ [v0; v1; v2] in
  let '(stripIndices, tLastFace) :=
    CreateStrips_rest (tail faces) stripIndices tFirstFace in
  (* Double tap between strips. *)
  let e' :=
    if bStitchStrips then
      mkEmitter
        (if negb (i =? nStripCount - 1)
         then stripIndices ++ [NvFaceInfo.m_v2 tLastFace] else stripIndices)
        tLastFace (em_accountForNegatives e) (em_numSeparateStrips e)
    else
      (* -1 index indicates next strip *)
      mkEmitter (stripIndices ++ [-1]) tLastFace
        (em_accountForNegatives e + 1) (em_numSeparateStrips e + 1) in
  (* Update last face info *)
  Ok (mkEmitter (em_stripIndices e')
        (set_vertices (em_tLastFace e') (NvFaceInfo.m_v1 (em_tLastFace e'))
           (NvFaceInfo.m_v2 (em_tLastFace e')) (NvFaceInfo.m_v2 (em_tLastFace e')))
        (em_accountForNegatives e') (em_numSeparateStrips e')).

Fixpoint CreateStrips_loop (bStitchStrips : bool) (nStripCount i : Z)
  (strips : list (list NvFaceInfo.t)) (e : Emitter) : res Emitter :=
  match strips with
  | [] => Ok e
  | faces :: rest =>
      e' ← CreateStrips_strip bStitchStrips nStripCount i faces e;
      CreateStrips_loop bStitchStrips nStripCount (i + 1) rest e'
  end.

(** [allStrips] as the faces of each strip; returns [stripIndices] and
    [numSeparateStrips]. *)
Definition CreateStrips (allStrips : list (list NvFaceInfo.t)) (bStitchStrips : bool)
  : res (list Z * Z) :=
  let nStripCount := vec_size allStrips in
  e ← CreateStrips_loop bStitchStrips nStripCount 0 allStrips
        (mkEmitter [] (NvFaceInfo.new 0 0 0) 0 0);
  Ok (em_stripIndices e,
      if bStitchStrips then 1 else em_numSeparateStrips e).

Definition CACHE_INEFFICIENCY : Z := 6.

(** What [Stripify] leaves behind: [outStrips] and [outFaceList] with the
    heap their face pointers refer to. *)
Record Stripified : Type := mkStripified {
  sf_heap : Heap;
  sf_outStrips : NvStripInfoVec;
  sf_outFaceList : NvFaceInfoVec;
  sf_optimized : Optimized
}.

(** The members of the stripifier when [Stripify] starts its work. *)
Definition Stripify_begin (in_indices : list Z) (in_cacheSize in_minStripLength : Z)
  : NvStripifier.t :=
  NvStripifier.mk in_indices
    (* the cache size, clamped to one *)
    (Z.max 1 (in_cacheSize - CACHE_INEFFICIENCY))
    in_minStripLength
    (* meshJump = 0.0f *)
    f32_zero
    (* bFirstTimeResetPoint = true *)
    true.

Definition Stripify (in_indices : list Z) (in_cacheSize in_minStripLength maxIndex : Z)
  : res Stripified :=
  (* the number of times to run the experiments *)
  let numSamples := 10 in
  let s := Stripify_begin in_indices in_cacheSize in_minStripLength in
  (* build the stripification info *)
  t ← BuildStripifyInfo (NvStripifier.indices s) maxIndex;
  (* stripify *)
  r ← FindAllStrips s t numSamples;
  (* split up the strips into cache friendly pieces, optimize them *)
  o ← SplitUpStripsAndOptimize (sr_stripifier r) (sr_heap r) (sr_allStrips r)
        (edgeInfos t);
  Ok (mkStripified (sr_heap r) (op_outStrips o) (op_outFaceList o) o).

(** ** NvTriStrip.cpp: [GenerateStrips] *)

(** The four configuration variables of the module. *)
Record Config : Type := mkConfig {
  cacheSize : Z;
  bStitchStrips : bool;
  minStripSize : Z;
  bListsOnly : bool
}.

Definition default_config : Config := mkConfig CACHESIZE_GEFORCE1_2 true 0 false.

Fixpoint max_index (in_indices : list Z) (maxIndex : Z) : Z :=
  match in_indices with
  | [] => maxIndex
  | x :: rest => max_index rest (if maxIndex <? x then x else maxIndex)
  end.

Definition face_indices (f : NvFaceInfo.t) : list Z :=
  [wrap_size (NvFaceInfo.m_v0 f); wrap_size (NvFaceInfo.m_v1 f);
   wrap_size (NvFaceInfo.m_v2 f)].

(** The indices of the faces of a list, three per face. *)
Definition list_indices (fs : list NvFaceInfo.t) : list Z :=
  concat (map face_indices fs).

Fixpoint deref_strips (h : Heap) (strips : NvStripInfoVec)
  : res (list (list NvFaceInfo.t)) :=
  match strips with
  | [] => Ok []
  | s :: rest =>
      fs ← NvStripInfo.deref_faces h (NvStripInfo.m_faces s);
      more ← deref_strips h rest;
      Ok (fs :: more)
  end.

(** [for (i = startingLoc; i < stripIndices.size(); i++)
       if (stripIndices[i] == -1) break;] as the number of steps made. *)
Fixpoint run_length (l : list Z) : Z :=
  match l with
  | [] => 0
  | x :: rest => if x =? -1 then 0 else 1 + run_length rest
  end.

(** [strip.indices[indexCtr++] = stripIndices[i]] for
    [startingLoc <= i < startingLoc + stripLength]. *)
Fixpoint copy_indices (n : nat) (stripIndices : list Z) (i : Z) : res (list Z) :=
  match n with
  | O => Ok []
  | S n' =>
      x ← vec_at stripIndices i;
      more ← copy_indices n' stripIndices (i + 1);
      Ok (wrap_size x :: more)
  end.

(** The loop that cuts [stripIndices] into the STRIP groups. *)
Fixpoint strip_groups (n : nat) (bStitchStrips : bool) (stripIndices : list Z)
  (startingLoc : Z) : res (list PrimitiveGroup.t) :=
  match n with
  | O => Ok []
  | S n' =>
      let stripLength :=
        if negb bStitchStrips
        then run_length (drop (Z.to_nat startingLoc) stripIndices)
        else vec_size stripIndices in
      idx ← copy_indices (Z.to_nat stripLength) stripIndices startingLoc;
      more ← strip_groups n' bStitchStrips stripIndices (startingLoc + stripLength + 1);
      Ok (PrimitiveGroup.mk PrimType.PT_STRIP idx :: more)
  end.

Definition GenerateStrips (cfg : Config) (in_indices : list Z)
  : res (list PrimitiveGroup.t) :=
  (* put data in format that the stripifier likes *)
  let tempIndices := in_indices in
  let maxIndex := max_index in_indices 0 in
  (* do actual stripification *)
  sf ← Stripify tempIndices (wrap_int (cacheSize cfg)) (minStripSize cfg) maxIndex;
  tempStrips ← deref_strips (sf_heap sf) (sf_outStrips sf);
  tempFaces ← NvStripInfo.deref_faces (sf_heap sf) (sf_outFaceList sf);
  if bListsOnly cfg then
    (* if we're outputting only lists, we're done *)
    let stripFaces :=
      List.filter (fun f => negb (IsDegenerate f)) (concat tempStrips) in
    Ok [PrimitiveGroup.mk PrimType.PT_LIST
          (list_indices stripFaces ++ list_indices tempFaces)]
  else
    '(stripIndices, numSeparateStrips) ← CreateStrips tempStrips (bStitchStrips cfg);
    (* first, the strips *)
    groups ← strip_groups (Z.to_nat numSeparateStrips) (bStitchStrips cfg)
               stripIndices 0;
    (* next, the list *)
    if negb (vec_size tempFaces =? 0)
    then Ok (groups ++ [PrimitiveGroup.mk PrimType.PT_LIST (list_indices tempFaces)])
    else Ok groups.

(** ** Specification side of the reset-point search *)

(** [p] points to a face that no committed strip owns. *)
Definition unclaimed (h : Heap) (p : ptr) : bool :=
  match faces h !! p with
  | Some f => NvFaceInfo.m_stripId f <? 0
  | None => false
  end.

(** [p] points to a face that is permanently claimed. *)
Definition claimed (h : Heap) (p : ptr) : Prop :=
  exists f, faces h !! p = Some f /\ 0 <= NvFaceInfo.m_stripId f.

(** The first unclaimed face met from [startPoint] on, going forward with
    wrap-around. *)
Definition first_unclaimed_from (h : Heap) (faceInfos : NvFaceInfoVec)
  (startPoint : Z) : option ptr :=
  List.find (unclaimed h) (rotate (Z.to_nat startPoint) faceInfos).

(** ** Small meshes used in examples *)

Definition topology_of (indices : list Z) : Topology :=
  match BuildStripifyInfo indices (max_index indices 0) with
  | Ok t => t
  | Fault _ => mkTopology (mkHeap [] []) [] []
  end.

Definition one_triangle : Topology := Eval vm_compute in topology_of [0; 1; 2].

(** ** Specification side of the scoring *)

(** The faces of the strips of an experiment that are not synthesized
    degenerates: sum of face-list lengths minus sum of degenerate counts. *)
Definition real_face_total (strips : NvStripInfoVec) : Z :=
  foldr (fun s acc =>
           vec_size (NvStripInfo.m_faces s) - NvStripInfo.m_numDegenerates s + acc)
        0 strips.

(** The faces of the strips of an experiment, degenerates included. *)
Definition face_total (strips : NvStripInfoVec) : Z :=
  foldr (fun s acc => vec_size (NvStripInfo.m_faces s) + acc) 0 strips.

(** A strip holds its synthesized degenerates among its faces. *)
Definition degenerates_ok (s : NvStripInfo.t) : Prop :=
  0 <= NvStripInfo.m_numDegenerates s <= vec_size (NvStripInfo.m_faces s).

Definition two_triangles : Topology :=
  Eval vm_compute in topology_of [0; 1; 2; 2; 1; 3].

(** ** Predicates used in the statements *)

(** An old index the remap table can hold. *)
Definition in_range (numVerts : Z) (o : Z) : Prop := 0 <= o < numVerts.

(** The loop invariant of [RemapIndices]: [ord] lists the old indices met so
    far, in order; the cache maps each of them to its position and every
    other index to the "unseen" mark. *)
Definition remap_inv (numVerts : Z) (ord cache : list Z) (ctr : Z) : Prop :=
  length cache = Z.to_nat numVerts /\
  ctr = Z.of_nat (length ord) /\
  NoDup ord /\
  Forall (in_range numVerts) ord /\
  (forall o, in_range numVerts o ->
     ((o ∉ ord) /\ cache !! Z.to_nat o = Some SIZE_MAX) \/
     (exists n, ord !! n = Some o /\ cache !! Z.to_nat o = Some (Z.of_nat n))).

(** What one output index says about the input index at its position. *)
Definition renumbered (order : list Z) (old new : Z) : Prop :=
  0 <= new /\ order !! Z.to_nat new = Some old.

Definition group_renumbered (order : list Z)
  (g g' : PrimitiveGroup.t) : Prop :=
  PrimitiveGroup.type g' = PrimitiveGroup.type g /\
  Forall2 (renumbered order) (PrimitiveGroup.indices g) (PrimitiveGroup.indices g').

(** A simulated cache with at least one slot and no vertex held twice. *)
Definition cache_ok (c : VertexCache.t) : Prop :=
  c <> [] /\ slots_distinct c = true.

(** A face none of whose vertices is the restart mark. *)
Definition real_vertices (f : NvFaceInfo.t) : Prop :=
  NvFaceInfo.m_v0 f <> -1 /\ NvFaceInfo.m_v1 f <> -1 /\ NvFaceInfo.m_v2 f <> -1.

(** The runs of an index stream, each followed by the restart mark. *)
Definition terminated (runs : list (list Z)) : list Z :=
  concat (map (fun run => run ++ [-1]) runs).


(** A float with a positive finite value and its magnitude
    [digits + exponent]. *)
Definition positive_finite (x : f32) (lo hi : Z) : Prop :=
  exists m e, x = S754_finite false m e /\ lo <= Z.pos (digits2_pos m) + e <= hi.

(** Well-formed edge structure: chain heads and [next] pointers point into
    the arena, and every [next] pointer points to an older edge. *)
Definition edges_wf (h : Heap) (edgeInfos : NvEdgeInfoVec) : Prop :=
  (forall (v q : nat), edgeInfos !! v = Some (Some q) -> (q < length (edges h))%nat) /\
  (forall (i : nat) (e : NvEdgeInfo.t),
      edges h !! i = Some e ->
      (forall q, NvEdgeInfo.m_nextV0 e = Some q -> (q < i)%nat) /\
      (forall q, NvEdgeInfo.m_nextV1 e = Some q -> (q < i)%nat)).

(** An index the topology can hold: inside [edgeInfos] and an [int]. *)
Definition vertex_ok (edgeInfos : NvEdgeInfoVec) (v : Z) : Prop :=
  0 <= v < vec_size edgeInfos /\ v < 2 ^ 31.

(** The edge at [p] has no second face. *)
Definition no_face1 (h : Heap) (p : nat) : Prop :=
  exists e, edges h !! p = Some e /\ NvEdgeInfo.m_face1 e = None.

(** A value of [meshJump] that lets the jump land inside the table: [0.0f],
    or a normalized positive number of at most [15938357 * 2^-24], which is
    the [float] nearest to 0.95. *)
Definition meshJump_small (meshJump : f32) : Prop :=
  meshJump = S754_zero false \/
  exists mm em,
    meshJump = S754_finite false mm em /\
    Z.pos (digits2_pos mm) = 24 /\
    -28 <= em <= -24 /\
    Z.pos mm <= 15938357 * 2 ^ (- 24 - em).

Definition meshJump_smallb (meshJump : f32) : bool :=
  match meshJump with
  | S754_zero false => true
  | S754_finite false mm em =>
      (Z.pos (digits2_pos mm) =? 24) && (-28 <=? em) && (em <=? -24)
      && (Z.pos mm <=? 15938357 * 2 ^ (- 24 - em))
  | _ => false
  end.

(** What a walk along an edge chain looks at in an edge. *)
Definition edge_keys (e : NvEdgeInfo.t) : Z * Z * option nat * option nat :=
  (NvEdgeInfo.m_v0 e, NvEdgeInfo.m_v1 e, NvEdgeInfo.m_nextV0 e, NvEdgeInfo.m_nextV1 e).

(** [h'] has the edges of [h], up to their faces, and maybe more. *)
Definition heap_same_chains (h h' : Heap) : Prop :=
  forall (i : nat) (e : NvEdgeInfo.t),
    edges h !! i = Some e ->
    exists e', edges h' !! i = Some e' /\ edge_keys e' = edge_keys e.

(** The test and the step of [FindEdgeInfo] at one edge of the chain of
    [v0]. *)
Definition edge_hit (e : NvEdgeInfo.t) (v0 v1 : Z) : bool :=
  if NvEdgeInfo.m_v0 e =? v0 then NvEdgeInfo.m_v1 e =? v1
  else NvEdgeInfo.m_v0 e =? v1.

Definition edge_step (e : NvEdgeInfo.t) (v0 : Z) : option nat :=
  if NvEdgeInfo.m_v0 e =? v0 then NvEdgeInfo.m_nextV0 e else NvEdgeInfo.m_nextV1 e.

(** The chain that starts at [infoIter] holds the edge [(v0, v1)]. *)
Inductive finds (h : Heap) (v0 v1 : Z) : option nat -> Prop :=
| finds_here (p : nat) (e : NvEdgeInfo.t) :
    edges h !! p = Some e -> edge_hit e v0 v1 = true ->
    finds h v0 v1 (Some p)
| finds_next (p : nat) (e : NvEdgeInfo.t) :
    edges h !! p = Some e -> edge_hit e v0 v1 = false ->
    finds h v0 v1 (edge_step e v0) ->
    finds h v0 v1 (Some p).

(** The edge [(v0, v1)] is in the chain of [v0]. *)
Definition edge_linked (h : Heap) (edgeInfos : NvEdgeInfoVec) (v0 v1 : Z) : Prop :=
  0 <= v0 /\
  exists head, edgeInfos !! Z.to_nat v0 = Some head /\ finds h v0 v1 head.

(** Every face of the table has its three edges in the chains. *)
Definition faces_linked (t : Topology) : Prop :=
  Forall (fun p =>
            exists f,
              faces (heap t) !! p = Some f /\
              edge_linked (heap t) (edgeInfos t) (NvFaceInfo.m_v0 f) (NvFaceInfo.m_v1 f) /\
              edge_linked (heap t) (edgeInfos t) (NvFaceInfo.m_v1 f) (NvFaceInfo.m_v2 f) /\
              edge_linked (heap t) (edgeInfos t) (NvFaceInfo.m_v2 f) (NvFaceInfo.m_v0 f))
         (faceInfos t).

(** The invariant of the triangle loop of [BuildStripifyInfo]. *)
Definition topology_ok (t : Topology) : Prop :=
  edges_wf (heap t) (edgeInfos t) /\
  Forall (fun q => (q < length (faces (heap t)))%nat) (faceInfos t) /\
  faces_linked t.

(** ** VertexCache.h: [Copy] and runs of [AddEntry] *)

(** [for (i = 0; i < numEntries; i++) inVcache->Set(i, entries[i]);] with the
    target cache as second argument and as result. *)
Fixpoint VertexCache_Copy_loop (n : nat) (i : Z) (entries inVcache : list Z)
  : res (list Z) :=
  match n with
  | O => Ok inVcache
  | S n' =>
      e ← VertexCache.At entries i;
      inVcache' ← VertexCache.Set_ inVcache i e;
      VertexCache_Copy_loop n' (i + 1) entries inVcache'
  end.

Definition VertexCache_Copy (c inVcache : list Z) : res (list Z) :=
  VertexCache_Copy_loop (Z.to_nat (VertexCache.numEntries c)) 0 c inVcache.

(** [AddEntry] for each element of [entries], first to last. *)
Fixpoint AddEntry_all (c : list Z) (entries : list Z) : res (list Z) :=
  match entries with
  | [] => Ok c
  | v :: rest => '(_, c') ← VertexCache.AddEntry c v; AddEntry_all c' rest
  end.

(** ** Words for the statements about faces *)

(** The vertices of a face, in its own order. *)
Definition face_vertices (f : NvFaceInfo.t) : list Z :=
  [NvFaceInfo.m_v0 f; NvFaceInfo.m_v1 f; NvFaceInfo.m_v2 f].

(** The directed edges of a face, in its winding order. *)
Definition face_edges (f : NvFaceInfo.t) : list (Z * Z) :=
  [(NvFaceInfo.m_v0 f, NvFaceInfo.m_v1 f);
   (NvFaceInfo.m_v1 f, NvFaceInfo.m_v2 f);
   (NvFaceInfo.m_v2 f, NvFaceInfo.m_v0 f)].

(** A strip that has been told that it is real: [m_experimentId = -1]. *)
Definition committed (strip : NvStripInfo.t) : NvStripInfo.t :=
  NvStripInfo.mk (NvStripInfo.m_startInfo strip) (NvStripInfo.m_faces strip)
    (NvStripInfo.m_stripId strip) (-1) (NvStripInfo.visited strip)
    (NvStripInfo.m_numDegenerates strip) (NvStripInfo.m_Degenerates strip).

(** [h'] has the faces of [h] with their vertices, and maybe more faces. *)
Definition heap_same_vertices (h h' : Heap) : Prop :=
  forall (p : nat) (f : NvFaceInfo.t),
    faces h !! p = Some f ->
    exists f', faces h' !! p = Some f' /\ face_vertices f' = face_vertices f.

(** ** Specification side of the face table *)

(** The triangles of an index list; one or two indices left over at the end
    are not a triangle. *)
Fixpoint triangles (indices : list Z) : list (Z * Z * Z) :=
  match indices with
  | v0 :: v1 :: v2 :: rest => (v0, v1, v2) :: triangles rest
  | _ => []
  end.

Definition face_triple (f : NvFaceInfo.t) : Z * Z * Z :=
  (NvFaceInfo.m_v0 f, NvFaceInfo.m_v1 f, NvFaceInfo.m_v2 f).

(** One more triangle for a table without degenerate triangles and without
    a triangle listed twice. *)
Definition add_triangle (table : list (Z * Z * Z)) (tr : Z * Z * Z)
  : list (Z * Z * Z) :=
  if IsDegenerate3 tr.1.1 tr.1.2 tr.2 || bool_decide (tr ∈ table)
  then table else table ++ [tr].

Definition distinct_triangles (indices : list Z) : list (Z * Z * Z) :=
  foldl add_triangle [] (triangles indices).

(** The face table of [t] lists faces with the vertex triples [table]. *)
Definition table_triples (t : Topology) (table : list (Z * Z * Z)) : Prop :=
  Forall2 (fun p tr => exists f, faces (heap t) !! p = Some f /\ face_triple f = tr)
          (faceInfos t) table.

(** The faces of [tempFaceList] that [bVisitedList] does not mark. *)
Fixpoint unvisited_faces (tempFaceList : NvFaceInfoVec) (bVisitedList : list bool)
  : NvFaceInfoVec :=
  match tempFaceList, bVisitedList with
  | p :: rest, visited :: vrest =>
      if (visited : bool) then unvisited_faces rest vrest
      else p :: unvisited_faces rest vrest
  | _, _ => []
  end.

(** ** Specification side of the marks *)

(** Strip [s] passes over the face at [p]: [IsMarked] says yes. *)
Definition marked (s : NvStripInfo.t) (h : Heap) (p : ptr) : Prop :=
  exists f, faces h !! p = Some f /\ NvStripInfo.IsMarked s f = true.

(** The face at [p] bears the mark of strip [s] itself. *)
Definition taken_by (s : NvStripInfo.t) (h : Heap) (p : ptr) : Prop :=
  marked s h p /\ NvStripInfo.IsInStrip s h (Some p) = Ok true.

(** From [h] to [h'] strip [s] took the faces [added], each of them free
    before, and nothing else happened; an experiment claims no face for
    good. *)
Definition takes (s : NvStripInfo.t) (h h' : Heap) (added : NvFaceInfoVec) : Prop :=
  edges h' = edges h /\
  heap_same_vertices h h' /\
  (forall q, marked s h q -> marked s h' q) /\
  (forall q, taken_by s h q -> taken_by s h' q) /\
  Forall (taken_by s h') added /\
  Forall (fun p => ~ marked s h p) added /\
  NoDup added /\
  (forall q, q ∉ added -> faces h' !! q = faces h !! q) /\
  (NvStripInfo.IsExperiment s = true -> forall q, claimed h' q <-> claimed h q).

(** ** Specification side of the search for strips *)

(** The faces of the strips of a list, strip after strip. *)
Definition strips_faces (strips : NvStripInfoVec) : NvFaceInfoVec :=
  concat (map NvStripInfo.m_faces strips).








(** ** Specification side of the splitting *)

(** The face at [p] is there and is not degenerate. *)
Definition real_face (h : Heap) (p : ptr) : bool :=
  match faces h !! p with
  | Some f => negb (IsDegenerate f)
  | None => false
  end.

Definition real_faces (h : Heap) (ps : NvFaceInfoVec) : NvFaceInfoVec :=
  List.filter (real_face h) ps.

Definition real_count (h : Heap) (ps : NvFaceInfoVec) : Z :=
  vec_size (real_faces h ps).

(** [out] is [seg] without some of its degenerate faces, in the same
    order. *)
Definition keeps_real (h : Heap) (seg out : NvFaceInfoVec) : Prop :=
  sublist out seg /\ real_faces h out = real_faces h seg.

(** ** Specification side of the cache order *)

(** The strips that the optimizer has not put out yet. *)
Definition unvisited_strips (strips : NvStripInfoVec) : NvStripInfoVec :=
  List.filter (fun s => negb (NvStripInfo.visited s)) strips.

(** A hit rate: zero or a positive finite number. *)
Definition hits_ok (x : f32) : Prop :=
  x = S754_zero false \/ exists m e, x = S754_finite false m e.

(** ** Specification side of where the faces of a strip come from *)








(** A triangle with three different corners. *)
Definition proper_triangle (tr : Z * Z * Z) : Prop :=
  IsDegenerate3 tr.1.1 tr.1.2 tr.2 = false.

#[global] Instance proper_triangle_dec (tr : Z * Z * Z) : Decision (proper_triangle tr) :=
  bool_eq_dec (IsDegenerate3 tr.1.1 tr.1.2 tr.2) false.


(** ** Specification side of where the indices come from *)

(** The three vertices of [f] satisfy [P]. *)
Definition vertices_in (P : Z -> Prop) (f : NvFaceInfo.t) : Prop :=
  P (NvFaceInfo.m_v0 f) /\ P (NvFaceInfo.m_v1 f) /\ P (NvFaceInfo.m_v2 f).

(** Every vertex of a face or of an edge of the heap satisfies [P]. *)
Definition heap_known (P : Z -> Prop) (h : Heap) : Prop :=
  Forall (vertices_in P) (faces h) /\
  Forall (fun e => P (NvEdgeInfo.m_v0 e) /\ P (NvEdgeInfo.m_v1 e)) (edges h).

(* ===================================================================== *)
(** * Part II: properties                                                 *)
(* ===================================================================== *)

(** ** Vectors *)

Lemma vec_at_of_nat {A : Type} (v : list A) (i : nat) (x : A) :
  v !! i = Some x -> vec_at v (Z.of_nat i) = Ok x.
Proof.
  intros H. unfold vec_at.
  destruct (Z.ltb_spec (Z.of_nat i) 0) as [Hneg|_]; [lia|].
  now rewrite Nat2Z.id, H.
Qed.

Lemma vec_at_Ok {A : Type} (v : list A) (i : Z) (x : A) :
  vec_at v i = Ok x <-> 0 <= i /\ v !! Z.to_nat i = Some x.
Proof.
  unfold vec_at. destruct (Z.ltb_spec i 0) as [Hneg|Hpos].
  - split; [discriminate | lia].
  - destruct (v !! Z.to_nat i) as [y|]; split.
    + intros [= ->]. auto.
    + intros [_ [= ->]]. reflexivity.
    + discriminate.
    + intros [_ [=]].
Qed.

Lemma vec_set_of_nat {A : Type} (v : list A) (i : nat) (x : A) :
  (i < length v)%nat -> vec_set v (Z.of_nat i) x = Ok (<[i := x]> v).
Proof.
  intros H. unfold vec_set.
  destruct (Z.leb_spec 0 (Z.of_nat i)); [|lia].
  destruct (Z.ltb_spec (Z.of_nat i) (Z.of_nat (length v))); [|lia].
  now rewrite Nat2Z.id.
Qed.

(** ** The simulated vertex cache *)

Lemma InCache_elem_of (c : VertexCache.t) (v : Z) :
  VertexCache.InCache c v = true <-> v ∈ c.
Proof.
  induction c as [|e c IH]; simpl.
  - split; [discriminate | intros H; inversion H].
  - destruct (Z.eqb_spec e v) as [->|Hne].
    + split; [intros _; left | reflexivity].
    + rewrite IH. split; [intros H; now right|].
      intros H. apply elem_of_cons in H as [H|H]; [congruence | exact H].
Qed.

Lemma push_right_succ (n : nat) (c : VertexCache.t) :
  (S n < length c)%nat ->
  VertexCache.push_right (S n) c = Ok (take 1 c ++ take (S n) c ++ drop (S (S n)) c).
Proof.
  revert c. induction n as [|n IH]; intros c Hlen.
  - destruct c as [|a [|b c]]; simpl in Hlen; try lia.
    change (VertexCache.push_right 1 (a :: b :: c))
      with (e ← vec_at (a :: b :: c) (Z.of_nat 0);
            c' ← vec_set (a :: b :: c) (Z.of_nat 1) e; Ok c').
    rewrite (vec_at_of_nat (a :: b :: c) 0 a eq_refl). cbn [mbind res_bind].
    rewrite vec_set_of_nat by (simpl; lia). reflexivity.
  - change (VertexCache.push_right (S (S n)) c)
      with (e ← vec_at c (Z.of_nat (S n));
            c' ← vec_set c (Z.of_nat (S n) + 1) e;
            VertexCache.push_right (S n) c').
    destruct (lookup_lt_is_Some_2 c (S n) ltac:(lia)) as [e He].
    rewrite (vec_at_of_nat _ _ _ He). cbn [mbind res_bind].
    replace (Z.of_nat (S n) + 1) with (Z.of_nat (S (S n))) by lia.
    rewrite vec_set_of_nat by lia. cbn [mbind res_bind].
    rewrite IH by (rewrite length_insert; lia).
    f_equal.
    rewrite !take_insert_ge by lia.
    rewrite drop_insert_ge by lia.
    replace (S (S n) - S (S n))%nat with 0%nat by lia.
    rewrite (take_S_r c (S n) e He).
    destruct (lookup_lt_is_Some_2 c (S (S n)) ltac:(lia)) as [e' He'].
    rewrite (drop_S c e' (S (S n)) He'). simpl.
    rewrite <- !app_assoc. reflexivity.
Qed.

Lemma AddEntry_eq (c : VertexCache.t) (v x : Z) :
  c !! (length c - 1)%nat = Some x ->
  VertexCache.AddEntry c v = Ok (x, v :: take (length c - 1) c).
Proof.
  intros Hlast. unfold VertexCache.AddEntry, VertexCache.numEntries, vec_size.
  assert (Hlen : (0 < length c)%nat).
  { apply lookup_lt_Some in Hlast. lia. }
  replace (Z.of_nat (length c) - 1) with (Z.of_nat (length c - 1)) by lia.
  rewrite Nat2Z.id.
  rewrite (vec_at_of_nat _ _ _ Hlast). cbn [mbind res_bind].
  destruct (length c - 1)%nat as [|n] eqn:En.
  - destruct c as [|a [|b c]]; simpl in *; try lia. reflexivity.
  - rewrite push_right_succ by lia. cbn [mbind res_bind].
    destruct c as [|a c]; [simpl in Hlen; lia|].
    simpl in En. replace (length c - 0)%nat with (length c) in En by lia.
    rewrite (drop_ge (a :: c) (S (S n))) by (simpl; lia). rewrite app_nil_r.
    change (take 1 (a :: c)) with [a]. cbn [app].
    change 0 with (Z.of_nat 0). rewrite vec_set_of_nat by (simpl; lia).
    reflexivity.
Qed.

Lemma AddEntry_Ok (c : VertexCache.t) (v : Z) :
  c <> [] ->
  exists x, c !! (length c - 1)%nat = Some x /\
            VertexCache.AddEntry c v = Ok (x, v :: take (length c - 1) c).
Proof.
  intros Hne.
  destruct (lookup_lt_is_Some_2 c (length c - 1)%nat) as [x Hx].
  { destruct c; simpl; [congruence | lia]. }
  exists x. split; [exact Hx | now apply AddEntry_eq].
Qed.

Lemma new_lookup (size : Z) (i : nat) :
  (i < Z.to_nat size)%nat -> VertexCache.new size !! i = Some (-1).
Proof. intros H. unfold VertexCache.new. now apply lookup_replicate_2. Qed.

Lemma int_of_bytes_ff : int_of_bytes (replicate 4 255) = -1.
Proof. reflexivity. Qed.

(** C8.  A cache of capacity [c >= 1]: a fresh cache holds [-1] in every
    slot; [AddEntry v] puts [v] in slot 0, moves the content of slot [i] to
    slot [i + 1] for [0 <= i < c - 1] and returns (evicts) the content of
    slot [c - 1]; [InCache v] is true exactly when some slot holds [v];
    [Clear] resets every slot to [-1]. *)
Theorem VertexCache_contract (c : Z) (cache : VertexCache.t) (v : Z) :
  0 < c ->
  VertexCache.numEntries cache = c ->
  (VertexCache.numEntries (VertexCache.new c) = c /\
   forall i, 0 <= i < c -> VertexCache.At (VertexCache.new c) i = Ok (-1)) /\
  (exists removed cache',
      VertexCache.AddEntry cache v = Ok (removed, cache') /\
      VertexCache.numEntries cache' = c /\
      VertexCache.At cache' 0 = Ok v /\
      (forall i, 0 <= i < c - 1 ->
                 VertexCache.At cache' (i + 1) = VertexCache.At cache i) /\
      VertexCache.At cache (c - 1) = Ok removed) /\
  (VertexCache.InCache cache v = true <->
   exists i, 0 <= i < c /\ VertexCache.At cache i = Ok v) /\
  (VertexCache.numEntries (VertexCache.Clear cache) = c /\
   forall i, 0 <= i < c ->
             VertexCache.At (VertexCache.Clear cache) i = Ok (-1)).
Proof.
  intros Hc Hsz. unfold VertexCache.numEntries, vec_size, VertexCache.At in *.
  repeat split.
  - unfold VertexCache.new. rewrite length_replicate. lia.
  - intros i Hi. apply vec_at_Ok. split; [lia|]. apply new_lookup. lia.
  - assert (Hne : cache <> []) by (intros ->; simpl in Hsz; lia).
    destruct (AddEntry_Ok cache v Hne) as (x & Hx & Hadd).
    exists x, (v :: take (length cache - 1) cache).
    split; [exact Hadd|]. split; [|split; [|split]].
    + simpl. rewrite length_take. lia.
    + reflexivity.
    + intros i Hi. unfold vec_at.
      destruct (Z.ltb_spec (i + 1) 0); [lia|].
      destruct (Z.ltb_spec i 0); [lia|].
      replace (Z.to_nat (i + 1)) with (S (Z.to_nat i)) by lia.
      simpl. rewrite lookup_take_lt by lia. reflexivity.
    + apply vec_at_Ok. split; [lia|].
      replace (Z.to_nat (c - 1)) with (length cache - 1)%nat by lia. exact Hx.
  - intros Hin. apply InCache_elem_of, list_elem_of_lookup in Hin as [i Hi].
    exists (Z.of_nat i). split.
    + apply lookup_lt_Some in Hi. lia.
    + now apply vec_at_of_nat.
  - intros (i & Hi & Hat). apply vec_at_Ok in Hat as [_ Hat].
    apply InCache_elem_of, list_elem_of_lookup. eauto.
  - unfold VertexCache.Clear. rewrite length_map. exact Hsz.
  - intros i Hi. apply vec_at_Ok. split; [lia|].
    unfold VertexCache.Clear.
    destruct (lookup_lt_is_Some_2 cache (Z.to_nat i) ltac:(lia)) as [x Hx].
    change (map ?f ?l) with (f <$> l).
    rewrite list_lookup_fmap, Hx. reflexivity.
Qed.

Lemma VertexCache_contract_witness :
  exists removed cache',
    VertexCache.AddEntry [7; 8; -1] 5 = Ok (removed, cache') /\
    VertexCache.numEntries cache' = 3 /\
    VertexCache.At cache' 0 = Ok 5 /\
    (forall i, 0 <= i < 3 - 1 ->
               VertexCache.At cache' (i + 1) = VertexCache.At [7; 8; -1] i) /\
    VertexCache.At [7; 8; -1] (3 - 1) = Ok removed.
Proof.
  exact (proj1 (proj2 (VertexCache_contract 3 [7; 8; -1] 5 ltac:(lia) eq_refl))).
Defined.

(** ** RemapIndices *)

Lemma in_range_length (n : Z) (l : list Z) :
  NoDup l -> Forall (fun o => 0 <= o < n) l -> Z.of_nat (length l) <= Z.max 0 n.
Proof.
  intros Hnd Hall.
  assert (Hsub : l ⊆+ seqZ 0 n).
  { apply NoDup_submseteq; [exact Hnd|]. intros x Hx.
    rewrite Forall_forall in Hall. apply elem_of_seqZ.
    specialize (Hall x Hx). lia. }
  apply submseteq_length in Hsub. rewrite length_seqZ in Hsub. lia.
Qed.

Lemma first_touch_app (seen a b : list Z) :
  first_touch seen (a ++ b)
  = first_touch seen a ++ first_touch (seen ++ first_touch seen a) b.
Proof.
  revert seen. induction a as [|x a IH]; intros seen; simpl.
  - now rewrite app_nil_r.
  - destruct (bool_decide (x ∈ seen)); [apply IH|].
    rewrite IH. simpl. now rewrite <- app_assoc.
Qed.

Lemma first_touch_elem (seen l : list Z) (x : Z) :
  x ∈ first_touch seen l <-> x ∈ l /\ (x ∉ seen).
Proof.
  revert seen. induction l as [|y l IH]; intros seen; simpl.
  - split; [intros H; inversion H | intros [H _]; inversion H].
  - destruct (bool_decide_reflect (y ∈ seen)) as [Hin|Hnin].
    + rewrite IH, elem_of_cons. split; [tauto|].
      intros [[->|H] Hn]; [contradiction | tauto].
    + rewrite !elem_of_cons, IH, elem_of_app, list_elem_of_singleton.
      split.
      * intros [->|[H Hn]]; [tauto|]. split; [tauto|]. tauto.
      * intros [[->|H] Hn]; [tauto|].
        destruct (decide (x = y)) as [->|Hne]; [tauto|]. right. tauto.
Qed.

Section Remap.
Variable numVerts : Z.
Hypothesis HnumVerts : 0 <= numVerts <= SIZE_MAX.

Lemma remap_inv_init :
  remap_inv numVerts [] (replicate (Z.to_nat numVerts) SIZE_MAX) 0.
Proof.
  repeat split.
  - apply length_replicate.
  - constructor.
  - constructor.
  - intros o Ho. left. split; [intros H; inversion H|].
    apply lookup_replicate_2. unfold in_range in Ho. lia.
Qed.

Lemma remap_inv_bound ord cache ctr :
  remap_inv numVerts ord cache ctr -> Z.of_nat (length ord) <= numVerts.
Proof.
  intros (_ & _ & Hnd & Hall & _).
  pose proof (in_range_length numVerts ord Hnd Hall). lia.
Qed.

Lemma remap_inv_fresh ord cache ctr x :
  remap_inv numVerts ord cache ctr -> in_range numVerts x -> x ∉ ord ->
  remap_inv numVerts (ord ++ [x]) (<[Z.to_nat x := ctr]> cache) (ctr + 1).
Proof.
  intros (Hlen & Hctr & Hnd & Hall & Hmap) Hx Hnin.
  repeat split.
  - now rewrite length_insert.
  - rewrite length_app. simpl. lia.
  - apply NoDup_app. repeat split; [exact Hnd | | apply NoDup_singleton].
    intros y Hy Hy'. apply list_elem_of_singleton in Hy'. congruence.
  - apply Forall_app. split; [exact Hall | constructor; [exact Hx | constructor]].
  - intros o Ho. destruct (decide (o = x)) as [->|Hne].
    + right. exists (length ord). split.
      * now rewrite list_lookup_middle.
      * rewrite Hctr. apply list_lookup_insert_eq.
        unfold in_range in Hx. lia.
    + assert (Z.to_nat x <> Z.to_nat o)
        by (unfold in_range in *; lia).
      rewrite list_lookup_insert_ne by assumption.
      destruct (Hmap o Ho) as [[Hn Hc]|(n & Hn & Hc)].
      * left. split; [|exact Hc]. rewrite elem_of_app, list_elem_of_singleton.
        tauto.
      * right. exists n. split; [|exact Hc].
        rewrite lookup_app_l; [exact Hn|]. now apply lookup_lt_Some in Hn.
Qed.

Lemma renumbered_app order ext old new :
  renumbered order old new -> renumbered (order ++ ext) old new.
Proof.
  intros [H0 H]. split; [exact H0|].
  rewrite lookup_app_l; [exact H|]. now apply lookup_lt_Some in H.
Qed.

Lemma RemapIndices_group_spec (ins : list Z) :
  forall ord cache ctr,
    remap_inv numVerts ord cache ctr -> Forall (in_range numVerts) ins ->
    exists out cache' ctr',
      RemapIndices_group ins cache ctr = Ok (out, (cache', ctr')) /\
      remap_inv numVerts (ord ++ first_touch ord ins) cache' ctr' /\
      Forall2 (renumbered (ord ++ first_touch ord ins)) ins out.
Proof.
  induction ins as [|x r IH]; intros ord cache ctr Hinv Hall.
  - exists [], cache, ctr. simpl. rewrite app_nil_r. auto.
  - apply Forall_cons in Hall as [Hx Hr].
    pose proof Hinv as (Hlen & Hctr & Hnd & Hord & Hmap).
    pose proof (remap_inv_bound _ _ _ Hinv) as Hbound.
    cbn [RemapIndices_group first_touch].
    destruct (Hmap x Hx) as [[Hnin Hc]|(n & Hn & Hc)].
    + assert (Hat : vec_at cache x = Ok SIZE_MAX).
      { apply vec_at_Ok. split; [apply Hx | exact Hc]. }
      rewrite Hat. cbn [mbind res_bind]. rewrite Z.eqb_refl.
      assert (Hset : vec_set cache x ctr = Ok (<[Z.to_nat x := ctr]> cache)).
      { unfold vec_set. unfold in_range in Hx.
        destruct (Z.leb_spec 0 x); [|lia].
        destruct (Z.ltb_spec x (Z.of_nat (length cache))); [reflexivity|lia]. }
      rewrite Hset. cbn [mbind res_bind].
      pose proof (remap_inv_fresh _ _ _ _ Hinv Hx Hnin) as Hinv'.
      pose proof (remap_inv_bound _ _ _ Hinv') as Hbound'.
      rewrite length_app in Hbound'. simpl in Hbound'.
      assert (Hwrap : wrap_size (ctr + 1) = ctr + 1).
      { unfold wrap_size. apply Z.mod_small. unfold SIZE_MAX in *. lia. }
      rewrite Hwrap.
      destruct (IH _ _ _ Hinv' Hr) as (out & cache' & ctr' & Hrun & Hinv'' & Hout).
      rewrite Hrun. cbn [mbind res_bind].
      rewrite bool_decide_eq_false_2 by exact Hnin.
      replace (ord ++ x :: first_touch (ord ++ [x]) r)
        with ((ord ++ [x]) ++ first_touch (ord ++ [x]) r)
        by (now rewrite <- app_assoc).
      exists (ctr :: out), cache', ctr'. split; [reflexivity|].
      split; [exact Hinv''|]. constructor; [|exact Hout].
      apply renumbered_app. split; [lia|].
      rewrite Hctr, Nat2Z.id. now rewrite list_lookup_middle.
    + assert (Hat : vec_at cache x = Ok (Z.of_nat n)).
      { apply vec_at_Ok. split; [apply Hx | exact Hc]. }
      rewrite Hat. cbn [mbind res_bind].
      assert (Hlt : (n < length ord)%nat) by (now apply lookup_lt_Some in Hn).
      destruct (Z.eqb_spec (Z.of_nat n) SIZE_MAX) as [Heq|_]; [lia|].
      destruct (IH _ _ _ Hinv Hr) as (out & cache' & ctr' & Hrun & Hinv'' & Hout).
      rewrite Hrun. cbn [mbind res_bind].
      assert (Hin : x ∈ ord) by (apply list_elem_of_lookup; eauto).
      rewrite bool_decide_eq_true_2 by exact Hin.
      exists (Z.of_nat n :: out), cache', ctr'. split; [reflexivity|].
      split; [exact Hinv''|]. constructor; [|exact Hout].
      apply renumbered_app. split; [lia|]. now rewrite Nat2Z.id.
Qed.

Lemma RemapIndices_groups_spec (gs : list PrimitiveGroup.t) :
  forall ord cache ctr,
    remap_inv numVerts ord cache ctr ->
    Forall (fun g => Forall (in_range numVerts) (PrimitiveGroup.indices g)) gs ->
    exists out,
      RemapIndices_groups gs cache ctr = Ok out /\
      NoDup (ord ++ first_touch ord (index_stream gs)) /\
      Forall2 (group_renumbered (ord ++ first_touch ord (index_stream gs))) gs out.
Proof.
  induction gs as [|g gs IH]; intros ord cache ctr Hinv Hall.
  - exists []. simpl. rewrite app_nil_r. repeat split; [apply Hinv | constructor].
  - apply Forall_cons in Hall as [Hg Hgs].
    destruct (RemapIndices_group_spec _ _ _ _ Hinv Hg)
      as (out & cache' & ctr' & Hrun & Hinv' & Hout).
    destruct (IH _ _ _ Hinv' Hgs) as (outs & Hruns & Hnd & Houts).
    cbn [RemapIndices_groups]. rewrite Hrun. cbn [mbind res_bind].
    rewrite Hruns. cbn [mbind res_bind].
    unfold index_stream in *. cbn [map concat].
    rewrite first_touch_app, app_assoc.
    eexists. split; [reflexivity|]. split; [exact Hnd|].
    constructor; [|exact Houts].
    split; [reflexivity|]. cbn [PrimitiveGroup.indices].
    eapply Forall2_impl; [exact Hout|].
    intros old new H. now apply renumbered_app.
Qed.
End Remap.

Lemma unmap_renumbered (order ins out : list Z) :
  Forall2 (renumbered order) ins out ->
  map (fun n => default 0 (order !! Z.to_nat n)) out = ins.
Proof.
  induction 1 as [|old new ins out [_ H] _ IH]; simpl; [reflexivity|].
  now rewrite H, IH.
Qed.

Lemma unmap_group_renumbered (order : list Z) (gs outs : list PrimitiveGroup.t) :
  Forall2 (group_renumbered order) gs outs ->
  map (unmap_group order) outs = gs.
Proof.
  induction 1 as [|g g' gs gs' [Hty Hidx] _ IH]; simpl; [reflexivity|].
  rewrite IH. f_equal. unfold unmap_group.
  rewrite (unmap_renumbered _ _ _ Hidx), Hty. now destruct g.
Qed.

(** C2.  [RemapIndices] renumbers in first-touch order: with
    [order = touch_order groups] (the distinct old indices in the order in
    which the scan of all groups first meets them), an old index sits at
    position [k] of [order] exactly when every occurrence of it is rewritten
    to [k]; kinds and lengths are kept; and rewriting every new index [n]
    back to [order[n]] gives the input groups again. *)
Theorem RemapIndices_first_touch
  (in_primGroups : list PrimitiveGroup.t) (numVerts : Z) :
  0 <= numVerts <= SIZE_MAX ->
  Forall (fun g => Forall (fun o => 0 <= o < numVerts) (PrimitiveGroup.indices g))
         in_primGroups ->
  let order := touch_order in_primGroups in
  exists remappedGroups,
    RemapIndices in_primGroups numVerts = Ok remappedGroups /\
    NoDup order /\
    (forall o, o ∈ order <-> o ∈ index_stream in_primGroups) /\
    Forall2 (fun g g' =>
               PrimitiveGroup.type g' = PrimitiveGroup.type g /\
               Forall2 (fun old new =>
                          0 <= new /\
                          forall k : nat, order !! k = Some old <-> new = Z.of_nat k)
                       (PrimitiveGroup.indices g) (PrimitiveGroup.indices g'))
            in_primGroups remappedGroups /\
    map (unmap_group order) remappedGroups = in_primGroups.
Proof.
  intros Hnv Hall order.
  destruct (RemapIndices_groups_spec numVerts Hnv in_primGroups [] _ 0
              (remap_inv_init numVerts) Hall) as (out & Hrun & Hnd & Hout).
  simpl in Hnd, Hout. fold (touch_order in_primGroups) in Hnd, Hout.
  fold order in Hnd, Hout.
  exists out. split; [exact Hrun|]. split; [exact Hnd|]. split; [|split].
  - intros o. unfold order, touch_order. rewrite first_touch_elem.
    split; [tauto|]. intros H. split; [exact H|]. intros H'. inversion H'.
  - eapply Forall2_impl; [exact Hout|].
    intros g g' [Hty Hidx]. split; [exact Hty|].
    eapply Forall2_impl; [exact Hidx|].
    intros old new [H0 Hl]. split; [exact H0|]. intros k. split.
    + intros Hk. pose proof (NoDup_lookup _ _ _ _ Hnd Hk Hl). lia.
    + intros ->. now rewrite Nat2Z.id in Hl.
  - now apply unmap_group_renumbered.
Qed.

Lemma RemapIndices_first_touch_witness :
  let gs := [PrimitiveGroup.mk PrimType.PT_STRIP [5; 2; 5; 7];
             PrimitiveGroup.mk PrimType.PT_LIST [7; 0; 2]] in
  exists remappedGroups,
    RemapIndices gs 8 = Ok remappedGroups /\
    NoDup (touch_order gs) /\
    (forall o, o ∈ touch_order gs <-> o ∈ index_stream gs) /\
    Forall2 (fun g g' =>
               PrimitiveGroup.type g' = PrimitiveGroup.type g /\
               Forall2 (fun old new =>
                          0 <= new /\
                          forall k : nat,
                            touch_order gs !! k = Some old <-> new = Z.of_nat k)
                       (PrimitiveGroup.indices g) (PrimitiveGroup.indices g'))
            gs remappedGroups /\
    map (unmap_group (touch_order gs)) remappedGroups = gs.
Proof.
  intros gs. apply (RemapIndices_first_touch gs 8).
  - unfold SIZE_MAX. lia.
  - repeat constructor; lia.
Defined.

Example RemapIndices_example :
  RemapIndices [PrimitiveGroup.mk PrimType.PT_STRIP [5; 2; 5; 7];
                PrimitiveGroup.mk PrimType.PT_LIST [7; 0; 2]] 8
  = Ok [PrimitiveGroup.mk PrimType.PT_STRIP [0; 1; 0; 2];
        PrimitiveGroup.mk PrimType.PT_LIST [2; 3; 1]].
Proof. reflexivity. Qed.

(** ** The cache invariant of the splitter *)

Lemma InCache_take_false (c : VertexCache.t) (v : Z) (n : nat) :
  VertexCache.InCache c v = false -> VertexCache.InCache (take n c) v = false.
Proof.
  revert n. induction c as [|e c IH]; intros [|n] H; simpl in *; try reflexivity.
  destruct (e =? v); [discriminate | now apply IH].
Qed.

Lemma slots_distinct_take (c : VertexCache.t) (n : nat) :
  slots_distinct c = true -> slots_distinct (take n c) = true.
Proof.
  revert n. induction c as [|e c IH]; intros [|n] H; simpl in *; try reflexivity.
  apply andb_true_iff in H as [He Hc]. apply andb_true_iff. split.
  - destruct (e =? -1); [reflexivity|].
    apply negb_true_iff in He. apply negb_true_iff.
    now apply InCache_take_false.
  - now apply IH.
Qed.

Lemma slots_distinct_new (size : Z) : slots_distinct (VertexCache.new size) = true.
Proof.
  unfold VertexCache.new. induction (Z.to_nat size) as [|n IH]; simpl; auto.
Qed.

(** The meaning of [slots_distinct]: two slots with the same vertex are the
    same slot. *)
Lemma slots_distinct_lookup (c : VertexCache.t) (i j : nat) (x : Z) :
  slots_distinct c = true ->
  c !! i = Some x -> c !! j = Some x -> x <> -1 -> i = j.
Proof.
  revert i j. induction c as [|e c IH]; intros i j Hd Hi Hj Hx; [inversion Hi|].
  simpl in Hd. apply andb_true_iff in Hd as [He Hc].
  assert (Hfresh : e = x -> VertexCache.InCache c x = false).
  { intros ->. destruct (Z.eqb_spec x (-1)); [congruence|].
    now apply negb_true_iff in He. }
  assert (Hno : forall k, e = x -> c !! k = Some x -> False).
  { intros k Hex Hk. specialize (Hfresh Hex).
    assert (VertexCache.InCache c x = true) as Hin
        by (apply InCache_elem_of, list_elem_of_lookup; eauto).
    congruence. }
  destruct i as [|i], j as [|j]; simpl in Hi, Hj.
  - reflexivity.
  - injection Hi as ->. exfalso. eauto.
  - injection Hj as ->. exfalso. eauto.
  - f_equal. eauto.
Qed.

Lemma cache_touch_spec (c : VertexCache.t) (v : Z) :
  c <> [] ->
  exists c',
    cache_touch c v = Ok c' /\
    length c' = length c /\
    (VertexCache.InCache c v = true -> c' = c) /\
    (VertexCache.InCache c v = false -> c' = v :: take (length c - 1) c) /\
    (slots_distinct c = true -> slots_distinct c' = true).
Proof.
  intros Hne. unfold cache_touch.
  destruct (VertexCache.InCache c v) eqn:Hin; simpl.
  - exists c. repeat split; auto; discriminate.
  - destruct (AddEntry_Ok c v Hne) as (x & Hx & ->). simpl.
    exists (v :: take (length c - 1) c). repeat split; auto; try discriminate.
    + simpl. rewrite length_take. destruct c; simpl in *; [congruence|lia].
    + intros Hd. simpl. apply andb_true_iff. split.
      * destruct (v =? -1); [reflexivity|]. apply negb_true_iff.
        now apply InCache_take_false.
      * now apply slots_distinct_take.
Qed.

Lemma UpdateCacheFace_spec (c : VertexCache.t) (f : NvFaceInfo.t) :
  c <> [] ->
  exists c',
    UpdateCacheFace c f = Ok c' /\ length c' = length c /\
    (slots_distinct c = true -> slots_distinct c' = true).
Proof.
  intros Hne. unfold UpdateCacheFace.
  destruct (cache_touch_spec c (NvFaceInfo.m_v0 f) Hne) as (c0 & -> & L0 & _ & _ & D0).
  assert (Hne0 : c0 <> []) by (destruct c0, c; simpl in *; congruence).
  destruct (cache_touch_spec c0 (NvFaceInfo.m_v1 f) Hne0) as (c1 & E1 & L1 & _ & _ & D1).
  assert (Hne1 : c1 <> []) by (destruct c1, c0; simpl in *; congruence).
  destruct (cache_touch_spec c1 (NvFaceInfo.m_v2 f) Hne1) as (c2 & E2 & L2 & _ & _ & D2).
  exists c2. cbn [mbind res_bind]. rewrite E1. cbn [mbind res_bind].
  split; [exact E2|]. split; [congruence | auto].
Qed.

Lemma UpdateCacheStrip_spec (fs : list NvFaceInfo.t) (c : VertexCache.t) :
  c <> [] ->
  exists c',
    UpdateCacheStrip c fs = Ok c' /\ length c' = length c /\
    (slots_distinct c = true -> slots_distinct c' = true).
Proof.
  revert c. induction fs as [|f fs IH]; intros c Hne; simpl.
  - exists c. auto.
  - destruct (UpdateCacheFace_spec c f Hne) as (c1 & -> & L1 & D1).
    assert (Hne1 : c1 <> []) by (destruct c1, c; simpl in *; congruence).
    destruct (IH c1 Hne1) as (c2 & E2 & L2 & D2).
    exists c2. cbn [mbind res_bind]. split; [exact E2|].
    split; [congruence | auto].
Qed.

Lemma new_nonempty (size : Z) : 0 < size -> VertexCache.new size <> [].
Proof.
  intros H. unfold VertexCache.new.
  destruct (Z.to_nat size) eqn:E; [lia | discriminate].
Qed.

(** Inversion of a successful monadic step in a hypothesis. *)
Ltac res_step H :=
  match type of H with
  | @mbind _ _ _ _ _ ?e = Ok _ =>
      let E := fresh "E" in
      destruct e eqn:E; cbn [mbind res_bind] in H; [|discriminate H]
  | (let '(_, _) := ?p in _) = Ok _ => destruct p
  | (if ?b then _ else _) = Ok _ =>
      let E := fresh "E" in destruct b eqn:E
  end.

Tactic Notation "res_open" hyp(H) "as" simple_intropattern(pat) :=
  cbv zeta in H;
  match type of H with
  | @mbind _ _ _ _ _ ?e = Ok _ =>
      let E := fresh "E" in
      destruct e as [pat|] eqn:E; cbn [mbind res_bind] in H; [|discriminate H]
  end.

Lemma cache_ok_new (size : Z) : 0 < size -> cache_ok (VertexCache.new size).
Proof. intros H. split; [now apply new_nonempty | apply slots_distinct_new]. Qed.

Lemma cache_ok_face (c c' : VertexCache.t) (f : NvFaceInfo.t) :
  cache_ok c -> UpdateCacheFace c f = Ok c' -> cache_ok c'.
Proof.
  intros [Hne Hd] H.
  destruct (UpdateCacheFace_spec c f Hne) as (c1 & E & L & D).
  rewrite E in H. injection H as <-. split; [|auto].
  destruct c1, c; simpl in *; congruence.
Qed.

Lemma cache_ok_strip (c c' : VertexCache.t) (fs : list NvFaceInfo.t) :
  cache_ok c -> UpdateCacheStrip c fs = Ok c' -> cache_ok c'.
Proof.
  intros [Hne Hd] H.
  destruct (UpdateCacheStrip_spec fs c Hne) as (c1 & E & L & D).
  rewrite E in H. injection H as <-. split; [|auto].
  destruct c1, c; simpl in *; congruence.
Qed.

Lemma RemoveSmallStrips_order_cache (fuel : nat) :
  forall h tempFaceList bVisitedList vcache bestIndex faceList out vcache',
    cache_ok vcache ->
    RemoveSmallStrips_order fuel h tempFaceList bVisitedList vcache bestIndex faceList
    = Ok (out, vcache') ->
    cache_ok vcache'.
Proof.
  induction fuel as [|fuel IH]; intros h tfl vis c bi fl out c' Hok H;
    [discriminate|].
  cbn [RemoveSmallStrips_order] in H.
  res_step H. res_step H. res_step H.
  - injection H as _ <-. exact Hok.
  - do 4 res_step H. eapply IH; [|exact H]. eapply cache_ok_face; eauto.
Qed.

Lemma optimize_order_cache (fuel : nat) :
  forall h tempStrips2 vcache bWantsCW bestIndex outStrips out vcache',
    cache_ok vcache ->
    optimize_order fuel h tempStrips2 vcache bWantsCW bestIndex outStrips
    = Ok (out, vcache') ->
    cache_ok vcache'.
Proof.
  induction fuel as [|fuel IH]; intros h ts c w bi os out c' Hok H;
    [discriminate|].
  cbn [optimize_order] in H.
  res_step H. res_step H. res_step H.
  - injection H as _ <-. exact Hok.
  - do 4 res_step H. eapply IH; [|exact H]. eapply cache_ok_strip; eauto.
Qed.

(** C10.  Every update of a simulated cache inserts a vertex only when
    [InCache] says it is absent ([cache_touch] leaves the cache alone
    otherwise), and so the slots of a cache of capacity [size >= 1] that hold
    a vertex are pairwise distinct: in the fresh cache, after every
    [UpdateCacheFace] and [UpdateCacheStrip], and in the two caches that
    [SplitUpStripsAndOptimize] (with [RemoveSmallStrips]) works on. *)
Theorem cache_slots_pairwise_distinct (size : Z) :
  0 < size ->
  let distinct (c : VertexCache.t) : Prop :=
    forall (i j : nat) (x : Z),
      c !! i = Some x -> c !! j = Some x -> x <> -1 -> i = j in
  distinct (VertexCache.new size) /\
  (forall c v c', cache_touch c v = Ok c' ->
                  VertexCache.InCache c v = true -> c' = c) /\
  (forall c f, c <> [] -> slots_distinct c = true ->
     exists c', UpdateCacheFace c f = Ok c' /\ slots_distinct c' = true /\ distinct c') /\
  (forall c fs, c <> [] -> slots_distinct c = true ->
     exists c', UpdateCacheStrip c fs = Ok c' /\ slots_distinct c' = true /\ distinct c') /\
  (forall s h allStrips edgeInfos o,
     NvStripifier.cacheSize s = size ->
     SplitUpStripsAndOptimize s h allStrips edgeInfos = Ok o ->
     distinct (op_faceCache o) /\ distinct (op_stripCache o)).
Proof.
  intros Hsize distinct.
  assert (Hd : forall c, slots_distinct c = true -> distinct c).
  { intros c Hc i j x. now apply slots_distinct_lookup. }
  split; [apply Hd, slots_distinct_new|].
  split; [|split; [|split]].
  - intros c v c' H Hin. unfold cache_touch in H. rewrite Hin in H.
    simpl in H. congruence.
  - intros c f Hne Hc.
    destruct (UpdateCacheFace_spec c f Hne) as (c' & E & _ & D).
    exists c'. auto.
  - intros c fs Hne Hc.
    destruct (UpdateCacheStrip_spec fs c Hne) as (c' & E & _ & D).
    exists c'. auto.
  - intros s h allStrips edgeInfos o Hs H.
    pose proof (cache_ok_new size Hsize) as Hnew.
    unfold SplitUpStripsAndOptimize in H. rewrite Hs in H.
    res_open H as tempStrips. res_open H as [[tempStrips2 outFaceList] faceCache].
    assert (Hface : cache_ok faceCache).
    { unfold RemoveSmallStrips in E0. rewrite Hs in E0.
      destruct (RemoveSmallStrips_partition _ _) as [big tfl].
      res_step E0.
      - res_open E0 as [fl c1]. injection E0 as _ _ <-.
        eapply RemoveSmallStrips_order_cache; eauto.
      - injection E0 as _ _ <-. exact Hnew. }
    res_step H.
    + res_open H as firstIndex. res_open H as first. res_open H as fs.
      res_open H as vcache1. res_open H as tempStrips2'.
      res_open H as [outStrips vcache2].
      injection H as <-. simpl. split; apply Hd.
      * apply Hface.
      * eapply optimize_order_cache; [|eassumption].
        eapply cache_ok_strip; [exact Hnew | exact E5].
    + injection H as <-. simpl. split; apply Hd; [apply Hface | apply Hnew].
Qed.

Lemma cache_slots_pairwise_distinct_witness :
  exists c', UpdateCacheFace (VertexCache.new 4) (NvFaceInfo.new 3 5 3) = Ok c' /\
             slots_distinct c' = true /\
             forall (i j : nat) (x : Z),
               c' !! i = Some x -> c' !! j = Some x -> x <> -1 -> i = j.
Proof.
  exact (proj1 (proj2 (proj2 (cache_slots_pairwise_distinct 4 ltac:(lia))))
               (VertexCache.new 4) (NvFaceInfo.new 3 5 3)
               ltac:(discriminate) eq_refl).
Defined.

(** ** The emitter *)

Lemma first_face_vertices (b : bool) (faces : list NvFaceInfo.t) (f0 : NvFaceInfo.t) :
  real_vertices f0 -> real_vertices (first_face b faces f0).
Proof.
  intros (H0 & H1 & H2). unfold first_face, real_vertices.
  destruct faces as [|g0 [|f1 [|f2 more]]]; simpl; auto;
    repeat match goal with
           | |- context [if ?c then _ else _] => destruct c; simpl
           | |- context [let '(_, _) := ?p in _] => destruct p; simpl
           end; auto.
Qed.

Lemma CreateStrips_rest_spec (faces : list NvFaceInfo.t) :
  forall stripIndices tLastFace,
    Forall real_vertices faces ->
    exists out tLastFace',
      CreateStrips_rest faces stripIndices tLastFace
      = (stripIndices ++ out, tLastFace') /\
      length out = length faces /\
      Forall (fun x => x <> -1) out.
Proof.
  induction faces as [|f faces IH]; intros idx last Hall; simpl.
  - exists [], last. rewrite app_nil_r. auto.
  - apply Forall_cons in Hall as [(_ & _ & Hv2) Hall].
    destruct (Z.eqb_spec (GetUniqueVertexInB last f) (-1)) as [Heq|Hne]; simpl.
    + destruct (IH (idx ++ [NvFaceInfo.m_v2 f])
                  (set_vertices last (NvFaceInfo.m_v0 f) (NvFaceInfo.m_v1 f)
                     (NvFaceInfo.m_v2 f)) Hall)
        as (out & last' & -> & Hlen & Hout).
      exists (NvFaceInfo.m_v2 f :: out), last'.
      rewrite <- app_assoc. simpl. repeat split; auto.
    + destruct (IH (idx ++ [GetUniqueVertexInB last f])
                  (set_vertices last (NvFaceInfo.m_v1 last) (NvFaceInfo.m_v2 last)
                     (GetUniqueVertexInB last f)) Hall)
        as (out & last' & -> & Hlen & Hout).
      exists (GetUniqueVertexInB last f :: out), last'.
      rewrite <- app_assoc. simpl. repeat split; auto.
Qed.

(** One strip in unstitched mode appends its run and one [-1]. *)
Lemma CreateStrips_strip_unstitched (nStripCount i : Z)
  (faces : list NvFaceInfo.t) (e : Emitter) :
  faces <> [] -> Forall real_vertices faces ->
  exists run e',
    CreateStrips_strip false nStripCount i faces e = Ok e' /\
    em_stripIndices e' = em_stripIndices e ++ run ++ [-1] /\
    em_numSeparateStrips e' = em_numSeparateStrips e + 1 /\
    Forall (fun x => x <> -1) run /\
    Z.of_nat (length faces) + 2 <= Z.of_nat (length run) <= Z.of_nat (length faces) + 3.
Proof.
  intros Hne Hall. destruct faces as [|f0 rest]; [congruence|].
  apply Forall_cons in Hall as [Hf0 Hrest].
  unfold CreateStrips_strip. change (vec_at (f0 :: rest) 0) with (Ok f0).
  cbn [mbind res_bind]. rewrite orb_true_r. cbn [tail negb].
  pose proof (first_face_vertices true (f0 :: rest) f0 Hf0) as (Hv0 & Hv1 & Hv2).
  set (tFirstFace := first_face true (f0 :: rest) f0) in *.
  set (pre := if negb (IsCW f0 (NvFaceInfo.m_v0 tFirstFace) (NvFaceInfo.m_v1 tFirstFace))
              then em_stripIndices e ++ [NvFaceInfo.m_v0 tFirstFace]
              else em_stripIndices e).
  destruct (CreateStrips_rest_spec rest
              (pre ++ [NvFaceInfo.m_v0 tFirstFace; NvFaceInfo.m_v1 tFirstFace;
                       NvFaceInfo.m_v2 tFirstFace]) tFirstFace Hrest)
    as (out & last' & -> & Hlen & Hout).
  set (tap := if negb (IsCW f0 (NvFaceInfo.m_v0 tFirstFace) (NvFaceInfo.m_v1 tFirstFace))
              then [NvFaceInfo.m_v0 tFirstFace] else []).
  assert (Hpre : pre = em_stripIndices e ++ tap).
  { unfold pre, tap. destruct (negb _); [reflexivity | now rewrite app_nil_r]. }
  exists (tap ++ [NvFaceInfo.m_v0 tFirstFace; NvFaceInfo.m_v1 tFirstFace;
                  NvFaceInfo.m_v2 tFirstFace] ++ out).
  eexists. split; [reflexivity|]. cbn [em_stripIndices em_numSeparateStrips].
  split; [|split; [reflexivity|split]].
  - rewrite Hpre. now rewrite <- !app_assoc.
  - apply Forall_app. split.
    + unfold tap. destruct (negb _); repeat constructor; auto.
    + repeat constructor; auto.
  - rewrite !length_app. simpl. unfold tap. destruct (negb _); simpl; lia.
Qed.

Lemma CreateStrips_loop_unstitched (allStrips : list (list NvFaceInfo.t)) :
  forall nStripCount i e,
    Forall (fun faces => faces <> [] /\ Forall real_vertices faces) allStrips ->
    exists runs e',
      CreateStrips_loop false nStripCount i allStrips e = Ok e' /\
      em_stripIndices e' = em_stripIndices e ++ terminated runs /\
      em_numSeparateStrips e' = em_numSeparateStrips e + vec_size allStrips /\
      Forall2 (fun faces run =>
                 Forall (fun x => x <> -1) run /\
                 Z.of_nat (length faces) + 2 <= Z.of_nat (length run)
                 <= Z.of_nat (length faces) + 3)
              allStrips runs.
Proof.
  induction allStrips as [|faces rest IH]; intros n i e Hall.
  - exists [], e. unfold terminated, vec_size. simpl. rewrite app_nil_r.
    repeat split; [lia | constructor].
  - apply Forall_cons in Hall as [[Hne Hf] Hrest].
    destruct (CreateStrips_strip_unstitched n i faces e Hne Hf)
      as (run & e1 & E1 & Hidx1 & Hnum1 & Hrun & Hlen).
    destruct (IH n (i + 1) e1 Hrest) as (runs & e2 & E2 & Hidx2 & Hnum2 & Hruns).
    exists (run :: runs), e2. cbn [CreateStrips_loop]. rewrite E1.
    cbn [mbind res_bind]. split; [exact E2|]. split; [|split].
    + rewrite Hidx2, Hidx1. unfold terminated. simpl. now rewrite <- !app_assoc.
    + rewrite Hnum2, Hnum1. unfold vec_size. simpl length. lia.
    + constructor; auto.
Qed.

Lemma terminated_last (runs : list (list Z)) :
  runs <> [] -> last (terminated runs) = Some (-1).
Proof.
  induction runs as [|run [|run' runs] IH]; intros Hne; [congruence| |].
  - unfold terminated. simpl. rewrite app_nil_r. apply last_snoc.
  - unfold terminated in *. cbn [map concat] in *.
    rewrite last_app, IH by discriminate. reflexivity.
Qed.

(** C3 (as amended).  In unstitched mode the stream of [CreateStrips] is,
    strip after strip, the run of the strip followed by one [-1]: the
    sentinel closes every run, the last one included.  A run has between
    [n + 2] and [n + 3] indices for a strip of [n] faces and holds no [-1];
    so [-1] is never the first element nor inside a run, it is the last
    element of a non-empty stream, and there are as many [-1] as strips. *)
Theorem CreateStrips_sentinel_terminates_each_run
  (allStrips : list (list NvFaceInfo.t)) :
  Forall (fun faces => faces <> [] /\ Forall real_vertices faces) allStrips ->
  exists runs,
    CreateStrips allStrips false = Ok (terminated runs, vec_size allStrips) /\
    Forall2 (fun faces run =>
               Forall (fun x => x <> -1) run /\
               Z.of_nat (length faces) + 2 <= Z.of_nat (length run)
               <= Z.of_nat (length faces) + 3)
            allStrips runs /\
    (allStrips <> [] ->
     head (terminated runs) <> Some (-1) /\ last (terminated runs) = Some (-1)).
Proof.
  intros Hall.
  destruct (CreateStrips_loop_unstitched allStrips (vec_size allStrips) 0
              (mkEmitter [] (NvFaceInfo.new 0 0 0) 0 0) Hall)
    as (runs & e' & E & Hidx & Hnum & Hruns).
  exists runs. unfold CreateStrips. rewrite E. cbn [mbind res_bind].
  simpl in Hidx, Hnum. rewrite Hidx, Hnum. split; [reflexivity|].
  split; [exact Hruns|]. intros Hne. split.
  - destruct Hruns as [|faces run rest runs' [Hrun Hlen] Hrest]; [congruence|].
    unfold terminated. simpl. destruct run as [|x run]; simpl in *; [lia|].
    apply Forall_cons in Hrun as [Hx _]. congruence.
  - apply terminated_last. intros ->. inversion Hruns. congruence.
Qed.

Lemma CreateStrips_sentinel_terminates_each_run_witness :
  exists runs,
    CreateStrips [[NvFaceInfo.new 0 1 2]; [NvFaceInfo.new 3 4 5]] false
    = Ok (terminated runs, 2) /\
    Forall2 (fun faces run =>
               Forall (fun x => x <> -1) run /\
               Z.of_nat (length faces) + 2 <= Z.of_nat (length run)
               <= Z.of_nat (length faces) + 3)
            [[NvFaceInfo.new 0 1 2]; [NvFaceInfo.new 3 4 5]] runs /\
    ([[NvFaceInfo.new 0 1 2]; [NvFaceInfo.new 3 4 5]] <> [] ->
     head (terminated runs) <> Some (-1) /\ last (terminated runs) = Some (-1)).
Proof.
  apply (CreateStrips_sentinel_terminates_each_run
           [[NvFaceInfo.new 0 1 2]; [NvFaceInfo.new 3 4 5]]).
  repeat constructor; try discriminate; simpl; lia.
Defined.

(** C3 as stated fails: the stream of a single one-face strip ends with
    the sentinel. *)
Lemma CreateStrips_sentinel_last :
  CreateStrips [[NvFaceInfo.new 0 1 2]] false = Ok ([0; 1; 2; -1], 1) /\
  last [0; 1; 2; -1] = Some (-1).
Proof. split; reflexivity. Qed.

(** ** [GenerateStrips] on the smallest inputs *)

(** C1.  On an empty index array the first reset-point search reads
    [faceInfos[0]] of an empty face table, under every configuration: the
    call does not come back with zero groups. *)
Theorem GenerateStrips_empty_input (cfg : Config) :
  GenerateStrips cfg [] = Fault OutOfBounds.
Proof. destruct cfg. reflexivity. Qed.

(** The same search, in isolation: an empty table, first call. *)
Example FindGoodResetPoint_empty_table :
  FindGoodResetPoint (NvStripifier.mk [] 10 0 f32_zero true)
    (mkTopology (mkHeap [] []) [] [None])
  = Fault OutOfBounds.
Proof. reflexivity. Qed.

(** C4.  One triangle, [minStripSize = 2], stitching on: the only piece is
    too short and goes to the list, [CreateStrips] is called with no strip
    at all, reports one separate strip, and [GenerateStrips] hands back a
    STRIP group without a single index in front of the LIST group. *)
Theorem GenerateStrips_empty_strip_group :
  GenerateStrips (mkConfig 16 true 2 false) [0; 1; 2]
  = Ok [PrimitiveGroup.mk PrimType.PT_STRIP [];
        PrimitiveGroup.mk PrimType.PT_LIST [0; 1; 2]]
  /\ CreateStrips [] true = Ok ([], 1).
Proof. split; reflexivity. Qed.

(** The scenarios of the specification. *)
Example scenario_single_triangle :
  GenerateStrips default_config [0; 1; 2]
  = Ok [PrimitiveGroup.mk PrimType.PT_STRIP [0; 1; 2]].
Proof. reflexivity. Qed.

Example scenario_quad :
  GenerateStrips default_config [0; 1; 2; 2; 1; 3]
  = Ok [PrimitiveGroup.mk PrimType.PT_STRIP [0; 1; 2; 3]].
Proof. reflexivity. Qed.

Example scenario_four_triangles :
  GenerateStrips default_config [0; 1; 2; 2; 1; 3; 2; 3; 4; 4; 3; 5]
  = Ok [PrimitiveGroup.mk PrimType.PT_STRIP [0; 1; 2; 3; 4; 5]].
Proof. reflexivity. Qed.

Example scenario_two_triangles_unstitched :
  GenerateStrips (mkConfig 16 false 0 false) [0; 1; 2; 3; 4; 5]
  = Ok [PrimitiveGroup.mk PrimType.PT_STRIP [0; 1; 2];
        PrimitiveGroup.mk PrimType.PT_STRIP [3; 4; 5]].
Proof. reflexivity. Qed.

Example scenario_two_triangles_stitched :
  GenerateStrips default_config [0; 1; 2; 3; 4; 5]
  = Ok [PrimitiveGroup.mk PrimType.PT_STRIP [0; 1; 2; 2; 3; 3; 3; 4; 5]].
Proof. reflexivity. Qed.

Example scenario_lists_only_quad :
  GenerateStrips (mkConfig 16 true 0 true) [0; 1; 2; 2; 1; 3]
  = Ok [PrimitiveGroup.mk PrimType.PT_LIST [0; 1; 2; 2; 1; 3]].
Proof. reflexivity. Qed.

(** ** The reset-point search *)

Lemma probe_next_index (n s k : Z) :
  0 <= s < n -> 0 <= k < n -> n < 2 ^ 63 ->
  (if n <=? wrap_size ((s + k) mod n + 1) then 0 else (s + k) mod n + 1)
  = (s + k + 1) mod n.
Proof.
  intros Hs Hk Hn. unfold wrap_size.
  assert (Hi : 0 <= (s + k) mod n < n) by (apply Z.mod_pos_bound; lia).
  rewrite (Z.mod_small ((s + k) mod n + 1)) by lia.
  destruct (Z.leb_spec n ((s + k) mod n + 1)) as [Hle|Hlt].
  - symmetry. apply Z.mod_divide; [lia|].
    exists ((s + k) / n + 1).
    pose proof (Z.div_mod (s + k) n ltac:(lia)). lia.
  - symmetry. rewrite <- Z.add_mod_idemp_l by lia. apply Z.mod_small. lia.
Qed.

Lemma probe_back_at_start (n s k : Z) :
  0 <= s < n -> 0 <= k < n ->
  ((s + k + 1) mod n = s <-> k + 1 = n).
Proof.
  intros Hs Hk. split.
  - intros H. destruct (Z.eq_dec (k + 1) n) as [|Hne]; [assumption|exfalso].
    destruct (Z_lt_le_dec (s + k + 1) n) as [Hlt|Hge].
    + rewrite Z.mod_small in H by lia. lia.
    + replace (s + k + 1) with (s + k + 1 - n + 1 * n) in H by lia.
      rewrite Z.mod_add, Z.mod_small in H by lia. lia.
  - intros H. replace (s + k + 1) with (s + 1 * n) by lia.
    rewrite Z.mod_add by lia. apply Z.mod_small. lia.
Qed.



Section Probe.
Variable t : Topology.
Variable start : Z.
Let fi := faceInfos t.
Let n := vec_size fi.
Hypothesis Hstart : 0 <= start < n.
Hypothesis Hn : n < 2 ^ 63.

Let rot := rotate (Z.to_nat start) fi.

Lemma rot_lookup (k : nat) :
  (k < length fi)%nat ->
  rot !! k = fi !! Z.to_nat ((start + Z.of_nat k) mod n).
Proof.
  intros Hk. unfold rot. rewrite lookup_rotate_r by exact Hk.
  unfold rotate_nat_add. subst n. unfold vec_size. now rewrite Z2Nat.id by lia.
Qed.

(** Whatever the probe returns is the first unclaimed face of the rest of
    the turn, and a full turn without a result has met only claimed faces. *)
Lemma probe_sound (fuel : nat) :
  forall (k : nat) (r : option ptr),
    (k < length fi)%nat ->
    FindGoodResetPoint_probe fuel t n start ((start + Z.of_nat k) mod n) = Ok r ->
    r = List.find (unclaimed (heap t)) (drop k rot) /\
    (r = None -> Forall (claimed (heap t)) (drop k rot)).
Proof.
  induction fuel as [|fuel IH]; intros k r Hk H; [discriminate|].
  cbn [FindGoodResetPoint_probe] in H.
  res_open H as p. res_open H as f.
  apply vec_at_Ok in E as [_ Hp]. rewrite <- rot_lookup in Hp by exact Hk.
  rewrite (drop_S _ _ _ Hp). cbn [List.find].
  unfold face_at in E0. destruct (faces (heap t) !! p) as [f'|] eqn:Hf;
    [injection E0 as ->|discriminate].
  unfold unclaimed at 1. rewrite Hf.
  destruct (NvFaceInfo.m_stripId f <? 0) eqn:Hs.
  - injection H as <-. split; [reflexivity | discriminate].
  - apply Z.ltb_ge in Hs.
    assert (Hcl : claimed (heap t) p) by (exists f; auto).
    rewrite probe_next_index in H by (unfold n, vec_size in *; lia).
    destruct (Z.eqb_spec ((start + Z.of_nat k + 1) mod n) start) as [Heq|Hne].
    + injection H as <-.
      apply probe_back_at_start in Heq; [|lia|unfold n, vec_size in *; lia].
      assert (Hlen : length rot = length fi) by apply length_rotate.
      rewrite (drop_ge rot (S k)) by (unfold n, vec_size in *; lia).
      split; [reflexivity|]. intros _. constructor; [exact Hcl | constructor].
    + assert (Hk' : (S k < length fi)%nat).
      { destruct (decide (S k < length fi)%nat) as [|Hge]; [assumption|exfalso].
        apply Hne, probe_back_at_start; unfold n, vec_size in *; lia. }
      replace (start + Z.of_nat k + 1) with (start + Z.of_nat (S k)) in H by lia.
      destruct (IH (S k) r Hk' H) as [Hr Hnone].
      split; [exact Hr|]. intros Hr'. constructor; [exact Hcl | auto].
Qed.

(** With valid face pointers the probe comes back within one turn. *)
Lemma probe_total (fuel : nat) :
  Forall (fun p => is_Some (faces (heap t) !! p)) fi ->
  forall k : nat,
    (k < length fi)%nat -> (length fi - k <= fuel)%nat ->
    exists r,
      FindGoodResetPoint_probe fuel t n start ((start + Z.of_nat k) mod n) = Ok r.
Proof.
  intros Hvalid. induction fuel as [|fuel IH]; intros k Hk Hfuel; [lia|].
  cbn [FindGoodResetPoint_probe].
  destruct (lookup_lt_is_Some_2 rot k) as [p Hp].
  { unfold rot. rewrite length_rotate. exact Hk. }
  pose proof Hp as Hp'. rewrite rot_lookup in Hp' by exact Hk.
  assert (Hat : vec_at fi ((start + Z.of_nat k) mod n) = Ok p).
  { apply vec_at_Ok. split; [|exact Hp'].
    apply Z.mod_pos_bound. lia. }
  fold fi. rewrite Hat. cbn [mbind res_bind].
  assert (Hin : p ∈ fi) by (apply list_elem_of_lookup; eauto).
  rewrite Forall_forall in Hvalid. destruct (Hvalid p Hin) as [f Hf].
  unfold face_at. rewrite Hf. cbn [mbind res_bind].
  destruct (NvFaceInfo.m_stripId f <? 0); [eauto|].
  rewrite probe_next_index by (unfold n, vec_size in *; lia).
  destruct (Z.eqb_spec ((start + Z.of_nat k + 1) mod n) start) as [Heq|Hne];
    [eauto|].
  assert (Hk' : (S k < length fi)%nat).
  { destruct (decide (S k < length fi)%nat) as [|Hge]; [assumption|exfalso].
    apply Hne, probe_back_at_start; unfold n, vec_size in *; lia. }
  replace (start + Z.of_nat k + 1) with (start + Z.of_nat (S k)) by lia.
  apply IH; lia.
Qed.
End Probe.



Lemma Forall_rotate {A : Type} (P : A -> Prop) (k : nat) (l : list A) :
  Forall P (rotate k l) <-> Forall P l.
Proof.
  rewrite !Forall_forall. split; intros H x Hx; apply H;
    [now apply elem_of_rotate | now apply elem_of_rotate in Hx].
Qed.

(** A search that comes back started inside the table, has updated
    [meshJump], and returns the first unclaimed face from its start. *)
Lemma FindGoodResetPoint_sound (s s' : NvStripifier.t) (t : Topology)
  (r : option ptr) :
  vec_size (faceInfos t) < 2 ^ 63 ->
  FindGoodResetPoint s t = Ok (s', r) ->
  exists start s1,
    reset_start s t = Ok (start, s1) /\
    0 <= start < vec_size (faceInfos t) /\
    s' = NvStripifier.set_meshJump s1 (next_meshJump (NvStripifier.meshJump s1)) /\
    r = first_unclaimed_from (heap t) (faceInfos t) start /\
    (r = None -> Forall (claimed (heap t)) (faceInfos t)).
Proof.
  intros Hn H. unfold FindGoodResetPoint in H.
  res_open H as [start s1]. res_open H as r'. injection H as <- <-.
  assert (Hstart : 0 <= start < vec_size (faceInfos t)).
  { cbn [FindGoodResetPoint_probe] in E0. res_open E0 as p.
    apply vec_at_Ok in E1 as [H0 Hp]. apply lookup_lt_Some in Hp.
    unfold vec_size. lia. }
  exists start, s1. split; [reflexivity|]. split; [exact Hstart|].
  split; [reflexivity|].
  assert (Hlen : (0 < length (faceInfos t))%nat) by (unfold vec_size in *; lia).
  pose proof (probe_sound t start Hstart Hn (S (length (faceInfos t))) 0 r' Hlen)
    as Hsound.
  rewrite Z.add_0_r, Z.mod_small in Hsound by lia.
  destruct (Hsound E0) as [Hr Hnone]. rewrite drop_0 in Hr, Hnone.
  split; [exact Hr|]. intros Hr'. apply (Forall_rotate _ (Z.to_nat start)). auto.
Qed.

Lemma FindGoodResetPoint_total (s s1 : NvStripifier.t) (t : Topology) (start : Z) :
  vec_size (faceInfos t) < 2 ^ 63 ->
  Forall (fun p => is_Some (faces (heap t) !! p)) (faceInfos t) ->
  reset_start s t = Ok (start, s1) ->
  0 <= start < vec_size (faceInfos t) ->
  exists r,
    FindGoodResetPoint s t
    = Ok (NvStripifier.set_meshJump s1 (next_meshJump (NvStripifier.meshJump s1)), r).
Proof.
  intros Hn Hvalid Hrs Hstart. unfold FindGoodResetPoint. rewrite Hrs.
  cbn [mbind res_bind].
  assert (Hlen : (0 < length (faceInfos t))%nat) by (unfold vec_size in *; lia).
  destruct (probe_total t start Hstart Hn (S (length (faceInfos t))) Hvalid 0 Hlen
              ltac:(lia)) as [r Hr].
  rewrite Z.add_0_r, Z.mod_small in Hr by lia.
  rewrite Hr. cbn [mbind res_bind]. eauto.
Qed.



(** ** The experiment loop and the reset points *)

Lemma reset_start_meshJump (s s1 : NvStripifier.t) (t : Topology) (start : Z) :
  reset_start s t = Ok (start, s1) ->
  NvStripifier.meshJump s1 = NvStripifier.meshJump s /\
  NvStripifier.bFirstTimeResetPoint s1 = false.
Proof.
  unfold reset_start. intros H. res_open H as [sp s0]. res_open H as sp'.
  injection H as _ <-.
  destruct (NvStripifier.bFirstTimeResetPoint s) eqn:Hb.
  - res_open E as sp0. injection E as _ <-. split; reflexivity.
  - res_open E as sp0. injection E as _ <-. split; [reflexivity | exact Hb].
Qed.

Lemma FindGoodResetPoint_meshJump (s s' : NvStripifier.t) (t : Topology)
  (r : option ptr) :
  FindGoodResetPoint s t = Ok (s', r) ->
  NvStripifier.meshJump s' = next_meshJump (NvStripifier.meshJump s) /\
  NvStripifier.bFirstTimeResetPoint s' = false.
Proof.
  unfold FindGoodResetPoint. intros H. res_open H as [start s1].
  res_open H as r'. injection H as <- _.
  apply reset_start_meshJump in E as [Hm Hb]. simpl. now rewrite Hm.
Qed.

Lemma add_experiment_fields (u u' : Setup) (nf : ptr) (e : option ptr) (b : bool) :
  add_experiment u nf e b = Ok u' ->
  su_done u' = su_done u /\ su_stripifier u' = su_stripifier u.
Proof.
  unfold add_experiment. intros H. res_open H as slot. res_open H as exps.
  injection H as <-. split; reflexivity.
Qed.

Section Setup.
Variable t : Topology.
Hypothesis Hn : vec_size (faceInfos t) < 2 ^ 63.

(** PHASE 1 sets [done] only after a search that found every face claimed,
    and every search moves [meshJump] one step. *)
Lemma FindAllStrips_setup_sound (n : nat) :
  forall u u',
    FindAllStrips_setup n t u = Ok u' ->
    (su_done u' = true ->
     su_done u = true \/ Forall (claimed (heap t)) (faceInfos t)) /\
    exists k : nat,
      (k <= n)%nat /\ (0 < n -> 0 < k)%nat /\
      NvStripifier.meshJump (su_stripifier u')
      = Nat.iter k next_meshJump (NvStripifier.meshJump (su_stripifier u)).
Proof.
  induction n as [|n IH]; intros u u' H.
  - injection H as <-. split; [auto|]. exists 0%nat. repeat split; lia.
  - cbn [FindAllStrips_setup] in H. res_open H as [s' nextFace].
    pose proof (FindGoodResetPoint_meshJump _ _ _ _ E) as [Hmj _].
    destruct nextFace as [nf|].
    + cbn [su_resetPoints su_stripifier su_experiments su_experimentIndex
             su_experimentId su_stripId su_done] in H.
      destruct (bool_decide (nf ∈ su_resetPoints u)).
      * destruct (IH _ _ H) as [Hd (k & Hk & _ & Hm)]. split; [exact Hd|].
        exists (S k). repeat split; try lia.
        rewrite Hm, Nat.iter_succ_r. cbn [su_stripifier]. now rewrite Hmj.
      * res_open H as f. res_open H as edge01. res_open H as u1.
        res_open H as u2. res_open H as edge12.
        res_open H as u3. res_open H as u4.
        res_open H as edge20. res_open H as u5.
        res_open H as u6.
        destruct (IH _ _ H) as [Hd (k & Hk & _ & Hm)].
        repeat match goal with
               | E : add_experiment _ _ _ _ = Ok _ |- _ =>
                   apply add_experiment_fields in E as [? ?]
               end.
        split.
        { intros Hdone. destruct (Hd Hdone) as [Hu|Hall]; [left|now right].
          simpl in *. congruence. }
        exists (S k). repeat split; try lia.
        rewrite Hm, Nat.iter_succ_r.
        replace (su_stripifier u6) with s' by (simpl in *; congruence).
        now rewrite Hmj.
    + injection H as <-. split.
      * intros _. right.
        apply FindGoodResetPoint_sound in E as (start & s1 & _ & _ & _ & _ & Hnone);
          auto.
      * exists 1%nat. repeat split; try lia. simpl. exact Hmj.
Qed.

End Setup.



(** ** Comparison of [float] values *)





(** ** PHASE 3: the experiment that is committed *)


(** ** binary32 arithmetic: signs and finiteness *)

Lemma iter_pos_invariant {A : Type} (P : A -> Prop) (f : A -> A) :
  (forall x, P x -> P (f x)) ->
  forall (p : positive) (x : A), P x -> P (SpecFloat.iter_pos f p x).
Proof.
  intros Hf. induction p as [p IH|p IH|]; intros x Hx; simpl; auto.
Qed.

Lemma shr_1_nonneg (x : shr_record) : 0 <= shr_m x -> 0 <= shr_m (shr_1 x).
Proof.
  destruct x as [m r s]. simpl. destruct m as [|[p|p|]|p]; simpl; lia.
Qed.

Lemma shr_record_of_loc_m (m : Z) (l : location) : shr_m (shr_record_of_loc m l) = m.
Proof. destruct l as [|[]]; reflexivity. Qed.

Lemma digits2_pos_bounds (p : positive) :
  2 ^ (Z.pos (digits2_pos p) - 1) <= Z.pos p < 2 ^ Z.pos (digits2_pos p).
Proof.
  induction p as [p IH|p IH|]; simpl digits2_pos.
  - rewrite Pos2Z.inj_succ.
    replace (Z.succ (Z.pos (digits2_pos p)) - 1) with (Z.succ (Z.pos (digits2_pos p) - 1)) by lia.
    rewrite !Z.pow_succ_r by lia. lia.
  - rewrite Pos2Z.inj_succ.
    replace (Z.succ (Z.pos (digits2_pos p)) - 1) with (Z.succ (Z.pos (digits2_pos p) - 1)) by lia.
    rewrite !Z.pow_succ_r by lia. lia.
  - simpl. lia.
Qed.

Lemma digits2_pos_unique (p : positive) (k : Z) :
  2 ^ (k - 1) <= Z.pos p < 2 ^ k -> 1 <= k -> Z.pos (digits2_pos p) = k.
Proof.
  intros [Hlo Hhi] Hk. pose proof (digits2_pos_bounds p) as [Hlo' Hhi'].
  set (d := Z.pos (digits2_pos p)) in *.
  assert (Hd : 1 <= d) by (unfold d; lia).
  destruct (Z.lt_trichotomy d k) as [Hlt|[Heq|Hgt]]; [exfalso|exact Heq|exfalso].
  - assert (2 ^ d <= 2 ^ (k - 1)) by (apply Z.pow_le_mono_r; lia). lia.
  - assert (2 ^ k <= 2 ^ (d - 1)) by (apply Z.pow_le_mono_r; lia). lia.
Qed.

Lemma shr_1_m (x : shr_record) : 0 <= shr_m x -> shr_m (shr_1 x) = shr_m x / 2.
Proof.
  destruct x as [m r s]. cbn [shr_m]. intros Hm.
  destruct m as [|[p|p|]|p]; cbn [shr_1 shr_m]; try lia; try reflexivity.
  - apply Z.div_unique with 1; lia.
  - apply Z.div_unique with 0; lia.
Qed.

Lemma iter_shr_1_m (p : positive) :
  forall x, 0 <= shr_m x ->
            shr_m (SpecFloat.iter_pos shr_1 p x) = shr_m x / 2 ^ Z.pos p.
Proof.
  induction p as [p IH|p IH|]; intros x Hx; simpl SpecFloat.iter_pos.
  - assert (H1 : 0 <= shr_m (shr_1 x)) by now apply shr_1_nonneg.
    assert (H2 : 0 <= shr_m (SpecFloat.iter_pos shr_1 p (shr_1 x)))
      by (apply iter_pos_invariant; [apply shr_1_nonneg | exact H1]).
    rewrite IH, IH, shr_1_m by assumption.
    assert (Hp : 0 < 2 ^ Z.pos p) by (apply Z.pow_pos_nonneg; lia).
    rewrite !Z.div_div by lia. f_equal.
    replace (Z.pos p~1) with (1 + Z.pos p + Z.pos p) by lia.
    rewrite !Z.pow_add_r by lia. change (2 ^ 1) with 2. lia.
  - assert (H2 : 0 <= shr_m (SpecFloat.iter_pos shr_1 p x))
      by (apply iter_pos_invariant; [apply shr_1_nonneg | exact Hx]).
    rewrite IH, IH by assumption.
    assert (Hp : 0 < 2 ^ Z.pos p) by (apply Z.pow_pos_nonneg; lia).
    rewrite !Z.div_div by lia. f_equal.
    replace (Z.pos p~0) with (Z.pos p + Z.pos p) by lia.
    rewrite !Z.pow_add_r by lia. reflexivity.
  - rewrite shr_1_m by assumption. reflexivity.
Qed.

(** [shr] by a non-negative amount. *)
Lemma shr_spec (x : shr_record) (e n : Z) :
  0 <= shr_m x -> 0 <= n ->
  shr_m (fst (shr x e n)) = shr_m x / 2 ^ n /\ snd (shr x e n) = e + n.
Proof.
  intros Hx Hn. unfold shr. destruct n as [|p|p]; simpl fst; simpl snd.
  - rewrite Z.div_1_r. split; [reflexivity | lia].
  - split; [now apply iter_shr_1_m | reflexivity].
  - lia.
Qed.

Lemma Zdigits2_unique (m k : Z) :
  2 ^ (k - 1) <= m < 2 ^ k -> 1 <= k -> Zdigits2 m = k.
Proof.
  intros H Hk. destruct m as [|p|p].
  - assert (0 < 2 ^ (k - 1)) by (apply Z.pow_pos_nonneg; lia). lia.
  - simpl. now apply digits2_pos_unique.
  - assert (0 < 2 ^ (k - 1)) by (apply Z.pow_pos_nonneg; lia). lia.
Qed.

Lemma Zdigits2_bounds (m : Z) :
  0 < m -> 1 <= Zdigits2 m /\ 2 ^ (Zdigits2 m - 1) <= m < 2 ^ Zdigits2 m.
Proof.
  intros Hm. destruct m as [|p|p]; try lia. simpl.
  split; [lia | apply digits2_pos_bounds].
Qed.

(** Digits of a quotient by a power of two that leaves something. *)
Lemma Zdigits2_shift (m n : Z) :
  0 < m -> 0 <= n < Zdigits2 m ->
  0 < m / 2 ^ n /\ Zdigits2 (m / 2 ^ n) = Zdigits2 m - n.
Proof.
  intros Hm Hn. destruct (Zdigits2_bounds m Hm) as [Hd [Hlo Hhi]].
  set (d := Zdigits2 m) in *.
  assert (Hp : 0 < 2 ^ n) by (apply Z.pow_pos_nonneg; lia).
  assert (Hq : 2 ^ (d - n - 1) <= m / 2 ^ n < 2 ^ (d - n)).
  { split.
    - apply Z.div_le_lower_bound; [lia|].
      rewrite <- Z.pow_add_r by lia. replace (n + (d - n - 1)) with (d - 1) by lia.
      exact Hlo.
    - apply Z.div_lt_upper_bound; [lia|].
      rewrite <- Z.pow_add_r by lia. replace (n + (d - n)) with d by lia.
      exact Hhi. }
  assert (0 < 2 ^ (d - n - 1)) by (apply Z.pow_pos_nonneg; lia).
  split; [lia|]. apply Zdigits2_unique; [|lia].
  replace (d - n - 1) with (d - n - 1) in Hq by lia. exact Hq.
Qed.

(** Digits after adding at most one. *)
Lemma Zdigits2_round (m m' : Z) :
  0 < m -> m <= m' <= m + 1 ->
  Zdigits2 m <= Zdigits2 m' <= Zdigits2 m + 1.
Proof.
  intros Hm Hm'. destruct (Zdigits2_bounds m Hm) as [Hd [Hlo Hhi]].
  set (d := Zdigits2 m) in *.
  destruct (Z_lt_le_dec m' (2 ^ d)) as [Hlt|Hge].
  - rewrite (Zdigits2_unique m' d); lia.
  - rewrite (Zdigits2_unique m' (d + 1)); [lia| |lia].
    replace (d + 1 - 1) with d by lia.
    rewrite Z.pow_add_r by lia. change (2 ^ 1) with 2. lia.
Qed.

Lemma f32_fexp_normal (x : Z) : -125 <= x -> fexp f32_prec f32_emax x = x - 24.
Proof. intros H. unfold fexp, emin, f32_prec, f32_emax. lia. Qed.

(** One [shr_fexp] on a positive mantissa in the normal range keeps a
    positive mantissa and the magnitude [digits + exponent]. *)
Lemma shr_fexp_normal (m e : Z) (l : location) :
  0 < m -> -125 <= Zdigits2 m + e ->
  let '(mrs, e') := shr_fexp f32_prec f32_emax m e l in
  0 < shr_m mrs /\ shr_m mrs <= m /\
  Zdigits2 (shr_m mrs) + e' = Zdigits2 m + e /\
  e' = e + Z.max 0 (Zdigits2 m - 24).
Proof.
  intros Hm Hx. unfold shr_fexp. rewrite f32_fexp_normal by exact Hx.
  replace (Zdigits2 m + e - 24 - e) with (Zdigits2 m - 24) by lia.
  destruct (Zdigits2_bounds m Hm) as [Hd _].
  destruct (Z_le_gt_dec (Zdigits2 m - 24) 0) as [Hle|Hgt].
  - assert (Hshr : shr (shr_record_of_loc m l) e (Zdigits2 m - 24)
                   = (shr_record_of_loc m l, e)).
    { unfold shr. destruct (Zdigits2 m - 24) as [|p|p]; try reflexivity. lia. }
    rewrite Hshr, shr_record_of_loc_m. repeat split; lia.
  - pose proof (shr_spec (shr_record_of_loc m l) e (Zdigits2 m - 24)) as Hs.
    rewrite shr_record_of_loc_m in Hs. destruct (Hs ltac:(lia) ltac:(lia)) as [H1 H2].
    destruct (shr (shr_record_of_loc m l) e (Zdigits2 m - 24)) as [mrs e'].
    simpl in H1, H2. subst e'. rewrite H1.
    destruct (Zdigits2_shift m (Zdigits2 m - 24) Hm ltac:(lia)) as [Hq Hdq].
    rewrite Hdq. repeat split; try lia.
    apply Z.div_le_upper_bound; [apply Z.pow_pos_nonneg; lia|].
    assert (0 < 2 ^ (Zdigits2 m - 24)) by (apply Z.pow_pos_nonneg; lia).
    nia.
Qed.

Lemma round_nearest_even_bounds (m : Z) (l : location) :
  m <= round_nearest_even m l <= m + 1.
Proof.
  unfold round_nearest_even. destruct l as [|[]]; try lia.
  destruct (Z.even m); lia.
Qed.

(** Rounding a positive mantissa whose magnitude is in the normal range and
    below the overflow threshold gives a finite positive [float] of the
    same magnitude, or one more. *)
Lemma binary_round_aux_finite (m e : Z) (l : location) :
  0 < m -> -125 <= Zdigits2 m + e <= 100 ->
  exists m' e',
    binary_round_aux f32_prec f32_emax false m e l = S754_finite false m' e' /\
    Zdigits2 m + e <= Z.pos (digits2_pos m') + e' <= Zdigits2 m + e + 1.
Proof.
  intros Hm Hx. unfold binary_round_aux.
  pose proof (shr_fexp_normal m e l Hm ltac:(lia)) as H1.
  destruct (shr_fexp f32_prec f32_emax m e l) as [mrs1 e1].
  destruct H1 as (Hm1 & _ & Hd1 & He1).
  set (m2 := round_nearest_even (shr_m mrs1) (loc_of_shr_record mrs1)).
  pose proof (round_nearest_even_bounds (shr_m mrs1) (loc_of_shr_record mrs1)) as Hm2.
  fold m2 in Hm2.
  pose proof (Zdigits2_round (shr_m mrs1) m2 Hm1 Hm2) as Hd2.
  pose proof (shr_fexp_normal m2 e1 loc_Exact ltac:(lia) ltac:(lia)) as H2.
  destruct (shr_fexp f32_prec f32_emax m2 e1 loc_Exact) as [mrs2 e2].
  destruct H2 as (Hm3 & _ & Hd3 & He2).
  destruct (shr_m mrs2) as [|p|p] eqn:Hp; try lia.
  destruct (Zdigits2_bounds m Hm) as [Hd _].
  destruct (Zdigits2_bounds (shr_m mrs1) Hm1) as [Hdm1 _].
  assert (He : e2 <= f32_emax - f32_prec).
  { unfold f32_emax, f32_prec. lia. }
  apply Z.leb_le in He. rewrite He.
  exists p, e2. split; [reflexivity|]. simpl in Hd3. lia.
Qed.

Lemma digits2_pos_iter_xO (p k : positive) :
  Z.pos (digits2_pos (Pos.iter xO p k)) = Z.pos (digits2_pos p) + Z.pos k.
Proof.
  induction k as [|k IH] using Pos.peano_ind.
  - simpl. lia.
  - rewrite Pos.iter_succ. simpl digits2_pos. lia.
Qed.

(** [shl_align] keeps the magnitude. *)
Lemma shl_align_magnitude (mx : positive) (ex ex' : Z) :
  let '(mz, ez) := shl_align mx ex ex' in
  Z.pos (digits2_pos mz) + ez = Z.pos (digits2_pos mx) + ex.
Proof.
  unfold shl_align. destruct (ex' - ex) as [|k|k] eqn:E; try reflexivity.
  rewrite digits2_pos_iter_xO. lia.
Qed.

(** Integers below 2^64 convert to a finite [float]. *)
Lemma f32_of_Z_finite (z : Z) :
  0 < z < 2 ^ 64 -> positive_finite (f32_of_Z z) 1 65.
Proof.
  intros Hz. destruct z as [|b|b]; try lia.
  unfold f32_of_Z, binary_normalize, binary_round.
  pose proof (digits2_pos_bounds b) as Hb.
  set (d := Z.pos (digits2_pos b)) in *.
  assert (Hd : 1 <= d <= 64).
  { split; [unfold d; lia|].
    destruct (Z_le_gt_dec d 64) as [|Hgt]; [assumption|exfalso].
    assert (2 ^ 64 <= 2 ^ (d - 1)) by (apply Z.pow_le_mono_r; lia). lia. }
  pose proof (shl_align_magnitude b 0 (fexp f32_prec f32_emax (d + 0))) as Hal.
  destruct (shl_align b 0 (fexp f32_prec f32_emax (d + 0))) as [mz ez].
  fold d in Hal.
  destruct (binary_round_aux_finite (Z.pos mz) ez loc_Exact ltac:(lia))
    as (m' & e' & -> & Hmag); [simpl; lia|].
  exists m', e'. split; [reflexivity|]. simpl in Hmag. lia.
Qed.

(** Digits of a number between two powers of two. *)
Lemma Zdigits2_between (q K : Z) :
  0 <= K - 1 -> 2 ^ (K - 1) <= q < 2 ^ (K + 1) -> K <= Zdigits2 q <= K + 1.
Proof.
  intros HK [Hlo Hhi].
  assert (Hq : 0 < q).
  { assert (0 < 2 ^ (K - 1)) by (apply Z.pow_pos_nonneg; lia). lia. }
  destruct (Zdigits2_bounds q Hq) as [Hd [Hlo' Hhi']].
  split.
  - destruct (Z_le_gt_dec K (Zdigits2 q)) as [|Hgt]; [assumption|exfalso].
    assert (2 ^ Zdigits2 q <= 2 ^ (K - 1)) by (apply Z.pow_le_mono_r; lia). lia.
  - destruct (Z_le_gt_dec (Zdigits2 q) (K + 1)) as [|Hgt]; [assumption|exfalso].
    assert (2 ^ (K + 1) <= 2 ^ (Zdigits2 q - 1)) by (apply Z.pow_le_mono_r; lia). lia.
Qed.

(** The quotient of two positive finite floats of moderate magnitude. *)
Lemma f32_div_finite (x y : f32) (lx hx ly hy : Z) :
  positive_finite x lx hx -> positive_finite y ly hy ->
  -125 <= lx - hy -> hx - ly <= 99 ->
  positive_finite (f32_div x y) (lx - hy) (hx - ly + 2).
Proof.
  intros (mx & ex & -> & Hx) (my & ey & -> & Hy) Hlo Hhi.
  unfold f32_div, SFdiv, SFdiv_core_binary. cbn [xorb].
  set (d1 := Zdigits2 (Z.pos mx)). set (d2 := Zdigits2 (Z.pos my)).
  assert (Hd1 : d1 = Z.pos (digits2_pos mx)) by reflexivity.
  assert (Hd2 : d2 = Z.pos (digits2_pos my)) by reflexivity.
  set (D := d1 + ex - (d2 + ey)).
  rewrite (f32_fexp_normal D) by (unfold D; lia).
  set (e' := Z.min (D - 24) (ex - ey)).
  set (s := ex - ey - e').
  assert (Hs : 0 <= s /\ 24 - d1 + d2 <= s) by (unfold s, e', D; lia).
  set (m' := match s with Z.pos _ => Z.shiftl (Z.pos mx) s | 0 => Z.pos mx
                     | Z.neg _ => 0 end).
  assert (Hm' : m' = Z.pos mx * 2 ^ s).
  { unfold m'. destruct s as [|p|p] eqn:Es; try lia.
    now rewrite Z.shiftl_mul_pow2 by lia. }
  pose proof (Z.div_eucl_eq m' (Z.pos my) ltac:(lia)) as Heucl.
  pose proof (Z.mod_pos_bound m' (Z.pos my) ltac:(lia)) as Hrem.
  unfold Z.modulo in Hrem.
  assert (Hdiv : fst (Z.div_eucl m' (Z.pos my)) = m' / Z.pos my) by reflexivity.
  destruct (Z.div_eucl m' (Z.pos my)) as [q r]. simpl in Hdiv, Hrem. subst q.
  pose proof (digits2_pos_bounds mx) as Hbx. pose proof (digits2_pos_bounds my) as Hby.
  rewrite <- Hd1 in Hbx. rewrite <- Hd2 in Hby.
  assert (Hd1' : 1 <= d1) by lia. assert (Hd2' : 1 <= d2) by lia.
  set (K := d1 + s - d2).
  assert (HK : 24 <= K) by (unfold K; lia).
  assert (Hq : 2 ^ (K - 1) <= m' / Z.pos my < 2 ^ (K + 1)).
  { split.
    - apply Z.div_le_lower_bound; [lia|]. rewrite Hm'.
      assert (Z.pos my * 2 ^ (K - 1) <= 2 ^ d2 * 2 ^ (K - 1)).
      { apply Z.mul_le_mono_nonneg_r; [apply Z.pow_nonneg; lia | lia]. }
      rewrite <- Z.pow_add_r in H by lia.
      replace (d2 + (K - 1)) with ((d1 - 1) + s) in H by (unfold K; lia).
      rewrite Z.pow_add_r in H by lia.
      assert (2 ^ (d1 - 1) * 2 ^ s <= Z.pos mx * 2 ^ s).
      { apply Z.mul_le_mono_nonneg_r; [apply Z.pow_nonneg; lia | lia]. }
      lia.
    - apply Z.div_lt_upper_bound; [lia|]. rewrite Hm'.
      assert (Z.pos mx * 2 ^ s < 2 ^ d1 * 2 ^ s).
      { apply Z.mul_lt_mono_pos_r; [apply Z.pow_pos_nonneg; lia | lia]. }
      rewrite <- Z.pow_add_r in H by lia.
      replace (d1 + s) with ((d2 - 1) + (K + 1)) in H by (unfold K; lia).
      rewrite Z.pow_add_r in H by lia.
      assert (2 ^ (d2 - 1) * 2 ^ (K + 1) <= Z.pos my * 2 ^ (K + 1)).
      { apply Z.mul_le_mono_nonneg_r; [apply Z.pow_nonneg; lia | lia]. }
      lia. }
  pose proof (Zdigits2_between _ K ltac:(lia) Hq) as Hdq.
  assert (Hpos : 0 < m' / Z.pos my).
  { assert (0 < 2 ^ (K - 1)) by (apply Z.pow_pos_nonneg; lia). lia. }
  assert (HDe : K + e' = D) by (unfold K, s, D; lia).
  destruct (binary_round_aux_finite (m' / Z.pos my) e'
              (new_location (Z.pos my) r) Hpos ltac:(lia))
    as (mz & ez & -> & Hmag).
  exists mz, ez. split; [reflexivity|]. lia.
Qed.


(** ** Scores *)



Lemma real_face_total_bounds (e : NvStripInfoVec) :
  Forall degenerates_ok e -> 0 <= real_face_total e <= face_total e.
Proof.
  induction 1 as [|s e [Hlo Hhi] _ IH]; simpl; [lia|].
  unfold vec_size in *. lia.
Qed.




(** ** Topology construction *)

Lemma wrap_int_small (v : Z) : 0 <= v < 2 ^ 31 -> wrap_int v = v.
Proof.
  intros H. unfold wrap_int.
  rewrite Z.mod_small by (change (2 ^ 32) with (2 * 2 ^ 31); lia). lia.
Qed.

Lemma FindEdgeInfo_walk_total (h : Heap) (v0 v1 : Z) :
  (forall (i : nat) (e : NvEdgeInfo.t),
      edges h !! i = Some e ->
      (forall q, NvEdgeInfo.m_nextV0 e = Some q -> (q < i)%nat) /\
      (forall q, NvEdgeInfo.m_nextV1 e = Some q -> (q < i)%nat)) ->
  forall (fuel : nat) (infoIter : option ptr),
    (forall q, infoIter = Some q -> (q < fuel)%nat /\ (q < length (edges h))%nat) ->
    exists r,
      FindEdgeInfo_walk fuel h infoIter v0 v1 = Ok r /\
      (forall q, r = Some q -> (q < length (edges h))%nat).
Proof.
  intros Hnext. induction fuel as [|fuel IH]; intros infoIter Hq.
  - destruct infoIter as [q|]; [destruct (Hq q eq_refl); lia|].
    exists None. split; [reflexivity | discriminate].
  - destruct infoIter as [q|]; [|exists None; split; [reflexivity | discriminate]].
    destruct (Hq q eq_refl) as [Hfuel Hlen].
    destruct (lookup_lt_is_Some_2 _ _ Hlen) as [e He].
    cbn [FindEdgeInfo_walk]. unfold edge_at. rewrite He. cbn [mbind res_bind].
    destruct (Hnext q e He) as [Hn0 Hn1].
    assert (Hself : forall q', Some q = Some q' -> (q' < length (edges h))%nat)
      by (intros q' [= <-]; exact Hlen).
    destruct (NvEdgeInfo.m_v0 e =? v0).
    + destruct (NvEdgeInfo.m_v1 e =? v1); [eauto|].
      apply IH. intros q' Hq'. specialize (Hn0 q' Hq'). split; lia.
    + destruct (NvEdgeInfo.m_v0 e =? v1); [eauto|].
      apply IH. intros q' Hq'. specialize (Hn1 q' Hq'). split; lia.
Qed.

Lemma FindEdgeInfo_total (h : Heap) (edgeInfos : NvEdgeInfoVec) (v0 v1 : Z) :
  edges_wf h edgeInfos -> 0 <= v0 < vec_size edgeInfos ->
  exists r,
    FindEdgeInfo h edgeInfos v0 v1 = Ok r /\
    (forall q, r = Some q -> (q < length (edges h))%nat).
Proof.
  intros [Hheads Hnext] Hv. unfold FindEdgeInfo.
  destruct (lookup_lt_is_Some_2 edgeInfos (Z.to_nat v0)) as [head Hhead].
  { unfold vec_size in Hv. lia. }
  assert (Hat : vec_at edgeInfos v0 = Ok head)
    by (apply vec_at_Ok; split; [lia | exact Hhead]).
  rewrite Hat. cbn [mbind res_bind].
  apply FindEdgeInfo_walk_total; [exact Hnext|].
  intros q ->. specialize (Hheads _ _ Hhead). split; exact Hheads.
Qed.

Lemma vec_set_in_range {A : Type} (v : list A) (i : Z) (x : A) :
  0 <= i < vec_size v -> vec_set v i x = Ok (<[Z.to_nat i := x]> v).
Proof.
  intros H. unfold vec_set, vec_size in *.
  destruct (Z.leb_spec 0 i); [|lia].
  destruct (Z.ltb_spec i (Z.of_nat (length v))); [reflexivity | lia].
Qed.

Lemma vec_at_in_range {A : Type} (v : list A) (i : Z) :
  0 <= i < vec_size v -> exists x, vec_at v i = Ok x /\ v !! Z.to_nat i = Some x.
Proof.
  intros H. destruct (lookup_lt_is_Some_2 v (Z.to_nat i)) as [x Hx].
  { unfold vec_size in H. lia. }
  exists x. split; [apply vec_at_Ok; split; [lia | exact Hx] | exact Hx].
Qed.

Lemma edges_wf_set_edge (h : Heap) (edgeInfos : NvEdgeInfoVec) (p : nat)
  (e e' : NvEdgeInfo.t) :
  edges_wf h edgeInfos -> edges h !! p = Some e ->
  NvEdgeInfo.m_nextV0 e' = NvEdgeInfo.m_nextV0 e ->
  NvEdgeInfo.m_nextV1 e' = NvEdgeInfo.m_nextV1 e ->
  edges_wf (set_edge h p e') edgeInfos.
Proof.
  intros [Hheads Hnext] He H0 H1. pose proof (lookup_lt_Some _ _ _ He) as Hp.
  split; cbn [set_edge edges].
  - intros v q Hv. rewrite length_insert. eauto.
  - intros i x Hx. destruct (decide (i = p)) as [->|Hne].
    + rewrite list_lookup_insert_eq in Hx by exact Hp. injection Hx as <-.
      rewrite H0, H1. now apply Hnext.
    + rewrite list_lookup_insert_ne in Hx by congruence. now apply Hnext.
Qed.

Lemma edges_wf_new_edge (h : Heap) (edgeInfos : NvEdgeInfoVec) (va vb : nat)
  (e : NvEdgeInfo.t) :
  edges_wf h edgeInfos ->
  (va < length edgeInfos)%nat -> (vb < length edgeInfos)%nat ->
  edgeInfos !! va = Some (NvEdgeInfo.m_nextV0 e) ->
  edgeInfos !! vb = Some (NvEdgeInfo.m_nextV1 e) ->
  edges_wf (new_edge h e).1
    (<[vb := Some (length (edges h))]> (<[va := Some (length (edges h))]> edgeInfos)).
Proof.
  intros [Hheads Hnext] Hva Hvb H0 H1. split; cbn [new_edge fst edges].
  - intros v q Hv. rewrite length_app. simpl length.
    destruct (decide (v = vb)) as [->|Hneb].
    + rewrite list_lookup_insert_eq in Hv by (rewrite length_insert; lia).
      injection Hv as <-. lia.
    + rewrite list_lookup_insert_ne in Hv by congruence.
      destruct (decide (v = va)) as [->|Hnea].
      * rewrite list_lookup_insert_eq in Hv by lia. injection Hv as <-. lia.
      * rewrite list_lookup_insert_ne in Hv by congruence.
        specialize (Hheads _ _ Hv). lia.
  - intros i x Hx. apply lookup_app_Some in Hx as [Hx|[Hlen Hx]].
    + now apply Hnext.
    + destruct (i - length (edges h))%nat as [|k] eqn:Ek;
        [|destruct k; discriminate].
      injection Hx as <-. split; intros q Hq.
      * rewrite Hq in H0. specialize (Hheads _ _ H0). lia.
      * rewrite Hq in H1. specialize (Hheads _ _ H1). lia.
Qed.

(** What one edge visit does. *)
Lemma visit_edge_spec (h : Heap) (edgeInfos : NvEdgeInfoVec) (va vb : Z)
  (faceInfo : nat) :
  edges_wf h edgeInfos -> vertex_ok edgeInfos va -> vertex_ok edgeInfos vb ->
  exists ev,
    visit_edge h edgeInfos va vb faceInfo = Ok ev /\
    edges_wf (ev_heap ev) (ev_edgeInfos ev) /\
    faces (ev_heap ev) = faces h /\
    length (ev_edgeInfos ev) = length edgeInfos /\
    (ev_edge ev < length (edges (ev_heap ev)))%nat /\
    (length (edges h) <= length (edges (ev_heap ev)))%nat /\
    (ev_found ev = true <->
     exists q, FindEdgeInfo h edgeInfos (wrap_int va) (wrap_int vb) = Ok (Some q)) /\
    (ev_updated ev = true -> ev_found ev = true).
Proof.
  intros Hwf [Hva Hva'] [Hvb Hvb']. unfold visit_edge.
  rewrite (wrap_int_small va), (wrap_int_small vb) by lia.
  destruct (FindEdgeInfo_total h edgeInfos va vb Hwf Hva) as (r & Hr & Hrlen).
  rewrite Hr. cbn [mbind res_bind]. destruct r as [p|].
  - specialize (Hrlen p eq_refl).
    destruct (lookup_lt_is_Some_2 _ _ Hrlen) as [e He].
    unfold edge_at. rewrite He. cbn [mbind res_bind].
    destruct (NvEdgeInfo.m_face1 e) as [other|] eqn:Hf1.
    + eexists. split; [reflexivity|]. cbn.
      split; [exact Hwf|]. split; [reflexivity|]. split; [reflexivity|].
      split; [exact Hrlen|]. split; [lia|]. split; [|discriminate].
      split; [eauto | reflexivity].
    + eexists. split; [reflexivity|]. cbn [ev_heap ev_edgeInfos ev_edge ev_found
                                             ev_updated].
      split; [eapply edges_wf_set_edge; eauto|].
      split; [reflexivity|]. split; [reflexivity|].
      split; [cbn; rewrite length_insert; exact Hrlen|].
      split; [cbn; rewrite length_insert; lia|].
      split; [|reflexivity]. split; [eauto | reflexivity].
  - destruct (vec_at_in_range edgeInfos va Hva) as (n0 & Hn0 & Hl0).
    destruct (vec_at_in_range edgeInfos vb Hvb) as (n1 & Hn1 & Hl1).
    rewrite Hn0, Hn1. cbn [mbind res_bind new_edge].
    rewrite vec_set_in_range by exact Hva. cbn [mbind res_bind].
    rewrite vec_set_in_range by (unfold vec_size; rewrite length_insert; exact Hvb).
    cbn [mbind res_bind]. eexists. split; [reflexivity|].
    cbn [ev_heap ev_edgeInfos ev_edge ev_found ev_updated].
    split.
    { apply (edges_wf_new_edge h edgeInfos (Z.to_nat va) (Z.to_nat vb)
               (NvEdgeInfo.mk (Some faceInfo) None va vb n0 n1));
        unfold vec_size in *; auto; lia. }
    split; [reflexivity|]. split; [now rewrite !length_insert|].
    split; [cbn; rewrite length_app; simpl; lia|].
    split; [cbn; rewrite length_app; simpl; lia|].
    split; [|discriminate]. split; [discriminate|].
    intros (q & Hq). discriminate.
Qed.

(** ** Edge chains: what the topology keeps findable *)

Lemma FindEdgeInfo_walk_step (fuel : nat) (h : Heap) (p : nat) (e : NvEdgeInfo.t)
  (v0 v1 : Z) :
  edges h !! p = Some e ->
  FindEdgeInfo_walk (S fuel) h (Some p) v0 v1
  = if edge_hit e v0 v1 then Ok (Some p)
    else FindEdgeInfo_walk fuel h (edge_step e v0) v0 v1.
Proof.
  intros He. cbn [FindEdgeInfo_walk]. unfold edge_at. rewrite He.
  cbn [mbind res_bind]. unfold edge_hit, edge_step.
  destruct (NvEdgeInfo.m_v0 e =? v0); reflexivity.
Qed.

Lemma finds_of_walk (h : Heap) (v0 v1 : Z) (fuel : nat) :
  forall (infoIter : option nat) (q : nat),
    FindEdgeInfo_walk fuel h infoIter v0 v1 = Ok (Some q) ->
    finds h v0 v1 infoIter.
Proof.
  induction fuel as [|fuel IH]; intros [p|] q H; try discriminate.
  destruct (edges h !! p) as [e|] eqn:He.
  - rewrite (FindEdgeInfo_walk_step _ _ _ _ _ _ He) in H.
    destruct (edge_hit e v0 v1) eqn:Hhit.
    + eapply finds_here; eauto.
    + eapply finds_next; eauto.
  - cbn [FindEdgeInfo_walk] in H. unfold edge_at in H. rewrite He in H.
    discriminate.
Qed.

Lemma walk_of_finds (h : Heap) (edgeInfos : NvEdgeInfoVec) (v0 v1 : Z) :
  edges_wf h edgeInfos ->
  forall infoIter,
    finds h v0 v1 infoIter ->
    forall fuel,
      (forall q, infoIter = Some q -> (q < fuel)%nat) ->
      exists q, FindEdgeInfo_walk fuel h infoIter v0 v1 = Ok (Some q) /\
                (q < length (edges h))%nat.
Proof.
  intros [_ Hnext]. induction 1 as [p e He Hhit|p e He Hhit Hrest IH];
    intros fuel Hfuel.
  - destruct fuel as [|fuel]; [specialize (Hfuel p eq_refl); lia|].
    rewrite (FindEdgeInfo_walk_step _ _ _ _ _ _ He), Hhit.
    exists p. split; [reflexivity|]. now apply lookup_lt_Some in He.
  - destruct fuel as [|fuel]; [specialize (Hfuel p eq_refl); lia|].
    rewrite (FindEdgeInfo_walk_step _ _ _ _ _ _ He), Hhit.
    apply IH. intros q Hq. specialize (Hfuel p eq_refl).
    destruct (Hnext p e He) as [H0 H1]. unfold edge_step in Hq.
    destruct (NvEdgeInfo.m_v0 e =? v0); [specialize (H0 q Hq) | specialize (H1 q Hq)];
      lia.
Qed.

Lemma heap_same_chains_refl (h : Heap) : heap_same_chains h h.
Proof. intros i e He. eauto. Qed.

Lemma heap_same_chains_trans (h1 h2 h3 : Heap) :
  heap_same_chains h1 h2 -> heap_same_chains h2 h3 -> heap_same_chains h1 h3.
Proof.
  intros H12 H23 i e He.
  destruct (H12 i e He) as (e2 & He2 & Hk2).
  destruct (H23 i e2 He2) as (e3 & He3 & Hk3).
  exists e3. split; [exact He3 | congruence].
Qed.

Lemma finds_ext (h h' : Heap) (v0 v1 : Z) (infoIter : option nat) :
  heap_same_chains h h' -> finds h v0 v1 infoIter -> finds h' v0 v1 infoIter.
Proof.
  intros Hsame. induction 1 as [p e He Hhit|p e He Hhit Hrest IH];
    destruct (Hsame p e He) as (e' & He' & Hk);
    unfold edge_keys in Hk; injection Hk as K0 K1 K2 K3.
  - eapply finds_here; [exact He'|].
    unfold edge_hit in *. now rewrite K0, K1.
  - eapply finds_next; [exact He'| |].
    + unfold edge_hit in *. now rewrite K0, K1.
    + unfold edge_step in *. now rewrite K0, K2, K3.
Qed.

Lemma FindEdgeInfo_linked (h : Heap) (edgeInfos : NvEdgeInfoVec) (v0 v1 : Z) :
  edges_wf h edgeInfos ->
  (edge_linked h edgeInfos v0 v1 <->
   exists q, FindEdgeInfo h edgeInfos v0 v1 = Ok (Some q)).
Proof.
  intros Hwf. unfold FindEdgeInfo. split.
  - intros (Hv & head & Hhead & Hfinds).
    assert (Hat : vec_at edgeInfos v0 = Ok head)
      by (apply vec_at_Ok; split; [lia | exact Hhead]).
    rewrite Hat. cbn [mbind res_bind].
    destruct (walk_of_finds h edgeInfos v0 v1 Hwf head Hfinds (length (edges h)))
      as (q & Hq & _).
    + intros q ->. destruct Hwf as [Hheads _]. eapply Hheads. exact Hhead.
    + eauto.
  - intros (q & H). res_open H as head.
    apply vec_at_Ok in E as [Hv Hhead].
    split; [exact Hv|]. exists head. split; [exact Hhead|].
    eapply finds_of_walk. exact H.
Qed.


Lemma heap_same_chains_set_edge (h : Heap) (p : nat) (e e' : NvEdgeInfo.t) :
  edges h !! p = Some e -> edge_keys e' = edge_keys e ->
  heap_same_chains h (set_edge h p e').
Proof.
  intros He Hk i x Hx. cbn [set_edge edges].
  destruct (decide (i = p)) as [->|Hne].
  - exists e'. split; [|congruence].
    apply list_lookup_insert_eq. now apply lookup_lt_Some in He.
  - exists x. split; [|reflexivity].
    rewrite list_lookup_insert_ne by congruence. exact Hx.
Qed.

Lemma heap_same_chains_new_edge (h : Heap) (e : NvEdgeInfo.t) :
  heap_same_chains h (new_edge h e).1.
Proof.
  intros i x Hx. exists x. split; [|reflexivity]. cbn.
  rewrite lookup_app_l; [exact Hx|]. now apply lookup_lt_Some in Hx.
Qed.

Lemma edge_linked_ext (h h' : Heap) (edgeInfos : NvEdgeInfoVec) (a b : Z) :
  heap_same_chains h h' ->
  edge_linked h edgeInfos a b -> edge_linked h' edgeInfos a b.
Proof.
  intros Hsame (Ha & head & Hhead & Hfinds).
  split; [exact Ha|]. exists head. split; [exact Hhead|].
  eapply finds_ext; eauto.
Qed.

(** A visit leaves every edge findable that was, and makes its own edge
    findable. *)
Lemma visit_edge_linked (h : Heap) (edgeInfos : NvEdgeInfoVec) (va vb : Z)
  (faceInfo : nat) (ev : EdgeVisit) :
  edges_wf h edgeInfos -> vertex_ok edgeInfos va -> vertex_ok edgeInfos vb ->
  visit_edge h edgeInfos va vb faceInfo = Ok ev ->
  heap_same_chains h (ev_heap ev) /\
  edge_linked (ev_heap ev) (ev_edgeInfos ev) va vb /\
  (forall a b, edge_linked h edgeInfos a b ->
               edge_linked (ev_heap ev) (ev_edgeInfos ev) a b).
Proof.
  intros Hwf [Hva Hva'] [Hvb Hvb'] H. unfold visit_edge in H.
  rewrite (wrap_int_small va), (wrap_int_small vb) in H by lia.
  destruct (FindEdgeInfo_total h edgeInfos va vb Hwf Hva) as (r & Hr & Hrlen).
  rewrite Hr in H. cbn [mbind res_bind] in H. destruct r as [p|].
  - assert (Hlinked : edge_linked h edgeInfos va vb)
      by (apply FindEdgeInfo_linked; eauto).
    specialize (Hrlen p eq_refl).
    destruct (lookup_lt_is_Some_2 _ _ Hrlen) as [e He].
    unfold edge_at in H. rewrite He in H. cbn [mbind res_bind] in H.
    destruct (NvEdgeInfo.m_face1 e) as [other|]; injection H as <-;
      cbn [ev_heap ev_edgeInfos].
    + split; [apply heap_same_chains_refl|]. split; [exact Hlinked | auto].
    + assert (Hsame : heap_same_chains h
                        (set_edge h p
                           (NvEdgeInfo.mk (NvEdgeInfo.m_face0 e) (Some faceInfo)
                              (NvEdgeInfo.m_v0 e) (NvEdgeInfo.m_v1 e)
                              (NvEdgeInfo.m_nextV0 e) (NvEdgeInfo.m_nextV1 e))))
        by (eapply heap_same_chains_set_edge; [exact He | reflexivity]).
      split; [exact Hsame|].
      split; [|intros a b Hab]; eapply edge_linked_ext; eassumption.
  - destruct (vec_at_in_range edgeInfos va Hva) as (n0 & Hn0 & Hl0).
    destruct (vec_at_in_range edgeInfos vb Hvb) as (n1 & Hn1 & Hl1).
    rewrite Hn0, Hn1 in H. cbn [mbind res_bind new_edge] in H.
    rewrite vec_set_in_range in H by exact Hva. cbn [mbind res_bind] in H.
    rewrite vec_set_in_range in H
      by (unfold vec_size; rewrite length_insert; exact Hvb).
    cbn [mbind res_bind] in H. injection H as <-.
    cbn [ev_heap ev_edgeInfos].
    set (enew := NvEdgeInfo.mk (Some faceInfo) None va vb n0 n1).
    set (pnew := length (edges h)).
    set (h' := mkHeap (faces h) (edges h ++ [enew])).
    assert (Hsame : heap_same_chains h h')
      by apply (heap_same_chains_new_edge h enew).
    assert (Hnew : edges h' !! pnew = Some enew)
      by (cbn; unfold pnew; now rewrite list_lookup_middle).
    assert (Hla : (Z.to_nat va < length edgeInfos)%nat)
      by (unfold vec_size in *; lia).
    assert (Hlb : (Z.to_nat vb < length edgeInfos)%nat)
      by (unfold vec_size in *; lia).
    assert (Hhead : forall a, 0 <= a -> (a = va \/ a = vb) ->
              <[Z.to_nat vb := Some pnew]> (<[Z.to_nat va := Some pnew]> edgeInfos)
                !! Z.to_nat a = Some (Some pnew)).
    { intros a Ha [->| ->].
      - destruct (decide (Z.to_nat vb = Z.to_nat va)) as [Heq|Hne].
        + rewrite Heq. apply list_lookup_insert_eq. now rewrite length_insert.
        + rewrite list_lookup_insert_ne by exact Hne.
          now apply list_lookup_insert_eq.
      - apply list_lookup_insert_eq. now rewrite length_insert. }
    split; [exact Hsame|]. split.
    + split; [lia|]. exists (Some pnew). split; [apply Hhead; [lia | now left]|].
      eapply finds_here; [exact Hnew|].
      unfold edge_hit. cbn. now rewrite !Z.eqb_refl.
    + intros a b (Ha & head & Hheadold & Hfinds).
      split; [exact Ha|].
      apply (finds_ext h h') in Hfinds; [|exact Hsame].
      destruct (decide (a = va \/ a = vb)) as [Hin|Hout].
      * exists (Some pnew). split; [now apply Hhead|].
        destruct (edge_hit enew a b) eqn:Hhit.
        -- eapply finds_here; eauto.
        -- eapply finds_next; [exact Hnew | exact Hhit|].
           replace (edge_step enew a) with head; [exact Hfinds|].
           unfold edge_step. cbn.
           destruct (Z.eqb_spec va a) as [->|Hne]; [congruence|].
           destruct Hin as [->| ->]; congruence.
      * exists head. split; [|exact Hfinds].
        rewrite !list_lookup_insert_ne; [exact Hheadold| |]; intros Heq;
          apply Hout; [left | right]; lia.
Qed.

Lemma same_triple_true (f g : NvFaceInfo.t) :
  same_triple f g = true <->
  NvFaceInfo.m_v0 f = NvFaceInfo.m_v0 g /\
  NvFaceInfo.m_v1 f = NvFaceInfo.m_v1 g /\
  NvFaceInfo.m_v2 f = NvFaceInfo.m_v2 g.
Proof.
  unfold same_triple. rewrite !andb_true_iff, !Z.eqb_eq. tauto.
Qed.

Lemma AlreadyExists_spec (h : Heap) (f : NvFaceInfo.t) (faceInfos : list nat) :
  Forall (fun q => (q < length (faces h))%nat) faceInfos ->
  exists b,
    AlreadyExists h f faceInfos = Ok b /\
    (b = true <->
     exists q g, q ∈ faceInfos /\ faces h !! q = Some g /\ same_triple g f = true).
Proof.
  induction faceInfos as [|p rest IH]; intros Hall.
  - exists false. split; [reflexivity|]. split; [discriminate|].
    intros (q & g & Hq & _). inversion Hq.
  - apply Forall_cons in Hall as [Hp Hrest].
    destruct (lookup_lt_is_Some_2 _ _ Hp) as [g Hg].
    cbn [AlreadyExists]. unfold face_at. rewrite Hg. cbn [mbind res_bind].
    destruct (same_triple g f) eqn:Hs.
    + exists true. split; [reflexivity|]. split; [|reflexivity].
      intros _. exists p, g. split; [left | auto].
    + destruct (IH Hrest) as (b & Hb & Hiff). exists b. split; [exact Hb|].
      rewrite Hiff. split.
      * intros (q & g' & Hq & Hg' & Hs'). exists q, g'. split; [now right | auto].
      * intros (q & g' & Hq & Hg' & Hs'). apply elem_of_cons in Hq as [->|Hq].
        -- congruence.
        -- eauto.
Qed.

Lemma reset_face1_spec (h : Heap) (p : nat) (b : bool) :
  (p < length (edges h))%nat ->
  exists h',
    (if b then reset_face1 h p else Ok h) = Ok h' /\
    faces h' = faces h /\
    length (edges h') = length (edges h) /\
    (b = true -> no_face1 h' p) /\
    (forall q, no_face1 h q -> no_face1 h' q) /\
    (forall edgeInfos, edges_wf h edgeInfos -> edges_wf h' edgeInfos) /\
    heap_same_chains h h'.
Proof.
  intros Hp. destruct b.
  - destruct (lookup_lt_is_Some_2 _ _ Hp) as [e He].
    unfold reset_face1, edge_at. rewrite He. cbn [mbind res_bind].
    eexists. split; [reflexivity|]. cbn [set_edge faces edges].
    split; [reflexivity|]. split; [apply length_insert|]. split; [|split; [|split]].
    + intros _. eexists. split; [now apply list_lookup_insert_eq | reflexivity].
    + intros q (e' & He' & Hf). destruct (decide (q = p)) as [->|Hne].
      * eexists. split; [now apply list_lookup_insert_eq | reflexivity].
      * exists e'. split; [|exact Hf]. cbn.
        rewrite list_lookup_insert_ne by congruence. exact He'.
    + intros edgeInfos Hwf.
      now apply (edges_wf_set_edge h edgeInfos p e).
    + eapply heap_same_chains_set_edge; [exact He | reflexivity].
  - exists h. split; [reflexivity|]. split; [reflexivity|].
    split; [reflexivity|]. split; [discriminate|]. split; [auto|].
    split; [auto | apply heap_same_chains_refl].
Qed.

(** One non-degenerate input triangle, on a well-formed topology: the run of
    the loop body, the two outcomes, and what it keeps. *)
Lemma BuildStripifyInfo_triangle_spec (t : Topology) (v0 v1 v2 : Z) :
  edges_wf (heap t) (edgeInfos t) ->
  Forall (fun q => (q < length (faces (heap t)))%nat) (faceInfos t) ->
  vertex_ok (edgeInfos t) v0 ->
  vertex_ok (edgeInfos t) v1 ->
  vertex_ok (edgeInfos t) v2 ->
  IsDegenerate3 v0 v1 v2 = false ->
  let faceInfo := length (faces (heap t)) in
  let h0 := (new_face (heap t) (NvFaceInfo.new v0 v1 v2)).1 in
  exists e01 e12 e20 t',
    visit_edge h0 (edgeInfos t) v0 v1 faceInfo = Ok e01 /\
    visit_edge (ev_heap e01) (ev_edgeInfos e01) v1 v2 faceInfo = Ok e12 /\
    visit_edge (ev_heap e12) (ev_edgeInfos e12) v2 v0 faceInfo = Ok e20 /\
    (ev_found e01 = true <->
     exists q, FindEdgeInfo h0 (edgeInfos t) v0 v1 = Ok (Some q)) /\
    (ev_found e12 = true <->
     exists q, FindEdgeInfo (ev_heap e01) (ev_edgeInfos e01) v1 v2 = Ok (Some q)) /\
    (ev_found e20 = true <->
     exists q, FindEdgeInfo (ev_heap e12) (ev_edgeInfos e12) v2 v0 = Ok (Some q)) /\
    BuildStripifyInfo_triangle t v0 v1 v2 = Ok t' /\
    let all_found := ev_found e01 && ev_found e12 && ev_found e20 in
    let already :=
      exists q f, q ∈ faceInfos t /\ faces (heap t) !! q = Some f /\
                  NvFaceInfo.m_v0 f = v0 /\ NvFaceInfo.m_v1 f = v1 /\
                  NvFaceInfo.m_v2 f = v2 in
    (all_found = true /\ already ->
     faceInfos t' = faceInfos t /\
     forall e, e ∈ [e01; e12; e20] -> ev_updated e = true ->
               no_face1 (heap t') (ev_edge e)) /\
    (~ (all_found = true /\ already) ->
     faceInfos t' = faceInfos t ++ [faceInfo] /\
     faces (heap t') !! faceInfo = Some (NvFaceInfo.new v0 v1 v2)) /\
    edges_wf (heap t') (edgeInfos t') /\
    length (edgeInfos t') = length (edgeInfos t) /\
    faces (heap t') = faces (heap t) ++ [NvFaceInfo.new v0 v1 v2] /\
    (faceInfos t' = faceInfos t \/ faceInfos t' = faceInfos t ++ [faceInfo]) /\
    edgeInfos t' = ev_edgeInfos e20 /\
    heap_same_chains (ev_heap e20) (heap t').
Proof.
  intros Hwf Hfaces Hv0 Hv1 Hv2 Hnd faceInfo h0.
  assert (Hwf0 : edges_wf h0 (edgeInfos t)) by exact Hwf.
  destruct (visit_edge_spec h0 (edgeInfos t) v0 v1 faceInfo Hwf0 Hv0 Hv1)
    as (e01 & E01 & Hwf1 & Hf1 & Hl1 & Hp1 & Hg1 & Hfound1 & Hupd1).
  assert (Hok1 : forall v, vertex_ok (edgeInfos t) v -> vertex_ok (ev_edgeInfos e01) v).
  { intros v [Hv Hv']. split; [unfold vec_size in *; lia | exact Hv']. }
  destruct (visit_edge_spec (ev_heap e01) (ev_edgeInfos e01) v1 v2 faceInfo Hwf1
              (Hok1 _ Hv1) (Hok1 _ Hv2))
    as (e12 & E12 & Hwf2 & Hf2 & Hl2 & Hp2 & Hg2 & Hfound2 & Hupd2).
  assert (Hok2 : forall v, vertex_ok (edgeInfos t) v -> vertex_ok (ev_edgeInfos e12) v).
  { intros v [Hv Hv']. split; [unfold vec_size in *; lia | exact Hv']. }
  destruct (visit_edge_spec (ev_heap e12) (ev_edgeInfos e12) v2 v0 faceInfo Hwf2
              (Hok2 _ Hv2) (Hok2 _ Hv0))
    as (e20 & E20 & Hwf3 & Hf3 & Hl3 & Hp3 & Hg3 & Hfound3 & Hupd3).
  destruct Hv0 as [Hv0 Hv0'], Hv1 as [Hv1 Hv1'], Hv2 as [Hv2 Hv2'].
  rewrite (wrap_int_small v0), (wrap_int_small v1) in Hfound1 by lia.
  rewrite (wrap_int_small v1), (wrap_int_small v2) in Hfound2 by lia.
  rewrite (wrap_int_small v2), (wrap_int_small v0) in Hfound3 by lia.
  assert (Hfaces3 : faces (ev_heap e20) = faces (heap t) ++ [NvFaceInfo.new v0 v1 v2]).
  { rewrite Hf3, Hf2, Hf1. reflexivity. }
  assert (Hnew : faces (ev_heap e20) !! faceInfo = Some (NvFaceInfo.new v0 v1 v2)).
  { rewrite Hfaces3. unfold faceInfo. now rewrite list_lookup_middle. }
  assert (Hvalid3 : Forall (fun q => (q < length (faces (ev_heap e20)))%nat) (faceInfos t)).
  { eapply Forall_impl; [exact Hfaces|]. intros q Hq. cbn beta in *.
    rewrite Hfaces3, length_app. cbn [length]. lia. }
  destruct (AlreadyExists_spec (ev_heap e20) (NvFaceInfo.new v0 v1 v2)
              (faceInfos t) Hvalid3) as (dup & Hdup & Hdup_iff).
  assert (Halready :
            dup = true <->
            exists q f, q ∈ faceInfos t /\ faces (heap t) !! q = Some f /\
                        NvFaceInfo.m_v0 f = v0 /\ NvFaceInfo.m_v1 f = v1 /\
                        NvFaceInfo.m_v2 f = v2).
  { rewrite Hdup_iff. rewrite Forall_forall in Hfaces.
    split; intros (q & f & Hq & Hf & Hs); exists q, f; (split; [exact Hq|]).
    - apply same_triple_true in Hs. cbn in Hs.
      rewrite Hfaces3, lookup_app_l in Hf by (now apply Hfaces). tauto.
    - rewrite Hfaces3, lookup_app_l by (now apply Hfaces).
      split; [tauto|]. apply same_triple_true. cbn. tauto. }
  destruct (reset_face1_spec (ev_heap e20) (ev_edge e01) (ev_updated e01)
              ltac:(lia)) as (h1 & R1 & Rf1 & Rl1 & Rn1 & Rk1 & Rw1 & Rc1).
  destruct (reset_face1_spec h1 (ev_edge e12) (ev_updated e12) ltac:(lia))
    as (h2 & R2 & Rf2 & Rl2 & Rn2 & Rk2 & Rw2 & Rc2).
  destruct (reset_face1_spec h2 (ev_edge e20) (ev_updated e20) ltac:(lia))
    as (h3 & R3 & Rf3 & Rl3 & Rn3 & Rk3 & Rw3 & Rc3).
  exists e01, e12, e20.
  exists (if ev_found e01 && ev_found e12 && ev_found e20 then
            if negb dup then mkTopology (ev_heap e20) (faceInfos t ++ [faceInfo])
                               (ev_edgeInfos e20)
            else mkTopology h3 (faceInfos t) (ev_edgeInfos e20)
          else mkTopology (ev_heap e20) (faceInfos t ++ [faceInfo]) (ev_edgeInfos e20)).
  split; [exact E01|]. split; [exact E12|]. split; [exact E20|].
  split; [exact Hfound1|]. split; [exact Hfound2|]. split; [exact Hfound3|].
  split.
  { unfold BuildStripifyInfo_triangle. rewrite Hnd.
    rewrite (wrap_int_small v0), (wrap_int_small v1), (wrap_int_small v2) by lia.
    cbn [new_face]. fold faceInfo. change (mkHeap _ _) with h0.
    rewrite E01. cbn [mbind res_bind]. rewrite E12. cbn [mbind res_bind].
    rewrite E20. cbn [mbind res_bind].
    destruct (ev_found e01 && ev_found e12 && ev_found e20); [|reflexivity].
    rewrite Hdup. cbn [mbind res_bind]. destruct dup; [|reflexivity].
    cbn [negb]. rewrite R1. cbn [mbind res_bind]. rewrite R2.
    cbn [mbind res_bind]. rewrite R3. reflexivity. }
  cbv zeta. split; [|split].
  - intros [Hall Hal]. rewrite Hall. apply Halready in Hal. rewrite Hal.
    cbn [negb faceInfos heap]. split; [reflexivity|].
    intros e He Hupd. rewrite !elem_of_cons in He.
    destruct He as [->|[->|[->|He]]]; [| | |inversion He]; auto.
  - intros Hnot.
    destruct (ev_found e01 && ev_found e12 && ev_found e20) eqn:Hall.
    + destruct dup.
      * exfalso. apply Hnot. split; [reflexivity | now apply Halready].
      * cbn. split; [reflexivity | exact Hnew].
    + cbn. split; [reflexivity | exact Hnew].
  - assert (Hfaces_h3 : faces h3 = faces (heap t) ++ [NvFaceInfo.new v0 v1 v2])
      by (rewrite Rf3, Rf2, Rf1; exact Hfaces3).
    assert (Hlen : length (ev_edgeInfos e20) = length (edgeInfos t))
      by (rewrite Hl3, Hl2, Hl1; reflexivity).
    assert (Hchains : heap_same_chains (ev_heap e20) h3).
    { eapply heap_same_chains_trans; [exact Rc1|].
      eapply heap_same_chains_trans; [exact Rc2 | exact Rc3]. }
    pose proof (heap_same_chains_refl (ev_heap e20)) as Hrefl.
    destruct (ev_found e01 && ev_found e12 && ev_found e20); [destruct dup|];
      cbn [negb heap edgeInfos faceInfos]; auto 12.
Qed.

(** C7.  One non-degenerate input triangle, on a well-formed topology:
    the three edge visits are made in turn; when all three lookups found an
    existing edge and the face table already holds a face with the same
    ordered triple, the face table is left as it was and every edge whose
    [m_face1] was set for the new face has [m_face1] empty again; in every
    other case the new face is appended to the face table. *)
Theorem BuildStripifyInfo_drops_duplicate_face (t : Topology) (v0 v1 v2 : Z) :
  edges_wf (heap t) (edgeInfos t) ->
  Forall (fun q => (q < length (faces (heap t)))%nat) (faceInfos t) ->
  vertex_ok (edgeInfos t) v0 ->
  vertex_ok (edgeInfos t) v1 ->
  vertex_ok (edgeInfos t) v2 ->
  IsDegenerate3 v0 v1 v2 = false ->
  let faceInfo := length (faces (heap t)) in
  let h0 := (new_face (heap t) (NvFaceInfo.new v0 v1 v2)).1 in
  exists e01 e12 e20 t',
    visit_edge h0 (edgeInfos t) v0 v1 faceInfo = Ok e01 /\
    visit_edge (ev_heap e01) (ev_edgeInfos e01) v1 v2 faceInfo = Ok e12 /\
    visit_edge (ev_heap e12) (ev_edgeInfos e12) v2 v0 faceInfo = Ok e20 /\
    (ev_found e01 = true <->
     exists q, FindEdgeInfo h0 (edgeInfos t) v0 v1 = Ok (Some q)) /\
    (ev_found e12 = true <->
     exists q, FindEdgeInfo (ev_heap e01) (ev_edgeInfos e01) v1 v2 = Ok (Some q)) /\
    (ev_found e20 = true <->
     exists q, FindEdgeInfo (ev_heap e12) (ev_edgeInfos e12) v2 v0 = Ok (Some q)) /\
    BuildStripifyInfo_triangle t v0 v1 v2 = Ok t' /\
    let all_found := ev_found e01 && ev_found e12 && ev_found e20 in
    let already :=
      exists q f, q ∈ faceInfos t /\ faces (heap t) !! q = Some f /\
                  NvFaceInfo.m_v0 f = v0 /\ NvFaceInfo.m_v1 f = v1 /\
                  NvFaceInfo.m_v2 f = v2 in
    (all_found = true /\ already ->
     faceInfos t' = faceInfos t /\
     forall e, e ∈ [e01; e12; e20] -> ev_updated e = true ->
               no_face1 (heap t') (ev_edge e)) /\
    (~ (all_found = true /\ already) ->
     faceInfos t' = faceInfos t ++ [faceInfo] /\
     faces (heap t') !! faceInfo = Some (NvFaceInfo.new v0 v1 v2)).
Proof.
  intros Hwf Hfaces Hv0 Hv1 Hv2 Hnd faceInfo h0.
  destruct (BuildStripifyInfo_triangle_spec t v0 v1 v2 Hwf Hfaces Hv0 Hv1 Hv2 Hnd)
    as (e01 & e12 & e20 & t' & E01 & E12 & E20 & F01 & F12 & F20 & Ht'
        & Hdup & Hnew & _).
  exists e01, e12, e20, t'. auto 10.
Qed.


Lemma BuildStripifyInfo_drops_duplicate_face_witness :
  exists e01 e12 e20 t',
    visit_edge (new_face (heap two_triangles) (NvFaceInfo.new 0 1 2)).1
      (edgeInfos two_triangles) 0 1 2%nat = Ok e01 /\
    visit_edge (ev_heap e01) (ev_edgeInfos e01) 1 2 2%nat = Ok e12 /\
    visit_edge (ev_heap e12) (ev_edgeInfos e12) 2 0 2%nat = Ok e20 /\
    BuildStripifyInfo_triangle two_triangles 0 1 2 = Ok t' /\
    (ev_found e01 && ev_found e12 && ev_found e20 = true /\
     (exists q f, q ∈ faceInfos two_triangles /\
                  faces (heap two_triangles) !! q = Some f /\
                  NvFaceInfo.m_v0 f = 0 /\ NvFaceInfo.m_v1 f = 1 /\
                  NvFaceInfo.m_v2 f = 2) ->
     faceInfos t' = faceInfos two_triangles /\
     forall e, e ∈ [e01; e12; e20] -> ev_updated e = true ->
               no_face1 (heap t') (ev_edge e)) /\
    (~ (ev_found e01 && ev_found e12 && ev_found e20 = true /\
        (exists q f, q ∈ faceInfos two_triangles /\
                     faces (heap two_triangles) !! q = Some f /\
                     NvFaceInfo.m_v0 f = 0 /\ NvFaceInfo.m_v1 f = 1 /\
                     NvFaceInfo.m_v2 f = 2)) ->
     faceInfos t' = faceInfos two_triangles ++ [2%nat] /\
     faces (heap t') !! 2%nat = Some (NvFaceInfo.new 0 1 2)).
Proof.
  destruct (BuildStripifyInfo_drops_duplicate_face two_triangles 0 1 2)
    as (e01 & e12 & e20 & t' & E01 & E12 & E20 & _ & _ & _ & Ht' & Hdup & Hnew).
  - split.
    + intros v q H.
      destruct v as [|[|[|[|v]]]]; cbn in H; inversion H; cbn; lia.
    + intros i e H.
      destruct i as [|[|[|[|[|i]]]]]; cbn in H; inversion H; cbn;
        split; intros q Hq; inversion Hq; lia.
  - repeat constructor.
  - vm_compute. repeat split; discriminate.
  - vm_compute. repeat split; discriminate.
  - vm_compute. repeat split; discriminate.
  - reflexivity.
  - exists e01, e12, e20, t'. repeat split; try assumption.
    + now apply Hdup.
    + now apply Hdup.
    + now apply Hnew.
    + now apply Hnew.
Defined.

(** The same instance, evaluated: adding the triangle (0,1,2) a second time
    to the mesh (0,1,2), (2,1,3) leaves the face table with its two faces;
    the edges (0,1) and (2,0), at 0 and 2 in the edge arena, had taken the
    new face as their second face and have none afterwards, and the shared
    edge (1,2) keeps the second triangle. *)
Example scenario_duplicate_triangle :
  exists t',
    BuildStripifyInfo_triangle two_triangles 0 1 2 = Ok t' /\
    faceInfos t' = [0%nat; 1%nat] /\
    (NvEdgeInfo.m_face1 <$> edges (heap t') !! 0%nat) = Some None /\
    (NvEdgeInfo.m_face1 <$> edges (heap t') !! 2%nat) = Some None /\
    (NvEdgeInfo.m_face1 <$> edges (heap t') !! 1%nat) = Some (Some 1%nat).
Proof.
  eexists. split; [vm_compute; reflexivity|]. cbn. auto.
Qed.


(** ** Strips hold their degenerates *)

Lemma Build_swap_degenerates (s : NvStripInfo.t) (edgeInfos : NvEdgeInfoVec)
  (x x' : NvStripInfo.Extension) (nv0 nv1 testnv1 z : Z) (nf : nat) (deadEnd : bool) :
  NvStripInfo.Build_swap s edgeInfos x nv0 nv1 testnv1 nf deadEnd = Ok (x', z) ->
  NvStripInfo.x_numDegenerates x <= NvStripInfo.x_numDegenerates x' /\
  vec_size (NvStripInfo.x_faces x) - NvStripInfo.x_numDegenerates x
  <= vec_size (NvStripInfo.x_faces x') - NvStripInfo.x_numDegenerates x'.
Proof.
  unfold NvStripInfo.Build_swap. intros H. destruct deadEnd.
  - res_open H as testNextFace. res_open H as blocked. destruct blocked; cbn in H.
    + injection H as <- _. lia.
    + res_open H as h2. injection H as <- _. cbn. unfold vec_size.
      rewrite length_app. simpl. lia.
  - injection H as <- _. lia.
Qed.

Lemma Build_extend_degenerates (fuel : nat) (backward : bool) (s : NvStripInfo.t)
  (edgeInfos : NvEdgeInfoVec) :
  forall (x x' : NvStripInfo.Extension) (nv0 nv1 : Z) (nextFace : option nat),
    NvStripInfo.Build_extend fuel backward s edgeInfos x nv0 nv1 nextFace = Ok x' ->
    NvStripInfo.x_numDegenerates x <= NvStripInfo.x_numDegenerates x' /\
    vec_size (NvStripInfo.x_faces x) - NvStripInfo.x_numDegenerates x
    <= vec_size (NvStripInfo.x_faces x') - NvStripInfo.x_numDegenerates x'.
Proof.
  induction fuel as [|fuel IH]; intros x x' nv0 nv1 [nf|] H;
    cbn [NvStripInfo.Build_extend] in H;
    try (injection H as <-; lia).
  - res_open H as f. destruct (NvStripInfo.IsMarked s f); [|discriminate].
    injection H as <-. lia.
  - res_open H as f. destruct (NvStripInfo.IsMarked s f).
    { injection H as <-. lia. }
    res_open H as uniq. destruct uniq; cbn [negb] in H.
    2:{ injection H as <-. lia. }
    res_open H as testnv1. res_open H as nextNextFace. res_open H as deadEnd.
    res_open H as [x1 testnv0]. res_open H as h3. res_open H as nextFace'.
    apply Build_swap_degenerates in E4 as [Hd Hs].
    apply IH in H as [Hd' Hs']. cbn in Hd', Hs'.
    unfold vec_size in *. rewrite length_app in Hs'. simpl in Hs'. lia.
Qed.

(** [Build] puts a degenerate into the strip each time it counts one. *)
Lemma Build_degenerates (s s' : NvStripInfo.t) (h h' : Heap)
  (edgeInfos : NvEdgeInfoVec) :
  degenerates_ok s ->
  NvStripInfo.Build s h edgeInfos = Ok (h', s') ->
  degenerates_ok s' /\ 0 < vec_size (NvStripInfo.m_faces s').
Proof.
  unfold degenerates_ok, NvStripInfo.Build. intros [Hlo Hhi] H.
  res_open H as startFace. res_open H as startEdge. res_open H as h1.
  res_open H as f. res_open H as v2. res_open H as nextFace.
  res_open H as fwd. res_open H as nextFace2. res_open H as bwd.
  injection H as _ <-.
  apply Build_extend_degenerates in E5 as [Hd1 Hs1].
  apply Build_extend_degenerates in E7 as [Hd2 Hs2].
  cbn in *. unfold vec_size in *.
  rewrite !length_app, length_reverse. simpl in *. lia.
Qed.

Lemma FindAllStrips_chain_degenerates (fuel : nat) (edgeInfos : NvEdgeInfoVec) :
  forall h stripIter startInfo experimentId2 stripId experiment h' experiment' stripId',
    FindAllStrips_chain fuel h edgeInfos stripIter startInfo experimentId2 stripId
      experiment = Ok (h', experiment', stripId') ->
    Forall degenerates_ok experiment ->
    Forall degenerates_ok experiment' /\
    vec_size experiment <= vec_size experiment'.
Proof.
  induction fuel as [|fuel IH];
    intros h stripIter startInfo eid sid ex h' ex' sid' H Hok;
    cbn [FindAllStrips_chain] in H; res_open H as [found startInfo'];
    destruct found; try discriminate;
    try (injection H as _ <- _; split; [exact Hok | lia]).
  res_open H as [h1 built].
  apply Build_degenerates in E0 as [Hb _].
  2:{ unfold degenerates_ok, NvStripInfo.new, vec_size. simpl. lia. }
  apply IH in H as [Hall Hlen].
  - split; [exact Hall|]. unfold vec_size in *.
    rewrite length_app, Nat2Z.inj_add in Hlen. lia.
  - apply Forall_app. split; [exact Hok | now constructor].
Qed.

Lemma FindAllStrips_build_degenerates (edgeInfos : NvEdgeInfoVec)
  (todo : list NvStripInfoVec) :
  forall h stripId h' built stripId',
    FindAllStrips_build h edgeInfos todo stripId = Ok (h', built, stripId') ->
    Forall (Forall degenerates_ok) todo ->
    Forall (fun e => 0 < vec_size e /\ Forall degenerates_ok e) built.
Proof.
  induction todo as [|experiment rest IH]; intros h sid h' built sid' H Hok;
    cbn [FindAllStrips_build] in H.
  - injection H as _ <- _. constructor.
  - apply Forall_cons in Hok as [Hex Hrest].
    res_open H as first. res_open H as [h1 b]. res_open H as [[h2 ex'] sid2].
    res_open H as [[h3 rest'] sid3]. injection H as _ <- _.
    assert (Hfirst : degenerates_ok first).
    { unfold vec_at in E. simpl in E. destruct experiment as [|x xs]; [discriminate|].
      injection E as <-. now apply Forall_cons in Hex as [? _]. }
    apply Build_degenerates in E0 as [Hb _]; [|exact Hfirst].
    apply FindAllStrips_chain_degenerates in E1 as [Hall Hlen];
      [|constructor; [exact Hb | constructor]].
    constructor.
    + split; [|exact Hall]. unfold vec_size in *. simpl in Hlen. lia.
    + eapply IH; eassumption.
Qed.

Lemma add_experiment_degenerates (u u' : Setup) (nf : nat) (e : option nat) (b : bool) :
  add_experiment u nf e b = Ok u' ->
  Forall (Forall degenerates_ok) (su_experiments u) ->
  Forall (Forall degenerates_ok) (su_experiments u').
Proof.
  unfold add_experiment. intros H Hok. res_open H as slot. res_open H as exps.
  injection H as <-. cbn.
  unfold vec_set in E0.
  destruct ((0 <=? su_experimentIndex u)
            && (su_experimentIndex u <? Z.of_nat (length (su_experiments u))));
    [|discriminate].
  injection E0 as <-.
  unfold vec_at in E. destruct (su_experimentIndex u <? 0); [discriminate|].
  destruct (su_experiments u !! Z.to_nat (su_experimentIndex u)) as [sl|] eqn:Hl;
    [|discriminate].
  injection E as ->.
  apply Forall_insert; [exact Hok|].
  apply Forall_app. split.
  - eapply Forall_lookup_1 in Hok; eauto.
  - constructor; [|constructor].
    unfold degenerates_ok, NvStripInfo.new, vec_size. simpl. lia.
Qed.

Lemma FindAllStrips_setup_degenerates (t : Topology) (n : nat) :
  forall u u',
    FindAllStrips_setup n t u = Ok u' ->
    Forall (Forall degenerates_ok) (su_experiments u) ->
    Forall (Forall degenerates_ok) (su_experiments u').
Proof.
  induction n as [|n IH]; intros u u' H Hok.
  - now injection H as <-.
  - cbn [FindAllStrips_setup] in H. res_open H as [s' nextFace].
    destruct nextFace as [nf|].
    + cbn [su_resetPoints su_stripifier su_experiments su_experimentIndex
             su_experimentId su_stripId su_done] in H.
      destruct (bool_decide (nf ∈ su_resetPoints u)).
      * eapply IH; [exact H | exact Hok].
      * res_open H as f. res_open H as edge01. res_open H as u1.
        res_open H as u2. res_open H as edge12.
        res_open H as u3. res_open H as u4.
        res_open H as edge20. res_open H as u5.
        res_open H as u6.
        eapply IH; [exact H|].
        repeat (eapply add_experiment_degenerates; [eassumption|]).
        exact Hok.
    + injection H as <-. exact Hok.
Qed.

(** The experiments that PHASE 2 hands to PHASE 3 have at least one strip
    each, and none of their strips counts more degenerates than it has
    faces: the numerator of every score is the number of real faces. *)
Lemma FindAllStrips_experiments_scored (t : Topology) (numSamples : Z)
  (r : Search) (u : Setup) (h : Heap) (stripId : Z) (h' : Heap)
  (built : list NvStripInfoVec) (stripId' : Z) :
  FindAllStrips_setup (Z.to_nat numSamples) t
    (mkSetup (sr_stripifier r) (replicate (numSamples_slots numSamples) [])
       0 [] (sr_experimentId r) (sr_stripId r) false) = Ok u ->
  FindAllStrips_build h (edgeInfos t)
    (take (Z.to_nat (su_experimentIndex u)) (su_experiments u)) stripId
  = Ok (h', built, stripId') ->
  Forall (fun e => 0 < vec_size e /\ Forall degenerates_ok e /\
                   0 <= real_face_total e <= face_total e) built.
Proof.
  intros Hsetup Hbuild.
  apply FindAllStrips_setup_degenerates in Hsetup.
  2:{ cbn. apply Forall_replicate. constructor. }
  apply FindAllStrips_build_degenerates in Hbuild.
  2:{ now apply Forall_take. }
  eapply Forall_impl; [exact Hbuild|]. intros e [Hn Hd].
  split; [exact Hn|]. split; [exact Hd|]. now apply real_face_total_bounds.
Qed.


(** ** The start index of the first search *)




(** ** binary32 arithmetic: rounding never adds more than one unit in the
       last place *)

Lemma shr_fexp_value (m e : Z) (l : location) :
  0 < m -> -125 <= Zdigits2 m + e -> 24 <= Zdigits2 m ->
  let '(mrs, e') := shr_fexp f32_prec f32_emax m e l in
  shr_m mrs = m / 2 ^ (Zdigits2 m - 24) /\
  e' = e + (Zdigits2 m - 24) /\
  Zdigits2 (shr_m mrs) = 24.
Proof.
  intros Hm Hx Hd. unfold shr_fexp. rewrite f32_fexp_normal by exact Hx.
  replace (Zdigits2 m + e - 24 - e) with (Zdigits2 m - 24) by lia.
  pose proof (shr_spec (shr_record_of_loc m l) e (Zdigits2 m - 24)) as Hs.
  rewrite shr_record_of_loc_m in Hs.
  destruct (Hs ltac:(lia) ltac:(lia)) as [H1 H2].
  destruct (shr (shr_record_of_loc m l) e (Zdigits2 m - 24)) as [mrs e'].
  simpl in H1, H2. subst e'. rewrite H1.
  destruct (Zdigits2_shift m (Zdigits2 m - 24) Hm ltac:(lia)) as [_ Hdq].
  rewrite Hdq. repeat split; lia.
Qed.

(** Rounding a mantissa of at least 24 digits: the result has 24 digits and
    its value exceeds the exact one by less than one unit in the last
    place. *)
Lemma binary_round_aux_upper (m e : Z) (l : location) :
  0 < m -> 24 <= Zdigits2 m -> -125 <= Zdigits2 m + e <= 100 ->
  exists m' e',
    binary_round_aux f32_prec f32_emax false m e l = S754_finite false m' e' /\
    Z.pos (digits2_pos m') = 24 /\
    e + (Zdigits2 m - 24) <= e' <= e + (Zdigits2 m - 24) + 1 /\
    Z.pos m' * 2 ^ (e' - e) <= m + 2 ^ (Zdigits2 m - 24).
Proof.
  intros Hm Hd Hx. unfold binary_round_aux.
  set (k := Zdigits2 m - 24).
  pose proof (shr_fexp_value m e l Hm ltac:(lia) Hd) as H1.
  destruct (shr_fexp f32_prec f32_emax m e l) as [mrs1 e1].
  destruct H1 as (Hm1 & He1 & Hd1). fold k in Hm1, He1.
  assert (Hpk : 0 < 2 ^ k) by (apply Z.pow_pos_nonneg; unfold k; lia).
  assert (Hm1pos : 0 < shr_m mrs1).
  { destruct (Zdigits2_shift m k Hm ltac:(unfold k; lia)) as [Hq _].
    now rewrite Hm1. }
  set (m2 := round_nearest_even (shr_m mrs1) (loc_of_shr_record mrs1)).
  pose proof (round_nearest_even_bounds (shr_m mrs1) (loc_of_shr_record mrs1)) as Hm2.
  fold m2 in Hm2.
  pose proof (Zdigits2_round (shr_m mrs1) m2 Hm1pos Hm2) as Hd2.
  rewrite Hd1 in Hd2.
  pose proof (shr_fexp_value m2 e1 loc_Exact ltac:(lia) ltac:(lia) ltac:(lia)) as H2.
  destruct (shr_fexp f32_prec f32_emax m2 e1 loc_Exact) as [mrs2 e2].
  destruct H2 as (Hm3 & He2 & Hd3).
  set (k2 := Zdigits2 m2 - 24) in *.
  assert (Hpk2 : 0 < 2 ^ k2) by (apply Z.pow_pos_nonneg; unfold k2; lia).
  assert (Hm3pos : 0 < shr_m mrs2).
  { destruct (Zdigits2_shift m2 k2 ltac:(lia) ltac:(unfold k2; lia)) as [Hq _].
    now rewrite Hm3. }
  destruct (shr_m mrs2) as [|p|p] eqn:Hp; try lia.
  assert (He : e2 <= f32_emax - f32_prec).
  { unfold f32_emax, f32_prec, k, k2 in *. lia. }
  apply Z.leb_le in He. rewrite He.
  exists p, e2. split; [reflexivity|]. split; [exact Hd3|].
  split; [unfold k, k2 in *; lia|].
  replace (e2 - e) with (k2 + k) by lia.
  rewrite Z.pow_add_r by (unfold k, k2; lia).
  pose proof (Z.mul_div_le m2 (2 ^ k2) Hpk2) as Hq2.
  pose proof (Z.mul_div_le m (2 ^ k) Hpk) as Hq1.
  rewrite <- Hm3 in Hq2. rewrite <- Hm1 in Hq1.
  assert (Z.pos p * 2 ^ k2 <= m2) by lia.
  assert (m2 * 2 ^ k <= shr_m mrs1 * 2 ^ k + 2 ^ k) by nia.
  nia.
Qed.

Lemma iter_xO_value (p k : positive) :
  Z.pos (Pos.iter xO p k) = Z.pos p * 2 ^ Z.pos k.
Proof.
  induction k as [|k IH] using Pos.peano_ind.
  - simpl. lia.
  - rewrite Pos.iter_succ, Pos2Z.inj_xO, IH, Pos2Z.inj_succ, Z.pow_succ_r by lia.
    lia.
Qed.

(** The conversion of a positive integer below 2^63: a 24-digit mantissa,
    and a value of at most [n * (1 + 2^-23)], written on the scale
    [2 ^ ez] of the aligned integer. *)
Lemma f32_of_Z_upper (n : Z) :
  0 < n < 2 ^ 63 ->
  exists mx ex ez,
    f32_of_Z n = S754_finite false mx ex /\
    Z.pos (digits2_pos mx) = 24 /\
    -23 <= ez <= 0 /\ ez <= ex <= 40 /\
    Z.pos mx * 2 ^ (ex - ez) * 2 ^ 23 <= n * 2 ^ (- ez) * (2 ^ 23 + 1).
Proof.
  intros Hn. destruct n as [|b|b]; try lia.
  unfold f32_of_Z, binary_normalize, binary_round.
  pose proof (digits2_pos_bounds b) as Hb.
  set (d := Z.pos (digits2_pos b)) in *.
  assert (Hd : 1 <= d <= 63).
  { split; [unfold d; lia|].
    destruct (Z_le_gt_dec d 63) as [|Hgt]; [assumption|exfalso].
    assert (2 ^ 63 <= 2 ^ (d - 1)) by (apply Z.pow_le_mono_r; lia). lia. }
  rewrite Z.add_0_r, f32_fexp_normal by lia.
  unfold shl_align. rewrite Z.sub_0_r.
  destruct (d - 24) as [|q|q] eqn:Hq.
  - (* exactly 24 digits *)
    destruct (binary_round_aux_upper (Z.pos b) 0 loc_Exact ltac:(lia))
      as (m' & e' & -> & Hd' & He' & Hv); [simpl; fold d; lia..|].
    simpl Zdigits2 in He', Hv. fold d in He', Hv.
    exists m', e', 0. split; [reflexivity|]. split; [exact Hd'|].
    split; [lia|]. split; [lia|].
    rewrite Z.sub_0_r in *. simpl (2 ^ (- 0)). rewrite Z.mul_1_r.
    replace (d - 24) with 0 in Hv by lia. simpl (2 ^ 0) in Hv.
    assert (2 ^ 23 <= Z.pos b) by (replace 23 with (d - 1) by lia; lia).
    nia.
  - (* more than 24 digits *)
    destruct (binary_round_aux_upper (Z.pos b) 0 loc_Exact ltac:(lia))
      as (m' & e' & -> & Hd' & He' & Hv); [simpl; fold d; lia..|].
    simpl Zdigits2 in He', Hv. fold d in He', Hv.
    exists m', e', 0. split; [reflexivity|]. split; [exact Hd'|].
    split; [lia|]. split; [lia|].
    rewrite Z.sub_0_r in *. simpl (2 ^ (- 0)). rewrite Z.mul_1_r.
    assert (Hpow : 2 ^ (d - 24) * 2 ^ 23 = 2 ^ (d - 1)).
    { rewrite <- Z.pow_add_r by lia. f_equal. lia. }
    nia.
  - (* fewer than 24 digits: the mantissa is shifted left first *)
    pose proof (iter_xO_value b q) as Hval.
    pose proof (digits2_pos_iter_xO b q) as Hdig. fold d in Hdig.
    set (mz := Pos.iter xO b q) in *.
    destruct (binary_round_aux_upper (Z.pos mz) (Z.neg q) loc_Exact ltac:(lia))
      as (m' & e' & -> & Hd' & He' & Hv); [simpl; lia..|].
    simpl Zdigits2 in He', Hv. rewrite Hdig in He', Hv.
    replace (d + Z.pos q - 24) with 0 in He', Hv by lia.
    simpl (2 ^ 0) in Hv.
    exists m', e', (Z.neg q). split; [reflexivity|]. split; [exact Hd'|].
    split; [lia|]. split; [lia|].
    replace (- Z.neg q) with (Z.pos q) by lia. rewrite <- Hval.
    assert (2 ^ 23 <= Z.pos mz).
    { pose proof (digits2_pos_bounds mz) as Hmz. rewrite Hdig in Hmz.
      replace (d + Z.pos q - 1) with 23 in Hmz by lia. lia. }
    nia.
Qed.


(** ** The jump index stays inside the table *)

Lemma meshJump_smallb_sound (meshJump : f32) :
  meshJump_smallb meshJump = true -> meshJump_small meshJump.
Proof.
  destruct meshJump as [[]| | |[] mm em]; try discriminate.
  - intros _. now left.
  - unfold meshJump_smallb. rewrite !andb_true_iff.
    intros [[[Hd Hlo] Hhi] Hv]. right. exists mm, em.
    apply Z.eqb_eq in Hd. apply Z.leb_le in Hlo, Hhi, Hv.
    repeat split; auto.
Qed.

(** After ten searches [meshJump] runs through the same ten values again. *)
Lemma meshJump_cycle :
  Nat.iter 20 next_meshJump f32_zero = Nat.iter 10 next_meshJump f32_zero.
Proof. vm_compute. reflexivity. Qed.

Lemma meshJump_orbit (k : nat) :
  exists j : nat,
    (j < 20)%nat /\
    Nat.iter k next_meshJump f32_zero = Nat.iter j next_meshJump f32_zero.
Proof.
  induction k as [|k (j & Hj & IH)].
  - exists 0%nat. split; [lia | reflexivity].
  - destruct (Nat.eq_dec (S j) 20%nat) as [E|E].
    + exists 10%nat. split; [lia|].
      rewrite Nat.iter_succ, IH, <- Nat.iter_succ, E. exact meshJump_cycle.
    + exists (S j). split; [lia|]. now rewrite !Nat.iter_succ, IH.
Qed.

(** Every value that [meshJump] takes in a run is small. *)
Lemma meshJump_reachable_small (k : nat) :
  meshJump_small (Nat.iter k next_meshJump f32_zero).
Proof.
  destruct (meshJump_orbit k) as (j & Hj & ->).
  apply meshJump_smallb_sound.
  do 20 (destruct j as [|j]; [vm_compute; reflexivity|]). lia.
Qed.

Lemma jump_scale (A N mx mm U a1 a2 a3 : Z) :
  0 <= A -> 0 <= N -> 0 < mx -> 0 < mm -> 0 < U -> 0 < a1 -> 0 < a2 -> 0 < a3 ->
  A * U * 2 ^ 23 <= mx * mm * (2 ^ 23 + 1) ->
  mx * a1 * 2 ^ 23 <= N * a2 * (2 ^ 23 + 1) ->
  mm <= 15938357 * a3 ->
  A * U * a1 <= N * a2 * a3 * 2 ^ 24.
Proof.
  intros HA HN Hmx Hmm HU Ha1 Ha2 Ha3 H4 H2 H3.
  assert (S1 : A * U * 2 ^ 23 * (a1 * 2 ^ 23)
               <= mx * mm * (2 ^ 23 + 1) * (a1 * 2 ^ 23)).
  { apply Z.mul_le_mono_nonneg_r; [|exact H4]. lia. }
  assert (S2 : mx * a1 * 2 ^ 23 * (mm * (2 ^ 23 + 1))
               <= N * a2 * (2 ^ 23 + 1) * (mm * (2 ^ 23 + 1))).
  { apply Z.mul_le_mono_nonneg_r; [|exact H2]. lia. }
  assert (S3 : N * a2 * ((2 ^ 23 + 1) * (2 ^ 23 + 1)) * mm
               <= N * a2 * ((2 ^ 23 + 1) * (2 ^ 23 + 1)) * (15938357 * a3)).
  { apply Z.mul_le_mono_nonneg_l; [|exact H3].
    apply Z.mul_nonneg_nonneg; [|lia]. apply Z.mul_nonneg_nonneg; lia. }
  assert (S4 : (2 ^ 23 + 1) * (2 ^ 23 + 1) * 15938357 <= 2 ^ 70) by (vm_compute; discriminate).
  assert (S5 : N * a2 * a3 * ((2 ^ 23 + 1) * (2 ^ 23 + 1) * 15938357)
               <= N * a2 * a3 * 2 ^ 70).
  { apply Z.mul_le_mono_nonneg_l; [|exact S4].
    apply Z.mul_nonneg_nonneg; [|lia]. apply Z.mul_nonneg_nonneg; lia. }
  assert (S6 : A * U * a1 * 2 ^ 46 <= N * a2 * a3 * 2 ^ 24 * 2 ^ 46).
  { change (2 ^ 46) with (2 ^ 23 * 2 ^ 23).
    change (2 ^ 70) with (2 ^ 24 * (2 ^ 23 * 2 ^ 23)) in S5. lia. }
  apply Z.mul_le_mono_pos_r in S6; [exact S6 | reflexivity].
Qed.

(** [(ptrdiff_t)(float(n) * meshJump)] is an index between [0] and [n]. *)
Lemma jump_small_in_range (n : Z) (meshJump : f32) :
  0 <= n < 2 ^ 63 -> meshJump_small meshJump ->
  exists start,
    ptrdiff_of_f32 (f32_mul (f32_of_Z n) meshJump) = Ok start /\
    0 <= start <= n.
Proof.
  intros Hn Hmj.
  destruct (Z.eq_dec n 0) as [->|Hn0].
  { exists 0. split; [|lia].
    destruct Hmj as [->|(mm & em & -> & _)]; reflexivity. }
  destruct (f32_of_Z_upper n ltac:(lia))
    as (mx & ex & ez & -> & Hdx & Hez & Hex & Hvx).
  destruct Hmj as [->|(mm & em & -> & Hdm & Hem & Hvm)].
  { exists 0. split; [reflexivity | lia]. }
  unfold f32_mul, SFmul. cbn [xorb].
  pose proof (digits2_pos_bounds mx) as Hbx. rewrite Hdx in Hbx.
  pose proof (digits2_pos_bounds mm) as Hbm. rewrite Hdm in Hbm.
  change (24 - 1) with 23 in Hbx, Hbm.
  set (P := Z.pos (mx * mm)).
  assert (HP : P = Z.pos mx * Z.pos mm) by reflexivity.
  assert (HPlo : 2 ^ 46 <= P).
  { change (2 ^ 46) with (2 ^ 23 * 2 ^ 23). rewrite HP.
    apply Z.mul_le_mono_nonneg; lia. }
  assert (HPhi : P < 2 ^ 48).
  { change (2 ^ 48) with (2 ^ 24 * 2 ^ 24). rewrite HP.
    apply Z.mul_lt_mono_nonneg; lia. }
  destruct (Zdigits2_bounds P ltac:(lia)) as [_ [HdPlo HdPhi]].
  assert (HdP : 47 <= Zdigits2 P <= 48).
  { split.
    - destruct (Z_le_gt_dec 47 (Zdigits2 P)) as [|Hlt]; [assumption|exfalso].
      assert (2 ^ Zdigits2 P <= 2 ^ 46) by (apply Z.pow_le_mono_r; lia). lia.
    - destruct (Z_le_gt_dec (Zdigits2 P) 48) as [|Hgt]; [assumption|exfalso].
      assert (2 ^ 48 <= 2 ^ (Zdigits2 P - 1)) by (apply Z.pow_le_mono_r; lia). lia. }
  destruct (binary_round_aux_upper P (ex + em) loc_Exact ltac:(lia)
              ltac:(lia) ltac:(lia))
    as (mr & er & -> & _ & Her & Hvr).
  set (dP := Zdigits2 P) in *.
  assert (Hulp : 2 ^ (dP - 24) * 2 ^ 23 <= P).
  { rewrite <- Z.pow_add_r by lia. replace (dP - 24 + 23) with (dP - 1) by lia.
    exact HdPlo. }
  assert (H4 : Z.pos mr * 2 ^ (er - (ex + em)) * 2 ^ 23
               <= Z.pos mx * Z.pos mm * (2 ^ 23 + 1)).
  { rewrite <- HP. nia. }
  assert (Hpow : forall x, 0 <= x -> 0 < 2 ^ x)
    by (intros x Hx; apply Z.pow_pos_nonneg; lia).
  pose proof (jump_scale (Z.pos mr) n (Z.pos mx) (Z.pos mm)
                (2 ^ (er - (ex + em))) (2 ^ (ex - ez)) (2 ^ (- ez))
                (2 ^ (- 24 - em))
                ltac:(lia) ltac:(lia) ltac:(lia) ltac:(lia)
                ltac:(apply Hpow; lia) ltac:(apply Hpow; lia)
                ltac:(apply Hpow; lia) ltac:(apply Hpow; lia)
                H4 Hvx Hvm) as Hs.
  set (w := - ez - em).
  assert (Hl : Z.pos mr * 2 ^ (er - (ex + em)) * 2 ^ (ex - ez)
               = Z.pos mr * 2 ^ (er + w)).
  { rewrite <- Z.mul_assoc, <- Z.pow_add_r by lia. f_equal. f_equal. unfold w. lia. }
  assert (Hr : n * 2 ^ (- ez) * 2 ^ (- 24 - em) * 2 ^ 24 = n * 2 ^ w).
  { rewrite <- !Z.mul_assoc, <- !Z.pow_add_r by lia. f_equal. f_equal. unfold w. lia. }
  rewrite Hl, Hr in Hs.
  assert (Hw : 0 <= er + w) by (unfold w; lia).
  unfold ptrdiff_of_f32.
  destruct (Z.leb_spec 0 er) as [Hpos|Hneg].
  - assert (Hle : Z.pos mr * 2 ^ er <= n).
    { rewrite Z.pow_add_r in Hs by (unfold w; lia).
      assert (0 < 2 ^ w) by (apply Hpow; unfold w; lia).
      apply (Z.mul_le_mono_pos_r _ _ (2 ^ w)); [assumption|]. lia. }
    assert (0 < 2 ^ er) by (apply Hpow; lia).
    exists (Z.pos mr * 2 ^ er).
    replace ((- 2 ^ 63 <=? Z.pos mr * 2 ^ er) && (Z.pos mr * 2 ^ er <? 2 ^ 63))
      with true; [split; [reflexivity | nia]|].
    symmetry. apply andb_true_iff. split; [apply Z.leb_le | apply Z.ltb_lt]; nia.
  - assert (Hle : Z.pos mr <= n * 2 ^ (- er)).
    { assert (Hsplit : 2 ^ w = 2 ^ (- er) * 2 ^ (er + w)).
      { rewrite <- Z.pow_add_r by lia. f_equal. lia. }
      rewrite Hsplit in Hs.
      assert (0 < 2 ^ (er + w)) by (apply Hpow; lia).
      apply (Z.mul_le_mono_pos_r _ _ (2 ^ (er + w))); [assumption|]. lia. }
    assert (Hp : 0 < 2 ^ (- er)) by (apply Hpow; lia).
    assert (Hq : 0 <= Z.pos mr / 2 ^ (- er) <= n).
    { split; [apply Z.div_pos; lia|].
      apply Z.div_le_upper_bound; [exact Hp | lia]. }
    exists (Z.pos mr / 2 ^ (- er)).
    replace ((- 2 ^ 63 <=? Z.pos mr / 2 ^ (- er))
             && (Z.pos mr / 2 ^ (- er) <? 2 ^ 63))
      with true; [split; [reflexivity | exact Hq]|].
    symmetry. apply andb_true_iff. split; [apply Z.leb_le | apply Z.ltb_lt]; lia.
Qed.

(** The jump index of a search on a non-empty table of fewer than 2^63
    faces, for every value that [meshJump] takes. *)
Lemma jump_index_in_range (numFaces : Z) (meshJump : f32) :
  0 < numFaces < 2 ^ 63 -> meshJump_small meshJump ->
  exists start,
    jump_index numFaces meshJump = Ok start /\ 0 <= start < numFaces.
Proof.
  intros Hn Hmj. unfold jump_index, wrap_size.
  rewrite Z.mod_small by (assert (2 ^ 63 < 2 ^ 64) by reflexivity; lia).
  destruct (jump_small_in_range (numFaces - 1) meshJump ltac:(lia) Hmj)
    as (start & Hs & Hr).
  exists start. split; [exact Hs | lia].
Qed.


(** ** Reset-point searches *)





(** C5 (as amended).  [Stripify] starts with [meshJump = 0]; every
    reset-point search — not every round: PHASE 1 of a round makes between
    one and [numSamples] of them — replaces [meshJump] by [meshJump + 0.1f],
    or by [0.05f] when that sum exceeds [1.0f]; and a search after the
    first one of the call, on a non-empty table, starts at index
    [(ptrdiff_t)(float(numFaces - 1) * meshJump)], which lies inside the
    table, and returns the first face with [m_stripId < 0] met from there
    going forward with wrap-around (null when there is none). *)
Theorem meshJump_steps_once_per_search (s : NvStripifier.t) (t : Topology)
  (k : nat) :
  NvStripifier.bFirstTimeResetPoint s = false ->
  0 < vec_size (faceInfos t) < 2 ^ 63 ->
  Forall (fun p => is_Some (faces (heap t) !! p)) (faceInfos t) ->
  NvStripifier.meshJump s = Nat.iter k next_meshJump f32_zero ->
  (forall in_indices in_cacheSize in_minStripLength,
      NvStripifier.meshJump (Stripify_begin in_indices in_cacheSize in_minStripLength)
      = f32_zero) /\
  (exists start,
      jump_index (vec_size (faceInfos t)) (NvStripifier.meshJump s) = Ok start /\
      0 <= start < vec_size (faceInfos t) /\
      FindGoodResetPoint s t
      = Ok (NvStripifier.set_meshJump s
              (let m := f32_add (NvStripifier.meshJump s) f32_0_1 in
               if f32_gt m f32_one then f32_0_05 else m),
            first_unclaimed_from (heap t) (faceInfos t) start)) /\
  (forall n u u',
      FindAllStrips_setup n t u = Ok u' ->
      exists j : nat,
        (j <= n)%nat /\ (0 < n -> 0 < j)%nat /\
        NvStripifier.meshJump (su_stripifier u')
        = Nat.iter j next_meshJump (NvStripifier.meshJump (su_stripifier u))).
Proof.
  intros Hfirst Hn Hvalid Hk. split; [reflexivity|]. split.
  - assert (Hmj : meshJump_small (NvStripifier.meshJump s))
      by (rewrite Hk; apply meshJump_reachable_small).
    destruct (jump_index_in_range _ _ Hn Hmj) as (start & Hjump & Hstart).
    exists start. split; [exact Hjump|]. split; [exact Hstart|].
    assert (Hrs : reset_start s t = Ok (start, s)).
    { unfold reset_start. rewrite Hfirst, Hjump. cbn [mbind res_bind].
      destruct (Z.eqb_spec start (-1)); [lia | reflexivity]. }
    destruct (FindGoodResetPoint_total s s t start (proj2 Hn) Hvalid Hrs Hstart)
      as [r Hr].
    rewrite Hr. f_equal. f_equal.
    destruct (FindGoodResetPoint_sound _ _ _ _ (proj2 Hn) Hr)
      as (start' & s1' & Hrs' & _ & _ & Hfind & _).
    rewrite Hrs in Hrs'. injection Hrs' as <- <-. exact Hfind.
  - intros n u u' H.
    now destruct (FindAllStrips_setup_sound t (proj2 Hn) n u u' H) as [_ Hj].
Qed.

Lemma meshJump_steps_once_per_search_witness :
  let s := NvStripifier.mk [] 10 0 (Nat.iter 6 next_meshJump f32_zero) false in
  let t := topology_of [0; 1; 2; 2; 1; 3; 2; 3; 4] in
  (forall in_indices in_cacheSize in_minStripLength,
      NvStripifier.meshJump (Stripify_begin in_indices in_cacheSize in_minStripLength)
      = f32_zero) /\
  (exists start,
      jump_index (vec_size (faceInfos t)) (NvStripifier.meshJump s) = Ok start /\
      0 <= start < vec_size (faceInfos t) /\
      FindGoodResetPoint s t
      = Ok (NvStripifier.set_meshJump s
              (let m := f32_add (NvStripifier.meshJump s) f32_0_1 in
               if f32_gt m f32_one then f32_0_05 else m),
            first_unclaimed_from (heap t) (faceInfos t) start)) /\
  (forall n u u',
      FindAllStrips_setup n t u = Ok u' ->
      exists j : nat,
        (j <= n)%nat /\ (0 < n -> 0 < j)%nat /\
        NvStripifier.meshJump (su_stripifier u')
        = Nat.iter j next_meshJump (NvStripifier.meshJump (su_stripifier u))).
Proof.
  intros s t. apply (meshJump_steps_once_per_search s t 6).
  - reflexivity.
  - vm_compute. split; reflexivity.
  - vm_compute. repeat constructor; eexists; reflexivity.
  - reflexivity.
Defined.

(** The jump of that search, evaluated: three faces and [meshJump] after six
    steps, the [float] next to 0.6, give index 1. *)
Example scenario_jump_index :
  jump_index 3 (Nat.iter 6 next_meshJump f32_zero) = Ok 1.
Proof. reflexivity. Qed.

(** C5 as stated fails: in the first round on a single triangle PHASE 1
    searches ten times, so the round leaves [meshJump] at [0.05f] (the tenth
    sum of [0.1f] exceeds [1.0f]) and not at one step from [0]. *)
Lemma meshJump_steps_ten_times_in_a_round :
  exists r',
    FindAllStrips_round one_triangle 10
      (mkSearch (Stripify_begin [0; 1; 2] 16 0) (heap one_triangle) [] 0 0)
    = Ok (r', false) /\
    NvStripifier.meshJump (sr_stripifier r') = f32_0_05 /\
    NvStripifier.meshJump (sr_stripifier r') <> next_meshJump f32_zero /\
    NvStripifier.meshJump (sr_stripifier r') = Nat.iter 10 next_meshJump f32_zero.
Proof.
  eexists. split; [vm_compute; reflexivity|].
  split; [reflexivity|]. split; [discriminate | reflexivity].
Qed.


(** ** The topology that [BuildStripifyInfo] builds *)

Lemma BuildStripifyInfo_triangle_ok (t : Topology) (v0 v1 v2 : Z) :
  topology_ok t ->
  vertex_ok (edgeInfos t) v0 ->
  vertex_ok (edgeInfos t) v1 ->
  vertex_ok (edgeInfos t) v2 ->
  exists t',
    BuildStripifyInfo_triangle t v0 v1 v2 = Ok t' /\
    topology_ok t' /\
    length (edgeInfos t') = length (edgeInfos t).
Proof.
  intros (Hwf & Hfaces & Hlinked) Hv0 Hv1 Hv2.
  destruct (IsDegenerate3 v0 v1 v2) eqn:Hd.
  { exists t. unfold BuildStripifyInfo_triangle. rewrite Hd.
    split; [reflexivity|]. split; [|reflexivity].
    split; [exact Hwf|]. split; [exact Hfaces | exact Hlinked]. }
  destruct (BuildStripifyInfo_triangle_spec t v0 v1 v2 Hwf Hfaces Hv0 Hv1 Hv2 Hd)
    as (e01 & e12 & e20 & t' & E01 & E12 & E20 & _ & _ & _ & Ht' & _ & _
        & Hwf' & Hlen & Hfaces' & Hfi & Hei & Hch).
  exists t'. split; [exact Ht'|]. split; [|exact Hlen].
  split; [exact Hwf'|].
  set (faceInfo := length (faces (heap t))) in *.
  set (h0 := (new_face (heap t) (NvFaceInfo.new v0 v1 v2)).1) in *.
  (* the three visits, with what each keeps *)
  assert (Hwf0 : edges_wf h0 (edgeInfos t)) by exact Hwf.
  destruct (visit_edge_spec h0 (edgeInfos t) v0 v1 faceInfo Hwf0 Hv0 Hv1)
    as (x01 & X01 & Hwf1 & _ & Hl1 & _).
  rewrite E01 in X01. injection X01 as <-.
  assert (Hok1 : forall v, vertex_ok (edgeInfos t) v -> vertex_ok (ev_edgeInfos e01) v).
  { intros v [Hv Hv']. split; [unfold vec_size in *; lia | exact Hv']. }
  destruct (visit_edge_spec (ev_heap e01) (ev_edgeInfos e01) v1 v2 faceInfo Hwf1
              (Hok1 _ Hv1) (Hok1 _ Hv2))
    as (x12 & X12 & Hwf2 & _ & Hl2 & _).
  rewrite E12 in X12. injection X12 as <-.
  assert (Hok2 : forall v, vertex_ok (edgeInfos t) v -> vertex_ok (ev_edgeInfos e12) v).
  { intros v [Hv Hv']. split; [unfold vec_size in *; lia | exact Hv']. }
  destruct (visit_edge_linked _ _ _ _ _ _ Hwf0 Hv0 Hv1 E01) as (_ & Hnew01 & Hkeep01).
  destruct (visit_edge_linked _ _ _ _ _ _ Hwf1 (Hok1 _ Hv1) (Hok1 _ Hv2) E12)
    as (_ & Hnew12 & Hkeep12).
  destruct (visit_edge_linked _ _ _ _ _ _ Hwf2 (Hok2 _ Hv2) (Hok2 _ Hv0) E20)
    as (_ & Hnew20 & Hkeep20).
  assert (Hlast : forall a b,
             edge_linked (ev_heap e20) (ev_edgeInfos e20) a b ->
             edge_linked (heap t') (edgeInfos t') a b).
  { intros a b Hab. rewrite Hei. eapply edge_linked_ext; eassumption. }
  assert (Hfirst : forall a b,
             edge_linked (heap t) (edgeInfos t) a b ->
             edge_linked h0 (edgeInfos t) a b).
  { intros a b Hab. eapply edge_linked_ext; [|exact Hab].
    intros i e He. exists e. split; [exact He | reflexivity]. }
  assert (Hold : Forall (fun q => (q < length (faces (heap t')))%nat) (faceInfos t)).
  { eapply Forall_impl; [exact Hfaces|]. intros q Hq. cbn beta in *.
    rewrite Hfaces', length_app. cbn [length]. lia. }
  assert (Hold_linked :
            Forall (fun p =>
                      exists f,
                        faces (heap t') !! p = Some f /\
                        edge_linked (heap t') (edgeInfos t')
                          (NvFaceInfo.m_v0 f) (NvFaceInfo.m_v1 f) /\
                        edge_linked (heap t') (edgeInfos t')
                          (NvFaceInfo.m_v1 f) (NvFaceInfo.m_v2 f) /\
                        edge_linked (heap t') (edgeInfos t')
                          (NvFaceInfo.m_v2 f) (NvFaceInfo.m_v0 f))
                   (faceInfos t)).
  { eapply Forall_impl; [exact Hlinked|].
    intros p (f & Hf & H01 & H12 & H20). exists f. split.
    - rewrite Hfaces', lookup_app_l; [exact Hf|]. now apply lookup_lt_Some in Hf.
    - split; [|split]; apply Hlast, Hkeep20, Hkeep12, Hkeep01, Hfirst; assumption. }
  destruct Hfi as [Hfi|Hfi]; rewrite Hfi || (unfold faces_linked; rewrite Hfi).
  - split; [exact Hold|]. unfold faces_linked. rewrite Hfi. exact Hold_linked.
  - split.
    + apply Forall_app. split; [exact Hold|]. constructor; [|constructor].
      rewrite Hfaces', length_app. cbn [length]. lia.
    + unfold faces_linked. rewrite Hfi. apply Forall_app.
      split; [exact Hold_linked|]. constructor; [|constructor].
      exists (NvFaceInfo.new v0 v1 v2). split.
      * rewrite Hfaces'. unfold faceInfo. now rewrite list_lookup_middle.
      * cbn [NvFaceInfo.new NvFaceInfo.m_v0 NvFaceInfo.m_v1 NvFaceInfo.m_v2].
        split; [apply Hlast, Hkeep20, Hkeep12, Hnew01|].
        split; [apply Hlast, Hkeep20, Hnew12 | apply Hlast, Hnew20].
Qed.

Lemma BuildStripifyInfo_loop_ok (indices : list Z) (numTriangles : nat) :
  forall (index : Z) (t : Topology),
    topology_ok t ->
    0 <= index ->
    index + 3 * Z.of_nat numTriangles <= vec_size indices ->
    Forall (vertex_ok (edgeInfos t)) indices ->
    exists t',
      BuildStripifyInfo_loop numTriangles index indices t = Ok t' /\
      topology_ok t'.
Proof.
  induction numTriangles as [|n IH]; intros index t Hok Hidx Hlen Hall.
  - exists t. split; [reflexivity | exact Hok].
  - cbn [BuildStripifyInfo_loop].
    assert (Hat : forall k, 0 <= k < 3 ->
                  exists v, vec_at indices (index + k) = Ok v /\
                            vertex_ok (edgeInfos t) v).
    { intros k Hk.
      destruct (vec_at_in_range indices (index + k)) as (v & Hv & Hl);
        [lia|].
      exists v. split; [exact Hv|].
      rewrite Forall_forall in Hall. apply Hall.
      eapply list_elem_of_lookup_2. exact Hl. }
    destruct (Hat 0 ltac:(lia)) as (v0 & E0 & Hv0).
    destruct (Hat 1 ltac:(lia)) as (v1 & E1 & Hv1).
    destruct (Hat 2 ltac:(lia)) as (v2 & E2 & Hv2).
    rewrite Z.add_0_r in E0. rewrite E0, E1, E2. cbn [mbind res_bind].
    destruct (BuildStripifyInfo_triangle_ok t v0 v1 v2 Hok Hv0 Hv1 Hv2)
      as (t1 & Ht1 & Hok1 & Hl1).
    rewrite Ht1. cbn [mbind res_bind].
    apply IH; [exact Hok1 | lia | lia |].
    eapply Forall_impl; [exact Hall|]. intros v [Hv Hv'].
    split; [unfold vec_size in *; lia | exact Hv'].
Qed.

(** [BuildStripifyInfo] returns on every index list whose indices are at
    most [maxIndex], and what it returns is well formed: the hypotheses
    under which one more triangle is added hold at every iteration, and
    every face of the table has its three edges in the chains. *)
Lemma BuildStripifyInfo_ok (indices : list Z) (maxIndex : Z) :
  0 <= maxIndex < 2 ^ 31 ->
  Forall (fun v => 0 <= v <= maxIndex) indices ->
  exists t, BuildStripifyInfo indices maxIndex = Ok t /\ topology_ok t.
Proof.
  intros Hmax Hall. unfold BuildStripifyInfo.
  apply BuildStripifyInfo_loop_ok.
  - split; [|split]; cbn [heap edgeInfos faceInfos faces edges].
    + split.
      * intros v q Hv. apply lookup_replicate in Hv as [Hv _]. discriminate.
      * intros i e He. inversion He.
    + constructor.
    + constructor.
  - lia.
  - pose proof (Z.mul_div_le (vec_size indices) 3 ltac:(lia)) as Hdiv.
    rewrite Z2Nat.id by (apply Z.div_pos; unfold vec_size; lia). lia.
  - eapply Forall_impl; [exact Hall|]. intros v Hv. cbn beta in Hv.
    cbn [edgeInfos]. unfold vertex_ok, vec_size. rewrite length_replicate. lia.
Qed.

(** ** The first search returns on a built topology *)

Lemma FindOtherFace_total (h : Heap) (edgeInfos : NvEdgeInfoVec) (v0 v1 : Z)
  (faceInfo : nat) :
  edges_wf h edgeInfos -> edge_linked h edgeInfos v0 v1 ->
  exists r, FindOtherFace h edgeInfos v0 v1 faceInfo = Ok r.
Proof.
  intros Hwf Hl. pose proof Hl as (Hv & head & Hhead & _).
  apply (FindEdgeInfo_linked h edgeInfos v0 v1 Hwf) in Hl as (q & Hq).
  destruct (FindEdgeInfo_total h edgeInfos v0 v1 Hwf) as (r & Hr & Hrlen).
  { apply lookup_lt_Some in Hhead. unfold vec_size. lia. }
  rewrite Hq in Hr. injection Hr as <-. specialize (Hrlen q eq_refl).
  destruct (lookup_lt_is_Some_2 _ _ Hrlen) as [e He].
  unfold FindOtherFace. rewrite Hq. cbn [mbind res_bind].
  unfold edge_at. rewrite He. cbn [mbind res_bind]. eauto.
Qed.

Lemma FindStartPoint_loop_total (t : Topology) (fs : NvFaceInfoVec) :
  edges_wf (heap t) (edgeInfos t) ->
  Forall (fun p =>
            exists f,
              faces (heap t) !! p = Some f /\
              edge_linked (heap t) (edgeInfos t) (NvFaceInfo.m_v0 f) (NvFaceInfo.m_v1 f) /\
              edge_linked (heap t) (edgeInfos t) (NvFaceInfo.m_v1 f) (NvFaceInfo.m_v2 f) /\
              edge_linked (heap t) (edgeInfos t) (NvFaceInfo.m_v2 f) (NvFaceInfo.m_v0 f))
         fs ->
  forall bestCtr bestIndex i,
    exists r, FindStartPoint_loop t fs bestCtr bestIndex i = Ok r.
Proof.
  intros Hwf. induction 1 as [|p fs (f & Hf & H01 & H12 & H20) _ IH];
    intros bc bi i; cbn [FindStartPoint_loop]; [eauto|].
  unfold open_edges, face_at. rewrite Hf. cbn [mbind res_bind].
  destruct (FindOtherFace_total _ _ _ _ p Hwf H01) as [o01 ->].
  cbn [mbind res_bind].
  destruct (FindOtherFace_total _ _ _ _ p Hwf H12) as [o12 ->].
  cbn [mbind res_bind].
  destruct (FindOtherFace_total _ _ _ _ p Hwf H20) as [o20 ->].
  cbn [mbind res_bind].
  match goal with |- context [if ?c then _ else _] => destruct c end; apply IH.
Qed.

(** [FindStartPoint] returns on every topology that [BuildStripifyInfo]
    builds. *)
Lemma FindStartPoint_total (t : Topology) :
  topology_ok t -> exists sp, FindStartPoint t = Ok sp.
Proof.
  intros (Hwf & _ & Hlinked). unfold FindStartPoint.
  destruct (FindStartPoint_loop_total t (faceInfos t) Hwf Hlinked (-1) (-1) 0)
    as [[bestCtr bestIndex] ->].
  cbn [mbind res_bind]. destruct (bestCtr =? 0); eauto.
Qed.

(** On the topology of an index list, the first reset-point search of a
    [Stripify] call finds its start. *)
Lemma FindStartPoint_total_built (indices : list Z) (maxIndex : Z) :
  0 <= maxIndex < 2 ^ 31 ->
  Forall (fun v => 0 <= v <= maxIndex) indices ->
  exists t sp,
    BuildStripifyInfo indices maxIndex = Ok t /\
    Forall (fun p => is_Some (faces (heap t) !! p)) (faceInfos t) /\
    FindStartPoint t = Ok sp.
Proof.
  intros Hmax Hall.
  destruct (BuildStripifyInfo_ok indices maxIndex Hmax Hall) as (t & Ht & Hok).
  destruct (FindStartPoint_total t Hok) as [sp Hsp].
  exists t, sp. split; [exact Ht|]. split; [|exact Hsp].
  destruct Hok as (_ & Hvalid & _).
  eapply Forall_impl; [exact Hvalid|]. intros p Hp.
  now apply lookup_lt_is_Some_2.
Qed.


(* ===================================================================== *)
(** * Part III: further properties of the sources                         *)
(* ===================================================================== *)

(** ** VertexCache.h *)

Lemma take_app_take {A : Type} (n m : nat) (l1 l2 : list A) :
  (n <= length l1 + m)%nat -> take n (l1 ++ take m l2) = take n (l1 ++ l2).
Proof.
  intros H. rewrite !take_app.
  f_equal. rewrite take_take. f_equal. lia.
Qed.

(** X1.  A cache is a first-in first-out window: after [AddEntry] of the
    values [entries], one after the other, a cache of capacity [c >= 1]
    holds the [c] most recent of them, the latest in slot 0, followed by
    what is left of its old content. *)
Theorem AddEntry_all_window (cache entries : list Z) :
  cache <> [] ->
  AddEntry_all cache entries
  = Ok (take (length cache) (reverse entries ++ cache)).
Proof.
  revert cache. induction entries as [|v entries IH]; intros cache Hne.
  - cbn [AddEntry_all]. now rewrite reverse_nil, app_nil_l, firstn_all.
  - cbn [AddEntry_all].
    destruct (AddEntry_Ok cache v Hne) as (x & _ & ->). cbn [mbind res_bind].
    rewrite IH by discriminate. f_equal.
    assert (Hlen : length (v :: take (length cache - 1) cache) = length cache).
    { destruct cache; [congruence|]. cbn [length].
      rewrite length_take. cbn [length]. lia. }
    rewrite Hlen, reverse_cons, <- app_assoc. cbn [app].
    change (v :: take (length cache - 1) cache)
      with ([v] ++ take (length cache - 1) cache).
    change (v :: cache) with ([v] ++ cache).
    rewrite !app_assoc. apply take_app_take.
    rewrite length_app. cbn [length]. lia.
Qed.

Lemma AddEntry_all_window_witness :
  AddEntry_all [7; 8; -1] [1; 2; 3; 4] = Ok [4; 3; 2].
Proof. exact (AddEntry_all_window [7; 8; -1] [1; 2; 3; 4] ltac:(discriminate)). Defined.

Lemma VertexCache_Copy_loop_spec (entries : list Z) (n : nat) :
  forall (done : nat) (d : list Z),
    (done + n = length entries)%nat ->
    (length entries <= length d)%nat ->
    take done d = take done entries ->
    VertexCache_Copy_loop n (Z.of_nat done) entries d
    = Ok (entries ++ drop (length entries) d).
Proof.
  induction n as [|n IH]; intros done d Hn Hlen Hpre.
  - cbn [VertexCache_Copy_loop]. f_equal.
    replace done with (length entries) in Hpre by lia.
    rewrite <- (take_drop (length entries) d) at 1.
    now rewrite Hpre, firstn_all.
  - cbn [VertexCache_Copy_loop]. unfold VertexCache.At, VertexCache.Set_.
    destruct (lookup_lt_is_Some_2 entries done ltac:(lia)) as [e He].
    rewrite (vec_at_of_nat _ _ _ He). cbn [mbind res_bind].
    rewrite vec_set_of_nat by lia. cbn [mbind res_bind].
    replace (Z.of_nat done + 1) with (Z.of_nat (S done)) by lia.
    rewrite IH.
    + f_equal. f_equal. rewrite drop_insert_lt by lia. reflexivity.
    + lia.
    + rewrite length_insert. lia.
    + rewrite (take_S_r entries done e He).
      rewrite (take_S_r (<[done := e]> d) done e)
        by (apply list_lookup_insert_eq; lia).
      rewrite take_insert_ge by lia. now rewrite Hpre.
Qed.

Lemma VertexCache_Copy_loop_short (entries : list Z) (n : nat) :
  forall (done : nat) (d : list Z),
    (done + n = length entries)%nat ->
    (done <= length d < length entries)%nat ->
    VertexCache_Copy_loop n (Z.of_nat done) entries d = Fault OutOfBounds.
Proof.
  induction n as [|n IH]; intros done d Hn Hlen; [lia|].
  cbn [VertexCache_Copy_loop]. unfold VertexCache.At, VertexCache.Set_.
  destruct (lookup_lt_is_Some_2 entries done ltac:(lia)) as [e He].
  rewrite (vec_at_of_nat _ _ _ He). cbn [mbind res_bind].
  destruct (decide (done < length d)%nat) as [Hin|Hout].
  - rewrite vec_set_of_nat by lia. cbn [mbind res_bind].
    replace (Z.of_nat done + 1) with (Z.of_nat (S done)) by lia.
    apply IH; [lia|]. rewrite length_insert. lia.
  - unfold vec_set.
    destruct (Z.ltb_spec (Z.of_nat done) (Z.of_nat (length d))); [lia|].
    now rewrite andb_false_r.
Qed.

(** X2.  [Copy] writes the slots of a cache over the first slots of the
    target and leaves the rest of the target alone, when the target has at
    least as many slots; a smaller target is written past its end. *)
Theorem VertexCache_Copy_spec (c inVcache : list Z) :
  VertexCache_Copy c inVcache
  = if decide (length c <= length inVcache)%nat
    then Ok (c ++ drop (length c) inVcache)
    else Fault OutOfBounds.
Proof.
  unfold VertexCache_Copy, VertexCache.numEntries, vec_size. rewrite Nat2Z.id.
  destruct (decide (length c <= length inVcache)%nat) as [Hle|Hgt].
  - now apply (VertexCache_Copy_loop_spec c (length c) 0 inVcache).
  - apply (VertexCache_Copy_loop_short c (length c) 0 inVcache); lia.
Qed.


(** ** Vertex bookkeeping of faces *)

Lemma IsDegenerate_false (f : NvFaceInfo.t) :
  IsDegenerate f = false <->
  NvFaceInfo.m_v0 f <> NvFaceInfo.m_v1 f /\
  NvFaceInfo.m_v0 f <> NvFaceInfo.m_v2 f /\
  NvFaceInfo.m_v1 f <> NvFaceInfo.m_v2 f.
Proof.
  unfold IsDegenerate, IsDegenerate3.
  destruct (Z.eqb_spec (NvFaceInfo.m_v0 f) (NvFaceInfo.m_v1 f));
    destruct (Z.eqb_spec (NvFaceInfo.m_v0 f) (NvFaceInfo.m_v2 f));
    destruct (Z.eqb_spec (NvFaceInfo.m_v1 f) (NvFaceInfo.m_v2 f));
    split; try discriminate; try tauto; auto.
Qed.

Lemma elem_of_face_vertices (f : NvFaceInfo.t) (v : Z) :
  v ∈ face_vertices f <->
  v = NvFaceInfo.m_v0 f \/ v = NvFaceInfo.m_v1 f \/ v = NvFaceInfo.m_v2 f.
Proof.
  unfold face_vertices. rewrite !elem_of_cons, elem_of_nil. tauto.
Qed.

(** X3.  [GetNextIndex]: when the last two indices of the list are two
    different vertices of a face that is not degenerate, the result is the
    third vertex of the face. *)
Theorem GetNextIndex_third_vertex (indices : list Z) (face : NvFaceInfo.t)
  (v0 v1 : Z) :
  IsDegenerate face = false ->
  v0 <> v1 ->
  v0 ∈ face_vertices face -> v1 ∈ face_vertices face ->
  exists w,
    GetNextIndex (indices ++ [v0; v1]) face = Ok w /\
    w ∈ face_vertices face /\ w <> v0 /\ w <> v1.
Proof.
  intros Hnd Hne H0 H1.
  apply IsDegenerate_false in Hnd as (H01 & H02 & H12).
  apply elem_of_face_vertices in H0, H1.
  unfold GetNextIndex, vec_size. rewrite length_app. cbn [length].
  replace (Z.of_nat (length indices + 2) - 2) with (Z.of_nat (length indices)) by lia.
  replace (Z.of_nat (length indices + 2) - 1) with (Z.of_nat (S (length indices))) by lia.
  rewrite (vec_at_of_nat (indices ++ [v0; v1]) (length indices) v0)
    by (now rewrite list_lookup_middle).
  cbn [mbind res_bind].
  rewrite (vec_at_of_nat (indices ++ [v0; v1]) (S (length indices)) v1).
  2:{ rewrite lookup_app_r by lia.
      now replace (S (length indices) - length indices)%nat with 1%nat by lia. }
  cbn [mbind res_bind]. cbv zeta.
  setoid_rewrite elem_of_face_vertices.
  destruct (Z.eqb_spec (NvFaceInfo.m_v0 face) v0);
    destruct (Z.eqb_spec (NvFaceInfo.m_v0 face) v1);
    destruct (Z.eqb_spec (NvFaceInfo.m_v1 face) v0);
    destruct (Z.eqb_spec (NvFaceInfo.m_v1 face) v1);
    destruct (Z.eqb_spec (NvFaceInfo.m_v2 face) v0);
    destruct (Z.eqb_spec (NvFaceInfo.m_v2 face) v1);
    cbn [negb andb orb];
    try (exfalso; lia);
    eexists; (split; [reflexivity|]); (split; [|split]); auto; lia.
Qed.

Lemma GetNextIndex_third_vertex_witness :
  exists w,
    GetNextIndex ([9; 9] ++ [5; 3]) (NvFaceInfo.new 3 4 5) = Ok w /\
    w ∈ face_vertices (NvFaceInfo.new 3 4 5) /\ w <> 5 /\ w <> 3.
Proof.
  apply (GetNextIndex_third_vertex [9; 9] (NvFaceInfo.new 3 4 5) 5 3).
  - reflexivity.
  - lia.
  - compute_done.
  - compute_done.
Defined.

(** X4.  [GetUniqueVertexInB] gives the first vertex of [faceB] that
    [faceA] does not have, and [-1] when [faceA] has them all;
    [GetSharedVertices] gives the first two vertices of [faceB] that [faceA]
    has, with [-1] for each one that is missing (the first two vertices of
    [faceB] must not be [-1] themselves, which is the mark of "not yet
    found"). *)
Theorem unique_and_shared_vertices (faceA faceB : NvFaceInfo.t) :
  NvFaceInfo.m_v0 faceB <> -1 -> NvFaceInfo.m_v1 faceB <> -1 ->
  let inA (v : Z) := bool_decide (v ∈ face_vertices faceA) in
  GetUniqueVertexInB faceA faceB
  = default (-1) (head (filter (fun v => negb (inA v)) (face_vertices faceB))) /\
  GetSharedVertices faceA faceB
  = (default (-1) (filter (fun v => inA v) (face_vertices faceB) !! 0%nat),
     default (-1) (filter (fun v => inA v) (face_vertices faceB) !! 1%nat)).
Proof.
  intros Hb0 Hb1 inA.
  assert (HinA : forall v,
             inA v = (v =? NvFaceInfo.m_v0 faceA) || (v =? NvFaceInfo.m_v1 faceA)
                     || (v =? NvFaceInfo.m_v2 faceA)).
  { intros v. unfold inA. apply eq_true_iff_eq.
    rewrite bool_decide_eq_true, elem_of_face_vertices, !orb_true_iff, !Z.eqb_eq.
    tauto. }
  assert (Hdiff : forall v,
             negb (v =? NvFaceInfo.m_v0 faceA) && negb (v =? NvFaceInfo.m_v1 faceA)
             && negb (v =? NvFaceInfo.m_v2 faceA) = negb (inA v)).
  { intros v. rewrite HinA, !negb_orb. reflexivity. }
  split.
  - unfold GetUniqueVertexInB. cbv zeta. rewrite !Hdiff.
    unfold face_vertices at 1.
    rewrite !filter_cons, filter_nil.
    destruct (inA (NvFaceInfo.m_v0 faceB)), (inA (NvFaceInfo.m_v1 faceB)),
      (inA (NvFaceInfo.m_v2 faceB)); reflexivity.
  - unfold GetSharedVertices. cbv zeta. rewrite <- !HinA.
    unfold face_vertices at 1 2.
    rewrite !filter_cons, filter_nil.
    destruct (Z.eqb_spec (NvFaceInfo.m_v0 faceB) (-1)); [congruence|].
    destruct (Z.eqb_spec (NvFaceInfo.m_v1 faceB) (-1)); [congruence|].
    change (-1 =? -1) with true.
    destruct (inA (NvFaceInfo.m_v0 faceB)), (inA (NvFaceInfo.m_v1 faceB)),
      (inA (NvFaceInfo.m_v2 faceB)); cbn; try reflexivity;
      repeat match goal with
             | |- context [?x =? -1] => destruct (Z.eqb_spec x (-1)); try congruence
             end; try reflexivity.
Qed.

Lemma unique_and_shared_vertices_witness :
  GetUniqueVertexInB (NvFaceInfo.new 0 1 2) (NvFaceInfo.new 2 1 3) = 3 /\
  GetSharedVertices (NvFaceInfo.new 0 1 2) (NvFaceInfo.new 2 1 3) = (2, 1).
Proof.
  exact (unique_and_shared_vertices (NvFaceInfo.new 0 1 2) (NvFaceInfo.new 2 1 3)
           ltac:(discriminate) ltac:(discriminate)).
Defined.

(** X5.  [IsCW]: for a face that is not degenerate and a first vertex that
    is one of its vertices, the answer is "yes" exactly for the three
    directed edges of the face in its own winding order; so turning the
    edge around turns the answer around. *)
Theorem IsCW_directed_edges (faceInfo : NvFaceInfo.t) (v0 v1 : Z) :
  IsDegenerate faceInfo = false ->
  v0 ∈ face_vertices faceInfo ->
  (IsCW faceInfo v0 v1 = true <-> (v0, v1) ∈ face_edges faceInfo) /\
  (IsCW faceInfo v0 v1 = true -> IsCW faceInfo v1 v0 = false).
Proof.
  intros Hnd H0.
  apply IsDegenerate_false in Hnd as (H01 & H02 & H12).
  apply elem_of_face_vertices in H0.
  unfold IsCW, face_edges. rewrite !elem_of_cons, elem_of_nil.
  destruct (Z.eqb_spec (NvFaceInfo.m_v0 faceInfo) v0);
    destruct (Z.eqb_spec (NvFaceInfo.m_v1 faceInfo) v0);
    destruct (Z.eqb_spec (NvFaceInfo.m_v0 faceInfo) v1);
    destruct (Z.eqb_spec (NvFaceInfo.m_v1 faceInfo) v1);
    destruct (Z.eqb_spec (NvFaceInfo.m_v2 faceInfo) v1);
    destruct (Z.eqb_spec (NvFaceInfo.m_v2 faceInfo) v0);
    try (exfalso; lia);
    (split; [split; [intros H; try discriminate H|intros H] | intros H]);
    try reflexivity; try discriminate;
    repeat match goal with
           | H : _ \/ _ |- _ => destruct H
           | H : (_, _) = (_, _) |- _ => injection H as ? ?
           | H : False |- _ => destruct H
           end;
    try (exfalso; lia); try congruence;
    auto 6 using f_equal2.
Qed.

Lemma IsCW_directed_edges_witness :
  (IsCW (NvFaceInfo.new 4 7 9) 9 4 = true
   <-> (9, 4) ∈ face_edges (NvFaceInfo.new 4 7 9)) /\
  (IsCW (NvFaceInfo.new 4 7 9) 9 4 = true -> IsCW (NvFaceInfo.new 4 7 9) 4 9 = false).
Proof.
  apply (IsCW_directed_edges (NvFaceInfo.new 4 7 9) 9 4).
  - reflexivity.
  - compute_done.
Defined.


(** ** Marks *)

Lemma Unique_loop_spec (face : NvFaceInfo.t) (faceVec : list NvFaceInfo.t) :
  forall bv0 bv1 bv2 : bool,
    bv0 && bv1 && bv2 = false ->
    let occurs (v : Z) := exists f, f ∈ faceVec /\ v ∈ face_vertices f in
    NvStripInfo.Unique_loop faceVec face bv0 bv1 bv2 = false <->
    (bv0 = true \/ occurs (NvFaceInfo.m_v0 face)) /\
    (bv1 = true \/ occurs (NvFaceInfo.m_v1 face)) /\
    (bv2 = true \/ occurs (NvFaceInfo.m_v2 face)).
Proof.
  induction faceVec as [|f rest IH]; intros bv0 bv1 bv2 Hb; cbv zeta.
  - cbn [NvStripInfo.Unique_loop]. split; [discriminate|].
    intros ([->|(f & Hf & _)] & [->|(f' & Hf' & _)] & [->|(f'' & Hf'' & _)]);
      try discriminate; try (now inversion Hf); try (now inversion Hf');
      now inversion Hf''.
  - cbn [NvStripInfo.Unique_loop]. cbv zeta.
    assert (Hhas : forall v,
               (NvFaceInfo.m_v0 f =? v) || (NvFaceInfo.m_v1 f =? v)
               || (NvFaceInfo.m_v2 f =? v) = true <-> v ∈ face_vertices f).
    { intros v. rewrite elem_of_face_vertices, !orb_true_iff, !Z.eqb_eq.
      intuition congruence. }
    assert (Hflag : forall (b : bool) v,
               (if negb b
                then (NvFaceInfo.m_v0 f =? v) || (NvFaceInfo.m_v1 f =? v)
                     || (NvFaceInfo.m_v2 f =? v)
                else b) = true <-> b = true \/ v ∈ face_vertices f).
    { intros [] v; cbn [negb]; [tauto|]. rewrite Hhas.
      split; [auto | intros [H|H]; [discriminate | exact H]]. }
    set (c0 := if negb bv0 then _ else bv0) in *.
    set (c1 := if negb bv1 then _ else bv1) in *.
    set (c2 := if negb bv2 then _ else bv2) in *.
    assert (Hstep : forall (b c : bool) v,
               (c = true <-> b = true \/ v ∈ face_vertices f) ->
               (c = true \/ (exists g, g ∈ rest /\ v ∈ face_vertices g)) <->
               (b = true \/ (exists g, g ∈ f :: rest /\ v ∈ face_vertices g))).
    { intros b c v Hc. rewrite Hc. split.
      - intros [[H|H]|(g & Hg & Hv)]; [now left | right | right].
        + exists f. split; [left | exact H].
        + exists g. split; [now right | exact Hv].
      - intros [H|(g & Hg & Hv)]; [now left; left|].
        apply elem_of_cons in Hg as [->|Hg]; [left; now right|].
        right. eauto. }
    destruct (c0 && c1 && c2) eqn:Hc.
    + split; [intros _|reflexivity].
      apply andb_true_iff in Hc as [Hc Hc2]. apply andb_true_iff in Hc as [Hc0 Hc1].
      split; [|split];
        eapply Hstep; try (apply Hflag); now left.
    + rewrite (IH c0 c1 c2 Hc). cbv zeta.
      rewrite (Hstep bv0 c0 _ (Hflag bv0 _)), (Hstep bv1 c1 _ (Hflag bv1 _)),
        (Hstep bv2 c2 _ (Hflag bv2 _)).
      reflexivity.
Qed.

(** X6.  [Unique] says "no" exactly when each of the three vertices of the
    face is a vertex of some face of the list, whatever the point at which
    the scan stops; on an empty list it says "yes"; a null pointer in the
    list is dereferenced. *)
Theorem Unique_spec (h : Heap) (faceVec : NvFaceInfoVec) (face : NvFaceInfo.t) :
  match NvStripInfo.deref_faces h faceVec with
  | Ok fs =>
      exists b,
        NvStripInfo.Unique h faceVec face = Ok b /\
        (faceVec = [] -> b = true) /\
        (b = false <->
         forall v, v ∈ face_vertices face ->
                   exists f, f ∈ fs /\ v ∈ face_vertices f)
  | Fault e => NvStripInfo.Unique h faceVec face = Fault e
  end.
Proof.
  unfold NvStripInfo.Unique.
  destruct (NvStripInfo.deref_faces h faceVec) as [fs|e] eqn:E;
    cbn [mbind res_bind]; [|reflexivity].
  eexists. split; [reflexivity|]. split.
  - intros ->. cbn in E. injection E as <-. reflexivity.
  - rewrite (Unique_loop_spec face fs false false false eq_refl). cbv zeta.
    split.
    + intros (H0 & H1 & H2) v Hv. apply elem_of_face_vertices in Hv.
      destruct Hv as [->|[->| ->]];
        [destruct H0 | destruct H1 | destruct H2]; auto; discriminate.
    + intros H. split; [|split]; right; apply H, elem_of_face_vertices; auto.
Qed.

Lemma MarkTriangle_spec (s : NvStripInfo.t) (h : Heap) (p : nat) (f : NvFaceInfo.t) :
  faces h !! p = Some f ->
  exists f',
    NvStripInfo.MarkTriangle s h p = Ok (set_face h p f') /\
    face_vertices f' = face_vertices f /\
    (if NvStripInfo.IsExperiment s
     then NvFaceInfo.m_experimentId f' = NvStripInfo.m_experimentId s /\
          NvFaceInfo.m_testStripId f' = NvStripInfo.m_stripId s /\
          NvFaceInfo.m_stripId f' = NvFaceInfo.m_stripId f
     else NvFaceInfo.m_experimentId f' = -1 /\
          NvFaceInfo.m_stripId f' = NvStripInfo.m_stripId s /\
          NvFaceInfo.m_testStripId f' = NvFaceInfo.m_testStripId f).
Proof.
  intros Hf. unfold NvStripInfo.MarkTriangle, face_at. rewrite Hf.
  cbn [mbind res_bind]. eexists. split; [reflexivity|].
  destruct (NvStripInfo.IsExperiment s); cbn; auto.
Qed.

(** X7.  [MarkTriangle] and the tests that read the mark: after a strip has
    marked a face, [IsInStrip] finds the face in the strip, and [IsMarked]
    says that it is taken when the strip is an experiment or has a strip id
    that is not negative; an experiment leaves [m_stripId] as it was.  The
    vertices of the face, every other face and the edges stay as they are;
    a pointer to no face is dereferenced. *)
Theorem MarkTriangle_then_IsMarked (s : NvStripInfo.t) (h : Heap) (p : nat) :
  match faces h !! p with
  | Some f =>
      exists h' f',
        NvStripInfo.MarkTriangle s h p = Ok h' /\
        faces h' !! p = Some f' /\
        face_vertices f' = face_vertices f /\
        NvStripInfo.IsInStrip s h' (Some p) = Ok true /\
        (NvStripInfo.IsExperiment s = true \/ 0 <= NvStripInfo.m_stripId s ->
         NvStripInfo.IsMarked s f' = true) /\
        (NvStripInfo.IsExperiment s = true ->
         NvFaceInfo.m_stripId f' = NvFaceInfo.m_stripId f) /\
        (forall q, q <> p -> faces h' !! q = faces h !! q) /\
        length (faces h') = length (faces h) /\
        edges h' = edges h
  | None => NvStripInfo.MarkTriangle s h p = Fault NullPointer
  end.
Proof.
  destruct (faces h !! p) as [f|] eqn:Hf.
  - destruct (MarkTriangle_spec s h p f Hf) as (f' & Hm & Hv & Hids).
    exists (set_face h p f'), f'. split; [exact Hm|].
    assert (Hp : faces (set_face h p f') !! p = Some f').
    { cbn. apply list_lookup_insert_eq. now apply lookup_lt_Some in Hf. }
    split; [exact Hp|]. split; [exact Hv|].
    unfold NvStripInfo.IsInStrip, face_at, NvStripInfo.IsMarked. rewrite Hp.
    cbn [mbind res_bind]. unfold NvStripInfo.IsExperiment in *.
    destruct (0 <=? NvStripInfo.m_experimentId s) eqn:He.
    + destruct Hids as (H1 & H2 & H3). rewrite H1, H2, !Z.eqb_refl.
      split; [reflexivity|]. split; [intros _; apply orb_true_r|].
      split; [auto|]. split; [|split; [cbn; apply length_insert | reflexivity]].
      intros q Hq. cbn. now apply list_lookup_insert_ne.
    + destruct Hids as (H1 & H2 & H3). rewrite H2, Z.eqb_refl.
      split; [reflexivity|]. split.
      { intros [H|H]; [discriminate|]. apply Z.leb_le in H. now rewrite H. }
      split; [discriminate|]. split; [|split; [cbn; apply length_insert | reflexivity]].
      intros q Hq. cbn. now apply list_lookup_insert_ne.
  - unfold NvStripInfo.MarkTriangle, face_at. now rewrite Hf.
Qed.


(** ** Committing the strips of an experiment *)

Lemma MarkTriangle_real (s : NvStripInfo.t) (h : Heap) (p : nat) :
  (p < length (faces h))%nat ->
  NvStripInfo.IsExperiment s = false -> 0 <= NvStripInfo.m_stripId s ->
  exists h',
    NvStripInfo.MarkTriangle s h p = Ok h' /\
    length (faces h') = length (faces h) /\
    edges h' = edges h /\
    heap_same_vertices h h' /\
    (forall q, claimed h q -> claimed h' q) /\
    claimed h' p /\
    (forall q, q <> p -> faces h' !! q = faces h !! q).
Proof.
  intros Hp He Hid.
  destruct (lookup_lt_is_Some_2 _ _ Hp) as [f Hf].
  destruct (MarkTriangle_spec s h p f Hf) as (f' & Hm & Hv & Hids).
  rewrite He in Hids. destruct Hids as (_ & Hsid & _).
  assert (Hp' : faces (set_face h p f') !! p = Some f')
    by (cbn; now apply list_lookup_insert_eq).
  assert (Hq : forall q, q <> p -> faces (set_face h p f') !! q = faces h !! q)
    by (intros q Hq; cbn; now apply list_lookup_insert_ne).
  exists (set_face h p f'). split; [exact Hm|].
  split; [cbn; apply length_insert|]. split; [reflexivity|].
  split; [|split; [|split; [|exact Hq]]].
  - intros q g Hg. destruct (decide (q = p)) as [->|Hne].
    + exists f'. split; [exact Hp'|]. congruence.
    + exists g. split; [now rewrite Hq | reflexivity].
  - intros q (g & Hg & Hc). destruct (decide (q = p)) as [->|Hne].
    + exists f'. split; [exact Hp' | lia].
    + exists g. split; [now rewrite Hq | exact Hc].
  - exists f'. split; [exact Hp' | lia].
Qed.

Lemma heap_same_vertices_trans (h1 h2 h3 : Heap) :
  heap_same_vertices h1 h2 -> heap_same_vertices h2 h3 -> heap_same_vertices h1 h3.
Proof.
  intros H12 H23 p f Hf. destruct (H12 p f Hf) as (f2 & Hf2 & Hv2).
  destruct (H23 p f2 Hf2) as (f3 & Hf3 & Hv3). exists f3. split; congruence.
Qed.

Lemma mark_faces_real (s : NvStripInfo.t) (fs : NvFaceInfoVec) :
  NvStripInfo.IsExperiment s = false -> 0 <= NvStripInfo.m_stripId s ->
  forall h,
    Forall (fun p => (p < length (faces h))%nat) fs ->
    exists h',
      mark_faces s h fs = Ok h' /\
      length (faces h') = length (faces h) /\
      edges h' = edges h /\
      heap_same_vertices h h' /\
      (forall q, claimed h q -> claimed h' q) /\
      Forall (claimed h') fs /\
      (forall q, q ∉ fs -> faces h' !! q = faces h !! q).
Proof.
  intros He Hid. induction fs as [|p rest IH]; intros h Hv.
  - exists h. cbn. repeat split; auto. intros q g Hg. eauto.
  - apply Forall_cons in Hv as [Hp Hrest].
    destruct (MarkTriangle_real s h p Hp He Hid)
      as (h1 & Hm & Hlen & Hed & Hsv & Hcl & Hcp & Hother).
    destruct (IH h1) as (h' & Hm' & Hlen' & Hed' & Hsv' & Hcl' & Hall & Hother').
    { now rewrite Hlen. }
    exists h'. cbn [mark_faces]. rewrite Hm. cbn [mbind res_bind].
    split; [exact Hm'|]. split; [congruence|]. split; [congruence|].
    split; [eapply heap_same_vertices_trans; eassumption|].
    split; [auto|]. split.
    + apply Forall_cons. split; [auto | exact Hall].
    + intros q Hq. rewrite Hother', Hother; [reflexivity| |];
        intros Heq; apply Hq; [subst; left | now right].
Qed.

(** X8.  [CommitStrips] on strips with strip ids that are not negative and
    face pointers inside the heap: it returns; it appends the strips to
    [allStrips] in their order, each with [m_experimentId = -1] and otherwise
    as it was; afterwards every face of every committed strip is claimed
    for good ([m_stripId >= 0]), no face that was claimed has been released,
    a face of no committed strip is untouched, and no face has changed its
    vertices; the edges are as before. *)
Theorem CommitStrips_claims_faces (h : Heap) (allStrips strips : NvStripInfoVec) :
  Forall (fun s => 0 <= NvStripInfo.m_stripId s /\
                   Forall (fun p => (p < length (faces h))%nat) (NvStripInfo.m_faces s))
         strips ->
  exists h',
    CommitStrips h allStrips strips = Ok (h', allStrips ++ map committed strips) /\
    Forall (fun s => Forall (claimed h') (NvStripInfo.m_faces s)) strips /\
    (forall q, claimed h q -> claimed h' q) /\
    (forall q, (forall s, s ∈ strips -> q ∉ NvStripInfo.m_faces s) ->
               faces h' !! q = faces h !! q) /\
    heap_same_vertices h h' /\
    length (faces h') = length (faces h) /\
    edges h' = edges h.
Proof.
  revert h allStrips. induction strips as [|s rest IH]; intros h allStrips Hs.
  - exists h. cbn. rewrite app_nil_r. repeat split; auto.
    intros q g Hg. eauto.
  - apply Forall_cons in Hs as [[Hid Hv] Hrest].
    destruct (mark_faces_real (committed s) (NvStripInfo.m_faces s) eq_refl Hid h Hv)
      as (h1 & Hm & Hlen & Hed & Hsv & Hcl & Hall & Hother).
    destruct (IH h1 (allStrips ++ [committed s]))
      as (h' & Hc & Hall' & Hcl' & Hother' & Hsv' & Hlen' & Hed').
    { eapply Forall_impl; [exact Hrest|]. cbn beta. intros s' [H1 H2].
      split; [exact H1|]. now rewrite Hlen. }
    exists h'. cbn [CommitStrips]. cbv zeta.
    change (NvStripInfo.mk _ _ _ _ _ _ _) with (committed s).
    change (NvStripInfo.m_faces (committed s)) with (NvStripInfo.m_faces s).
    rewrite Hm. cbn [mbind res_bind]. rewrite Hc.
    split; [now rewrite <- app_assoc|].
    split; [|split; [auto|split; [|split; [|split; congruence]]]].
    + apply Forall_cons. split; [|exact Hall'].
      eapply Forall_impl; [exact Hall|]. auto.
    + intros q Hq. rewrite Hother', Hother; [reflexivity| |].
      * apply Hq. left.
      * intros s' Hs'. apply Hq. now right.
    + eapply heap_same_vertices_trans; eassumption.
Qed.

Lemma CommitStrips_claims_faces_witness :
  let h := heap two_triangles in
  let s := NvStripInfo.mk (NvStripStartInfo.mk (Some 0%nat) (Some 0%nat) true)
             [0%nat; 1%nat] 5 2 false 0 [] in
  exists h',
    CommitStrips h [] [s] = Ok (h', [] ++ map committed [s]) /\
    Forall (fun s => Forall (claimed h') (NvStripInfo.m_faces s)) [s] /\
    (forall q, claimed h q -> claimed h' q) /\
    (forall q, (forall s', s' ∈ [s] -> q ∉ NvStripInfo.m_faces s') ->
               faces h' !! q = faces h !! q) /\
    heap_same_vertices h h' /\
    length (faces h') = length (faces h) /\
    edges h' = edges h.
Proof.
  intros h s. apply (CommitStrips_claims_faces h [] [s]).
  apply Forall_cons. split; [|apply Forall_nil_2].
  split; [vm_compute; discriminate|].
  apply Forall_cons. split; [vm_compute; lia|].
  apply Forall_cons. split; [vm_compute; lia|]. apply Forall_nil_2.
Defined.


(** ** RemapIndices: bounds and a second pass *)

Lemma vec_at_fault {A : Type} (v : list A) (i : Z) (e : fault) :
  vec_at v i = Fault e -> e = OutOfBounds /\ ~ (0 <= i < vec_size v).
Proof.
  unfold vec_at, vec_size. destruct (Z.ltb_spec i 0) as [Hneg|Hpos].
  - intros [= <-]. split; [reflexivity | lia].
  - destruct (v !! Z.to_nat i) as [x|] eqn:E; [discriminate|].
    intros [= <-]. split; [reflexivity|].
    apply lookup_ge_None in E. lia.
Qed.

Lemma RemapIndices_group_run (ins : list Z) :
  forall indexCache indexCtr,
    match RemapIndices_group ins indexCache indexCtr with
    | Ok (out, (indexCache', _)) =>
        Forall (fun o => 0 <= o < vec_size indexCache) ins /\
        length indexCache' = length indexCache
    | Fault e =>
        e = OutOfBounds /\ ~ Forall (fun o => 0 <= o < vec_size indexCache) ins
    end.
Proof.
  induction ins as [|x r IH]; intros indexCache indexCtr.
  - cbn. split; [constructor | reflexivity].
  - cbn [RemapIndices_group].
    destruct (vec_at indexCache x) as [c|e] eqn:Hat; cbn [mbind res_bind].
    + assert (Hx : 0 <= x < vec_size indexCache).
      { apply vec_at_Ok in Hat as [H0 Hl]. apply lookup_lt_Some in Hl.
        unfold vec_size. lia. }
      destruct (c =? SIZE_MAX).
      * rewrite (vec_set_in_range _ _ _ Hx). cbn [mbind res_bind].
        specialize (IH (<[Z.to_nat x := indexCtr]> indexCache)
                       (wrap_size (indexCtr + 1))).
        unfold vec_size in IH. rewrite length_insert in IH. fold (vec_size indexCache) in IH.
        destruct (RemapIndices_group r _ _) as [[out [c' n']]|e]; cbn [mbind res_bind].
        -- destruct IH as [Hall Hlen]. split; [now constructor | exact Hlen].
        -- destruct IH as [-> Hn]. split; [reflexivity|].
           intros H. apply Hn. now apply Forall_cons in H as [_ H].
      * specialize (IH indexCache indexCtr).
        destruct (RemapIndices_group r _ _) as [[out [c' n']]|e]; cbn [mbind res_bind].
        -- destruct IH as [Hall Hlen]. split; [now constructor | exact Hlen].
        -- destruct IH as [-> Hn]. split; [reflexivity|].
           intros H. apply Hn. now apply Forall_cons in H as [_ H].
    + apply vec_at_fault in Hat as [-> Hx]. split; [reflexivity|].
      intros H. apply Hx. now apply Forall_cons in H as [H _].
Qed.

Lemma RemapIndices_groups_run (gs : list PrimitiveGroup.t) :
  forall indexCache indexCtr,
    match RemapIndices_groups gs indexCache indexCtr with
    | Ok _ =>
        Forall (fun g => Forall (fun o => 0 <= o < vec_size indexCache)
                                (PrimitiveGroup.indices g)) gs
    | Fault e =>
        e = OutOfBounds /\
        ~ Forall (fun g => Forall (fun o => 0 <= o < vec_size indexCache)
                                  (PrimitiveGroup.indices g)) gs
    end.
Proof.
  induction gs as [|g gs IH]; intros indexCache indexCtr.
  - cbn. constructor.
  - cbn [RemapIndices_groups].
    pose proof (RemapIndices_group_run (PrimitiveGroup.indices g) indexCache indexCtr)
      as Hg.
    destruct (RemapIndices_group _ _ _) as [[out [c' n']]|e]; cbn [mbind res_bind].
    + destruct Hg as [Hall Hlen]. specialize (IH c' n').
      unfold vec_size in IH. rewrite Hlen in IH. fold (vec_size indexCache) in IH.
      destruct (RemapIndices_groups gs c' n') as [rest|e]; cbn [mbind res_bind].
      * now constructor.
      * destruct IH as [-> Hn]. split; [reflexivity|].
        intros H. apply Hn. now apply Forall_cons in H as [_ H].
    + destruct Hg as [-> Hn]. split; [reflexivity|].
      intros H. apply Hn. now apply Forall_cons in H as [H _].
Qed.

(** X9.  [RemapIndices] returns exactly when every index of every group is
    inside [0, numVerts): it indexes [indexCache], which has [numVerts]
    entries, with the old index as it comes, so that any other index, a
    negative one included, is an access outside the vector. *)
Theorem RemapIndices_returns_iff_in_range
  (in_primGroups : list PrimitiveGroup.t) (numVerts : Z) :
  let in_bounds :=
    Forall (fun g => Forall (fun o => 0 <= o < numVerts) (PrimitiveGroup.indices g))
           in_primGroups in
  match RemapIndices in_primGroups numVerts with
  | Ok remappedGroups => in_bounds
  | Fault e => e = OutOfBounds /\ ~ in_bounds
  end.
Proof.
  cbv zeta. unfold RemapIndices.
  pose proof (RemapIndices_groups_run in_primGroups
                (replicate (Z.to_nat numVerts) SIZE_MAX) 0) as H.
  assert (Heq : forall g : PrimitiveGroup.t,
             Forall (fun o => 0 <= o < vec_size (replicate (Z.to_nat numVerts) SIZE_MAX))
                    (PrimitiveGroup.indices g)
             <-> Forall (fun o => 0 <= o < numVerts) (PrimitiveGroup.indices g)).
  { intros g. unfold vec_size. rewrite length_replicate.
    split; intros Hg; (eapply Forall_impl; [exact Hg|]); cbn beta; intros o Ho; lia. }
  destruct (RemapIndices_groups _ _ _) as [out|e].
  - eapply Forall_impl; [exact H|]. intros g. apply Heq.
  - destruct H as [-> Hn]. split; [reflexivity|]. intros Hall. apply Hn.
    eapply Forall_impl; [exact Hall|]. intros g. apply Heq.
Qed.

Lemma renumbered_functional (order : list Z) (old old' new : Z) :
  renumbered order old new -> renumbered order old' new -> old = old'.
Proof. intros [_ H] [_ H']. congruence. Qed.

Lemma renumbered_injective (order : list Z) (old new new' : Z) :
  NoDup order ->
  renumbered order old new -> renumbered order old new' -> new = new'.
Proof.
  intros Hnd [H0 H] [H0' H']. pose proof (NoDup_lookup _ _ _ _ Hnd H H'). lia.
Qed.

Lemma Forall2_renumbered_elem (order seenI seenO : list Z) (x y : Z) :
  NoDup order ->
  Forall2 (renumbered order) seenI seenO -> renumbered order x y ->
  x ∈ seenI <-> y ∈ seenO.
Proof.
  intros Hnd HF Hxy. split; intros Hin.
  - apply list_elem_of_lookup in Hin as [i Hi].
    destruct (Forall2_lookup_l _ _ _ _ _ HF Hi) as (y' & Hy' & Hr).
    rewrite (renumbered_injective _ _ _ _ Hnd Hxy Hr).
    eapply list_elem_of_lookup_2; eassumption.
  - apply list_elem_of_lookup in Hin as [i Hi].
    destruct (Forall2_lookup_r _ _ _ _ _ HF Hi) as (x' & Hx' & Hr).
    rewrite (renumbered_functional _ _ _ _ Hxy Hr).
    eapply list_elem_of_lookup_2; eassumption.
Qed.

Lemma first_touch_renumbered (order ins out : list Z) :
  NoDup order ->
  Forall2 (renumbered order) ins out ->
  forall seenI seenO,
    Forall2 (renumbered order) seenI seenO ->
    Forall2 (renumbered order) (first_touch seenI ins) (first_touch seenO out).
Proof.
  intros Hnd. induction 1 as [|x y ins out Hxy _ IH]; intros seenI seenO Hseen.
  - constructor.
  - cbn [first_touch].
    pose proof (Forall2_renumbered_elem _ _ _ _ _ Hnd Hseen Hxy) as Hiff.
    destruct (bool_decide_reflect (x ∈ seenI)) as [Hin|Hnin].
    + rewrite bool_decide_eq_true_2 by (now apply Hiff). now apply IH.
    + rewrite bool_decide_eq_false_2 by (now rewrite <- Hiff).
      constructor; [exact Hxy|]. apply IH.
      apply Forall2_app; [exact Hseen|]. now constructor.
Qed.

Lemma index_stream_renumbered (order : list Z) (gs outs : list PrimitiveGroup.t) :
  Forall2 (group_renumbered order) gs outs ->
  Forall2 (renumbered order) (index_stream gs) (index_stream outs).
Proof.
  unfold index_stream.
  induction 1 as [|g g' gs gs' [_ Hidx] _ IH]; cbn [map concat]; [constructor|].
  now apply Forall2_app.
Qed.

Lemma renumbered_itself (order order2 : list Z) :
  NoDup order ->
  Forall2 (renumbered order) order order2 ->
  forall old new, renumbered order2 old new -> new = old.
Proof.
  intros Hnd HF old new [H0 Hl].
  destruct (Forall2_lookup_r _ _ _ _ _ HF Hl) as (o & Ho & [Hold0 Hr]).
  pose proof (NoDup_lookup _ _ _ _ Hnd Ho Hr). lia.
Qed.

Lemma group_renumbered_itself (order2 : list Z) (gs outs : list PrimitiveGroup.t) :
  (forall old new, renumbered order2 old new -> new = old) ->
  Forall2 (group_renumbered order2) gs outs -> outs = gs.
Proof.
  intros Hid. induction 1 as [|g g' gs gs' [Hty Hidx] _ IH]; [reflexivity|].
  rewrite IH. f_equal. destruct g as [ty idx], g' as [ty' idx'].
  cbn in Hty, Hidx. subst ty'. f_equal.
  induction Hidx as [|o n l l' Hr _ IHl]; [reflexivity|].
  rewrite IHl, (Hid _ _ Hr). reflexivity.
Qed.

(** X10.  A second pass of [RemapIndices] changes nothing: when the call
    returns, the new indices are met in the order 0, 1, 2, ... (the k-th
    distinct index of the output stream is k-1, and there are as many of
    them as distinct old indices), and [RemapIndices] on the output, with
    the same [numVerts], returns the output itself. *)
Theorem RemapIndices_second_pass
  (in_primGroups remappedGroups : list PrimitiveGroup.t) (numVerts : Z) :
  0 <= numVerts <= SIZE_MAX ->
  RemapIndices in_primGroups numVerts = Ok remappedGroups ->
  touch_order remappedGroups
  = seqZ 0 (Z.of_nat (length (touch_order in_primGroups))) /\
  RemapIndices remappedGroups numVerts = Ok remappedGroups.
Proof.
  intros Hnv Hrun.
  assert (Hin : Forall (fun g => Forall (fun o => 0 <= o < numVerts)
                                        (PrimitiveGroup.indices g)) in_primGroups).
  { pose proof (RemapIndices_groups_run in_primGroups
                  (replicate (Z.to_nat numVerts) SIZE_MAX) 0) as H.
    unfold RemapIndices in Hrun. rewrite Hrun in H.
    eapply Forall_impl; [exact H|]. intros g Hg.
    eapply Forall_impl; [exact Hg|]. cbn beta. unfold vec_size.
    rewrite length_replicate. intros o Ho. lia. }
  destruct (RemapIndices_groups_spec numVerts Hnv in_primGroups [] _ 0
              (remap_inv_init numVerts) Hin) as (out & Hrun' & Hnd & Hout).
  unfold RemapIndices in Hrun. rewrite Hrun in Hrun'. injection Hrun' as <-.
  cbn [app] in Hnd, Hout. fold (touch_order in_primGroups) in Hnd, Hout.
  set (order := touch_order in_primGroups) in *.
  pose proof (first_touch_renumbered order _ _ Hnd
                (index_stream_renumbered _ _ _ Hout) [] [] (Forall2_nil_2 _ _ _)) as Ht.
  fold (touch_order in_primGroups) in Ht. fold (touch_order remappedGroups) in Ht.
  fold order in Ht.
  set (order2 := touch_order remappedGroups) in *.
  assert (Hlen2 : length order2 = length order)
    by (symmetry; eapply Forall2_length; exact Ht).
  assert (Hbound : Z.of_nat (length order) <= numVerts).
  { assert (Hall : Forall (fun o => 0 <= o < numVerts) order).
    { apply Forall_forall. intros o Ho. unfold order, touch_order in Ho.
      apply first_touch_elem in Ho as [Ho _]. unfold index_stream in Ho.
      apply list_elem_of_In, in_concat in Ho as (l & Hl & Hol).
      apply in_map_iff in Hl as (g & <- & Hg).
      apply list_elem_of_In in Hg, Hol.
      rewrite Forall_forall in Hin. specialize (Hin g Hg).
      rewrite Forall_forall in Hin. now apply Hin. }
    pose proof (in_range_length numVerts order Hnd Hall). lia. }
  assert (Hin2 : Forall (fun g => Forall (fun o => 0 <= o < numVerts)
                                         (PrimitiveGroup.indices g)) remappedGroups).
  { apply Forall_forall. intros g' Hg'.
    apply list_elem_of_lookup in Hg' as [i Hi].
    destruct (Forall2_lookup_r _ _ _ _ _ Hout Hi) as (g & _ & [_ Hidx]).
    apply Forall_forall. intros n Hn.
    apply list_elem_of_lookup in Hn as [j Hj].
    destruct (Forall2_lookup_r _ _ _ _ _ Hidx Hj) as (o & _ & [H0 Hl]).
    apply lookup_lt_Some in Hl. lia. }
  assert (Hseq : order2 = seqZ 0 (Z.of_nat (length order))).
  { apply list_eq. intros i.
    destruct (decide (i < length order)%nat) as [Hlt|Hge].
    - rewrite lookup_seqZ_lt by lia.
      destruct (lookup_lt_is_Some_2 order i Hlt) as [o Ho].
      destruct (Forall2_lookup_l _ _ _ _ _ Ht Ho) as (n & Hn & [H0 Hl]).
      rewrite Hn. f_equal.
      pose proof (NoDup_lookup _ _ _ _ Hnd Ho Hl). lia.
    - rewrite lookup_seqZ_ge by lia. apply lookup_ge_None. lia. }
  split; [exact Hseq|].
  destruct (RemapIndices_groups_spec numVerts Hnv remappedGroups [] _ 0
              (remap_inv_init numVerts) Hin2) as (out2 & Hrun2 & _ & Hout2).
  cbn [app] in Hout2. fold (touch_order remappedGroups) in Hout2. fold order2 in Hout2.
  unfold RemapIndices. rewrite Hrun2. f_equal.
  exact (group_renumbered_itself order2 _ _
           (renumbered_itself order order2 Hnd Ht) Hout2).
Qed.

Lemma RemapIndices_second_pass_witness :
  let gs := [PrimitiveGroup.mk PrimType.PT_STRIP [5; 2; 5; 7];
             PrimitiveGroup.mk PrimType.PT_LIST [7; 0; 2]] in
  let out := [PrimitiveGroup.mk PrimType.PT_STRIP [0; 1; 0; 2];
              PrimitiveGroup.mk PrimType.PT_LIST [2; 3; 1]] in
  touch_order out = seqZ 0 (Z.of_nat (length (touch_order gs))) /\
  RemapIndices out 8 = Ok out.
Proof.
  intros gs out. apply (RemapIndices_second_pass gs out 8).
  - unfold SIZE_MAX. lia.
  - reflexivity.
Defined.


(** ** The face table of [BuildStripifyInfo] *)

Lemma triangles_length (n : nat) :
  forall l : list Z, (length l <= n)%nat -> (3 * length (triangles l) <= length l)%nat.
Proof.
  induction n as [|n IH]; intros [|a [|b [|c r]]] Hl; cbn in *; try lia.
  specialize (IH r ltac:(lia)). lia.
Qed.

Lemma add_triangle_spec (table : list (Z * Z * Z)) (tr : Z * Z * Z) :
  (forall x, x ∈ add_triangle table tr <->
             x ∈ table \/ (x = tr /\ IsDegenerate3 tr.1.1 tr.1.2 tr.2 = false)) /\
  (NoDup table -> NoDup (add_triangle table tr)).
Proof.
  unfold add_triangle.
  destruct (IsDegenerate3 tr.1.1 tr.1.2 tr.2) eqn:Hd; cbn [orb].
  - split; [|auto]. intros x. split; [auto|]. intros [H|[_ H]]; [exact H | discriminate].
  - destruct (bool_decide_reflect (tr ∈ table)) as [Hin|Hnin].
    + split; [|auto]. intros x. split; [auto|]. intros [H|[-> _]]; assumption.
    + split.
      * intros x. rewrite elem_of_app, list_elem_of_singleton. tauto.
      * intros Hnd. apply NoDup_app. split; [exact Hnd|]. split.
        -- intros x Hx Hx'. apply list_elem_of_singleton in Hx'. congruence.
        -- apply NoDup_singleton.
Qed.

Lemma foldl_add_triangle_spec (trs : list (Z * Z * Z)) :
  forall table,
    (forall x, x ∈ foldl add_triangle table trs <->
               x ∈ table \/ (x ∈ trs /\ IsDegenerate3 x.1.1 x.1.2 x.2 = false)) /\
    (NoDup table -> NoDup (foldl add_triangle table trs)).
Proof.
  induction trs as [|tr trs IH]; intros table; cbn [foldl].
  - split; [|auto]. intros x. split; [auto|].
    intros [H|[H _]]; [exact H | inversion H].
  - destruct (IH (add_triangle table tr)) as [Hm Hnd].
    destruct (add_triangle_spec table tr) as [Hm1 Hnd1].
    split; [|auto]. intros x. rewrite Hm, Hm1, elem_of_cons. split.
    + intros [[H|[-> H]]|[H H']]; auto.
    + intros [H|[[->|H] H']]; auto.
Qed.

Lemma table_triples_elem (t : Topology) (table : list (Z * Z * Z)) (v0 v1 v2 : Z) :
  table_triples t table ->
  (v0, v1, v2) ∈ table <->
  exists q f, q ∈ faceInfos t /\ faces (heap t) !! q = Some f /\
              NvFaceInfo.m_v0 f = v0 /\ NvFaceInfo.m_v1 f = v1 /\
              NvFaceInfo.m_v2 f = v2.
Proof.
  intros HT. split.
  - intros Hin. apply list_elem_of_lookup in Hin as [i Hi].
    destruct (Forall2_lookup_r _ _ _ _ _ HT Hi) as (q & Hq & f & Hf & Htr).
    exists q, f. split; [eapply list_elem_of_lookup_2; exact Hq|].
    split; [exact Hf|]. unfold face_triple in Htr. now injection Htr.
  - intros (q & f & Hq & Hf & <- & <- & <-).
    apply list_elem_of_lookup in Hq as [i Hi].
    destruct (Forall2_lookup_l _ _ _ _ _ HT Hi) as (tr & Htr & f' & Hf' & <-).
    rewrite Hf in Hf'. injection Hf' as <-.
    eapply list_elem_of_lookup_2. exact Htr.
Qed.

Lemma BuildStripifyInfo_triangle_table (t : Topology) (v0 v1 v2 : Z)
  (table : list (Z * Z * Z)) :
  topology_ok t ->
  vertex_ok (edgeInfos t) v0 ->
  vertex_ok (edgeInfos t) v1 ->
  vertex_ok (edgeInfos t) v2 ->
  table_triples t table ->
  exists t',
    BuildStripifyInfo_triangle t v0 v1 v2 = Ok t' /\
    topology_ok t' /\
    length (edgeInfos t') = length (edgeInfos t) /\
    table_triples t' (add_triangle table (v0, v1, v2)).
Proof.
  intros Hok Hv0 Hv1 Hv2 HT.
  destruct (BuildStripifyInfo_triangle_ok t v0 v1 v2 Hok Hv0 Hv1 Hv2)
    as (t' & Ht' & Hok' & Hlen').
  exists t'. split; [exact Ht'|]. split; [exact Hok'|]. split; [exact Hlen'|].
  unfold add_triangle. cbn [fst snd].
  destruct (IsDegenerate3 v0 v1 v2) eqn:Hd; cbn [orb].
  { unfold BuildStripifyInfo_triangle in Ht'. rewrite Hd in Ht'.
    injection Ht' as <-. exact HT. }
  destruct Hok as (Hwf & Hfaces & Hlinked).
  destruct (BuildStripifyInfo_triangle_spec t v0 v1 v2 Hwf Hfaces Hv0 Hv1 Hv2 Hd)
    as (e01 & e12 & e20 & t'' & E01 & E12 & E20 & Hf01 & Hf12 & Hf20 & Ht''
        & Hdup & Happ & _ & _ & Hfaces' & _ & _ & _).
  rewrite Ht' in Ht''. injection Ht'' as <-.
  set (faceInfo := length (faces (heap t))) in *.
  set (h0 := (new_face (heap t) (NvFaceInfo.new v0 v1 v2)).1) in *.
  assert (Hwf0 : edges_wf h0 (edgeInfos t)) by exact Hwf.
  destruct (visit_edge_spec h0 (edgeInfos t) v0 v1 faceInfo Hwf0 Hv0 Hv1)
    as (x01 & X01 & Hwf1 & _ & Hl1 & _).
  rewrite E01 in X01. injection X01 as <-.
  assert (Hok1 : forall v, vertex_ok (edgeInfos t) v -> vertex_ok (ev_edgeInfos e01) v).
  { intros v [Hv Hv']. split; [unfold vec_size in *; lia | exact Hv']. }
  destruct (visit_edge_spec (ev_heap e01) (ev_edgeInfos e01) v1 v2 faceInfo Hwf1
              (Hok1 _ Hv1) (Hok1 _ Hv2))
    as (x12 & X12 & Hwf2 & _ & Hl2 & _).
  rewrite E12 in X12. injection X12 as <-.
  destruct (visit_edge_linked _ _ _ _ _ _ Hwf0 Hv0 Hv1 E01) as (_ & _ & Hkeep01).
  destruct (visit_edge_linked _ _ _ _ _ _ Hwf1 (Hok1 _ Hv1) (Hok1 _ Hv2) E12)
    as (_ & _ & Hkeep12).
  assert (Hfirst : forall a b,
             edge_linked (heap t) (edgeInfos t) a b ->
             edge_linked h0 (edgeInfos t) a b).
  { intros a b Hab. eapply edge_linked_ext; [|exact Hab].
    intros i e He. exists e. split; [exact He | reflexivity]. }
  assert (Hold : Forall2 (fun p tr => exists f, faces (heap t') !! p = Some f /\
                                                face_triple f = tr)
                         (faceInfos t) table).
  { eapply Forall2_impl; [exact HT|]. intros p tr (f & Hf & Htr).
    exists f. split; [|exact Htr].
    rewrite Hfaces', lookup_app_l; [exact Hf|]. now apply lookup_lt_Some in Hf. }
  pose proof (table_triples_elem t table v0 v1 v2 HT) as Hiff.
  destruct (bool_decide_reflect ((v0, v1, v2) ∈ table)) as [Hin|Hnin].
  - (* listed already: its edges are in the chains, all three are found *)
    apply Hiff in Hin. pose proof Hin as (q & f & Hq & Hf & <- & <- & <-).
    unfold faces_linked in Hlinked. rewrite Forall_forall in Hlinked.
    destruct (Hlinked q Hq) as (f' & Hf' & L01 & L12 & L20).
    rewrite Hf in Hf'. injection Hf' as <-.
    assert (F01 : ev_found e01 = true).
    { apply Hf01, (FindEdgeInfo_linked _ _ _ _ Hwf0), Hfirst, L01. }
    assert (F12 : ev_found e12 = true).
    { apply Hf12, (FindEdgeInfo_linked _ _ _ _ Hwf1), Hkeep01, Hfirst, L12. }
    assert (F20 : ev_found e20 = true).
    { apply Hf20, (FindEdgeInfo_linked _ _ _ _ Hwf2), Hkeep12, Hkeep01, Hfirst, L20. }
    destruct Hdup as [Hfi _].
    { split; [now rewrite F01, F12, F20 | exact Hin]. }
    unfold table_triples. rewrite Hfi. exact Hold.
  - destruct Happ as [Hfi Hnew].
    { intros [_ Hal]. apply Hnin, Hiff, Hal. }
    unfold table_triples. rewrite Hfi. apply Forall2_app; [exact Hold|].
    constructor; [|constructor]. eexists. split; [exact Hnew | reflexivity].
Qed.

Lemma BuildStripifyInfo_loop_table (numTriangles : nat) :
  forall (pre suf : list Z) (t : Topology) (table : list (Z * Z * Z)),
    topology_ok t ->
    (3 * numTriangles <= length suf)%nat ->
    Forall (vertex_ok (edgeInfos t)) (pre ++ suf) ->
    table_triples t table ->
    exists t',
      BuildStripifyInfo_loop numTriangles (Z.of_nat (length pre)) (pre ++ suf) t = Ok t' /\
      topology_ok t' /\
      table_triples t' (foldl add_triangle table (take numTriangles (triangles suf))).
Proof.
  induction numTriangles as [|n IH]; intros pre suf t table Hok Hlen Hall HT.
  - exists t. cbn. auto.
  - destruct suf as [|v0 [|v1 [|v2 suf]]]; cbn [length] in Hlen; try lia.
    cbn [BuildStripifyInfo_loop triangles take foldl].
    assert (H0 : (pre ++ v0 :: v1 :: v2 :: suf) !! length pre = Some v0)
      by (now rewrite list_lookup_middle).
    assert (H1 : (pre ++ v0 :: v1 :: v2 :: suf) !! S (length pre) = Some v1).
    { rewrite lookup_app_r by lia. now replace (S (length pre) - length pre)%nat with 1%nat by lia. }
    assert (H2 : (pre ++ v0 :: v1 :: v2 :: suf) !! S (S (length pre)) = Some v2).
    { rewrite lookup_app_r by lia.
      now replace (S (S (length pre)) - length pre)%nat with 2%nat by lia. }
    rewrite (vec_at_of_nat _ _ _ H0).
    replace (Z.of_nat (length pre) + 1) with (Z.of_nat (S (length pre))) by lia.
    replace (Z.of_nat (length pre) + 2) with (Z.of_nat (S (S (length pre)))) by lia.
    rewrite (vec_at_of_nat _ _ _ H1), (vec_at_of_nat _ _ _ H2).
    cbn [mbind res_bind].
    assert (Hv : forall i v, (pre ++ v0 :: v1 :: v2 :: suf) !! i = Some v ->
                             vertex_ok (edgeInfos t) v).
    { intros i v Hi. rewrite Forall_forall in Hall. apply Hall.
      eapply list_elem_of_lookup_2. exact Hi. }
    destruct (BuildStripifyInfo_triangle_table t v0 v1 v2 table Hok
                (Hv _ _ H0) (Hv _ _ H1) (Hv _ _ H2) HT)
      as (t1 & Ht1 & Hok1 & Hl1 & HT1).
    rewrite Ht1. cbn [mbind res_bind].
    replace (Z.of_nat (length pre) + 3)
      with (Z.of_nat (length (pre ++ [v0; v1; v2])))
      by (rewrite length_app; cbn [length]; lia).
    replace (pre ++ v0 :: v1 :: v2 :: suf) with ((pre ++ [v0; v1; v2]) ++ suf) in *
      by (now rewrite <- app_assoc).
    apply IH; [exact Hok1 | lia | | exact HT1].
    eapply Forall_impl; [exact Hall|]. intros v [Hv' Hv''].
    split; [unfold vec_size in *; lia | exact Hv''].
Qed.

Lemma BuildStripifyInfo_table (indices : list Z) (maxIndex : Z) :
  0 <= maxIndex < 2 ^ 31 ->
  Forall (fun v => 0 <= v <= maxIndex) indices ->
  exists t,
    BuildStripifyInfo indices maxIndex = Ok t /\
    topology_ok t /\
    table_triples t (distinct_triangles indices).
Proof.
  intros Hmax Hall. unfold BuildStripifyInfo. cbv zeta.
  set (t0 := mkTopology (mkHeap [] []) [] (replicate (Z.to_nat (maxIndex + 1)) None)).
  pose proof (triangles_length (length indices) indices (le_n _)) as Htl.
  assert (Hdiv : (3 * Z.to_nat (vec_size indices / 3) <= length indices)%nat).
  { pose proof (Z.mul_div_le (vec_size indices) 3 ltac:(lia)) as Hd.
    assert (0 <= vec_size indices / 3) by (apply Z.div_pos; unfold vec_size; lia).
    unfold vec_size in *. lia. }
  destruct (BuildStripifyInfo_loop_table (Z.to_nat (vec_size indices / 3))
              [] indices t0 []) as (t & Ht & Hok & HT).
  - split; [|split]; cbn [t0 heap edgeInfos faceInfos faces edges].
    + split.
      * intros v q Hv. apply lookup_replicate in Hv as [Hv _]. discriminate.
      * intros i e He. inversion He.
    + constructor.
    + constructor.
  - exact Hdiv.
  - cbn [app]. eapply Forall_impl; [exact Hall|]. intros v Hv. cbn beta in Hv.
    cbn [t0 edgeInfos]. unfold vertex_ok, vec_size. rewrite length_replicate. lia.
  - constructor.
  - cbn [app length] in Ht. change (Z.of_nat 0) with 0 in Ht.
    rewrite take_ge in HT.
    2:{ assert (Z.of_nat (length (triangles indices)) <= vec_size indices / 3).
        { apply Z.div_le_lower_bound; unfold vec_size; lia. }
        lia. }
    exists t. split; [exact Ht|]. split; [exact Hok | exact HT].
Qed.

(** X11.  The face table that [BuildStripifyInfo] builds lists the triangles
    of the index list in their order, without the degenerate ones and with
    a triangle that comes again (the same three indices in the same order)
    only at its first place: the test for a repeated face, which looks at
    the table only when all three edges were found, misses no repetition.
    Proved for indices at most [maxIndex < 2^31]; up to two indices left
    over at the end of the list are not read. *)
Theorem BuildStripifyInfo_face_table (indices : list Z) (maxIndex : Z) :
  0 <= maxIndex < 2 ^ 31 ->
  Forall (fun v => 0 <= v <= maxIndex) indices ->
  exists t,
    BuildStripifyInfo indices maxIndex = Ok t /\
    table_triples t (distinct_triangles indices) /\
    NoDup (distinct_triangles indices) /\
    (forall tr, tr ∈ distinct_triangles indices <->
                tr ∈ triangles indices /\ IsDegenerate3 tr.1.1 tr.1.2 tr.2 = false).
Proof.
  intros Hmax Hall.
  destruct (BuildStripifyInfo_table indices maxIndex Hmax Hall) as (t & Ht & _ & HT).
  exists t. split; [exact Ht|]. split; [exact HT|].
  destruct (foldl_add_triangle_spec (triangles indices) []) as [Hm Hnd].
  split; [apply Hnd; constructor|].
  intros tr. unfold distinct_triangles. rewrite Hm. split.
  + intros [H|H]; [inversion H | exact H].
  + auto.
Qed.

Lemma BuildStripifyInfo_face_table_witness :
  let indices := [0; 1; 2; 2; 1; 3; 3; 3; 1; 0; 1; 2; 1; 2; 0; 4] in
  exists t,
    BuildStripifyInfo indices 4 = Ok t /\
    table_triples t (distinct_triangles indices) /\
    NoDup (distinct_triangles indices) /\
    (forall tr, tr ∈ distinct_triangles indices <->
                tr ∈ triangles indices /\ IsDegenerate3 tr.1.1 tr.1.2 tr.2 = false).
Proof.
  intros indices. apply (BuildStripifyInfo_face_table indices 4).
  - lia.
  - unfold indices. repeat (apply Forall_cons; split; [lia|]). apply Forall_nil_2.
Defined.


(** ** The start of the first search *)

Lemma open_edges_range (t : Topology) (p : nat) (c : Z) :
  open_edges t p = Ok c -> 0 <= c <= 3.
Proof.
  unfold open_edges. intros H.
  res_open H as f. res_open H as o01. res_open H as o12. res_open H as o20.
  injection H as <-. destruct o01, o12, o20; lia.
Qed.

Lemma FindStartPoint_loop_spec (t : Topology) (fs : NvFaceInfoVec) :
  forall bestCtr bestIndex i bestCtr' bestIndex',
    FindStartPoint_loop t fs bestCtr bestIndex i = Ok (bestCtr', bestIndex') ->
    exists counts,
      Forall2 (fun p c => open_edges t p = Ok c /\ 0 <= c <= 3) fs counts /\
      Forall (fun c => c <= bestCtr') counts /\
      ((bestCtr' = bestCtr /\ bestIndex' = bestIndex) \/
       (bestCtr < bestCtr' /\
        exists k : nat,
          bestIndex' = i + Z.of_nat k /\ counts !! k = Some bestCtr' /\
          forall j c, (j < k)%nat -> counts !! j = Some c -> c < bestCtr')).
Proof.
  induction fs as [|p rest IH]; intros bc bi i bc' bi' H;
    cbn [FindStartPoint_loop] in H.
  - injection H as <- <-. exists []. split; [constructor|]. split; [constructor|].
    now left.
  - destruct (open_edges t p) as [ctr|e] eqn:Hc; cbn [mbind res_bind] in H;
      [|discriminate].
    pose proof (open_edges_range t p ctr Hc) as Hr.
    destruct (Z.ltb_spec bc ctr) as [Hlt|Hge];
      apply IH in H as (counts & HF & Hmax & Hbest);
      exists (ctr :: counts); (split; [constructor; [auto | exact HF]|]).
    + destruct Hbest as [[-> ->]|(Hlt' & k & -> & Hk & Hfirst)].
      * split; [constructor; [lia | exact Hmax]|]. right. split; [exact Hlt|].
        exists 0%nat. split; [lia|]. split; [reflexivity|]. intros j c Hj. lia.
      * split; [constructor; [lia | exact Hmax]|]. right. split; [lia|].
        exists (S k). split; [lia|]. split; [exact Hk|].
        intros [|j] c Hj Hl; cbn in Hl.
        -- injection Hl as <-. lia.
        -- eapply Hfirst; [|exact Hl]. lia.
    + destruct Hbest as [[-> ->]|(Hlt' & k & -> & Hk & Hfirst)].
      * split; [constructor; [lia | exact Hmax]|]. now left.
      * split; [constructor; [lia | exact Hmax]|]. right. split; [exact Hlt'|].
        exists (S k). split; [lia|]. split; [exact Hk|].
        intros [|j] c Hj Hl; cbn in Hl.
        -- injection Hl as <-. lia.
        -- eapply Hfirst; [|exact Hl]. lia.
Qed.

(** X12.  What [FindStartPoint] returns: with [counts] the number of edges
    of each face of the table that have no face on the other side (0 to 3),
    the answer is -1 exactly when no face has such an edge (an empty table
    included); otherwise it is the index of the first face among those with
    the largest count.  (On a table that [BuildStripifyInfo] built the call
    returns, see [FindStartPoint_total_built].) *)
Theorem FindStartPoint_first_most_open (t : Topology) (sp : Z) :
  FindStartPoint t = Ok sp ->
  exists counts,
    Forall2 (fun p c => open_edges t p = Ok c /\ 0 <= c <= 3) (faceInfos t) counts /\
    (sp = -1 <-> Forall (fun c => c = 0) counts) /\
    (sp <> -1 ->
     exists c, 0 <= sp /\ counts !! Z.to_nat sp = Some c /\ 0 < c /\
               Forall (fun c' => c' <= c) counts /\
               forall j c', (j < Z.to_nat sp)%nat -> counts !! j = Some c' -> c' < c).
Proof.
  unfold FindStartPoint. intros H.
  destruct (FindStartPoint_loop t (faceInfos t) (-1) (-1) 0) as [[bc bi]|e] eqn:Hl;
    cbn [mbind res_bind] in H; [|discriminate].
  apply FindStartPoint_loop_spec in Hl as (counts & HF & Hmax & Hbest).
  assert (Hnonneg : Forall (fun c => 0 <= c <= 3) counts).
  { apply Forall_forall. intros c Hc. apply list_elem_of_lookup in Hc as [i Hi].
    destruct (Forall2_lookup_r _ _ _ _ _ HF Hi) as (p & _ & _ & Hr). exact Hr. }
  exists counts. split; [exact HF|].
  destruct Hbest as [[-> ->]|(Hlt & k & -> & Hk & Hfirst)].
  - (* nothing beat the initial -1: the table is empty *)
    cbn in H. injection H as <-.
    assert (counts = []) as ->.
    { destruct counts as [|c cs]; [reflexivity|].
      apply Forall_cons in Hmax as [Hc _]. apply Forall_cons in Hnonneg as [Hc' _]. lia. }
    split; [split; [constructor | reflexivity] | intros Hne; contradiction].
  - destruct (Z.eqb_spec bc 0) as [->|Hne]; injection H as <-.
    + split; [|intros Hne; contradiction]. split; [intros _|reflexivity].
      apply Forall_forall. intros c Hc.
      rewrite Forall_forall in Hmax, Hnonneg.
      specialize (Hmax c Hc). specialize (Hnonneg c Hc). cbn beta in *. lia.
    + assert (Hpos : 0 < bc).
      { rewrite Forall_forall in Hnonneg.
        specialize (Hnonneg bc (list_elem_of_lookup_2 _ _ _ Hk)). cbn beta in *. lia. }
      split.
      * split; [lia|]. intros Hall. rewrite Forall_forall in Hall.
        specialize (Hall bc (list_elem_of_lookup_2 _ _ _ Hk)). cbn beta in *. lia.
      * intros _. exists bc. rewrite Z.add_0_l, Nat2Z.id.
        split; [lia|]. split; [exact Hk|]. split; [exact Hpos|].
        split; [exact Hmax | exact Hfirst].
Qed.

Lemma FindStartPoint_first_most_open_witness :
  exists counts,
    Forall2 (fun p c => open_edges two_triangles p = Ok c /\ 0 <= c <= 3)
            (faceInfos two_triangles) counts /\
    (0 = -1 <-> Forall (fun c => c = 0) counts) /\
    (0 <> -1 ->
     exists c, 0 <= 0 /\ counts !! Z.to_nat 0 = Some c /\ 0 < c /\
               Forall (fun c' => c' <= c) counts /\
               forall j c', (j < Z.to_nat 0)%nat -> counts !! j = Some c' -> c' < c).
Proof.
  apply (FindStartPoint_first_most_open two_triangles 0). reflexivity.
Defined.


(** ** Strips that are too short *)

Lemma CalcNumHitsFace_range (vcache : VertexCache.t) (f : NvFaceInfo.t) :
  0 <= CalcNumHitsFace vcache f <= 3.
Proof.
  unfold CalcNumHitsFace.
  destruct (VertexCache.InCache vcache (NvFaceInfo.m_v0 f)),
    (VertexCache.InCache vcache (NvFaceInfo.m_v1 f)),
    (VertexCache.InCache vcache (NvFaceInfo.m_v2 f)); lia.
Qed.

Lemma best_face_spec (h : Heap) (vcache : VertexCache.t) (tempFaceList : NvFaceInfoVec) :
  forall (bVisitedList : list bool) (i bestNumHits bestIndex : Z),
    length bVisitedList = length tempFaceList ->
    Forall (fun p => is_Some (faces h !! p)) tempFaceList ->
    exists bestNumHits' bestIndex',
      best_face h vcache tempFaceList bVisitedList i bestNumHits bestIndex
      = Ok (bestNumHits', bestIndex') /\
      ((bestNumHits' = bestNumHits /\ bestIndex' = bestIndex /\
        (bestNumHits = -1 -> unvisited_faces tempFaceList bVisitedList = [])) \/
       (bestNumHits < bestNumHits' /\
        exists (k : nat) (p : nat),
          bestIndex' = i + Z.of_nat k /\ tempFaceList !! k = Some p /\
          bVisitedList !! k = Some false)).
Proof.
  induction tempFaceList as [|p rest IH]; intros vis i bn bi Hlen Hval.
  - exists bn, bi. destruct vis; cbn; split; auto.
  - destruct vis as [|v vrest]; [discriminate|]. cbn [length] in Hlen.
    apply Forall_cons in Hval as [[f Hf] Hval].
    cbn [best_face unvisited_faces]. destruct v.
    + destruct (IH vrest (i + 1) bn bi ltac:(lia) Hval)
        as (bn' & bi' & Hrun & Hcase).
      exists bn', bi'. split; [exact Hrun|].
      destruct Hcase as [Hsame|(Hlt & k & q & -> & Hq & Hv)]; [now left|].
      right. split; [exact Hlt|]. exists (S k), q. split; [lia|]. auto.
    + unfold face_at. rewrite Hf. cbn [mbind res_bind].
      pose proof (CalcNumHitsFace_range vcache f) as Hr.
      destruct (Z.ltb_spec bn (CalcNumHitsFace vcache f)) as [Hlt|Hge].
      * destruct (IH vrest (i + 1) (CalcNumHitsFace vcache f) i ltac:(lia) Hval)
          as (bn' & bi' & Hrun & Hcase).
        exists bn', bi'. split; [exact Hrun|]. right.
        destruct Hcase as [(-> & -> & _)|(Hlt' & k & q & -> & Hq & Hv)].
        -- split; [exact Hlt|]. exists 0%nat, p. split; [lia|]. auto.
        -- split; [lia|]. exists (S k), q. split; [lia|]. auto.
      * destruct (IH vrest (i + 1) bn bi ltac:(lia) Hval)
          as (bn' & bi' & Hrun & Hcase).
        exists bn', bi'. split; [exact Hrun|].
        destruct Hcase as [(-> & -> & _)|(Hlt' & k & q & -> & Hq & Hv)].
        -- left. split; [reflexivity|]. split; [reflexivity|]. lia.
        -- right. split; [exact Hlt'|]. exists (S k), q. split; [lia|]. auto.
Qed.

Lemma unvisited_faces_visit (tempFaceList : NvFaceInfoVec) :
  forall (bVisitedList : list bool) (k : nat) (p : nat),
    tempFaceList !! k = Some p -> bVisitedList !! k = Some false ->
    unvisited_faces tempFaceList bVisitedList
    ≡ₚ p :: unvisited_faces tempFaceList (<[k := true]> bVisitedList).
Proof.
  induction tempFaceList as [|q rest IH]; intros vis k p Hp Hv; [inversion Hp|].
  destruct vis as [|v vrest]; [inversion Hv|].
  destruct k as [|k]; cbn in Hp, Hv.
  - injection Hp as ->. injection Hv as ->. reflexivity.
  - cbn [unvisited_faces insert list_insert]. destruct v.
    + now apply IH.
    + rewrite (IH vrest k p Hp Hv). apply Permutation_swap.
Qed.

Lemma RemoveSmallStrips_order_spec (h : Heap) (tempFaceList : NvFaceInfoVec)
  (fuel : nat) :
  forall (bVisitedList : list bool) (vcache : VertexCache.t) (bestIndex : Z)
         (faceList : NvFaceInfoVec),
    length bVisitedList = length tempFaceList ->
    Forall (fun p => is_Some (faces h !! p)) tempFaceList ->
    vcache <> [] ->
    (length (unvisited_faces tempFaceList bVisitedList) < fuel)%nat ->
    exists faceList' vcache',
      RemoveSmallStrips_order fuel h tempFaceList bVisitedList vcache bestIndex faceList
      = Ok (faceList', vcache') /\
      faceList' ≡ₚ faceList ++ unvisited_faces tempFaceList bVisitedList /\
      length vcache' = length vcache.
Proof.
  induction fuel as [|fuel IH]; intros vis vcache bi faceList Hlen Hval Hne Hfuel;
    [lia|].
  cbn [RemoveSmallStrips_order].
  destruct (best_face_spec h vcache tempFaceList vis 0 (-1) bi Hlen Hval)
    as (bn' & bi' & Hrun & Hcase).
  rewrite Hrun. cbn [mbind res_bind].
  destruct Hcase as [(-> & -> & Hnone)|(Hlt & k & p & -> & Hp & Hv)].
  - cbn. rewrite (Hnone eq_refl), app_nil_r. eauto.
  - destruct (Z.eqb_spec bn' (-1)) as [Heq|_]; [lia|].
    rewrite Z.add_0_l.
    rewrite vec_set_of_nat by (apply lookup_lt_Some in Hv; exact Hv).
    cbn [mbind res_bind]. rewrite (vec_at_of_nat _ _ _ Hp). cbn [mbind res_bind].
    rewrite Forall_forall in Hval.
    destruct (Hval p (list_elem_of_lookup_2 _ _ _ Hp)) as [f Hf].
    unfold face_at. rewrite Hf. cbn [mbind res_bind].
    destruct (UpdateCacheFace_spec vcache f Hne) as (vcache1 & Hupd & Hl1 & _).
    rewrite Hupd. cbn [mbind res_bind].
    pose proof (unvisited_faces_visit tempFaceList vis k p Hp Hv) as Hperm.
    destruct (IH (<[k := true]> vis) vcache1 (Z.of_nat k) (faceList ++ [p]))
      as (faceList' & vcache' & Hrec & Hperm' & Hl').
    + now rewrite length_insert.
    + now apply Forall_forall.
    + destruct vcache1, vcache; cbn in *; congruence.
    + apply Permutation_length in Hperm. cbn [length] in Hperm. lia.
    + exists faceList', vcache'. split; [exact Hrec|]. split; [|congruence].
      rewrite Hperm', Hperm, <- app_assoc. reflexivity.
Qed.

Lemma unvisited_faces_none (tempFaceList : NvFaceInfoVec) :
  unvisited_faces tempFaceList (replicate (length tempFaceList) false) = tempFaceList.
Proof.
  induction tempFaceList as [|p rest IH]; [reflexivity|].
  cbn [length replicate unvisited_faces]. now rewrite IH.
Qed.

Lemma RemoveSmallStrips_partition_spec (minStripLength : Z) (allStrips : NvStripInfoVec) :
  RemoveSmallStrips_partition minStripLength allStrips
  = (filter (fun st => minStripLength <= vec_size (NvStripInfo.m_faces st)) allStrips,
     concat (map NvStripInfo.m_faces
               (filter (fun st => vec_size (NvStripInfo.m_faces st) < minStripLength)
                       allStrips))).
Proof.
  induction allStrips as [|st rest IH]; [reflexivity|].
  cbn [RemoveSmallStrips_partition]. rewrite IH, !filter_cons.
  destruct (Z.ltb_spec (vec_size (NvStripInfo.m_faces st)) minStripLength) as [Hlt|Hge].
  - rewrite decide_False by lia. rewrite decide_True by lia. reflexivity.
  - rewrite decide_True by lia. rewrite decide_False by lia. reflexivity.
Qed.

(** X13.  [RemoveSmallStrips] loses no face and makes none twice: the strips
    with at least [minStripLength] faces are kept, in their order and as
    they are, and [faceList] is a rearrangement of the faces of all the
    other strips (the order is the one that the simulated cache likes
    best).  Proved for a cache of at least one slot and face pointers that
    are valid; the search for the next face ends after as many rounds as
    there are such faces. *)
Theorem RemoveSmallStrips_keeps_every_face (s : NvStripifier.t) (h : Heap)
  (allStrips : NvStripInfoVec) :
  0 < NvStripifier.cacheSize s ->
  Forall (fun st => Forall (fun p => is_Some (faces h !! p)) (NvStripInfo.m_faces st))
         allStrips ->
  let small st := vec_size (NvStripInfo.m_faces st) < NvStripifier.minStripLength s in
  let big st := NvStripifier.minStripLength s <= vec_size (NvStripInfo.m_faces st) in
  exists faceList vcache,
    RemoveSmallStrips s h allStrips = Ok (filter big allStrips, faceList, vcache) /\
    faceList ≡ₚ concat (map NvStripInfo.m_faces (filter small allStrips)) /\
    vec_size vcache = NvStripifier.cacheSize s.
Proof.
  intros Hsize Hval small big. unfold RemoveSmallStrips.
  rewrite RemoveSmallStrips_partition_spec. fold small big.
  set (temp := concat (map NvStripInfo.m_faces (filter small allStrips))).
  assert (Hnew : vec_size (VertexCache.new (NvStripifier.cacheSize s))
                 = NvStripifier.cacheSize s).
  { unfold vec_size, VertexCache.new. rewrite length_replicate. lia. }
  destruct (Z.eqb_spec (vec_size temp) 0) as [Hz|Hnz]; cbn [negb].
  - exists [], (VertexCache.new (NvStripifier.cacheSize s)).
    split; [reflexivity|]. split; [|exact Hnew].
    destruct temp; [reflexivity | discriminate].
  - assert (Htemp : Forall (fun p => is_Some (faces h !! p)) temp).
    { apply Forall_forall. intros p Hp. unfold temp in Hp.
      apply list_elem_of_In, in_concat in Hp as (l & Hl & Hpl).
      apply in_map_iff in Hl as (st & <- & Hst).
      apply list_elem_of_In in Hst, Hpl.
      apply list_elem_of_filter in Hst as [_ Hst].
      rewrite Forall_forall in Hval. specialize (Hval st Hst).
      rewrite Forall_forall in Hval. now apply Hval. }
    destruct (RemoveSmallStrips_order_spec h temp (S (length temp))
                (replicate (length temp) false)
                (VertexCache.new (NvStripifier.cacheSize s)) 0 [])
      as (faceList & vcache & Hrun & Hperm & Hl).
    + apply length_replicate.
    + exact Htemp.
    + now apply new_nonempty.
    + rewrite unvisited_faces_none. lia.
    + rewrite Hrun. cbn [mbind res_bind]. exists faceList, vcache.
      split; [reflexivity|]. split.
      * rewrite Hperm, unvisited_faces_none. reflexivity.
      * unfold vec_size in *. now rewrite Hl.
Qed.

Lemma RemoveSmallStrips_keeps_every_face_witness :
  let s := NvStripifier.mk [] 2 2 f32_zero false in
  let h := heap two_triangles in
  let long := NvStripInfo.mk (NvStripStartInfo.mk (Some 0%nat) (Some 0%nat) true)
                [0%nat; 1%nat] 0 (-1) false 0 [] in
  let short := NvStripInfo.mk (NvStripStartInfo.mk (Some 1%nat) (Some 0%nat) true)
                 [1%nat] 1 (-1) false 0 [] in
  let small st := vec_size (NvStripInfo.m_faces st) < NvStripifier.minStripLength s in
  let big st := NvStripifier.minStripLength s <= vec_size (NvStripInfo.m_faces st) in
  exists faceList vcache,
    RemoveSmallStrips s h [short; long; short]
    = Ok (filter big [short; long; short], faceList, vcache) /\
    faceList ≡ₚ concat (map NvStripInfo.m_faces (filter small [short; long; short])) /\
    vec_size vcache = NvStripifier.cacheSize s.
Proof.
  intros s h long short.
  apply (RemoveSmallStrips_keeps_every_face s h [short; long; short]).
  - cbn. lia.
  - repeat (apply Forall_cons; split;
            [repeat (apply Forall_cons; split; [vm_compute; eauto|]); apply Forall_nil_2|]).
    apply Forall_nil_2.
Defined.


(** ** Cutting the index stream into STRIP groups *)

Lemma run_length_run (run rest : list Z) :
  Forall (fun x => x <> -1) run ->
  run_length (run ++ -1 :: rest) = Z.of_nat (length run).
Proof.
  induction 1 as [|x run Hx _ IH]; [reflexivity|].
  cbn [app run_length length]. destruct (Z.eqb_spec x (-1)); [contradiction|].
  rewrite IH. lia.
Qed.

Lemma copy_indices_middle (mid : list Z) :
  forall pre suf : list Z,
    copy_indices (length mid) (pre ++ mid ++ suf) (Z.of_nat (length pre))
    = Ok (map wrap_size mid).
Proof.
  induction mid as [|x mid IH]; intros pre suf; [reflexivity|].
  cbn [length copy_indices].
  assert (Hx : (pre ++ (x :: mid) ++ suf) !! length pre = Some x)
    by (cbn [app]; now rewrite list_lookup_middle).
  rewrite (vec_at_of_nat _ _ x Hx). cbn [mbind res_bind].
  replace (Z.of_nat (length pre) + 1) with (Z.of_nat (length (pre ++ [x])))
    by (rewrite length_app; cbn [length]; lia).
  replace (pre ++ (x :: mid) ++ suf) with ((pre ++ [x]) ++ mid ++ suf)
    by (now rewrite <- app_assoc).
  rewrite IH. reflexivity.
Qed.

Lemma strip_groups_runs (runs : list (list Z)) :
  Forall (Forall (fun x => x <> -1)) runs ->
  forall pre : list Z,
    strip_groups (length runs) false (pre ++ terminated runs) (Z.of_nat (length pre))
    = Ok (map (fun run => PrimitiveGroup.mk PrimType.PT_STRIP (map wrap_size run)) runs).
Proof.
  induction 1 as [|run runs Hrun _ IH]; intros pre; [reflexivity|].
  cbn [length strip_groups negb]. unfold terminated. cbn [map concat].
  fold (terminated runs).
  rewrite Nat2Z.id, drop_app_length, <- app_assoc. cbn [app].
  rewrite (run_length_run run (terminated runs) Hrun), Nat2Z.id.
  rewrite (copy_indices_middle run pre (-1 :: terminated runs)).
  cbn [mbind res_bind].
  replace (Z.of_nat (length pre) + Z.of_nat (length run) + 1)
    with (Z.of_nat (length (pre ++ run ++ [-1])))
    by (rewrite !length_app; cbn [length]; lia).
  replace (pre ++ run ++ -1 :: terminated runs)
    with ((pre ++ run ++ [-1]) ++ terminated runs)
    by (now rewrite <- !app_assoc).
  rewrite IH. reflexivity.
Qed.

(** X14.  The loop of [GenerateStrips] that cuts the index stream into STRIP
    groups undoes the joining of [CreateStrips]: without stitching, a stream
    of runs that are each closed by one [-1] comes back as one group per
    run, in order, each with the indices of its run and no [-1] (an index
    is stored as [size_t]); with stitching the whole stream is the one
    group. *)
Theorem strip_groups_recover_runs (runs : list (list Z)) (stripIndices : list Z) :
  Forall (Forall (fun x => x <> -1)) runs ->
  strip_groups (length runs) false (terminated runs) 0
  = Ok (map (fun run => PrimitiveGroup.mk PrimType.PT_STRIP (map wrap_size run)) runs) /\
  strip_groups 1 true stripIndices 0
  = Ok [PrimitiveGroup.mk PrimType.PT_STRIP (map wrap_size stripIndices)].
Proof.
  intros Hruns. split.
  - exact (strip_groups_runs runs Hruns []).
  - cbn [strip_groups negb]. unfold vec_size. rewrite Nat2Z.id.
    pose proof (copy_indices_middle stripIndices [] []) as H.
    cbn [app length] in H. rewrite app_nil_r in H. change (Z.of_nat 0) with 0 in H.
    rewrite H. reflexivity.
Qed.

Lemma strip_groups_recover_runs_witness :
  strip_groups 2 false (terminated [[0; 1; 2; 3]; [6; 5; 4]]) 0
  = Ok (map (fun run => PrimitiveGroup.mk PrimType.PT_STRIP (map wrap_size run))
            [[0; 1; 2; 3]; [6; 5; 4]]) /\
  strip_groups 1 true [0; 1; 2; 3; 3; 6; 6; 5; 4] 0
  = Ok [PrimitiveGroup.mk PrimType.PT_STRIP (map wrap_size [0; 1; 2; 3; 3; 6; 6; 5; 4])].
Proof.
  apply (strip_groups_recover_runs [[0; 1; 2; 3]; [6; 5; 4]]
           [0; 1; 2; 3; 3; 6; 6; 5; 4]).
  repeat (apply Forall_cons; split;
          [repeat (apply Forall_cons; split; [lia|]); apply Forall_nil_2|]).
  apply Forall_nil_2.
Defined.


(** ** The groups that [GenerateStrips] returns *)






(** ** Building a strip *)

Lemma marked_ext (s : NvStripInfo.t) (h h' : Heap) (q : nat) :
  faces h' !! q = faces h !! q -> marked s h q -> marked s h' q.
Proof. intros Heq (f & Hf & Hm). exists f. split; [congruence | exact Hm]. Qed.

Lemma taken_by_ext (s : NvStripInfo.t) (h h' : Heap) (q : nat) :
  faces h' !! q = faces h !! q -> taken_by s h q -> taken_by s h' q.
Proof.
  intros Heq [Hm Hin]. split; [eapply marked_ext; eassumption|].
  unfold NvStripInfo.IsInStrip, face_at in *. now rewrite Heq.
Qed.

Lemma claimed_ext (h h' : Heap) (q : nat) :
  faces h' !! q = faces h !! q -> claimed h' q <-> claimed h q.
Proof. intros Heq. unfold claimed. now rewrite Heq. Qed.

Lemma heap_same_vertices_refl (h : Heap) : heap_same_vertices h h.
Proof. intros p f Hf. eauto. Qed.

Lemma takes_refl (s : NvStripInfo.t) (h : Heap) : takes s h h [].
Proof.
  split; [reflexivity|]. split; [apply heap_same_vertices_refl|].
  split; [auto|]. split; [auto|]. split; [constructor|]. split; [constructor|].
  split; [constructor|]. split; [auto|]. intros _ q. reflexivity.
Qed.

Lemma takes_app (s : NvStripInfo.t) (h h1 h2 : Heap) (a1 a2 : NvFaceInfoVec) :
  takes s h h1 a1 -> takes s h1 h2 a2 -> takes s h h2 (a1 ++ a2).
Proof.
  intros (He1 & Hv1 & Hm1 & Ht1 & Ha1 & Hf1 & Hn1 & Hfr1 & Hc1)
         (He2 & Hv2 & Hm2 & Ht2 & Ha2 & Hf2 & Hn2 & Hfr2 & Hc2).
  split; [congruence|]. split; [eapply heap_same_vertices_trans; eassumption|].
  split; [auto|]. split; [auto|]. split; [|split; [|split; [|split]]].
  - apply Forall_app. split; [|exact Ha2].
    eapply Forall_impl; [exact Ha1|]. auto.
  - apply Forall_app. split; [exact Hf1|].
    eapply Forall_impl; [exact Hf2|]. cbn beta. intros p Hp Hm. apply Hp, Hm1, Hm.
  - apply NoDup_app. split; [exact Hn1|]. split; [|exact Hn2].
    intros p Hp1 Hp2. rewrite Forall_forall in Ha1, Hf2.
    apply (Hf2 p Hp2). apply (Ha1 p Hp1).
  - intros q Hq. rewrite Hfr2, Hfr1; [reflexivity| |];
      intros Hin; apply Hq, elem_of_app; auto.
  - intros Hex q. rewrite (Hc2 Hex q). apply (Hc1 Hex q).
Qed.

Lemma MarkTriangle_taken (s : NvStripInfo.t) (h h' : Heap) (p : nat) :
  NvStripInfo.IsExperiment s = true \/ 0 <= NvStripInfo.m_stripId s ->
  NvStripInfo.MarkTriangle s h p = Ok h' ->
  taken_by s h' p /\
  (forall q, q <> p -> faces h' !! q = faces h !! q) /\
  length (faces h') = length (faces h) /\
  edges h' = edges h /\
  heap_same_vertices h h' /\
  (NvStripInfo.IsExperiment s = true -> forall q, claimed h' q <-> claimed h q).
Proof.
  intros Hcan H.
  destruct (faces h !! p) as [f|] eqn:Hf.
  2:{ unfold NvStripInfo.MarkTriangle, face_at in H. now rewrite Hf in H. }
  destruct (MarkTriangle_spec s h p f Hf) as (f' & Hm & Hv & Hids).
  rewrite Hm in H. injection H as <-.
  assert (Hp : faces (set_face h p f') !! p = Some f').
  { cbn. apply list_lookup_insert_eq. now apply lookup_lt_Some in Hf. }
  assert (Hq : forall q, q <> p -> faces (set_face h p f') !! q = faces h !! q)
    by (intros q Hne; cbn; now apply list_lookup_insert_ne).
  split; [|split; [exact Hq|split; [cbn; apply length_insert|split; [reflexivity|split]]]].
  - unfold taken_by, marked, NvStripInfo.IsInStrip, face_at, NvStripInfo.IsMarked.
    rewrite Hp. cbn [mbind res_bind]. unfold NvStripInfo.IsExperiment in *.
    destruct (0 <=? NvStripInfo.m_experimentId s) eqn:He.
    + destruct Hids as (H1 & H2 & _). rewrite H2, Z.eqb_refl. split; [|reflexivity].
      exists f'. split; [reflexivity|]. rewrite H1, Z.eqb_refl. apply orb_true_r.
    + destruct Hids as (_ & H2 & _). rewrite H2, Z.eqb_refl. split; [|reflexivity].
      exists f'. split; [reflexivity|]. destruct Hcan as [Hc|Hc]; [discriminate|].
      rewrite H2. apply Z.leb_le in Hc. now rewrite Hc.
  - intros q g Hg. destruct (decide (q = p)) as [->|Hne].
    + exists f'. split; [exact Hp | congruence].
    + exists g. split; [now rewrite Hq | reflexivity].
  - intros Hex q. rewrite Hex in Hids. destruct Hids as (_ & _ & H3).
    destruct (decide (q = p)) as [->|Hne]; [|now apply claimed_ext, Hq].
    unfold claimed. rewrite Hp, Hf. split; intros (g & [= <-] & Hg); eexists;
      (split; [reflexivity|]); lia.
Qed.

Lemma takes_mark (s : NvStripInfo.t) (h h' : Heap) (p : nat) :
  NvStripInfo.IsExperiment s = true \/ 0 <= NvStripInfo.m_stripId s ->
  ~ marked s h p ->
  NvStripInfo.MarkTriangle s h p = Ok h' ->
  takes s h h' [p].
Proof.
  intros Hcan Hfree H.
  destruct (MarkTriangle_taken s h h' p Hcan H) as (Ht & Hfr & _ & He & Hv & Hc).
  split; [exact He|]. split; [exact Hv|].
  split; [|split; [|split; [|split; [|split; [|split; [|exact Hc]]]]]].
  - intros q Hq. destruct (decide (q = p)) as [->|Hne]; [apply Ht|].
    eapply marked_ext; [|exact Hq]. auto.
  - intros q Hq. destruct (decide (q = p)) as [->|Hne]; [exact Ht|].
    eapply taken_by_ext; [|exact Hq]. auto.
  - now constructor.
  - now constructor.
  - apply NoDup_singleton.
  - intros q Hq. apply Hfr. intros ->. apply Hq. left.
Qed.

Lemma takes_new_face (s : NvStripInfo.t) (h h' : Heap) (f : NvFaceInfo.t) :
  NvStripInfo.IsExperiment s = true \/ 0 <= NvStripInfo.m_stripId s ->
  NvFaceInfo.m_stripId f < 0 ->
  NvStripInfo.MarkTriangle s (new_face h f).1 (length (faces h)) = Ok h' ->
  takes s h h' [length (faces h)].
Proof.
  intros Hcan Hunclaimed H. set (p := length (faces h)) in *.
  destruct (MarkTriangle_taken s _ h' p Hcan H) as (Ht & Hfr & _ & He & Hv & Hc).
  cbn [new_face fst faces edges] in Hfr, He, Hv.
  assert (Hold : forall q, q <> p -> faces h' !! q = faces h !! q).
  { intros q Hq. rewrite (Hfr q Hq).
    destruct (decide (q < p)%nat) as [Hlt|Hge].
    - now apply lookup_app_l.
    - rewrite !(proj2 (lookup_ge_None _ _)); [reflexivity|unfold p in *; lia|].
      rewrite length_app. cbn [length]. unfold p in *. lia. }
  assert (Hfresh : forall P : Prop, marked s h p -> P).
  { intros P (g & Hg & _). apply lookup_lt_Some in Hg. unfold p in Hg. lia. }
  split; [exact He|]. split; [|split; [|split; [|split; [|split; [|split; [|split]]]]]].
  - intros q g Hg. apply Hv. cbn [faces].
    rewrite lookup_app_l; [exact Hg|]. now apply lookup_lt_Some in Hg.
  - intros q Hq. destruct (decide (q = p)) as [->|Hne]; [apply Ht|].
    eapply marked_ext; [|exact Hq]. auto.
  - intros q Hq. destruct (decide (q = p)) as [->|Hne]; [exact Ht|].
    eapply taken_by_ext; [|exact Hq]. auto.
  - now constructor.
  - constructor; [|constructor]. intros Hm. now apply (Hfresh False).
  - apply NoDup_singleton.
  - intros q Hq. apply Hold. intros ->. apply Hq. left.
  - intros Hex q. rewrite (Hc Hex q).
    destruct (decide (q = p)) as [->|Hne].
    + unfold claimed. cbn [new_face fst faces]. unfold p.
      rewrite list_lookup_middle by reflexivity.
      rewrite (proj2 (lookup_ge_None (faces h) (length (faces h)))) by lia.
      split; [intros (g & [= <-] & Hg); lia | intros (g & Hg & _); discriminate].
    + unfold claimed. cbn [new_face fst faces].
      destruct (decide (q < p)%nat) as [Hlt|Hge].
      * now rewrite lookup_app_l.
      * rewrite !(proj2 (lookup_ge_None _ _)); [reflexivity|unfold p in *; lia|].
        rewrite length_app. cbn [length]. unfold p in *. lia.
Qed.

Lemma Build_swap_takes (s : NvStripInfo.t) (edgeInfos : NvEdgeInfoVec)
  (x x' : NvStripInfo.Extension) (nv0 nv1 testnv1 z : Z) (nf : nat) (deadEnd : bool) :
  NvStripInfo.IsExperiment s = true \/ 0 <= NvStripInfo.m_stripId s ->
  NvStripInfo.Build_swap s edgeInfos x nv0 nv1 testnv1 nf deadEnd = Ok (x', z) ->
  exists added,
    NvStripInfo.x_faces x' = NvStripInfo.x_faces x ++ added /\
    takes s (NvStripInfo.x_heap x) (NvStripInfo.x_heap x') added /\
    Forall (fun p => (length (faces (NvStripInfo.x_heap x)) <= p)%nat) added.
Proof.
  intros Hcan H. unfold NvStripInfo.Build_swap in H.
  assert (Hsame : (x, nv1) = (x', z) ->
                  exists added,
                    NvStripInfo.x_faces x' = NvStripInfo.x_faces x ++ added /\
                    takes s (NvStripInfo.x_heap x) (NvStripInfo.x_heap x') added /\
                    Forall (fun p => (length (faces (NvStripInfo.x_heap x)) <= p)%nat)
                           added).
  { intros [= <- _]. exists []. rewrite app_nil_r.
    split; [reflexivity|]. split; [apply takes_refl | constructor]. }
  destruct deadEnd; [|injection H as H1 H2; apply Hsame; congruence].
  res_open H as testNextFace. res_open H as blocked.
  destruct blocked; cbn [negb] in H; [injection H as H1 H2; apply Hsame; congruence|].
  cbn [new_face] in H. res_open H as h2. injection H as <- _.
  cbn [NvStripInfo.x_faces NvStripInfo.x_heap].
  exists [length (faces (NvStripInfo.x_heap x))]. split; [reflexivity|].
  split; [exact (takes_new_face s (NvStripInfo.x_heap x) h2
                   (NvFaceInfo.new nv0 nv1 nv0) Hcan ltac:(cbn; lia) E1)|].
  apply Forall_cons. split; [cbn beta; lia | apply Forall_nil_2].
Qed.

Lemma Build_extend_takes (fuel : nat) (backward : bool) (s : NvStripInfo.t)
  (edgeInfos : NvEdgeInfoVec) :
  NvStripInfo.IsExperiment s = true \/ 0 <= NvStripInfo.m_stripId s ->
  forall (x x' : NvStripInfo.Extension) (nv0 nv1 : Z) (nextFace : option nat),
    NvStripInfo.Build_extend fuel backward s edgeInfos x nv0 nv1 nextFace = Ok x' ->
    exists added,
      NvStripInfo.x_faces x' = NvStripInfo.x_faces x ++ added /\
      takes s (NvStripInfo.x_heap x) (NvStripInfo.x_heap x') added.
Proof.
  intros Hcan.
  assert (Hstop : forall x x' : NvStripInfo.Extension,
             Ok x = Ok x' ->
             exists added,
               NvStripInfo.x_faces x' = NvStripInfo.x_faces x ++ added /\
               takes s (NvStripInfo.x_heap x) (NvStripInfo.x_heap x') added).
  { intros x x' [= <-]. exists []. rewrite app_nil_r.
    split; [reflexivity | apply takes_refl]. }
  induction fuel as [|fuel IH]; intros x x' nv0 nv1 [nf|] H;
    cbn [NvStripInfo.Build_extend] in H; try (now apply Hstop).
  - res_open H as f. destruct (NvStripInfo.IsMarked s f); [|discriminate].
    now apply Hstop.
  - res_open H as f. destruct (NvStripInfo.IsMarked s f) eqn:Hfree.
    { now apply Hstop. }
    res_open H as uniq. destruct uniq; cbn [negb] in H; [|now apply Hstop].
    res_open H as testnv1. res_open H as nextNextFace. res_open H as deadEnd.
    res_open H as [x1 testnv0]. res_open H as h3. res_open H as nextFace'.
    unfold face_at in E.
    destruct (faces (NvStripInfo.x_heap x) !! nf) as [f0|] eqn:Hnf; [|discriminate].
    injection E as ->.
    destruct (Build_swap_takes _ _ _ _ _ _ _ _ _ _ Hcan E4) as (a1 & Hf1 & Ht1 & Hfresh).
    assert (Hnf1 : faces (NvStripInfo.x_heap x1) !! nf = Some f).
    { destruct Ht1 as (_ & _ & _ & _ & _ & _ & _ & Hfr & _). rewrite Hfr; [exact Hnf|].
      intros Hin. rewrite Forall_forall in Hfresh. specialize (Hfresh nf Hin).
      apply lookup_lt_Some in Hnf. cbn beta in Hfresh. lia. }
    assert (Hfree1 : ~ marked s (NvStripInfo.x_heap x1) nf).
    { intros (g & Hg & Hm). rewrite Hnf1 in Hg. injection Hg as <-. congruence. }
    pose proof (takes_mark s _ _ nf Hcan Hfree1 E5) as Ht2.
    apply IH in H as (a3 & Hf3 & Ht3).
    cbn [NvStripInfo.x_faces NvStripInfo.x_heap] in Hf3, Ht3.
    exists (a1 ++ [nf] ++ a3). split.
    + rewrite Hf3, Hf1, <- !app_assoc. reflexivity.
    + eapply takes_app; [exact Ht1|]. eapply takes_app; eassumption.
Qed.

(** [Build] marks the start face and then takes free faces only. *)
Lemma Build_spec (s s' : NvStripInfo.t) (h h' : Heap) (edgeInfos : NvEdgeInfoVec) :
  NvStripInfo.IsExperiment s = true \/ 0 <= NvStripInfo.m_stripId s ->
  NvStripInfo.Build s h edgeInfos = Ok (h', s') ->
  exists startFace h1 added,
    NvStripStartInfo.m_startFace (NvStripInfo.m_startInfo s) = Some startFace /\
    NvStripInfo.MarkTriangle s h startFace = Ok h1 /\
    takes s h1 h' added /\
    NvStripInfo.m_faces s' ≡ₚ NvStripInfo.m_faces s ++ startFace :: added /\
    NvStripInfo.m_stripId s' = NvStripInfo.m_stripId s /\
    NvStripInfo.m_experimentId s' = NvStripInfo.m_experimentId s.
Proof.
  intros Hcan H. unfold NvStripInfo.Build in H.
  destruct (NvStripStartInfo.m_startFace (NvStripInfo.m_startInfo s))
    as [startFace|] eqn:Hsf; cbn [from_option mbind res_bind] in H; [|discriminate].
  res_open H as startEdge. res_open H as h1.
  res_open H as f. res_open H as v2. res_open H as nextFace.
  res_open H as fwd. res_open H as nextFace2. res_open H as bwd.
  injection H as <- <-.
  destruct (Build_extend_takes _ _ _ _ Hcan _ _ _ _ _ E4) as (af & Hff & Htf).
  destruct (Build_extend_takes _ _ _ _ Hcan _ _ _ _ _ E6) as (ab & Hfb & Htb).
  cbn [NvStripInfo.x_faces NvStripInfo.x_heap app] in Hff, Htf, Hfb, Htb.
  exists startFace, h1, (af ++ ab). split; [reflexivity|]. split; [exact E0|].
  split; [eapply takes_app; eassumption|].
  unfold NvStripInfo.Combine. cbn [NvStripInfo.m_faces NvStripInfo.m_stripId
                                     NvStripInfo.m_experimentId].
  rewrite Hff, Hfb. split; [|split; reflexivity].
  apply Permutation_app_head. rewrite reverse_Permutation.
  apply (Permutation_app_comm ab (startFace :: af)).
Qed.

(** X16.  What a strip is made of when [Build] returns: the start face and
    then only faces that the strip found free (not marked for it: neither
    claimed for good nor taken in its experiment), among them the
    degenerate faces that [Build] makes up itself; no face is in the strip
    twice; every face of the strip bears the mark of the strip afterwards.
    Faces that are not in the strip are as they were, no face changes its
    vertices, marks are not taken back, and the edges are not written.
    Proved for a strip that starts empty and is an experiment or has a
    strip id that is not negative. *)
Theorem Build_takes_free_faces_once (s s' : NvStripInfo.t) (h h' : Heap)
  (edgeInfos : NvEdgeInfoVec) :
  NvStripInfo.IsExperiment s = true \/ 0 <= NvStripInfo.m_stripId s ->
  NvStripInfo.m_faces s = [] ->
  NvStripInfo.Build s h edgeInfos = Ok (h', s') ->
  exists startFace,
    NvStripStartInfo.m_startFace (NvStripInfo.m_startInfo s) = Some startFace /\
    startFace ∈ NvStripInfo.m_faces s' /\
    NoDup (NvStripInfo.m_faces s') /\
    Forall (taken_by s h') (NvStripInfo.m_faces s') /\
    (forall p, p ∈ NvStripInfo.m_faces s' -> p <> startFace -> ~ marked s h p) /\
    (forall q, marked s h q -> marked s h' q) /\
    (forall q, q ∉ NvStripInfo.m_faces s' -> faces h' !! q = faces h !! q) /\
    heap_same_vertices h h' /\
    edges h' = edges h.
Proof.
  intros Hcan Hempty H.
  destruct (Build_spec s s' h h' edgeInfos Hcan H)
    as (startFace & h1 & added & Hsf & Hmark & Htakes & Hperm & _ & _).
  rewrite Hempty in Hperm. cbn [app] in Hperm.
  destruct (MarkTriangle_taken s h h1 startFace Hcan Hmark)
    as (Hst & Hfr0 & _ & He0 & Hv0 & _).
  destruct Htakes as (He & Hv & Hm & Ht & Hall & Hfree & Hnd & Hfr & _).
  exists startFace. split; [exact Hsf|].
  assert (Hin : forall p, p ∈ NvStripInfo.m_faces s' <-> p = startFace \/ p ∈ added).
  { intros p. rewrite Hperm, elem_of_cons. reflexivity. }
  assert (Hnotin : startFace ∉ added).
  { intros Hc. rewrite Forall_forall in Hfree. apply (Hfree _ Hc). apply Hst. }
  split; [apply Hin; now left|]. split; [|split; [|split; [|split; [|split; [|split]]]]].
  - rewrite Hperm. apply NoDup_cons. split; [exact Hnotin | exact Hnd].
  - apply Forall_forall. intros p Hp. apply Hin in Hp as [->|Hp].
    + apply Ht, Hst.
    + rewrite Forall_forall in Hall. now apply Hall.
  - intros p Hp Hne Hmk. apply Hin in Hp as [->|Hp]; [congruence|].
    rewrite Forall_forall in Hfree. apply (Hfree p Hp).
    eapply marked_ext; [|exact Hmk]. auto.
  - intros q Hq. apply Hm. destruct (decide (q = startFace)) as [->|Hne]; [apply Hst|].
    eapply marked_ext; [|exact Hq]. auto.
  - intros q Hq. rewrite Hfr, Hfr0; [reflexivity| |].
    + intros ->. apply Hq, Hin. now left.
    + intros Hc. apply Hq, Hin. now right.
  - eapply heap_same_vertices_trans; eassumption.
  - congruence.
Qed.

Lemma Build_takes_free_faces_once_witness :
  let s := NvStripInfo.new (NvStripStartInfo.mk (Some 0%nat) (Some 0%nat) true) 0 0 in
  let h := heap two_triangles in
  exists h' s',
    NvStripInfo.Build s h (edgeInfos two_triangles) = Ok (h', s') /\
    exists startFace,
      NvStripStartInfo.m_startFace (NvStripInfo.m_startInfo s) = Some startFace /\
      startFace ∈ NvStripInfo.m_faces s' /\
      NoDup (NvStripInfo.m_faces s') /\
      Forall (taken_by s h') (NvStripInfo.m_faces s') /\
      (forall p, p ∈ NvStripInfo.m_faces s' -> p <> startFace -> ~ marked s h p) /\
      (forall q, marked s h q -> marked s h' q) /\
      (forall q, q ∉ NvStripInfo.m_faces s' -> faces h' !! q = faces h !! q) /\
      heap_same_vertices h h' /\
      edges h' = edges h.
Proof.
  intros s h. eexists _, _. split; [vm_compute; reflexivity|].
  apply (Build_takes_free_faces_once s _ h _ (edgeInfos two_triangles)).
  - left. reflexivity.
  - reflexivity.
  - vm_compute. reflexivity.
Defined.


(** ** Every face in exactly one strip *)










Lemma strips_faces_snoc (ex : NvStripInfoVec) (s : NvStripInfo.t) :
  strips_faces (ex ++ [s]) = strips_faces ex ++ NvStripInfo.m_faces s.
Proof.
  unfold strips_faces. rewrite map_app, concat_app. cbn [map concat].
  now rewrite app_nil_r.
Qed.

Lemma strips_faces_app (a b : NvStripInfoVec) :
  strips_faces (a ++ b) = strips_faces a ++ strips_faces b.
Proof. unfold strips_faces. now rewrite map_app, concat_app. Qed.









Lemma strips_faces_Forall (P : nat -> Prop) (strips : NvStripInfoVec) :
  Forall P (strips_faces strips) <->
  Forall (fun s => Forall P (NvStripInfo.m_faces s)) strips.
Proof.
  unfold strips_faces. induction strips as [|s rest IH]; cbn [map concat].
  - split; constructor.
  - rewrite Forall_app, Forall_cons, IH. reflexivity.
Qed.












(** ** Splitting the strips into pieces *)

Lemma real_faces_app (h : Heap) (a b : NvFaceInfoVec) :
  real_faces h (a ++ b) = real_faces h a ++ real_faces h b.
Proof. apply List.filter_app. Qed.

Lemma real_count_app (h : Heap) (a b : NvFaceInfoVec) :
  real_count h (a ++ b) = real_count h a + real_count h b.
Proof.
  unfold real_count, vec_size. rewrite real_faces_app, length_app. lia.
Qed.

Lemma real_count_nonneg (h : Heap) (a : NvFaceInfoVec) : 0 <= real_count h a.
Proof. unfold real_count, vec_size. lia. Qed.

Lemma real_count_one (h : Heap) (p : nat) :
  real_count h [p] = if real_face h p then 1 else 0.
Proof. unfold real_count, real_faces, vec_size. cbn. now destruct (real_face h p). Qed.

Lemma real_count_zero (h : Heap) (a : NvFaceInfoVec) :
  real_count h a = 0 -> real_faces h a = [].
Proof.
  unfold real_count, vec_size. destruct (real_faces h a); [reflexivity|].
  cbn [length]. lia.
Qed.

Lemma keeps_real_nil (h : Heap) : keeps_real h [] [].
Proof. split; [constructor | reflexivity]. Qed.

Lemma keeps_real_refl (h : Heap) (seg : NvFaceInfoVec) : keeps_real h seg seg.
Proof. split; reflexivity. Qed.

Lemma keeps_real_app (h : Heap) (s1 o1 s2 o2 : NvFaceInfoVec) :
  keeps_real h s1 o1 -> keeps_real h s2 o2 -> keeps_real h (s1 ++ s2) (o1 ++ o2).
Proof.
  intros [Hs1 Hr1] [Hs2 Hr2]. split; [now apply sublist_app|].
  rewrite !real_faces_app. congruence.
Qed.

Lemma keeps_real_skip (h : Heap) (p : nat) :
  real_face h p = false -> keeps_real h [p] [].
Proof.
  intros Hp. split; [apply sublist_nil_l|].
  unfold real_faces. cbn. now rewrite Hp.
Qed.

Lemma keeps_real_rest (h : Heap) (seg out rest : NvFaceInfoVec) :
  keeps_real h seg out -> real_count h rest = 0 -> keeps_real h (seg ++ rest) out.
Proof.
  intros [Hs Hr] H0. split.
  - rewrite <- (app_nil_r out). apply sublist_app; [exact Hs | apply sublist_nil_l].
  - rewrite real_faces_app, (real_count_zero _ _ H0), app_nil_r. exact Hr.
Qed.

Lemma keeps_real_count (h : Heap) (seg out : NvFaceInfoVec) :
  keeps_real h seg out -> real_count h out = real_count h seg.
Proof. intros [_ Hr]. unfold real_count. now rewrite Hr. Qed.

Lemma deref_faces_real_count (h : Heap) (ps : NvFaceInfoVec) :
  Forall (fun p => is_Some (faces h !! p)) ps ->
  exists fs, NvStripInfo.deref_faces h ps = Ok fs /\ count_real fs = real_count h ps.
Proof.
  induction 1 as [|p ps [f Hf] _ (fs & Hfs & Hc)].
  - exists []. split; reflexivity.
  - exists (f :: fs). cbn [NvStripInfo.deref_faces]. unfold face_at. rewrite Hf.
    cbn [mbind res_bind]. rewrite Hfs. cbn [mbind res_bind]. split; [reflexivity|].
    unfold count_real, real_count, real_faces, vec_size in *. cbn [List.filter].
    unfold real_face at 1. rewrite Hf.
    destruct (negb (IsDegenerate f)); cbn [length]; lia.
Qed.

Section Split.
Variable h : Heap.
Variable faces_ : NvFaceInfoVec.
Variable threshold : Z.
Hypothesis Hvalid : Forall (fun p => is_Some (faces h !! p)) faces_.
Hypothesis Hthreshold : 0 < threshold.

Lemma split_read (pre suf : NvFaceInfoVec) (p : nat) :
  faces_ = pre ++ p :: suf ->
  exists f, vec_at faces_ (Z.of_nat (length pre)) = Ok p /\
            face_at h p = Ok f /\
            real_face h p = negb (IsDegenerate f).
Proof.
  intros Hf.
  assert (Hp : faces_ !! length pre = Some p)
    by (rewrite Hf; now rewrite list_lookup_middle).
  pose proof Hvalid as Hv. rewrite Forall_forall in Hv.
  destruct (Hv p (list_elem_of_lookup_2 _ _ _ Hp)) as [f Hpf].
  exists f. split; [now apply vec_at_of_nat|].
  unfold face_at, real_face. rewrite Hpf. split; reflexivity.
Qed.

Lemma split_piece_spec (j numTimes numLeftover : Z) (suf : NvFaceInfoVec) :
  forall (pre : NvFaceInfoVec) (c : Piece) (fuel : nat),
    faces_ = pre ++ suf ->
    pc_faceCtr c = Z.of_nat (length pre) ->
    pc_faceCtr c - pc_degenerateCount c = real_count h pre ->
    real_count h pre <= threshold + j * threshold <= real_count h faces_ ->
    (length suf < fuel)%nat ->
    exists c' seg suf' added,
      split_piece fuel h faces_ threshold j numTimes numLeftover c = Ok c' /\
      suf = seg ++ suf' /\
      pc_faceCtr c' = Z.of_nat (length (pre ++ seg)) /\
      pc_faceCtr c' - pc_degenerateCount c' = real_count h (pre ++ seg) /\
      real_count h (pre ++ seg) = threshold + j * threshold /\
      NvStripInfo.m_faces (pc_currentStrip c')
      = NvStripInfo.m_faces (pc_currentStrip c) ++ added /\
      keeps_real h seg added.
Proof.
  induction suf as [|p suf IH]; intros pre c fuel Hf Hctr Hinv Htarget Hfuel;
    cbn [length] in Hfuel.
  - (* nothing left: the target has been met *)
    rewrite app_nil_r in Hf. subst pre.
    destruct fuel as [|fuel]; [lia|]. cbn [split_piece].
    destruct (Z.ltb_spec (pc_faceCtr c)
                (threshold + j * threshold + pc_degenerateCount c)) as [Hlt|Hge]; [lia|].
    exists c, [], [], []. rewrite !app_nil_r.
    repeat (split; [first [reflexivity | assumption | lia]|]). apply keeps_real_nil.
  - destruct fuel as [|fuel]; [lia|]. cbn [split_piece].
    destruct (Z.ltb_spec (pc_faceCtr c)
                (threshold + j * threshold + pc_degenerateCount c)) as [Hlt|Hge].
    + destruct (split_read pre suf p Hf) as (f & Hat & Hface & Hreal).
      rewrite Hctr, Hat. cbn [mbind res_bind]. rewrite Hface. cbn [mbind res_bind].
      assert (Hf' : faces_ = (pre ++ [p]) ++ suf) by (now rewrite <- app_assoc).
      assert (Hlen : Z.of_nat (length pre) + 1 = Z.of_nat (length (pre ++ [p])))
        by (rewrite length_app; cbn [length]; lia).
      pose proof (real_count_app h pre [p]) as Hcnt. rewrite real_count_one in Hcnt.
      assert (Hstep : forall c1 added1,
                 pc_faceCtr c1 = Z.of_nat (length (pre ++ [p])) ->
                 pc_faceCtr c1 - pc_degenerateCount c1 = real_count h (pre ++ [p]) ->
                 NvStripInfo.m_faces (pc_currentStrip c1)
                 = NvStripInfo.m_faces (pc_currentStrip c) ++ added1 ->
                 keeps_real h [p] added1 ->
                 exists c' seg suf' added,
                   split_piece fuel h faces_ threshold j numTimes numLeftover c1 = Ok c' /\
                   p :: suf = seg ++ suf' /\
                   pc_faceCtr c' = Z.of_nat (length (pre ++ seg)) /\
                   pc_faceCtr c' - pc_degenerateCount c' = real_count h (pre ++ seg) /\
                   real_count h (pre ++ seg) = threshold + j * threshold /\
                   NvStripInfo.m_faces (pc_currentStrip c')
                   = NvStripInfo.m_faces (pc_currentStrip c) ++ added /\
                   keeps_real h seg added).
      { intros c1 added1 Hc1 Hi1 Hm1 Hk1.
        destruct (IH (pre ++ [p]) c1 fuel Hf' Hc1 Hi1) as
          (c' & seg & suf' & added & Hrun & Hsuf & Hc' & Hi' & Ht' & Hm' & Hk');
          [destruct (real_face h p) eqn:Hrf; rewrite ?Hrf in *; lia | lia |].
        exists c', (p :: seg), suf', (added1 ++ added).
        rewrite <- app_assoc in Hc', Hi', Ht'. cbn [app] in Hc', Hi', Ht'.
        split; [exact Hrun|]. split; [now rewrite Hsuf|].
        split; [exact Hc'|]. split; [exact Hi'|]. split; [exact Ht'|].
        split; [rewrite Hm', Hm1; now rewrite <- app_assoc|].
        exact (keeps_real_app h [p] added1 seg added Hk1 Hk'). }
      destruct (IsDegenerate f) eqn:Hdeg; cbn [negb] in Hreal; rewrite Hreal in Hcnt.
      * match goal with
        | |- context [if ?b then _ else _] => destruct b
        end.
        -- apply (Hstep _ [p]); cbn [pc_faceCtr pc_degenerateCount pc_currentStrip push_face
                                     NvStripInfo.m_faces];
             [lia | lia | reflexivity | apply keeps_real_refl].
        -- apply (Hstep _ []); cbn [pc_faceCtr pc_degenerateCount pc_currentStrip];
             [lia | lia | now rewrite app_nil_r | now apply keeps_real_skip].
      * apply (Hstep _ [p]); cbn [pc_faceCtr pc_degenerateCount pc_currentStrip push_face
                                   NvStripInfo.m_faces];
          [lia | lia | reflexivity | apply keeps_real_refl].
    + exists c, [], (p :: suf), []. rewrite !app_nil_r.
      split; [reflexivity|]. split; [reflexivity|]. split; [exact Hctr|].
      split; [exact Hinv|]. split; [lia|]. split; [reflexivity | apply keeps_real_nil].
Qed.

Lemma split_absorb_spec (numLeftover : Z) (suf : NvFaceInfoVec) :
  forall (pre : NvFaceInfoVec) (c : Piece) (ctr : Z) (fuel : nat),
    faces_ = pre ++ suf ->
    pc_faceCtr c = Z.of_nat (length pre) ->
    pc_faceCtr c - pc_degenerateCount c = real_count h pre ->
    ctr <= numLeftover -> numLeftover - ctr <= real_count h suf ->
    (length suf < fuel)%nat ->
    exists c' seg suf',
      split_absorb fuel h faces_ numLeftover ctr c = Ok c' /\
      suf = seg ++ suf' /\
      pc_faceCtr c' - pc_degenerateCount c' = real_count h (pre ++ seg) /\
      real_count h seg = numLeftover - ctr /\
      NvStripInfo.m_faces (pc_currentStrip c')
      = NvStripInfo.m_faces (pc_currentStrip c) ++ seg.
Proof.
  induction suf as [|p suf IH]; intros pre c ctr fuel Hf Hctr Hinv Hle Hneed Hfuel;
    cbn [length] in Hfuel.
  - change (real_count h []) with 0 in Hneed.
    destruct fuel as [|fuel]; [lia|]. cbn [split_absorb].
    destruct (Z.ltb_spec ctr numLeftover) as [Hlt|Hge]; [lia|].
    exists c, [], []. rewrite !app_nil_r.
    split; [reflexivity|]. split; [reflexivity|]. split; [exact Hinv|].
    split; [change (real_count h []) with 0; lia | reflexivity].
  - destruct fuel as [|fuel]; [lia|]. cbn [split_absorb].
    destruct (Z.ltb_spec ctr numLeftover) as [Hlt|Hge].
    + destruct (split_read pre suf p Hf) as (f & Hat & Hface & Hreal).
      rewrite Hctr, Hat. cbn [mbind res_bind]. rewrite Hface. cbn [mbind res_bind].
      assert (Hf' : faces_ = (pre ++ [p]) ++ suf) by (now rewrite <- app_assoc).
      pose proof (real_count_app h pre [p]) as Hcnt. rewrite real_count_one in Hcnt.
      pose proof (real_count_app h [p] suf) as Hcnt2. rewrite real_count_one in Hcnt2.
      cbn [app] in Hcnt2.
      assert (Hstep : forall c1 ctr1,
                 pc_faceCtr c1 = Z.of_nat (length (pre ++ [p])) ->
                 pc_faceCtr c1 - pc_degenerateCount c1 = real_count h (pre ++ [p]) ->
                 NvStripInfo.m_faces (pc_currentStrip c1)
                 = NvStripInfo.m_faces (pc_currentStrip c) ++ [p] ->
                 ctr1 = ctr + (if real_face h p then 1 else 0) ->
                 exists c' seg suf',
                   split_absorb fuel h faces_ numLeftover ctr1 c1 = Ok c' /\
                   p :: suf = seg ++ suf' /\
                   pc_faceCtr c' - pc_degenerateCount c' = real_count h (pre ++ seg) /\
                   real_count h seg = numLeftover - ctr /\
                   NvStripInfo.m_faces (pc_currentStrip c')
                   = NvStripInfo.m_faces (pc_currentStrip c) ++ seg).
      { intros c1 ctr1 Hc1 Hi1 Hm1 Hctr1.
        destruct (IH (pre ++ [p]) c1 ctr1 fuel Hf' Hc1 Hi1) as
          (c' & seg & suf' & Hrun & Hsuf & Hi' & Hr' & Hm');
          [destruct (real_face h p) eqn:Hrf; rewrite ?Hrf in *; lia | destruct (real_face h p) eqn:Hrf; rewrite ?Hrf in *; lia | lia |].
        exists c', (p :: seg), suf'.
        rewrite <- app_assoc in Hi'. cbn [app] in Hi'.
        split; [exact Hrun|]. split; [now rewrite Hsuf|]. split; [exact Hi'|].
        split.
        - pose proof (real_count_app h [p] seg) as Hc3. rewrite real_count_one in Hc3.
          cbn [app] in Hc3. destruct (real_face h p) eqn:Hrf; rewrite ?Hrf in *; lia.
        - rewrite Hm', Hm1. now rewrite <- app_assoc. }
      assert (Hlen : Z.of_nat (length pre) + 1 = Z.of_nat (length (pre ++ [p])))
        by (rewrite length_app; cbn [length]; lia).
      destruct (IsDegenerate f) eqn:Hdeg; cbn [negb] in Hreal |- *;
        rewrite Hreal in Hcnt;
        apply Hstep; cbn [pc_faceCtr pc_degenerateCount pc_currentStrip push_face
                            NvStripInfo.m_faces];
        rewrite ?Hreal; first [reflexivity | lia].
    + exists c, [], (p :: suf). rewrite !app_nil_r.
      split; [reflexivity|]. split; [reflexivity|]. split; [exact Hinv|].
      split; [change (real_count h []) with 0; lia | reflexivity].
Qed.

Lemma split_tail_spec (numLeftover : Z) (suf : NvFaceInfoVec) :
  forall (pre : NvFaceInfoVec) (ctr : Z) (bFirstTime : bool)
         (currentStrip : NvStripInfo.t) (fuel : nat),
    faces_ = pre ++ suf ->
    ctr <= numLeftover -> numLeftover - ctr <= real_count h suf ->
    (length suf < fuel)%nat ->
    exists strip' seg suf' added,
      split_tail fuel h faces_ numLeftover ctr (Z.of_nat (length pre)) bFirstTime
        currentStrip = Ok strip' /\
      suf = seg ++ suf' /\
      real_count h seg = numLeftover - ctr /\
      NvStripInfo.m_faces strip' = NvStripInfo.m_faces currentStrip ++ added /\
      keeps_real h seg added.
Proof.
  induction suf as [|p suf IH]; intros pre ctr bFirst strip fuel Hf Hle Hneed Hfuel;
    cbn [length] in Hfuel.
  - change (real_count h []) with 0 in Hneed.
    destruct fuel as [|fuel]; [lia|]. cbn [split_tail].
    destruct (Z.ltb_spec ctr numLeftover) as [Hlt|Hge]; [lia|].
    exists strip, [], [], []. rewrite !app_nil_r.
    split; [reflexivity|]. split; [reflexivity|].
    split; [change (real_count h []) with 0; lia|].
    split; [reflexivity | apply keeps_real_nil].
  - destruct fuel as [|fuel]; [lia|]. cbn [split_tail].
    destruct (Z.ltb_spec ctr numLeftover) as [Hlt|Hge].
    + destruct (split_read pre suf p Hf) as (f & Hat & Hface & Hreal).
      rewrite Hat. cbn [mbind res_bind]. rewrite Hface. cbn [mbind res_bind].
      assert (Hf' : faces_ = (pre ++ [p]) ++ suf) by (now rewrite <- app_assoc).
      assert (Hlen : Z.of_nat (length pre) + 1 = Z.of_nat (length (pre ++ [p])))
        by (rewrite length_app; cbn [length]; lia).
      pose proof (real_count_app h [p] suf) as Hcnt2. rewrite real_count_one in Hcnt2.
      cbn [app] in Hcnt2. rewrite Hlen.
      assert (Hstep : forall ctr1 b1 strip1 added1,
                 NvStripInfo.m_faces strip1 = NvStripInfo.m_faces strip ++ added1 ->
                 keeps_real h [p] added1 ->
                 ctr1 = ctr + (if real_face h p then 1 else 0) ->
                 exists strip' seg suf' added,
                   split_tail fuel h faces_ numLeftover ctr1
                     (Z.of_nat (length (pre ++ [p]))) b1 strip1 = Ok strip' /\
                   p :: suf = seg ++ suf' /\
                   real_count h seg = numLeftover - ctr /\
                   NvStripInfo.m_faces strip' = NvStripInfo.m_faces strip ++ added /\
                   keeps_real h seg added).
      { intros ctr1 b1 strip1 added1 Hm1 Hk1 Hctr1.
        destruct (IH (pre ++ [p]) ctr1 b1 strip1 fuel Hf') as
          (strip' & seg & suf' & added & Hrun & Hsuf & Hr' & Hm' & Hk');
          [destruct (real_face h p) eqn:Hrf; rewrite ?Hrf in *; lia | destruct (real_face h p) eqn:Hrf; rewrite ?Hrf in *; lia | lia |].
        exists strip', (p :: seg), suf', (added1 ++ added).
        split; [exact Hrun|]. split; [now rewrite Hsuf|]. split.
        - pose proof (real_count_app h [p] seg) as Hc3. rewrite real_count_one in Hc3.
          cbn [app] in Hc3. destruct (real_face h p) eqn:Hrf; rewrite ?Hrf in *; lia.
        - split; [rewrite Hm', Hm1; now rewrite <- app_assoc|].
          exact (keeps_real_app h [p] added1 seg added Hk1 Hk'). }
      destruct (IsDegenerate f) eqn:Hdeg; cbn [negb] in Hreal |- *.
      * destruct bFirst; cbn [negb].
        -- apply (Hstep _ _ _ []);
             [now rewrite app_nil_r | now apply keeps_real_skip | rewrite Hreal; lia].
        -- apply (Hstep _ _ _ [p]);
             [reflexivity | apply keeps_real_refl | rewrite Hreal; lia].
      * apply (Hstep _ _ _ [p]);
          [reflexivity | apply keeps_real_refl | rewrite Hreal; lia].
    + exists strip, [], (p :: suf), []. rewrite !app_nil_r.
      split; [reflexivity|]. split; [reflexivity|].
      split; [change (real_count h []) with 0; lia|].
      split; [reflexivity | apply keeps_real_nil].
Qed.
End Split.


Lemma split_pieces_spec (h : Heap) (faces_ : NvFaceInfoVec) (threshold numTimes : Z) :
  Forall (fun p => is_Some (faces h !! p)) faces_ ->
  0 < threshold ->
  forall (n : nat) (j numLeftover degenerateCount : Z) (pre suf : NvFaceInfoVec)
         (tempStrips : NvStripInfoVec),
    faces_ = pre ++ suf ->
    0 <= j -> j + Z.of_nat n = numTimes ->
    0 <= numLeftover ->
    real_count h faces_ = numTimes * threshold + numLeftover ->
    real_count h pre = j * threshold ->
    Z.of_nat (length pre) - degenerateCount = real_count h pre ->
    exists pieces degenerateCount' numLeftover' seg suf',
      split_pieces n h faces_ threshold j numTimes numLeftover degenerateCount tempStrips
      = Ok (tempStrips ++ pieces, degenerateCount', numLeftover') /\
      suf = seg ++ suf' /\
      keeps_real h seg (strips_faces pieces) /\
      Forall (fun pc => real_count h (NvStripInfo.m_faces pc) <= threshold + 3) pieces /\
      ((numLeftover' = numLeftover /\
        real_count h (pre ++ seg) = numTimes * threshold /\
        Z.of_nat (length (pre ++ seg)) - degenerateCount' = real_count h (pre ++ seg)) \/
       (numLeftover' = 0 /\ real_count h (pre ++ seg) = real_count h faces_)).
Proof.
  intros Hvalid Hthr. induction n as [|n IH];
    intros j nl d pre suf tempStrips Hf Hj Hjn Hnl Htotal Hpre Hinv.
  - exists [], d, nl, [], suf. cbn [split_pieces]. rewrite !app_nil_r.
    split; [reflexivity|]. split; [reflexivity|].
    split; [apply keeps_real_nil|]. split; [constructor|]. left. split; [reflexivity|].
    split; [|exact Hinv]. rewrite Hpre. f_equal. lia.
  - cbn [split_pieces]. cbv zeta.
    destruct (split_piece_spec h faces_ threshold Hvalid j numTimes nl suf pre
                (mkPiece empty_strip (j * threshold + d) d true)
                (S (length faces_)) Hf) as
      (c & seg1 & suf1 & added1 & Hrun1 & Hsuf1 & Hc1 & Hi1 & Ht1 & Hm1 & Hk1);
      cbn [pc_faceCtr pc_degenerateCount].
    { lia. }
    { lia. }
    { split; [lia|]. rewrite Htotal. nia. }
    { rewrite Hf, length_app. lia. }
    rewrite Hrun1. cbn [mbind res_bind].
    cbn [pc_currentStrip empty_strip NvStripInfo.new NvStripInfo.m_faces app] in Hm1.
    assert (Hpiece1 : real_count h added1 = threshold).
    { rewrite (keeps_real_count _ _ _ Hk1).
      rewrite real_count_app in Ht1. lia. }
    assert (Hf1 : faces_ = (pre ++ seg1) ++ suf1)
      by (now rewrite <- app_assoc, <- Hsuf1).
    destruct ((j =? numTimes - 1) && (nl <? 4) && (0 <? nl)) eqn:Habsorb.
    + (* the last piece takes the few faces left over *)
      apply andb_true_iff in Habsorb as [Ha H0]. apply andb_true_iff in Ha as [Hlast H4].
      apply Z.eqb_eq in Hlast. apply Z.ltb_lt in H4, H0.
      assert (n = 0%nat) as -> by lia.
      destruct (split_absorb_spec h faces_ Hvalid nl suf1 (pre ++ seg1) c 0
                  (S (length faces_)) Hf1 Hc1 Hi1) as
        (c' & seg2 & suf2 & Hrun2 & Hsuf2 & Hi2 & Hr2 & Hm2); try lia.
      { pose proof (real_count_app h (pre ++ seg1) suf1) as Hsplit.
        rewrite <- Hf1 in Hsplit. nia. }
      { rewrite Hf1, length_app. lia. }
      rewrite Hrun2. cbn [mbind res_bind split_pieces].
      exists [pc_currentStrip c'], (pc_degenerateCount c'), 0, (seg1 ++ seg2), suf2.
      split; [reflexivity|]. split; [rewrite Hsuf1, Hsuf2; now rewrite <- app_assoc|].
      unfold strips_faces. cbn [map concat]. rewrite app_nil_r, Hm2, Hm1.
      split; [apply keeps_real_app; [exact Hk1 | apply keeps_real_refl]|].
      split.
      * constructor; [|constructor]. rewrite Hm2, Hm1, real_count_app. lia.
      * right. split; [reflexivity|].
        rewrite app_assoc, real_count_app, Ht1, Hr2, Htotal. nia.
    + rewrite andb_false_iff, andb_false_iff in Habsorb.
      cbn [mbind res_bind].
      destruct (IH (j + 1) nl (pc_degenerateCount c) (pre ++ seg1) suf1
                  (tempStrips ++ [pc_currentStrip c]) Hf1) as
        (pieces & d' & nl' & seg2 & suf2 & Hrun2 & Hsuf2 & Hk2 & Hsz2 & Hfin);
        try lia.
      rewrite Hrun2.
      exists (pc_currentStrip c :: pieces), d', nl', (seg1 ++ seg2), suf2.
      split; [now rewrite <- app_assoc|].
      split; [rewrite Hsuf1, Hsuf2; now rewrite <- app_assoc|].
      split; [|split].
      * unfold strips_faces. cbn [map concat]. rewrite Hm1.
        apply keeps_real_app; assumption.
      * constructor; [rewrite Hm1; lia | exact Hsz2].
      * rewrite app_assoc. exact Hfin.
Qed.

(** The pieces of one strip. *)
Lemma split_strip_spec (h : Heap) (threshold : Z) (faces_ : NvFaceInfoVec) :
  0 < threshold ->
  Forall (fun p => is_Some (faces h !! p)) faces_ ->
  exists pieces,
    split_strip h threshold faces_ = Ok pieces /\
    keeps_real h faces_ (strips_faces pieces) /\
    Forall (fun pc => real_count h (NvStripInfo.m_faces pc) <= threshold + 3) pieces.
Proof.
  intros Hthr Hvalid. unfold split_strip.
  destruct (deref_faces_real_count h faces_ Hvalid) as (fs & Hfs & Hcount).
  rewrite Hfs. cbn [mbind res_bind]. cbv zeta. rewrite Hcount.
  pose proof (real_count_nonneg h faces_) as Hnn.
  destruct (Z.ltb_spec threshold (real_count h faces_)) as [Hbig|Hsmall].
  - set (total := real_count h faces_) in *.
    rewrite Z.quot_div_nonneg, Z.rem_mod_nonneg by lia.
    pose proof (Z.div_mod total threshold ltac:(lia)) as Hdm.
    pose proof (Z.mod_pos_bound total threshold Hthr) as Hmod.
    assert (Hq : 1 <= total / threshold)
      by (apply Z.div_le_lower_bound; lia).
    destruct (split_pieces_spec h faces_ threshold (total / threshold) Hvalid Hthr
                (Z.to_nat (total / threshold)) 0 (total mod threshold) 0 [] faces_ [])
      as (pieces & d' & nl' & seg & suf' & Hrun & Hsuf & Hk & Hsz & Hfin);
      try reflexivity; try lia.
    cbn [app] in Hrun, Hfin. rewrite Hrun. cbn [mbind res_bind].
    destruct Hfin as [(-> & Hreal & Hinv)|(-> & Hreal)].
    + destruct (Z.eqb_spec (total mod threshold) 0) as [Hz|Hnz]; cbn [negb].
      * exists pieces. split; [reflexivity|]. split; [|exact Hsz].
        rewrite Hsuf. apply keeps_real_rest; [exact Hk|].
        pose proof (real_count_app h seg suf') as Hsplit. rewrite <- Hsuf in Hsplit.
        fold total in Hsplit. lia.
      * assert (Hoff : total / threshold * threshold + d' = Z.of_nat (length seg))
          by lia.
        rewrite Hoff.
        destruct (split_tail_spec h faces_ Hvalid (total mod threshold) suf' seg 0 true
                    empty_strip (S (length faces_))) as
          (tail & seg2 & suf2 & added & Hrun2 & Hsuf2 & Hr2 & Hm2 & Hk2); try lia.
        { exact Hsuf. }
        { pose proof (real_count_app h seg suf') as Hsplit. rewrite <- Hsuf in Hsplit.
          fold total in Hsplit. lia. }
        { rewrite Hsuf, length_app. lia. }
        rewrite Hrun2. cbn [mbind res_bind].
        cbn [empty_strip NvStripInfo.new NvStripInfo.m_faces app] in Hm2.
        exists (pieces ++ [tail]). split; [reflexivity|].
        rewrite strips_faces_snoc, Hm2. split.
        -- rewrite Hsuf, Hsuf2, app_assoc. apply keeps_real_rest.
           ++ apply keeps_real_app; assumption.
           ++ pose proof (real_count_app h seg suf') as Hs1. rewrite <- Hsuf in Hs1.
              pose proof (real_count_app h seg2 suf2) as Hs2. rewrite <- Hsuf2 in Hs2.
              fold total in Hs1. pose proof (real_count_nonneg h suf2). lia.
        -- apply Forall_app. split; [exact Hsz|]. constructor; [|constructor].
           rewrite Hm2, (keeps_real_count _ _ _ Hk2). lia.
    + cbn [Z.eqb negb]. exists pieces. split; [reflexivity|]. split; [|exact Hsz].
      rewrite Hsuf. apply keeps_real_rest; [exact Hk|].
      pose proof (real_count_app h seg suf') as Hsplit. rewrite <- Hsuf in Hsplit.
      fold total in Hreal. lia.
  - eexists. split; [reflexivity|]. unfold strips_faces. cbn [map concat NvStripInfo.m_faces].
    rewrite app_nil_r. split; [apply keeps_real_refl|].
    constructor; [cbn [NvStripInfo.m_faces]; lia | constructor].
Qed.

(** X18.  The first loop of [SplitUpStripsAndOptimize], which cuts every
    strip into pieces for the cache, loses no triangle: the faces of the
    pieces, in their order, are the faces of the strips in their order
    without some of the degenerate ones; every face that is not degenerate
    is in exactly the place where it was; and no piece has more than
    [threshold + 3] faces that are not degenerate.  The loops end and read
    no face past the end of a strip.  Proved for a threshold of at least
    one (the clamped cache size) and valid face pointers. *)
Theorem split_keeps_every_real_face (h : Heap) (threshold : Z)
  (allStrips : NvStripInfoVec) :
  0 < threshold ->
  Forall (fun s => Forall (fun p => is_Some (faces h !! p)) (NvStripInfo.m_faces s))
         allStrips ->
  exists tempStrips,
    split_all h threshold allStrips = Ok tempStrips /\
    sublist (strips_faces tempStrips) (strips_faces allStrips) /\
    real_faces h (strips_faces tempStrips) = real_faces h (strips_faces allStrips) /\
    Forall (fun pc => real_count h (NvStripInfo.m_faces pc) <= threshold + 3) tempStrips.
Proof.
  intros Hthr. induction 1 as [|s rest Hs _ (more & Hmore & Hsub & Hreal & Hsz)].
  - exists []. split; [reflexivity|]. split; [constructor|]. split; [reflexivity|constructor].
  - destruct (split_strip_spec h threshold (NvStripInfo.m_faces s) Hthr Hs)
      as (pieces & Hrun & [Hsub1 Hreal1] & Hsz1).
    exists (pieces ++ more). cbn [split_all]. rewrite Hrun. cbn [mbind res_bind].
    rewrite Hmore. cbn [mbind res_bind]. split; [reflexivity|].
    rewrite strips_faces_app.
    change (strips_faces (s :: rest))
      with (NvStripInfo.m_faces s ++ strips_faces rest).
    split; [now apply sublist_app|]. split; [|now apply Forall_app].
    rewrite !real_faces_app. congruence.
Qed.

Lemma split_keeps_every_real_face_witness :
  let h := heap two_triangles in
  let s := NvStripInfo.mk (NvStripStartInfo.mk (Some 0%nat) (Some 0%nat) true)
             [0%nat; 1%nat] 0 (-1) false 0 [] in
  exists tempStrips,
    split_all h 1 [s] = Ok tempStrips /\
    sublist (strips_faces tempStrips) (strips_faces [s]) /\
    real_faces h (strips_faces tempStrips) = real_faces h (strips_faces [s]) /\
    Forall (fun pc => real_count h (NvStripInfo.m_faces pc) <= 1 + 3) tempStrips.
Proof.
  intros h s. apply (split_keeps_every_real_face h 1 [s]).
  - lia.
  - apply Forall_cons. split; [|apply Forall_nil_2].
    apply Forall_cons. split; [vm_compute; eauto|].
    apply Forall_cons. split; [vm_compute; eauto|]. apply Forall_nil_2.
Defined.


(** ** The cache order of the pieces *)

Lemma hits_ok_gt (x : f32) : hits_ok x -> f32_gt x f32_neg_one = true.
Proof. intros [->|(m & e & ->)]; reflexivity. Qed.

Lemma hits_ok_eq (x : f32) : hits_ok x -> f32_eq x f32_neg_one = false.
Proof. intros [->|(m & e & ->)]; reflexivity. Qed.

Lemma CalcNumHitsStrip_count_spec (vcache : VertexCache.t) (fs : list NvFaceInfo.t) :
  forall numHits numFaces,
    exists hits,
      CalcNumHitsStrip_count vcache fs numHits numFaces
      = (numHits + hits, numFaces + vec_size fs) /\
      0 <= hits <= 3 * vec_size fs.
Proof.
  induction fs as [|f fs IH]; intros a b.
  - exists 0. cbn. split; [f_equal; unfold vec_size; cbn; lia | unfold vec_size; cbn; lia].
  - cbn [CalcNumHitsStrip_count].
    destruct (IH (a + CalcNumHitsFace vcache f) (b + 1)) as (hits & -> & Hh).
    pose proof (CalcNumHitsFace_range vcache f) as Hr.
    exists (CalcNumHitsFace vcache f + hits). unfold vec_size in *. cbn [length].
    split; [f_equal; lia | lia].
Qed.

Lemma CalcNumHitsStrip_ok (vcache : VertexCache.t) (fs : list NvFaceInfo.t) :
  vec_size fs < 2 ^ 62 -> hits_ok (CalcNumHitsStrip vcache fs).
Proof.
  intros Hsmall. unfold CalcNumHitsStrip.
  destruct (CalcNumHitsStrip_count_spec vcache fs 0 0) as (hits & -> & Hh).
  rewrite !Z.add_0_l.
  destruct (Z.eqb_spec (vec_size fs) 0) as [Hz|Hnz]; cbn [negb]; [now left|].
  assert (Hpos : 0 < vec_size fs < 2 ^ 64) by (unfold vec_size in *; lia).
  destruct (f32_of_Z_finite (vec_size fs) Hpos) as (mb & eb & Hfb & Hmb).
  destruct (Z.eq_dec hits 0) as [->|Hne].
  - rewrite Hfb. left. reflexivity.
  - pose proof (f32_of_Z_finite hits ltac:(lia)) as Hfa.
    assert (Hpb : positive_finite (f32_of_Z (vec_size fs)) 1 65)
      by (exists mb, eb; auto).
    destruct (f32_div_finite _ _ 1 65 1 65 Hfa Hpb ltac:(lia) ltac:(lia))
      as (m & e & Hq & _).
    right. eauto.
Qed.

Lemma deref_faces_length (h : Heap) (ps : NvFaceInfoVec) (fs : list NvFaceInfo.t) :
  NvStripInfo.deref_faces h ps = Ok fs -> length fs = length ps.
Proof.
  revert fs. induction ps as [|p ps IH]; intros fs H; cbn [NvStripInfo.deref_faces] in H.
  - now injection H as <-.
  - res_open H as f. res_open H as fs'. injection H as <-.
    cbn [length]. f_equal. now apply IH.
Qed.

Lemma best_strip_spec (h : Heap) (vcache : VertexCache.t) (bWantsCW : bool)
  (strips : NvStripInfoVec) :
  Forall (fun s => vec_size (NvStripInfo.m_faces s) < 2 ^ 62) strips ->
  forall (i : Z) (bestNumHits : f32) (bestIndex : Z) (bestNumHits' : f32)
         (bestIndex' : Z),
    best_strip h vcache bWantsCW strips i bestNumHits bestIndex
    = Ok (bestNumHits', bestIndex') ->
    bestNumHits = f32_neg_one \/ hits_ok bestNumHits ->
    (bestNumHits' = f32_neg_one /\ bestNumHits = f32_neg_one /\
     Forall (fun s => NvStripInfo.visited s = true) strips) \/
    (hits_ok bestNumHits' /\
     ((bestIndex' = bestIndex /\ hits_ok bestNumHits) \/
      exists (k : nat) (s : NvStripInfo.t),
        bestIndex' = i + Z.of_nat k /\ strips !! k = Some s /\
        NvStripInfo.visited s = false)).
Proof.
  induction 1 as [|s strips Hs _ IH]; intros i bn bi bn' bi' H Hbn;
    cbn [best_strip] in H.
  - injection H as <- <-. destruct Hbn as [->|Hok].
    + left. split; [reflexivity|]. split; [reflexivity | constructor].
    + right. split; [exact Hok|]. left. split; [reflexivity | exact Hok].
  - assert (Hshift : forall bn0 bi0,
               (hits_ok bn' /\
                ((bi' = bi0 /\ hits_ok bn0) \/
                 exists (k : nat) (s0 : NvStripInfo.t),
                   bi' = i + 1 + Z.of_nat k /\ strips !! k = Some s0 /\
                   NvStripInfo.visited s0 = false)) ->
               (bi0 = bi /\ (hits_ok bn0 -> hits_ok bn)) \/
               (bi0 = i /\ NvStripInfo.visited s = false) ->
               hits_ok bn' /\
               ((bi' = bi /\ hits_ok bn) \/
                exists (k : nat) (s0 : NvStripInfo.t),
                  bi' = i + Z.of_nat k /\ (s :: strips) !! k = Some s0 /\
                  NvStripInfo.visited s0 = false)).
    { intros bn0 bi0 [Hok' [[-> Hok0]|(k & s0 & -> & Hk & Hv)]] Hfrom.
      - split; [exact Hok'|]. destruct Hfrom as [[-> Himp]|[-> Hv]].
        + left. auto.
        + right. exists 0%nat, s. split; [lia|]. auto.
      - split; [exact Hok'|]. right. exists (S k), s0. split; [lia|]. auto. }
    destruct (NvStripInfo.visited s) eqn:Hvis.
    + apply IH in H; [|exact Hbn].
      destruct H as [(-> & -> & Hall)|Hgood].
      * left. split; [reflexivity|]. split; [reflexivity|]. now constructor.
      * right. apply (Hshift bn bi Hgood). left. auto.
    + res_open H as fs.
      assert (Hnum : hits_ok (CalcNumHitsStrip vcache fs)).
      { apply CalcNumHitsStrip_ok. unfold vec_size in *.
        now rewrite (deref_faces_length _ _ _ E). }
      destruct (f32_gt (CalcNumHitsStrip vcache fs) bn) eqn:Hgt.
      * apply IH in H; [|now right].
        destruct H as [(_ & Hbad & _)|Hgood].
        -- exfalso. rewrite Hbad in Hnum.
           destruct Hnum as [Hn|(m & e & Hn)]; discriminate.
        -- right. apply (Hshift _ i Hgood). right. auto.
      * assert (Hbn_ok : hits_ok bn).
        { destruct Hbn as [->|Hok]; [|exact Hok].
          rewrite (hits_ok_gt _ Hnum) in Hgt. discriminate. }
        assert (Hkeep : forall bi0,
                   best_strip h vcache bWantsCW strips (i + 1) bn bi0 = Ok (bn', bi') ->
                   bi0 = bi \/ bi0 = i ->
                   hits_ok bn' /\
                   ((bi' = bi /\ hits_ok bn) \/
                    exists (k : nat) (s0 : NvStripInfo.t),
                      bi' = i + Z.of_nat k /\ (s :: strips) !! k = Some s0 /\
                      NvStripInfo.visited s0 = false)).
        { intros bi0 Hrun Hbi0. apply IH in Hrun; [|now right].
          destruct Hrun as [(_ & Hbad & _)|Hgood].
          - exfalso. rewrite Hbad in Hbn_ok.
            destruct Hbn_ok as [Hn|(m & e & Hn)]; discriminate.
          - apply (Hshift bn bi0 Hgood).
            destruct Hbi0 as [->| ->]; [left | right]; auto. }
        right. destruct (f32_ge (CalcNumHitsStrip vcache fs) bn).
        -- res_open H as f0.
           destruct (eqb bWantsCW _); apply (Hkeep _ H); auto.
        -- apply (Hkeep _ H). auto.
Qed.

Lemma unvisited_strips_visit (strips : NvStripInfoVec) :
  forall (k : nat) (s : NvStripInfo.t),
    strips !! k = Some s -> NvStripInfo.visited s = false ->
    strips_faces (unvisited_strips strips)
    ≡ₚ NvStripInfo.m_faces s
       ++ strips_faces (unvisited_strips (<[k := set_visited s]> strips)).
Proof.
  induction strips as [|x strips IH]; intros k s Hk Hv; [inversion Hk|].
  destruct k as [|k]; cbn in Hk.
  - injection Hk as ->. cbn [insert list_insert unvisited_strips List.filter].
    rewrite Hv. cbn [negb set_visited NvStripInfo.visited]. reflexivity.
  - cbn [insert list_insert unvisited_strips List.filter].
    fold (unvisited_strips strips).
    fold (unvisited_strips (<[k := set_visited s]> strips)).
    destruct (negb (NvStripInfo.visited x)).
    + change (strips_faces (x :: ?l)) with (NvStripInfo.m_faces x ++ strips_faces l).
      rewrite (IH k s Hk Hv), !app_assoc.
      apply Permutation_app_tail, Permutation_app_comm.
    + now apply IH.
Qed.

Lemma unvisited_strips_visit_length (strips : NvStripInfoVec) :
  forall (k : nat) (s : NvStripInfo.t),
    strips !! k = Some s -> NvStripInfo.visited s = false ->
    length (unvisited_strips strips)
    = S (length (unvisited_strips (<[k := set_visited s]> strips))).
Proof.
  induction strips as [|x strips IH]; intros k s Hk Hv; [inversion Hk|].
  destruct k as [|k]; cbn in Hk.
  - injection Hk as ->. cbn [insert list_insert unvisited_strips List.filter].
    rewrite Hv. cbn [negb set_visited NvStripInfo.visited length]. reflexivity.
  - cbn [insert list_insert unvisited_strips List.filter].
    fold (unvisited_strips strips).
    fold (unvisited_strips (<[k := set_visited s]> strips)).
    destruct (negb (NvStripInfo.visited x)); cbn [length];
      rewrite (IH k s Hk Hv); reflexivity.
Qed.

Lemma unvisited_strips_all (strips : NvStripInfoVec) :
  Forall (fun s => NvStripInfo.visited s = true) strips -> unvisited_strips strips = [].
Proof.
  induction 1 as [|s strips Hs _ IH]; [reflexivity|].
  cbn [unvisited_strips List.filter]. rewrite Hs. exact IH.
Qed.

Lemma unvisited_strips_none (strips : NvStripInfoVec) :
  Forall (fun s => NvStripInfo.visited s = false) strips ->
  unvisited_strips strips = strips.
Proof.
  induction 1 as [|s strips Hs _ IH]; [reflexivity|].
  cbn [unvisited_strips List.filter]. rewrite Hs. cbn [negb]. f_equal. exact IH.
Qed.

Lemma optimize_order_spec (h : Heap) (fuel : nat) :
  forall (tempStrips2 : NvStripInfoVec) (vcache : VertexCache.t) (bWantsCW : bool)
         (bestIndex : Z) (outStrips out : NvStripInfoVec) (vcache' : VertexCache.t),
    Forall (fun s => vec_size (NvStripInfo.m_faces s) < 2 ^ 62) tempStrips2 ->
    optimize_order fuel h tempStrips2 vcache bWantsCW bestIndex outStrips
    = Ok (out, vcache') ->
    strips_faces out
    ≡ₚ strips_faces outStrips ++ strips_faces (unvisited_strips tempStrips2) /\
    length out = (length outStrips + length (unvisited_strips tempStrips2))%nat.
Proof.
  induction fuel as [|fuel IH]; intros ts vcache b bi outStrips out vcache' Hsmall H;
    [discriminate|].
  cbn [optimize_order] in H. res_open H as [bn' bi'].
  apply (best_strip_spec h vcache b ts Hsmall) in E; [|now left].
  destruct E as [(-> & _ & Hall)|[Hok [[_ Hbad]|(k & s & -> & Hk & Hv)]]].
  - change (f32_eq f32_neg_one f32_neg_one) with true in H. injection H as <- _.
    rewrite (unvisited_strips_all _ Hall). unfold strips_faces at 3. cbn.
    rewrite app_nil_r. split; [reflexivity | lia].
  - exfalso. destruct Hbad as [Hn|(m & e & Hn)]; discriminate.
  - rewrite (hits_ok_eq _ Hok) in H. rewrite Z.add_0_l in H.
    rewrite (vec_at_of_nat _ _ _ Hk) in H. cbn [mbind res_bind] in H.
    rewrite vec_set_of_nat in H by (now apply lookup_lt_Some in Hk).
    cbn [mbind res_bind] in H. res_open H as fs. res_open H as vcache1.
    apply IH in H as [Hperm Hlen].
    + split.
      * rewrite Hperm, strips_faces_snoc, (unvisited_strips_visit ts k s Hk Hv).
        cbn [set_visited NvStripInfo.m_faces]. now rewrite <- app_assoc.
      * rewrite Hlen, length_app. cbn [length].
        pose proof (unvisited_strips_visit_length ts k s Hk Hv). lia.
    + apply Forall_insert; [exact Hsmall|]. cbn [set_visited NvStripInfo.m_faces].
      rewrite Forall_forall in Hsmall. apply Hsmall.
      eapply list_elem_of_lookup_2. exact Hk.
Qed.


Lemma split_piece_visited (h : Heap) (faces_ : NvFaceInfoVec)
  (threshold j numTimes numLeftover : Z) (fuel : nat) :
  forall c c',
    split_piece fuel h faces_ threshold j numTimes numLeftover c = Ok c' ->
    NvStripInfo.visited (pc_currentStrip c') = NvStripInfo.visited (pc_currentStrip c).
Proof.
  induction fuel as [|fuel IH]; intros c c' H; cbn [split_piece] in H.
  - destruct (_ <? _); [discriminate | now injection H as <-].
  - destruct (_ <? _); [|now injection H as <-].
    res_open H as p. res_open H as f.
    destruct (IsDegenerate f); [destruct (_ && _)|]; apply IH in H; exact H.
Qed.

Lemma split_absorb_visited (h : Heap) (faces_ : NvFaceInfoVec) (numLeftover : Z)
  (fuel : nat) :
  forall ctr c c',
    split_absorb fuel h faces_ numLeftover ctr c = Ok c' ->
    NvStripInfo.visited (pc_currentStrip c') = NvStripInfo.visited (pc_currentStrip c).
Proof.
  induction fuel as [|fuel IH]; intros ctr c c' H; cbn [split_absorb] in H.
  - destruct (_ <? _); [discriminate | now injection H as <-].
  - destruct (_ <? _); [|now injection H as <-].
    res_open H as p. res_open H as f.
    destruct (negb (IsDegenerate f)); apply IH in H; exact H.
Qed.

Lemma split_tail_visited (h : Heap) (faces_ : NvFaceInfoVec) (numLeftover : Z)
  (fuel : nat) :
  forall ctr leftOff bFirstTime strip strip',
    split_tail fuel h faces_ numLeftover ctr leftOff bFirstTime strip = Ok strip' ->
    NvStripInfo.visited strip' = NvStripInfo.visited strip.
Proof.
  induction fuel as [|fuel IH]; intros ctr leftOff b strip strip' H;
    cbn [split_tail] in H.
  - destruct (_ <? _); [discriminate | now injection H as <-].
  - destruct (_ <? _); [|now injection H as <-].
    res_open H as p. res_open H as f.
    destruct (negb (IsDegenerate f)); [|destruct (negb b)]; apply IH in H; exact H.
Qed.

Lemma split_pieces_visited (h : Heap) (faces_ : NvFaceInfoVec)
  (threshold numTimes : Z) (n : nat) :
  forall j numLeftover degenerateCount tempStrips out d nl,
    split_pieces n h faces_ threshold j numTimes numLeftover degenerateCount tempStrips
    = Ok (out, d, nl) ->
    Forall (fun s => NvStripInfo.visited s = false) tempStrips ->
    Forall (fun s => NvStripInfo.visited s = false) out.
Proof.
  induction n as [|n IH]; intros j nl d ts out d' nl' H Hall; cbn [split_pieces] in H.
  - now injection H as <- _ _.
  - cbv zeta in H. res_open H as c. apply split_piece_visited in E.
    cbn [pc_currentStrip] in E. res_open H as [c1 nl1].
    eapply IH; [exact H|]. apply Forall_app. split; [exact Hall|].
    constructor; [|constructor].
    destruct (_ && _).
    + res_open E0 as c2. injection E0 as <- _.
      apply split_absorb_visited in E1. rewrite E1, E. reflexivity.
    + injection E0 as <- _. rewrite E. reflexivity.
Qed.

Lemma split_strip_visited (h : Heap) (threshold : Z) (faces_ : NvFaceInfoVec)
  (pieces : NvStripInfoVec) :
  split_strip h threshold faces_ = Ok pieces ->
  Forall (fun s => NvStripInfo.visited s = false) pieces.
Proof.
  unfold split_strip. intros H. res_open H as fs. cbv zeta in H.
  destruct (_ <? _).
  - res_open H as [[ps d] nl]. apply split_pieces_visited in E0; [|constructor].
    destruct (negb (nl =? 0)).
    + res_open H as tail. injection H as <-. apply split_tail_visited in E1.
      apply Forall_app. split; [exact E0|]. constructor; [exact E1 | constructor].
    + now injection H as <-.
  - injection H as <-. constructor; [reflexivity | constructor].
Qed.

(** The pieces of all strips, as the run gives them. *)
Lemma split_all_run (h : Heap) (threshold : Z) (allStrips tempStrips : NvStripInfoVec) :
  0 < threshold ->
  Forall (fun s => Forall (fun p => is_Some (faces h !! p)) (NvStripInfo.m_faces s))
         allStrips ->
  Forall (fun s => vec_size (NvStripInfo.m_faces s) < 2 ^ 62) allStrips ->
  split_all h threshold allStrips = Ok tempStrips ->
  keeps_real h (strips_faces allStrips) (strips_faces tempStrips) /\
  Forall (fun s => NvStripInfo.visited s = false) tempStrips /\
  Forall (fun s => vec_size (NvStripInfo.m_faces s) < 2 ^ 62) tempStrips.
Proof.
  intros Hthr Hvalid. revert tempStrips.
  induction Hvalid as [|s rest Hs _ IH]; intros ts Hsmall H; cbn [split_all] in H.
  - injection H as <-. split; [apply keeps_real_nil|]. split; constructor.
  - apply Forall_cons in Hsmall as [Hs1 Hsmall].
    res_open H as pieces. res_open H as more. injection H as <-.
    destruct (IH more Hsmall eq_refl) as (Hk & Hv & Hsz).
    destruct (split_strip_spec h threshold (NvStripInfo.m_faces s) Hthr Hs)
      as (pieces' & Hrun & Hk1 & _).
    rewrite E in Hrun. injection Hrun as <-.
    apply split_strip_visited in E.
    rewrite strips_faces_app.
    change (strips_faces (s :: rest))
      with (NvStripInfo.m_faces s ++ strips_faces rest).
    split; [now apply keeps_real_app|]. split; [now apply Forall_app|].
    apply Forall_app. split; [|exact Hsz].
    destruct Hk1 as [Hsub _]. apply sublist_length in Hsub.
    apply Forall_forall. intros pc Hpc.
    assert (Hle : (length (NvStripInfo.m_faces pc) <= length (strips_faces pieces))%nat).
    { clear -Hpc. induction pieces as [|x pieces IHp]; [inversion Hpc|].
      change (strips_faces (x :: pieces))
        with (NvStripInfo.m_faces x ++ strips_faces pieces).
      rewrite length_app. apply elem_of_cons in Hpc as [->|Hpc]; [lia|].
      specialize (IHp Hpc). lia. }
    unfold vec_size in *. lia.
Qed.

Lemma RemoveSmallStrips_run (s : NvStripifier.t) (h : Heap)
  (allStrips big : NvStripInfoVec) (faceList : NvFaceInfoVec) (vcache : VertexCache.t) :
  0 < NvStripifier.cacheSize s ->
  Forall (fun st => Forall (fun p => is_Some (faces h !! p)) (NvStripInfo.m_faces st))
         allStrips ->
  RemoveSmallStrips s h allStrips = Ok (big, faceList, vcache) ->
  big = filter (fun st => NvStripifier.minStripLength s
                          <= vec_size (NvStripInfo.m_faces st)) allStrips /\
  strips_faces big ++ faceList ≡ₚ strips_faces allStrips.
Proof.
  intros Hsize Hval H. unfold RemoveSmallStrips in H.
  rewrite RemoveSmallStrips_partition_spec in H.
  set (small st := vec_size (NvStripInfo.m_faces st) < NvStripifier.minStripLength s) in *.
  set (bigp st := NvStripifier.minStripLength s <= vec_size (NvStripInfo.m_faces st)) in *.
  fold (strips_faces (filter small allStrips)) in H.
  assert (Hpart : strips_faces (filter bigp allStrips)
                  ++ strips_faces (filter small allStrips)
                  ≡ₚ strips_faces allStrips).
  { clear. induction allStrips as [|x l IH]; [reflexivity|].
    rewrite !filter_cons. unfold small at 1, bigp at 1.
    change (strips_faces (x :: l)) with (NvStripInfo.m_faces x ++ strips_faces l).
    destruct (decide (NvStripifier.minStripLength s <= vec_size (NvStripInfo.m_faces x)))
      as [Hb|Hb].
    - rewrite decide_False by (unfold small; lia).
      change (strips_faces (x :: ?l)) with (NvStripInfo.m_faces x ++ strips_faces l).
      rewrite <- app_assoc. now apply Permutation_app_head.
    - rewrite decide_True by (unfold small; lia).
      change (strips_faces (x :: ?l)) with (NvStripInfo.m_faces x ++ strips_faces l).
      rewrite <- IH, !app_assoc.
      apply Permutation_app_tail, Permutation_app_comm. }
  set (temp := strips_faces (filter small allStrips)) in *.
  destruct (Z.eqb_spec (vec_size temp) 0) as [Hz|Hnz]; cbn [negb] in H.
  - injection H as <- <- _. split; [reflexivity|].
    assert (temp = []) as Ht by (destruct temp; [reflexivity | discriminate]).
    rewrite Ht in Hpart. exact Hpart.
  - assert (Htemp : Forall (fun p => is_Some (faces h !! p)) temp).
    { apply Forall_forall. intros p Hp. unfold temp, strips_faces in Hp.
      apply list_elem_of_In, in_concat in Hp as (l & Hl & Hpl).
      apply in_map_iff in Hl as (st & <- & Hst).
      apply list_elem_of_In in Hst, Hpl.
      apply list_elem_of_filter in Hst as [_ Hst].
      rewrite Forall_forall in Hval. specialize (Hval st Hst).
      rewrite Forall_forall in Hval. now apply Hval. }
    destruct (RemoveSmallStrips_order_spec h temp (S (length temp))
                (replicate (length temp) false)
                (VertexCache.new (NvStripifier.cacheSize s)) 0 [])
      as (faceList' & vcache' & Hrun & Hperm & _).
    + apply length_replicate.
    + exact Htemp.
    + now apply new_nonempty.
    + rewrite unvisited_faces_none. lia.
    + rewrite Hrun in H. cbn [mbind res_bind] in H. injection H as <- <- _.
      split; [reflexivity|]. rewrite Hperm, unvisited_faces_none. exact Hpart.
Qed.

Lemma optimize_order_Forall (P : NvStripInfo.t -> Prop) (h : Heap) (fuel : nat) :
  (forall s, P s -> P (set_visited s)) ->
  forall tempStrips2 vcache bWantsCW bestIndex outStrips out vcache',
    optimize_order fuel h tempStrips2 vcache bWantsCW bestIndex outStrips
    = Ok (out, vcache') ->
    Forall P tempStrips2 -> Forall P outStrips -> Forall P out.
Proof.
  intros HP. induction fuel as [|fuel IH];
    intros ts vcache b bi outStrips out vcache' H Hts Hout; [discriminate|].
  cbn [optimize_order] in H. res_open H as [bn' bi'].
  destruct (f32_eq bn' f32_neg_one); [now injection H as <- _|].
  res_open H as strip. res_open H as ts'. res_open H as fs. res_open H as vcache1.
  assert (Hstrip : P strip).
  { apply vec_at_Ok in E0 as [_ Hl]. rewrite Forall_forall in Hts.
    apply Hts. eapply list_elem_of_lookup_2. exact Hl. }
  eapply IH; [exact H| |].
  - unfold vec_set in E1. destruct (_ && _); [|discriminate]. injection E1 as <-.
    apply Forall_insert; [exact Hts | now apply HP].
  - apply Forall_app. split; [exact Hout|]. constructor; [now apply HP | constructor].
Qed.

Lemma real_faces_Permutation (h : Heap) (a b : NvFaceInfoVec) :
  a ≡ₚ b -> real_faces h a ≡ₚ real_faces h b.
Proof.
  unfold real_faces. induction 1 as [|x a b _ IH|x y a|a b c _ IH1 _ IH2];
    cbn [List.filter].
  - reflexivity.
  - destruct (real_face h x); [now constructor | exact IH].
  - destruct (real_face h x), (real_face h y); try reflexivity. apply perm_swap.
  - now rewrite IH1.
Qed.

Lemma SplitUpStripsAndOptimize_pieces (s : NvStripifier.t) (h : Heap)
  (allStrips : NvStripInfoVec) (edgeInfos : NvEdgeInfoVec) (o : Optimized) :
  0 < NvStripifier.cacheSize s ->
  Forall (fun st => Forall (fun p => is_Some (faces h !! p)) (NvStripInfo.m_faces st))
         allStrips ->
  Forall (fun st => vec_size (NvStripInfo.m_faces st) < 2 ^ 62) allStrips ->
  SplitUpStripsAndOptimize s h allStrips edgeInfos = Ok o ->
  exists tempStrips,
    split_all h (NvStripifier.cacheSize s) allStrips = Ok tempStrips /\
    strips_faces (op_outStrips o) ++ op_outFaceList o ≡ₚ strips_faces tempStrips /\
    Forall (fun st => NvStripifier.minStripLength s <= vec_size (NvStripInfo.m_faces st))
           (op_outStrips o).
Proof.
  intros Hsize Hvalid Hsmall H. unfold SplitUpStripsAndOptimize in H. cbv zeta in H.
  res_open H as tempStrips. exists tempStrips. split; [reflexivity|].
  destruct (split_all_run h _ _ _ Hsize Hvalid Hsmall E) as ([Hsub Hreal] & Hvis & Hsz).
  res_open H as [[tempStrips2 outFaceList] faceCache].
  assert (Hvalid' : Forall (fun st => Forall (fun p => is_Some (faces h !! p))
                                             (NvStripInfo.m_faces st)) tempStrips).
  { apply strips_faces_Forall. apply Forall_forall. intros p Hp.
    assert (Hin : p ∈ strips_faces allStrips)
      by (eapply elem_of_sublist; eassumption).
    apply strips_faces_Forall in Hvalid. rewrite Forall_forall in Hvalid. now apply Hvalid. }
  destruct (RemoveSmallStrips_run s h _ _ _ _ Hsize Hvalid' E0) as [Hbig Hpart].
  assert (Hts2 : Forall (fun st => NvStripInfo.visited st = false /\
                                   vec_size (NvStripInfo.m_faces st) < 2 ^ 62 /\
                                   NvStripifier.minStripLength s
                                   <= vec_size (NvStripInfo.m_faces st)) tempStrips2).
  { rewrite Hbig. apply Forall_forall. intros st Hst.
    apply list_elem_of_filter in Hst as [Hb Hst].
    rewrite Forall_forall in Hvis, Hsz. auto. }
  destruct (Z.eqb_spec (vec_size tempStrips2) 0) as [Hz|Hnz]; cbn [negb] in H.
  - injection H as <-. cbn [op_outStrips op_outFaceList].
    assert (tempStrips2 = []) as -> by (destruct tempStrips2; [reflexivity | discriminate]).
    split; [exact Hpart | constructor].
  - res_open H as firstIndex. res_open H as first. res_open H as fs.
    res_open H as vcache1. res_open H as tempStrips2'.
    res_open H as [outStrips vcache2]. injection H as <-.
    cbn [op_outStrips op_outFaceList].
    apply vec_at_Ok in E2 as [Hfi Hfirst].
    unfold vec_set in E5. destruct (_ && _); [|discriminate]. injection E5 as <-.
    pose proof Hts2 as Hts2'. rewrite Forall_forall in Hts2'.
    destruct (Hts2' first (list_elem_of_lookup_2 _ _ _ Hfirst)) as (Hfv & Hfs & Hfm).
    assert (Hsmall2 : Forall (fun st => vec_size (NvStripInfo.m_faces st) < 2 ^ 62)
                        (<[Z.to_nat firstIndex := set_visited first]> tempStrips2)).
    { apply Forall_insert; [|exact Hfs].
      eapply Forall_impl; [exact Hts2|]. cbn beta. tauto. }
    destruct (optimize_order_spec h _ _ _ _ _ _ _ _ Hsmall2 E6) as [Hperm _].
    split.
    + rewrite <- Hpart. apply Permutation_app_tail.
      rewrite Hperm. unfold strips_faces at 1. cbn [map concat set_visited NvStripInfo.m_faces].
      rewrite app_nil_r.
      rewrite <- (unvisited_strips_visit tempStrips2 _ first Hfirst Hfv).
      rewrite unvisited_strips_none; [reflexivity|].
      eapply Forall_impl; [exact Hts2|]. cbn beta. tauto.
    + eapply (optimize_order_Forall
                (fun st => NvStripifier.minStripLength s
                           <= vec_size (NvStripInfo.m_faces st))); [|exact E6| |].
      * intros st Hst. exact Hst.
      * apply Forall_insert; [|exact Hfm].
        eapply Forall_impl; [exact Hts2|]. cbn beta. tauto.
      * constructor; [exact Hfm | constructor].
Qed.

(** X19.  [SplitUpStripsAndOptimize] loses no triangle and makes none up:
    the faces of the strips that it puts out, together with the faces of
    its face list, are faces of the strips that came in, each at most as
    often as it came in; and the faces among them that are not degenerate
    are, up to their order, exactly those of the strips that came in.
    Every strip that is put out has at least [minStripLength] faces.
    Proved for a cache size of at least one, valid face pointers and
    strips of fewer than 2^62 faces. *)
Theorem SplitUpStripsAndOptimize_keeps_faces (s : NvStripifier.t) (h : Heap)
  (allStrips : NvStripInfoVec) (edgeInfos : NvEdgeInfoVec) (o : Optimized) :
  0 < NvStripifier.cacheSize s ->
  Forall (fun st => Forall (fun p => is_Some (faces h !! p)) (NvStripInfo.m_faces st))
         allStrips ->
  Forall (fun st => vec_size (NvStripInfo.m_faces st) < 2 ^ 62) allStrips ->
  SplitUpStripsAndOptimize s h allStrips edgeInfos = Ok o ->
  strips_faces (op_outStrips o) ++ op_outFaceList o ⊆+ strips_faces allStrips /\
  real_faces h (strips_faces (op_outStrips o) ++ op_outFaceList o)
  ≡ₚ real_faces h (strips_faces allStrips) /\
  Forall (fun st => NvStripifier.minStripLength s <= vec_size (NvStripInfo.m_faces st))
         (op_outStrips o).
Proof.
  intros Hsize Hvalid Hsmall H.
  destruct (SplitUpStripsAndOptimize_pieces _ _ _ _ _ Hsize Hvalid Hsmall H)
    as (tempStrips & Hsplit & Hperm & Hmin).
  destruct (split_all_run h _ _ _ Hsize Hvalid Hsmall Hsplit) as ([Hsub Hreal] & _).
  split; [|split; [|exact Hmin]].
  - rewrite Hperm. now apply sublist_submseteq.
  - rewrite (real_faces_Permutation h _ _ Hperm), Hreal. reflexivity.
Qed.

Lemma SplitUpStripsAndOptimize_keeps_faces_witness :
  let s := Stripify_begin [0; 1; 2; 2; 1; 3] 7 0 in
  let h := heap two_triangles in
  let st := NvStripInfo.mk (NvStripStartInfo.mk (Some 0%nat) (Some 0%nat) true)
              [0%nat; 1%nat] 0 (-1) false 0 [] in
  exists o,
    SplitUpStripsAndOptimize s h [st] (edgeInfos two_triangles) = Ok o /\
    strips_faces (op_outStrips o) ++ op_outFaceList o ⊆+ strips_faces [st] /\
    real_faces h (strips_faces (op_outStrips o) ++ op_outFaceList o)
    ≡ₚ real_faces h (strips_faces [st]) /\
    Forall (fun st' => NvStripifier.minStripLength s
                       <= vec_size (NvStripInfo.m_faces st'))
           (op_outStrips o).
Proof.
  intros s h st. eexists. split; [vm_compute; reflexivity|].
  apply (SplitUpStripsAndOptimize_keeps_faces s h [st] (edgeInfos two_triangles)).
  - vm_compute. reflexivity.
  - apply Forall_cons. split; [|apply Forall_nil_2].
    apply Forall_cons. split; [vm_compute; eauto|].
    apply Forall_cons. split; [vm_compute; eauto|]. apply Forall_nil_2.
  - apply Forall_cons. split; [vm_compute; reflexivity | apply Forall_nil_2].
  - vm_compute. reflexivity.
Defined.


(** ** Where the faces of a strip come from *)

























(** ** The triangles of a list of indices that [GenerateStrips] returns *)






Lemma deref_faces_lookup (h : Heap) (ps : NvFaceInfoVec) :
  forall fs,
    NvStripInfo.deref_faces h ps = Ok fs ->
    Forall2 (fun p f => faces h !! p = Some f) ps fs.
Proof.
  induction ps as [|p ps IH]; intros fs H; cbn [NvStripInfo.deref_faces] in H.
  - injection H as <-. constructor.
  - res_open H as f. res_open H as fs'. injection H as <-.
    unfold face_at in E. destruct (faces h !! p) as [f'|] eqn:Hp; [|discriminate].
    injection E as ->. constructor; [exact Hp | now apply IH].
Qed.





Lemma wrap_size_small (v : Z) : 0 <= v < 2 ^ 31 -> wrap_size v = v.
Proof. intros H. unfold wrap_size. apply Z.mod_small. lia. Qed.

















(** ** No index is made up *)

Lemma GetUniqueVertexInB_vertex (faceA faceB : NvFaceInfo.t) :
  GetUniqueVertexInB faceA faceB = -1 \/
  GetUniqueVertexInB faceA faceB ∈ face_vertices faceB.
Proof.
  unfold GetUniqueVertexInB. rewrite elem_of_face_vertices.
  repeat match goal with |- context [if ?c then _ else _] => destruct c end; auto.
Qed.

Lemma first_face_known (P : Z -> Prop) (b : bool) (faces : list NvFaceInfo.t)
  (f0 : NvFaceInfo.t) :
  vertices_in P f0 -> vertices_in P (first_face b faces f0).
Proof.
  intros (H0 & H1 & H2). unfold first_face, vertices_in.
  destruct faces as [|g0 [|f1 [|f2 more]]]; cbn [NvFaceInfo.new NvFaceInfo.m_v0
    NvFaceInfo.m_v1 NvFaceInfo.m_v2]; auto;
    repeat match goal with
           | |- context [let '(_, _) := ?p in _] => destruct p
           | |- context [if ?c then _ else _] => destruct c
           end;
    cbn; auto.
Qed.

Lemma CreateStrips_rest_known (Q : Z -> Prop) (faces : list NvFaceInfo.t) :
  Forall (vertices_in Q) faces ->
  forall (stripIndices : list Z) (tLastFace : NvFaceInfo.t),
    Forall Q stripIndices -> vertices_in Q tLastFace ->
    Forall Q (CreateStrips_rest faces stripIndices tLastFace).1 /\
    vertices_in Q (CreateStrips_rest faces stripIndices tLastFace).2.
Proof.
  induction 1 as [|f faces (F0 & F1 & F2) _ IH]; intros si tl Hsi (T0 & T1 & T2);
    cbn [CreateStrips_rest fst snd]; [split; [exact Hsi | now split]|].
  destruct (Z.eqb_spec (GetUniqueVertexInB tl f) (-1)) as [Hu|Hu]; cbn [negb].
  - apply IH.
    + apply Forall_app. split; [exact Hsi | constructor; [exact F2 | constructor]].
    + unfold vertices_in, set_vertices. cbn. auto.
  - assert (Hq : Q (GetUniqueVertexInB tl f)).
    { destruct (GetUniqueVertexInB_vertex tl f) as [He|He]; [contradiction|].
      apply elem_of_face_vertices in He as [->|[->| ->]]; assumption. }
    apply IH.
    + apply Forall_app. split; [exact Hsi | constructor; [exact Hq | constructor]].
    + unfold vertices_in, set_vertices. cbn. auto.
Qed.

Lemma CreateStrips_strip_known (Q : Z -> Prop) (bStitchStrips : bool)
  (nStripCount i : Z) (faces : list NvFaceInfo.t) (e e' : Emitter) :
  (bStitchStrips = false -> Q (-1)) ->
  Forall (vertices_in Q) faces ->
  Forall Q (em_stripIndices e) ->
  CreateStrips_strip bStitchStrips nStripCount i faces e = Ok e' ->
  Forall Q (em_stripIndices e').
Proof.
  intros Hsent Hfaces Hsi H. unfold CreateStrips_strip in H.
  res_open H as f0.
  assert (Hf0 : vertices_in Q f0).
  { apply vec_at_Ok in E as [_ E]. rewrite Forall_forall in Hfaces.
    apply Hfaces. eapply list_elem_of_lookup_2. exact E. }
  pose proof (first_face_known Q true faces f0 Hf0) as (V0 & V1 & V2).
  set (tFirstFace := first_face true faces f0) in *.
  match type of H with
  | context [CreateStrips_rest ?fs ?si ?tl] =>
      assert (Hrest : Forall Q (CreateStrips_rest fs si tl).1 /\
                      vertices_in Q (CreateStrips_rest fs si tl).2);
      [|destruct (CreateStrips_rest fs si tl) as [si' tl'] eqn:Hr]
  end.
  { apply CreateStrips_rest_known.
    - destruct faces as [|g rest]; [constructor|]. cbn [tail].
      now apply Forall_cons in Hfaces as [_ Hfaces].
    - apply Forall_app. split; [|repeat (constructor; [assumption|]); constructor].
      repeat match goal with |- context [if ?c then _ else _] => destruct c end;
        repeat (apply Forall_app; split); try exact Hsi;
        repeat (constructor; [assumption|]); constructor.
    - now split. }
  cbn [fst snd] in Hrest. destruct Hrest as [Hsi' (L0 & L1 & L2)].
  injection H as <-. cbn [em_stripIndices].
  destruct bStitchStrips; cbn [em_stripIndices].
  - destruct (negb (i =? nStripCount - 1)); [|exact Hsi'].
    apply Forall_app. split; [exact Hsi' | constructor; [exact L2 | constructor]].
  - apply Forall_app. split; [exact Hsi' | constructor; [now apply Hsent | constructor]].
Qed.

Lemma CreateStrips_loop_known (Q : Z -> Prop) (bStitchStrips : bool)
  (nStripCount : Z) (strips : list (list NvFaceInfo.t)) :
  (bStitchStrips = false -> Q (-1)) ->
  Forall (Forall (vertices_in Q)) strips ->
  forall (i : Z) (e e' : Emitter),
    Forall Q (em_stripIndices e) ->
    CreateStrips_loop bStitchStrips nStripCount i strips e = Ok e' ->
    Forall Q (em_stripIndices e').
Proof.
  intros Hsent. induction 1 as [|faces strips Hf _ IH]; intros i e e' Hsi H;
    cbn [CreateStrips_loop] in H.
  - now injection H as <-.
  - res_open H as e1. eapply IH; [|exact H].
    eapply CreateStrips_strip_known; eassumption.
Qed.

(** X22.  [CreateStrips] makes up no index: every element of the index
    stream that it builds is a vertex of a face of one of the strips, or,
    when the strips are not stitched, the separator [-1]. *)
Theorem CreateStrips_indices_are_vertices (allStrips : list (list NvFaceInfo.t))
  (bStitchStrips : bool) (stripIndices : list Z) (numSeparateStrips : Z) :
  CreateStrips allStrips bStitchStrips = Ok (stripIndices, numSeparateStrips) ->
  Forall (fun x => (exists f, f ∈ concat allStrips /\ x ∈ face_vertices f) \/
                   (bStitchStrips = false /\ x = -1)) stripIndices.
Proof.
  intros H. unfold CreateStrips in H. cbv zeta in H. res_open H as e.
  injection H as <- _.
  eapply (CreateStrips_loop_known _ bStitchStrips); [| | |exact E].
  - intros Hb. now right.
  - apply Forall_forall. intros faces Hfaces. apply Forall_forall. intros f Hf.
    assert (Hin : f ∈ concat allStrips).
    { apply list_elem_of_In, in_concat. exists faces.
      split; now apply list_elem_of_In. }
    unfold vertices_in. repeat split; left; exists f; (split; [exact Hin|]);
      apply elem_of_face_vertices; auto.
  - constructor.
Qed.

Lemma CreateStrips_indices_are_vertices_witness :
  let strips := [[NvFaceInfo.new 0 1 2; NvFaceInfo.new 2 1 3]; [NvFaceInfo.new 4 5 6]] in
  exists stripIndices n,
    CreateStrips strips false = Ok (stripIndices, n) /\
    Forall (fun x => (exists f, f ∈ concat strips /\ x ∈ face_vertices f) \/
                     (false = false /\ x = -1)) stripIndices.
Proof.
  intros strips. eexists _, _. split; [vm_compute; reflexivity|].
  eapply (CreateStrips_indices_are_vertices strips false).
  vm_compute. reflexivity.
Defined.

Lemma copy_indices_take (n : nat) (stripIndices : list Z) :
  forall (i : Z) (out : list Z),
    0 <= i ->
    copy_indices n stripIndices i = Ok out ->
    out = map wrap_size (take n (drop (Z.to_nat i) stripIndices)).
Proof.
  induction n as [|n IH]; intros i out Hi H; cbn [copy_indices] in H.
  - now injection H as <-.
  - res_open H as x. res_open H as more. injection H as <-.
    apply vec_at_Ok in E as [_ E].
    apply IH in E0; [|lia]. subst more.
    replace (Z.to_nat (i + 1)) with (S (Z.to_nat i)) by lia.
    rewrite (drop_S _ _ _ E). reflexivity.
Qed.

Lemma run_length_take (l : list Z) :
  0 <= run_length l /\
  Forall (fun x => x <> -1) (take (Z.to_nat (run_length l)) l).
Proof.
  induction l as [|x l [IH0 IH]]; cbn [run_length].
  - split; [lia | constructor].
  - destruct (Z.eqb_spec x (-1)) as [Hx|Hx]; [split; [lia | constructor]|].
    split; [lia|].
    replace (Z.to_nat (1 + run_length l)) with (S (Z.to_nat (run_length l))) by lia.
    cbn [take]. now constructor.
Qed.

Lemma strip_groups_known (P : Z -> Prop) (bStitchStrips : bool)
  (stripIndices : list Z) (n : nat) :
  Forall (fun x => P x \/ (bStitchStrips = false /\ x = -1)) stripIndices ->
  forall (startingLoc : Z) (groups : list PrimitiveGroup.t),
    0 <= startingLoc ->
    strip_groups n bStitchStrips stripIndices startingLoc = Ok groups ->
    Forall (fun g => Forall (fun x => exists y, P y /\ x = wrap_size y)
                            (PrimitiveGroup.indices g)) groups.
Proof.
  intros Hall. induction n as [|n IH]; intros startingLoc groups Hs H;
    cbn [strip_groups] in H.
  - injection H as <-. constructor.
  - cbv zeta in H. res_open H as idx. res_open H as more. injection H as <-.
    apply copy_indices_take in E; [|exact Hs].
    destruct (run_length_take (drop (Z.to_nat startingLoc) stripIndices)) as [Hr0 Hrun].
    constructor.
    + cbn [PrimitiveGroup.indices]. subst idx. apply Forall_fmap, Forall_forall.
      intros y Hy. exists y. split; [|reflexivity].
      assert (Hin : y ∈ stripIndices).
      { apply (subseteq_drop (Z.to_nat startingLoc)). eapply subseteq_take. exact Hy. }
      rewrite Forall_forall in Hall. destruct (Hall y Hin) as [Hp|[Hb ->]]; [exact Hp|].
      exfalso. rewrite Hb in Hy. cbn [negb] in Hy.
      rewrite Forall_forall in Hrun. now apply (Hrun (-1) Hy).
    + eapply IH; [|exact E0].
      destruct (negb bStitchStrips); unfold vec_size in *; lia.
Qed.

Lemma heap_known_face (P : Z -> Prop) (h : Heap) (p : nat) (f : NvFaceInfo.t) :
  heap_known P h -> faces h !! p = Some f -> vertices_in P f.
Proof.
  intros [Hf _] Hp. rewrite Forall_forall in Hf. apply Hf.
  eapply list_elem_of_lookup_2. exact Hp.
Qed.

Lemma heap_known_edge (P : Z -> Prop) (h : Heap) (p : nat) (e : NvEdgeInfo.t) :
  heap_known P h -> edge_at h p = Ok e ->
  P (NvEdgeInfo.m_v0 e) /\ P (NvEdgeInfo.m_v1 e).
Proof.
  intros [_ He] Hp. unfold edge_at in Hp.
  destruct (edges h !! p) as [e'|] eqn:Hl; [|discriminate]. injection Hp as ->.
  rewrite Forall_forall in He. apply He. eapply list_elem_of_lookup_2. exact Hl.
Qed.

Lemma MarkTriangle_known (P : Z -> Prop) (s : NvStripInfo.t) (h h' : Heap) (p : nat) :
  NvStripInfo.MarkTriangle s h p = Ok h' -> heap_known P h -> heap_known P h'.
Proof.
  unfold NvStripInfo.MarkTriangle. intros H Hk. res_open H as f. injection H as <-.
  unfold face_at in E. destruct (faces h !! p) as [f'|] eqn:Hp; [|discriminate].
  injection E as ->. pose proof (heap_known_face P h p f Hk Hp) as Hf.
  destruct Hk as [Hfs Hes]. split; [|exact Hes]. cbn [set_face faces].
  apply Forall_insert; [exact Hfs|].
  destruct (NvStripInfo.IsExperiment s); exact Hf.
Qed.

Lemma GetNextIndex_vertex (indices : list Z) (face : NvFaceInfo.t) (v : Z) :
  GetNextIndex indices face = Ok v -> v ∈ face_vertices face.
Proof.
  unfold GetNextIndex. intros H. res_open H as v0. res_open H as v1.
  rewrite elem_of_face_vertices.
  repeat match type of H with
         | (if ?c then _ else _) = _ =>
             let Hc := fresh "Hc" in destruct c eqn:Hc; [injection H as <-; auto|]
         end.
  exfalso.
  rewrite ?andb_false_iff, ?orb_false_iff, ?negb_false_iff, ?Z.eqb_eq, ?Z.eqb_neq in *.
  lia.
Qed.

Lemma Build_swap_known (P : Z -> Prop) (s : NvStripInfo.t)
  (edgeInfos : NvEdgeInfoVec) (x x' : NvStripInfo.Extension)
  (nv0 nv1 testnv1 z : Z) (nf : nat) (deadEnd : bool) :
  NvStripInfo.Build_swap s edgeInfos x nv0 nv1 testnv1 nf deadEnd = Ok (x', z) ->
  heap_known P (NvStripInfo.x_heap x) -> P nv0 -> P nv1 ->
  heap_known P (NvStripInfo.x_heap x') /\ P z.
Proof.
  intros H Hk H0 H1. unfold NvStripInfo.Build_swap in H.
  destruct deadEnd; [|injection H as <- <-; auto].
  res_open H as testNextFace. res_open H as blocked.
  destruct blocked; cbn [negb] in H; [injection H as <- <-; auto|].
  cbn [new_face] in H. res_open H as h2. injection H as <- <-.
  cbn [NvStripInfo.x_heap]. split; [|exact H0].
  eapply MarkTriangle_known; [exact E1|].
  destruct Hk as [Hfs Hes]. split; [|exact Hes]. cbn [faces].
  apply Forall_app. split; [exact Hfs|]. constructor; [|constructor].
  unfold vertices_in. cbn. auto.
Qed.

Lemma Build_extend_known (P : Z -> Prop) (fuel : nat) (backward : bool)
  (s : NvStripInfo.t) (edgeInfos : NvEdgeInfoVec) :
  forall (x x' : NvStripInfo.Extension) (nv0 nv1 : Z) (nextFace : option nat),
    NvStripInfo.Build_extend fuel backward s edgeInfos x nv0 nv1 nextFace = Ok x' ->
    heap_known P (NvStripInfo.x_heap x) -> P nv0 -> P nv1 ->
    heap_known P (NvStripInfo.x_heap x').
Proof.
  induction fuel as [|fuel IH]; intros x x' nv0 nv1 [nf|] H Hk H0 H1;
    cbn [NvStripInfo.Build_extend] in H; try (now injection H as <-).
  - res_open H as f. destruct (NvStripInfo.IsMarked s f); [|discriminate].
    now injection H as <-.
  - res_open H as f. destruct (NvStripInfo.IsMarked s f); [now injection H as <-|].
    res_open H as uniq. destruct uniq; cbn [negb] in H; [|now injection H as <-].
    res_open H as testnv1. res_open H as nextNextFace. res_open H as deadEnd.
    res_open H as [x1 testnv0]. res_open H as h3. res_open H as nextFace'.
    unfold face_at in E.
    destruct (faces (NvStripInfo.x_heap x) !! nf) as [f0|] eqn:Hnf; [|discriminate].
    injection E as ->.
    destruct (heap_known_face P _ _ _ Hk Hnf) as (F0 & F1 & F2).
    assert (Ht1 : P testnv1).
    { apply GetNextIndex_vertex, elem_of_face_vertices in E1 as [->|[->| ->]];
        assumption. }
    destruct (Build_swap_known P _ _ _ _ _ _ _ _ _ _ E4 Hk H0 H1) as [Hk1 Ht0].
    eapply IH; [exact H| |exact Ht0|exact Ht1].
    cbn [NvStripInfo.x_heap]. eapply MarkTriangle_known; eassumption.
Qed.

Lemma Build_known (P : Z -> Prop) (s s' : NvStripInfo.t) (h h' : Heap)
  (edgeInfos : NvEdgeInfoVec) :
  NvStripInfo.Build s h edgeInfos = Ok (h', s') ->
  heap_known P h -> heap_known P h'.
Proof.
  intros H Hk. unfold NvStripInfo.Build in H.
  res_open H as startFace. res_open H as startEdge. res_open H as h1.
  res_open H as f. res_open H as v2. res_open H as nextFace.
  res_open H as fwd. res_open H as nextFace2. res_open H as bwd.
  injection H as <- _.
  assert (Hse : P (NvEdgeInfo.m_v0 startEdge) /\ P (NvEdgeInfo.m_v1 startEdge)).
  { destruct (NvStripStartInfo.m_startEdge (NvStripInfo.m_startInfo s)) as [ep|];
      cbn [from_option] in E0; [|discriminate].
    eapply heap_known_edge; eassumption. }
  destruct Hse as [S0 S1].
  pose proof (MarkTriangle_known P _ _ _ _ E1 Hk) as Hk1.
  unfold face_at in E2. destruct (faces h1 !! startFace) as [f'|] eqn:Hsf; [|discriminate].
  injection E2 as ->. destruct (heap_known_face P _ _ _ Hk1 Hsf) as (F0 & F1 & F2).
  assert (Hv2 : P v2).
  { apply GetNextIndex_vertex, elem_of_face_vertices in E3 as [->|[->| ->]];
      assumption. }
  assert (Hv01 : P (if NvStripStartInfo.m_toV1 (NvStripInfo.m_startInfo s)
                   then NvEdgeInfo.m_v0 startEdge else NvEdgeInfo.m_v1 startEdge) /\
                 P (if NvStripStartInfo.m_toV1 (NvStripInfo.m_startInfo s)
                   then NvEdgeInfo.m_v1 startEdge else NvEdgeInfo.m_v0 startEdge)).
  { destruct (NvStripStartInfo.m_toV1 _); auto. }
  destruct Hv01 as [Hv0 Hv1].
  apply (Build_extend_known P) in E5; [|exact Hk1 | exact Hv1 | exact Hv2].
  apply (Build_extend_known P) in E7; [exact E7 | exact E5 | exact Hv1 | exact Hv0].
Qed.

Lemma FindAllStrips_chain_known (P : Z -> Prop) (fuel : nat)
  (edgeInfos : NvEdgeInfoVec) (e : Z) :
  forall h stripIter startInfo stripId experiment h' experiment' stripId',
    FindAllStrips_chain fuel h edgeInfos stripIter startInfo e stripId experiment
    = Ok (h', experiment', stripId') ->
    heap_known P h -> heap_known P h'.
Proof.
  induction fuel as [|fuel IH];
    intros h stripIter startInfo sid ex h' ex' sid' H Hk;
    cbn [FindAllStrips_chain] in H; res_open H as [found startInfo'];
    destruct found; try discriminate; try (now injection H as <- _ _).
  res_open H as [h1 built]. eapply IH; [exact H|].
  eapply Build_known; eassumption.
Qed.

Lemma FindAllStrips_build_known (P : Z -> Prop) (edgeInfos : NvEdgeInfoVec)
  (todo : list NvStripInfoVec) :
  forall h stripId h' built stripId',
    FindAllStrips_build h edgeInfos todo stripId = Ok (h', built, stripId') ->
    heap_known P h -> heap_known P h'.
Proof.
  induction todo as [|experiment rest IH]; intros h sid h' built sid' H Hk;
    cbn [FindAllStrips_build] in H.
  - now injection H as <- _ _.
  - res_open H as first. res_open H as [h1 built1].
    res_open H as [[h2 ex'] sid1]. res_open H as [[h3 rest'] sid2].
    injection H as <- _ _.
    eapply IH; [exact E2|]. eapply FindAllStrips_chain_known; [exact E1|].
    eapply Build_known; eassumption.
Qed.

Lemma mark_faces_known (P : Z -> Prop) (s : NvStripInfo.t) (fs : NvFaceInfoVec) :
  forall h h', mark_faces s h fs = Ok h' -> heap_known P h -> heap_known P h'.
Proof.
  induction fs as [|p fs IH]; intros h h' H Hk; cbn [mark_faces] in H.
  - now injection H as <-.
  - res_open H as h1. eapply IH; [exact H|]. eapply MarkTriangle_known; eassumption.
Qed.

Lemma CommitStrips_known (P : Z -> Prop) (strips : NvStripInfoVec) :
  forall h allStrips h' allStrips',
    CommitStrips h allStrips strips = Ok (h', allStrips') ->
    heap_known P h -> heap_known P h'.
Proof.
  induction strips as [|s strips IH]; intros h allStrips h' allStrips' H Hk;
    cbn [CommitStrips] in H.
  - now injection H as <- _.
  - res_open H as h1. eapply IH; [exact H|]. eapply mark_faces_known; eassumption.
Qed.

Lemma FindAllStrips_loop_known (P : Z -> Prop) (fuel : nat) (t : Topology)
  (numSamples : Z) :
  forall r r',
    FindAllStrips_loop fuel t numSamples r = Ok r' ->
    heap_known P (sr_heap r) -> heap_known P (sr_heap r').
Proof.
  induction fuel as [|fuel IH]; intros r r' H Hk; [discriminate|].
  cbn [FindAllStrips_loop] in H. res_open H as [r1 done].
  assert (Hk1 : heap_known P (sr_heap r1)).
  { unfold FindAllStrips_round in E. res_open E as u.
    res_open E as [[h2 built] stripId]. res_open E as best.
    res_open E as [h4 allStrips]. injection E as <- _. cbn [sr_heap].
    eapply CommitStrips_known; [exact E3|].
    eapply FindAllStrips_build_known; eassumption. }
  destruct done; [now injection H as <-|]. eapply IH; eassumption.
Qed.

Lemma visit_edge_known (P : Z -> Prop) (h : Heap) (edgeInfos : NvEdgeInfoVec)
  (va vb : Z) (n : nat) (ev : EdgeVisit) :
  P (wrap_int va) -> P (wrap_int vb) ->
  visit_edge h edgeInfos va vb n = Ok ev ->
  heap_known P h -> heap_known P (ev_heap ev).
Proof.
  intros Ha Hb H Hk. unfold visit_edge in H. res_open H as edgeInfo.
  destruct edgeInfo as [p|].
  - res_open H as e0. destruct (heap_known_edge P _ _ _ Hk E0) as [E0a E0b].
    destruct (NvEdgeInfo.m_face1 e0); injection H as <-; cbn [ev_heap]; [exact Hk|].
    destruct Hk as [Hfs Hes]. split; [exact Hfs|]. cbn [set_edge edges].
    apply Forall_insert; [exact Hes|]. cbn. auto.
  - res_open H as nextV0. res_open H as nextV1. cbn [new_edge] in H.
    res_open H as edgeInfos1. res_open H as edgeInfos2. injection H as <-.
    cbn [ev_heap]. destruct Hk as [Hfs Hes]. split; [exact Hfs|]. cbn [edges].
    apply Forall_app. split; [exact Hes|]. constructor; [|constructor]. cbn. auto.
Qed.

Lemma reset_face1_known (P : Z -> Prop) (b : bool) (h h' : Heap) (p : nat) :
  (if b then reset_face1 h p else Ok h) = Ok h' ->
  heap_known P h -> heap_known P h'.
Proof.
  intros H Hk. destruct b; [|now injection H as <-].
  unfold reset_face1 in H. res_open H as e0. injection H as <-.
  destruct (heap_known_edge P _ _ _ Hk E) as [E0a E0b].
  destruct Hk as [Hfs Hes]. split; [exact Hfs|]. cbn [set_edge edges].
  apply Forall_insert; [exact Hes|]. cbn. auto.
Qed.

Lemma BuildStripifyInfo_triangle_known (P : Z -> Prop) (t t' : Topology)
  (v0 v1 v2 : Z) :
  P (wrap_int v0) -> P (wrap_int v1) -> P (wrap_int v2) ->
  BuildStripifyInfo_triangle t v0 v1 v2 = Ok t' ->
  heap_known P (heap t) -> heap_known P (heap t').
Proof.
  intros H0 H1 H2 H Hk. unfold BuildStripifyInfo_triangle in H.
  destruct (IsDegenerate3 v0 v1 v2); [now injection H as <-|].
  cbn [new_face] in H. res_open H as e01. res_open H as e12. res_open H as e20.
  assert (Hk0 : heap_known P
                  (mkHeap (faces (heap t) ++ [NvFaceInfo.new (wrap_int v0) (wrap_int v1)
                                                (wrap_int v2)]) (edges (heap t)))).
  { destruct Hk as [Hfs Hes]. split; [|exact Hes]. cbn [faces].
    apply Forall_app. split; [exact Hfs|]. constructor; [|constructor].
    unfold vertices_in. cbn. auto. }
  apply (visit_edge_known P) in E; [|assumption..].
  apply (visit_edge_known P) in E0; [|assumption..].
  apply (visit_edge_known P) in E1; [|assumption..].
  destruct (ev_found e01 && ev_found e12 && ev_found e20).
  2:{ now injection H as <-. }
  res_open H as dup. destruct dup; cbn [negb] in H.
  2:{ now injection H as <-. }
  res_open H as h1. res_open H as h2. res_open H as h3. injection H as <-.
  cbn [heap].
  eapply reset_face1_known; [exact E5|].
  eapply reset_face1_known; [exact E4|].
  eapply reset_face1_known; [exact E3|]. exact E1.
Qed.

Lemma BuildStripifyInfo_loop_known (P : Z -> Prop) (indices : list Z) :
  (forall v, v ∈ indices -> P (wrap_int v)) ->
  forall (numTriangles : nat) (index : Z) (t t' : Topology),
    BuildStripifyInfo_loop numTriangles index indices t = Ok t' ->
    heap_known P (heap t) -> heap_known P (heap t').
Proof.
  intros HP. induction numTriangles as [|n IH]; intros index t t' H Hk;
    cbn [BuildStripifyInfo_loop] in H.
  - now injection H as <-.
  - res_open H as v0. res_open H as v1. res_open H as v2. res_open H as t1.
    apply vec_at_Ok in E as [_ E]. apply vec_at_Ok in E0 as [_ E0].
    apply vec_at_Ok in E1 as [_ E1].
    apply list_elem_of_lookup_2, HP in E, E0, E1.
    eapply IH; [exact H|].
    exact (BuildStripifyInfo_triangle_known P t t1 v0 v1 v2 E E0 E1 E2 Hk).
Qed.

(** Every vertex of a face or of an edge that [Stripify] leaves behind is
    one of the indices that it was given. *)
Lemma Stripify_known (P : Z -> Prop) (in_indices : list Z)
  (in_cacheSize in_minStripLength maxIndex : Z) (sf : Stripified) :
  (forall v, v ∈ in_indices -> P (wrap_int v)) ->
  Stripify in_indices in_cacheSize in_minStripLength maxIndex = Ok sf ->
  heap_known P (sf_heap sf).
Proof.
  intros HP H. unfold Stripify in H. cbv zeta in H.
  res_open H as t. res_open H as r. res_open H as o. injection H as <-.
  cbn [sf_heap]. unfold FindAllStrips in E0.
  eapply FindAllStrips_loop_known; [exact E0|]. cbn [sr_heap].
  unfold BuildStripifyInfo in E. cbv zeta in E.
  eapply BuildStripifyInfo_loop_known; [exact HP | exact E|].
  split; constructor.
Qed.

Lemma deref_faces_known (P : Z -> Prop) (h : Heap) (ps : NvFaceInfoVec)
  (fs : list NvFaceInfo.t) :
  heap_known P h -> NvStripInfo.deref_faces h ps = Ok fs ->
  Forall (vertices_in P) fs.
Proof.
  intros Hk H. apply deref_faces_lookup in H.
  induction H as [|p f ps fs Hp _ IH]; constructor; [|exact IH].
  eapply heap_known_face; eassumption.
Qed.

Lemma deref_strips_known (P : Z -> Prop) (h : Heap) (strips : NvStripInfoVec) :
  heap_known P h ->
  forall tss, deref_strips h strips = Ok tss -> Forall (Forall (vertices_in P)) tss.
Proof.
  intros Hk. induction strips as [|s strips IH]; intros tss H; cbn [deref_strips] in H.
  - injection H as <-. constructor.
  - res_open H as fs. res_open H as more. injection H as <-.
    constructor; [eapply deref_faces_known; eassumption | now apply IH].
Qed.

Lemma list_indices_known (P : Z -> Prop) (fs : list NvFaceInfo.t) :
  Forall (vertices_in P) fs ->
  Forall (fun x => exists y, P y /\ x = wrap_size y) (list_indices fs).
Proof.
  unfold list_indices. induction 1 as [|f fs (F0 & F1 & F2) _ IH]; [constructor|].
  cbn [map concat face_indices app]. repeat (constructor; [eauto|]). exact IH.
Qed.

(** X23.  [GenerateStrips] returns no index that it was not given: every
    index of every group that it returns, STRIP or LIST, with or without
    stitching, is one of the input indices.  Proved for input indices
    below 2^31. *)
Theorem GenerateStrips_indices_from_input (cfg : Config) (in_indices : list Z)
  (primGroups : list PrimitiveGroup.t) :
  Forall (fun v => 0 <= v < 2 ^ 31) in_indices ->
  GenerateStrips cfg in_indices = Ok primGroups ->
  Forall (fun g => Forall (fun x => x ∈ in_indices) (PrimitiveGroup.indices g))
         primGroups.
Proof.
  intros Hrange H. unfold GenerateStrips in H. cbv zeta in H.
  res_open H as sf. res_open H as tempStrips. res_open H as tempFaces.
  set (P := fun x : Z => x ∈ in_indices).
  assert (HP : forall v, v ∈ in_indices -> P (wrap_int v)).
  { intros v Hv. unfold P. rewrite wrap_int_small; [exact Hv|].
    rewrite Forall_forall in Hrange. now apply Hrange. }
  assert (Hout : forall l, Forall (fun x => exists y, P y /\ x = wrap_size y) l ->
                           Forall (fun x => x ∈ in_indices) l).
  { intros l Hl. eapply Forall_impl; [exact Hl|]. cbn beta. intros x (y & Hy & ->).
    rewrite wrap_size_small; [exact Hy|]. rewrite Forall_forall in Hrange.
    now apply Hrange. }
  pose proof (Stripify_known P _ _ _ _ _ HP E) as Hk.
  pose proof (deref_strips_known P _ _ Hk _ E0) as Hstrips.
  pose proof (deref_faces_known P _ _ _ Hk E1) as Hfaces.
  destruct (bListsOnly cfg).
  - injection H as <-. constructor; [|constructor]. cbn [PrimitiveGroup.indices].
    apply Hout, Forall_app. split; apply list_indices_known; [|exact Hfaces].
    apply Forall_forall. intros f Hf.
    apply list_elem_of_In, filter_In in Hf as [Hf _].
    apply in_concat in Hf as (fs & Hfs & Hf). apply list_elem_of_In in Hfs, Hf.
    rewrite Forall_forall in Hstrips. specialize (Hstrips fs Hfs).
    rewrite Forall_forall in Hstrips. now apply Hstrips.
  - res_open H as [stripIndices numSeparateStrips]. res_open H as groups.
    assert (Hgroups : Forall (fun g => Forall (fun x => x ∈ in_indices)
                                              (PrimitiveGroup.indices g)) groups).
    { eapply Forall_impl.
      - eapply (strip_groups_known P); [| |exact E3]; [|lia].
        unfold CreateStrips in E2. cbv zeta in E2. res_open E2 as e.
        injection E2 as <- _.
        eapply (CreateStrips_loop_known _ (bStitchStrips cfg)); [| | |exact E4].
        + intros Hb. now right.
        + eapply Forall_impl; [exact Hstrips|]. intros fs Hfs.
          eapply Forall_impl; [exact Hfs|]. intros f (F0 & F1 & F2).
          unfold vertices_in. auto.
        + constructor.
      - intros g Hg. cbn beta in Hg. now apply Hout. }
    destruct (negb (vec_size tempFaces =? 0)); injection H as <-; [|exact Hgroups].
    apply Forall_app. split; [exact Hgroups|]. constructor; [|constructor].
    cbn [PrimitiveGroup.indices]. now apply Hout, list_indices_known.
Qed.

Lemma GenerateStrips_indices_from_input_witness :
  let in_indices := [7; 1; 2; 2; 1; 3; 2; 3; 4; 4; 3; 5; 9; 9; 1] in
  exists primGroups,
    GenerateStrips default_config in_indices = Ok primGroups /\
    Forall (fun g => Forall (fun x => x ∈ in_indices) (PrimitiveGroup.indices g))
           primGroups.
Proof.
  intros in_indices. eexists. split; [vm_compute; reflexivity|].
  apply (GenerateStrips_indices_from_input default_config in_indices).
  - repeat (apply Forall_cons; split; [lia|]). apply Forall_nil_2.
  - vm_compute. reflexivity.
Defined.
